(** * MoarVM: callsite interning, the spesh optimizer and heap snapshots

    A shallow embedding of [src/core/callsite.c], [src/spesh/optimize.c]
    and [src/profiler/heapsnapshot.c].

    Conventions of the embedding.
    - C integers are [Z]; where the source narrows a value (a return type of
      [MVMint16], a local of type [MVMuint8]) the wrap-around is written out.
    - A pointer is an address ([Z]); the objects it may point to live in a
      finite map from addresses to contents.  [NULL] is [None].
    - A function returns [None] where the C code has no defined behaviour
      (a [NULL] or dangling pointer is dereferenced, an array is read past
      its end, a pointer or a floating-point number is read from a union
      that was stored through another member).
    - The [value] union of the spesh facts is eight bytes (an LP64 target);
      its integer members are read from those bytes, in the byte order of
      the target.
    - VM services that [moar.h] declares and that are defined elsewhere
      (method cache, type-check cache, representation hooks, the inliner, the
      op table) are fields of the class [VM]; the constants and struct sizes
      of [heapsnapshot.h] are fields of the class [ABI]. *)

From Stdlib Require Import ZArith Lia Bool List.
From Stdlib Require Import Floats.SpecFloat.
From Stdlib Require String.
From stdpp Require Import base option list gmap fin_maps.

Local Open Scope Z_scope.

(** Addresses. *)
Definition ptr := Z.

(** An [MVMString *]; strings are compared by the VM's [MVM_string_equal]. *)
Definition MVMString := ptr.

(* ===================================================================== *)
(** * Callsite interning ([src/core/callsite.c])                          *)
(* ===================================================================== *)

Module Callsite.

(** [struct MVMCallsite], the fields the interner reads and writes.
    [arg_flags] is the array of [MVMCallsiteEntry] bytes, [arg_names] the
    (possibly [NULL]) array of names of the named arguments. *)
Record MVMCallsite : Type := mkCallsite {
  arg_flags      : list Z;
  arg_count      : Z;
  num_pos        : Z;
  has_flattening : bool;
  is_interned    : bool;
  arg_names      : option (list MVMString)
}.

(** [tc->instance->callsite_interns]: [by_arity[n]] is the array of interned
    callsite pointers with [n] flags, [num_by_arity[n]] its length.  The
    capacity of each array (grown by 8) is storage management and is not
    part of the model. *)
Record MVMCallsiteInterns : Type := mkInterns {
  by_arity : gmap Z (list ptr)
}.

(** The memory holding callsites, and the intern store. *)
Record state : Type := mkState {
  heap    : gmap ptr MVMCallsite;
  interns : MVMCallsiteInterns
}.

Definition bucket (st : state) (n : Z) : list ptr :=
  default [] (by_arity (interns st) !! n).

Definition num_by_arity (st : state) (n : Z) : Z :=
  Z.of_nat (length (bucket st n)).

(** [num_nameds] and [num_flags] as [MVM_callsite_try_intern] computes them
    (C division truncates towards zero). *)
Definition cs_num_nameds (cs : MVMCallsite) : Z :=
  Z.quot (arg_count cs - num_pos cs) 2.

Definition cs_num_flags (cs : MVMCallsite) : Z :=
  num_pos cs + cs_num_nameds cs.

Section Interner.

(** [MVM_string_equal], the VM's string comparison. *)
Variable MVM_string_equal : MVMString -> MVMString -> bool.

(** [MVM_INTERN_ARITY_LIMIT]. *)
Variable MVM_INTERN_ARITY_LIMIT : Z.

(** [memcmp(a, b, n) != 0] on two byte arrays; reading past the end of
    either array has no defined result. *)
Definition memcmp_differs (a b : list Z) (n : Z) : option bool :=
  let k := Z.to_nat n in
  if decide (k <= length a /\ k <= length b)%nat
  then Some (bool_decide (take k a <> take k b))
  else None.

(** The loop [for (i = 0; i < num_nameds; i++)] of [callsites_equal], from
    index [i] with [todo] iterations left. *)
Fixpoint names_equal_from (names1 names2 : option (list MVMString))
    (i todo : nat) : option bool :=
  match todo with
  | O => Some true
  | S todo' =>
      n1 ← names1; n2 ← names2;
      s1 ← n1 !! i; s2 ← n2 !! i;
      if MVM_string_equal s1 s2
      then names_equal_from names1 names2 (S i) todo'
      else Some false
  end.

(** [callsites_equal]. *)
Definition callsites_equal (cs1 cs2 : MVMCallsite)
    (num_flags num_nameds : Z) : option bool :=
  d ← memcmp_differs (arg_flags cs1) (arg_flags cs2) num_flags;
  if (d : bool) then Some false
  else names_equal_from (arg_names cs1) (arg_names cs2) 0 (Z.to_nat num_nameds).

(** The search loop of [MVM_callsite_try_intern] over
    [by_arity[num_flags]]: the first interned pointer equal to [cs]. *)
Fixpoint search (h : gmap ptr MVMCallsite) (bkt : list ptr) (cs : MVMCallsite)
    (num_flags num_nameds : Z) : option (option ptr) :=
  match bkt with
  | [] => Some None
  | q :: bkt' =>
      c ← h !! q;
      e ← callsites_equal c cs num_flags num_nameds;
      if (e : bool) then Some (Some q)
      else search h bkt' cs num_flags num_nameds
  end.

Definition set_interned (cs : MVMCallsite) : MVMCallsite :=
  mkCallsite (arg_flags cs) (arg_count cs) (num_pos cs)
             (has_flattening cs) true (arg_names cs).

(** [MVM_callsite_try_intern(tc, cs_ptr)]: the new state and the new value
    of [*cs_ptr].  On a match the callsite passed in is freed; otherwise it
    is appended to its arity's array and marked interned. *)
Definition MVM_callsite_try_intern (st : state) (p : ptr)
    : option (state * ptr) :=
  cs ← heap st !! p;
  let num_nameds := cs_num_nameds cs in
  let num_flags  := cs_num_flags cs in
  if has_flattening cs then Some (st, p)
  else if (0 <? num_nameds) && negb (bool_decide (is_Some (arg_names cs)))
  then Some (st, p)
  else if MVM_INTERN_ARITY_LIMIT <=? num_flags then Some (st, p)
  else
    found ← search (heap st) (bucket st num_flags) cs num_flags num_nameds;
    match found with
    | Some q =>
        Some (mkState (delete p (heap st)) (interns st), q)
    | None =>
        Some (mkState (<[p := set_interned cs]> (heap st))
                (mkInterns (<[num_flags := bucket st num_flags ++ [p]]>
                              (by_arity (interns st)))),
              p)
    end.

(** A sequence of calls; each call is given the address of the callsite the
    caller owns. *)
Fixpoint try_intern_all (st : state) (ps : list ptr) : option state :=
  match ps with
  | [] => Some st
  | p :: ps' =>
      r ← MVM_callsite_try_intern st p;
      try_intern_all r.1 ps'
  end.

(** The start of the VM: no callsite is interned yet. *)
Definition initial (h : gmap ptr MVMCallsite) : state :=
  mkState h (mkInterns ∅).

(** [names_differ a b]: a name that [callsites_equal a b] compares, one of
    the first [num_nameds] names of [b], is not [MVM_string_equal] to the
    name of [a] at the same index. *)
Definition names_differ (a b : MVMCallsite) : Prop :=
  exists (i : nat) na nb s1 s2,
    Z.of_nat i < cs_num_nameds b /\
    arg_names a = Some na /\ arg_names b = Some nb /\
    na !! i = Some s1 /\ nb !! i = Some s2 /\
    MVM_string_equal s1 s2 = false.

(** A flag byte among the first [num_flags] differs. *)
Definition flags_differ (a b : MVMCallsite) : Prop :=
  exists (i : nat), (Z.of_nat i < cs_num_flags a) /\
    arg_flags a !! i <> arg_flags b !! i.

(** Two callsites differ in arity, in a flag byte among the first
    [num_flags], or in a named-argument name, compared in either order. *)
Definition callsites_differ (a b : MVMCallsite) : Prop :=
  cs_num_flags a <> cs_num_flags b \/ flags_differ a b \/
  names_differ a b \/ names_differ b a.

(** ** Properties of the intern store *)

(** Callsites that agree on everything but [is_interned]. *)
Definition same_shape (a b : MVMCallsite) : Prop :=
  arg_flags a = arg_flags b /\ arg_count a = arg_count b /\
  num_pos a = num_pos b /\ arg_names a = arg_names b.

(** The invariant of the intern store: every pointer in the array of arity
    [n] has [n] flags, and an entry of an array is not [callsites_equal] to
    an earlier entry, compared as [MVM_callsite_try_intern] compares them
    (the earlier entry first, with the counts of the later one). *)
Definition interns_inv (st : state) : Prop :=
  (forall n bkt q c,
      by_arity (interns st) !! n = Some bkt -> q ∈ bkt ->
      heap st !! q = Some c -> cs_num_flags c = n) /\
  (forall n bkt (i j : nat) p q a b,
      by_arity (interns st) !! n = Some bkt -> (i < j)%nat ->
      bkt !! i = Some p -> bkt !! j = Some q ->
      heap st !! p = Some a -> heap st !! q = Some b ->
      callsites_equal a b n (cs_num_nameds b) = Some false).

(** The callsites [MVM_callsite_try_intern] does not return early on. *)
Definition internable (cs : MVMCallsite) : Prop :=
  has_flattening cs = false /\
  (0 < cs_num_nameds cs -> is_Some (arg_names cs)) /\
  cs_num_flags cs < MVM_INTERN_ARITY_LIMIT.

(** The names [callsites_equal] reads of a callsite with [n] named
    arguments. *)
Definition compared_names (cs : MVMCallsite) (n : Z) : list MVMString :=
  take (Z.to_nat n) (default [] (arg_names cs)).

(** A callsite whose arrays hold what [num_flags] and [num_nameds] say:
    [arg_flags] has [num_flags] entries, and [arg_names] has [num_nameds]
    entries. *)
Definition arrays_ok (cs : MVMCallsite) : Prop :=
  (Z.to_nat (cs_num_flags cs) <= length (arg_flags cs))%nat /\
  (Z.to_nat (cs_num_nameds cs) <= length (default [] (arg_names cs)))%nat.

(** What holds of every entry of the intern store. *)
Definition entries_ok (st : state) : Prop :=
  forall n p c, p ∈ bucket st n -> heap st !! p = Some c ->
    is_interned c = true /\ internable c /\ cs_num_flags c = n.

(** ** The common callsites *)

(** [MVM_CALLSITE_ARG_OBJ]. *)
Variable MVM_CALLSITE_ARG_OBJ : Z.

(** [MVMCommonCallsiteID]; [MVM_CALLSITE_ID_other] stands for every value
    but [MVM_CALLSITE_ID_INV_ARG]. *)
Inductive MVMCommonCallsiteID : Type :=
| MVM_CALLSITE_ID_INV_ARG
| MVM_CALLSITE_ID_other (id : Z).

(** The static [inv_arg_callsite = { obj_arg_flags, 1, 1, 0, 0, 0, 0 }]. *)
Definition inv_arg_callsite : MVMCallsite :=
  mkCallsite [MVM_CALLSITE_ARG_OBJ] 1 1 false false None.

(** The callsite memory and intern store together with the static pointer
    variable [callsite_inv_arg]. *)
Record statics : Type := mkStatics {
  cs_state         : state;
  callsite_inv_arg : ptr
}.

(** The statics when the program starts: [inv_arg_callsite] lives at the
    address [a], [callsite_inv_arg] points to it, and nothing is
    interned. *)
Definition statics_at_start (a : ptr) (h : gmap ptr MVMCallsite) : statics :=
  mkStatics (initial (<[a := inv_arg_callsite]> h)) a.

(** [MVM_callsite_get_common]; [None] when the function throws. *)
Definition MVM_callsite_get_common (s : statics) (id : MVMCommonCallsiteID)
    : option ptr :=
  match id with
  | MVM_CALLSITE_ID_INV_ARG => Some (callsite_inv_arg s)
  | MVM_CALLSITE_ID_other _ => None
  end.

(** [MVM_callsite_initialize_common]: the call
    [MVM_callsite_try_intern(tc, &callsite_inv_arg)]. *)
Definition MVM_callsite_initialize_common (s : statics) : option statics :=
  r ← MVM_callsite_try_intern (cs_state s) (callsite_inv_arg s);
  Some (mkStatics r.1 r.2).

End Interner.

End Callsite.


(* ===================================================================== *)
(** * The spesh graph ([src/spesh/optimize.c])                            *)
(* ===================================================================== *)

Module Spesh.

(** A non-null [MVMObject *] (also used for [MVMCollectable *] and
    [MVMCode *]), an [MVMSTable *], an [MVMSpeshBB *], an [MVMSpeshIns *]. *)
Definition MVMObject := ptr.
Definition MVMSTable := ptr.
Definition bbptr := ptr.
Definition insptr := ptr.

(** An [MVMnum64]: an IEEE 754 binary64 number. *)
Definition MVMnum64 := spec_float.

(** [(MVMnum64)v] for an [MVMint64] [v]. *)
Definition num64_of_int64 (v : Z) : MVMnum64 :=
  binary_normalize 53 1024 v 0 false.

(** [x != 0.0]. *)
Definition num64_nonzero (x : MVMnum64) : bool :=
  negb (SFeqb x (S754_zero false)).

(** Conversion to [MVMint16], [MVMuint16], [MVMuint8] and [MVMint64]. *)
Definition to_int16 (z : Z) : Z := (z + 32768) mod 65536 - 32768.
Definition to_uint16 (z : Z) : Z := z mod 65536.
Definition to_uint8 (z : Z) : Z := z mod 256.
Definition to_int64 (z : Z) : Z := (z + 2 ^ 63) mod 2 ^ 64 - 2 ^ 63.

(** The eight bytes of an [MVMnum64], read as an unsigned 64-bit number:
    the sign in bit 63, the biased exponent in bits 52..62, the fraction
    below.  A finite number [m * 2^e] is normal when [2^52 <= m] (biased
    exponent [e + 1075], the leading bit of [m] dropped) and subnormal
    otherwise.  [spec_float] has one NaN, which is taken to be the quiet NaN
    without payload. *)
Definition num64_bits (x : MVMnum64) : Z :=
  match x with
  | S754_zero s => if s then 2 ^ 63 else 0
  | S754_infinity s => (if s then 2 ^ 63 else 0) + 2047 * 2 ^ 52
  | S754_nan => 2047 * 2 ^ 52 + 2 ^ 51
  | S754_finite s m e =>
      (if s then 2 ^ 63 else 0) +
      (if Z.pos m <? 2 ^ 52 then Z.pos m
       else (e + 1075) * 2 ^ 52 + (Z.pos m - 2 ^ 52))
  end.

(** The opcodes [optimize.c] names; [MVM_OP_other] stands for every other
    opcode of the op table. *)
Inductive Opcode : Type :=
| MVM_OP_set | MVM_OP_goto
| MVM_OP_if_i | MVM_OP_unless_i | MVM_OP_if_n | MVM_OP_unless_n
| MVM_OP_if_s | MVM_OP_unless_s | MVM_OP_if_o | MVM_OP_unless_o
| MVM_OP_ifnonnull
| MVM_OP_prepargs
| MVM_OP_arg_i | MVM_OP_arg_n | MVM_OP_arg_s | MVM_OP_arg_o
| MVM_OP_argconst_i | MVM_OP_argconst_n | MVM_OP_argconst_s
| MVM_OP_coerce_in
| MVM_OP_invoke_v | MVM_OP_invoke_i | MVM_OP_invoke_n | MVM_OP_invoke_s
| MVM_OP_invoke_o
| MVM_OP_islist | MVM_OP_ishash | MVM_OP_isint | MVM_OP_isnum | MVM_OP_isstr
| MVM_OP_isnonnull
| MVM_OP_findmeth | MVM_OP_can | MVM_OP_can_s | MVM_OP_create
| MVM_OP_isconcrete | MVM_OP_istype
| MVM_OP_bindattr_i | MVM_OP_bindattr_n | MVM_OP_bindattr_s | MVM_OP_bindattr_o
| MVM_OP_bindattrs_i | MVM_OP_bindattrs_n | MVM_OP_bindattrs_s
| MVM_OP_bindattrs_o
| MVM_OP_getattr_i | MVM_OP_getattr_n | MVM_OP_getattr_s | MVM_OP_getattr_o
| MVM_OP_getattrs_i | MVM_OP_getattrs_n | MVM_OP_getattrs_s | MVM_OP_getattrs_o
| MVM_OP_box_i | MVM_OP_box_n | MVM_OP_box_s
| MVM_OP_unbox_i | MVM_OP_unbox_n | MVM_OP_unbox_s
| MVM_OP_elems | MVM_OP_hllize | MVM_OP_decont | MVM_OP_assertparamcheck
| MVM_OP_getlexstatic_o | MVM_OP_getlexperinvtype_o
| MVM_OP_const_i64_16 | MVM_OP_const_n64
| MVM_OP_sp_log | MVM_OP_sp_osrfinalize
| MVM_OP_sp_getspeshslot | MVM_OP_sp_findmeth
| MVM_OP_sp_fastinvoke_v | MVM_OP_sp_fastinvoke_i | MVM_OP_sp_fastinvoke_n
| MVM_OP_sp_fastinvoke_s | MVM_OP_sp_fastinvoke_o
| MVM_SSA_PHI
| MVM_OP_other (code : Z).

(** [struct MVMOpInfo]: [operands] holds the per-operand flag bytes (entries
    that are not listed are zero, as in the statically initialised table). *)
Record MVMOpInfo : Type := mkOpInfo {
  opcode       : Opcode;
  pure         : bool;
  num_operands : Z;
  operands     : list Z
}.

Definition info_operand (info : MVMOpInfo) (i : nat) : Z :=
  default 0 (operands info !! i).

(** [union MVMSpeshOperand], tagged with the member that was stored. *)
Inductive MVMSpeshOperand : Type :=
| lit_i64 (v : Z)
| lit_i16 (v : Z)
| lit_n64 (v : MVMnum64)
| lit_str_idx (v : Z)
| callsite_idx (v : Z)
| ins_bb (bb : bbptr)
| reg (orig : Z) (i : Z).

(** [struct MVMSpeshIns] without its list links: the order of the
    instructions of a block is the list [first_ins .. last_ins] kept in the
    block. *)
Record MVMSpeshIns : Type := mkIns {
  info     : MVMOpInfo;
  ins_operands : list MVMSpeshOperand
}.

(** The [value] union of [MVMSpeshFacts]: eight bytes, kept with the member
    they were stored through.  [value_unset] is the zeroed union;
    [value_i16 v] is a union whose [i16] member holds [v] and whose other six
    bytes are zero (what a store through [value.i16] into a zeroed union
    leaves).  The bytes themselves are [value_bytes] below. *)
Inductive MVMSpeshValue : Type :=
| value_unset
| value_o (o : MVMObject)
| value_i64 (v : Z)
| value_i16 (v : Z)
| value_n64 (v : MVMnum64)
| value_s (s : MVMString).

(** [struct MVMSpeshFacts]. *)
Record MVMSpeshFacts : Type := mkFacts {
  flags       : Z;
  type        : option MVMObject;
  decont_type : option MVMObject;
  value       : MVMSpeshValue;
  log_guard   : Z;
  usages      : Z
}.

Definition zero_facts : MVMSpeshFacts :=
  mkFacts 0 None None value_unset 0 0.

(** [struct MVMSpeshLogGuard]. *)
Record MVMSpeshLogGuard : Type := mkLogGuard {
  lg_ins : insptr;
  lg_bb  : bbptr;
  used   : Z
}.

(** The kinds of argument guard. *)
Inductive GuardKind : Type :=
| MVM_SPESH_GUARD_CONC | MVM_SPESH_GUARD_TYPE
| MVM_SPESH_GUARD_DC_CONC | MVM_SPESH_GUARD_DC_TYPE
| MVM_SPESH_GUARD_other (k : Z).

(** [struct MVMSpeshGuard]; [match_st] is the [match] field. *)
Record MVMSpeshGuard : Type := mkGuard {
  slot     : Z;
  kind     : GuardKind;
  match_st : ptr
}.

(** [struct MVMSpeshCandidate], the fields the optimizer reads. *)
Record MVMSpeshCandidate : Type := mkCandidate {
  cand_cs : ptr;
  guards  : list MVMSpeshGuard
}.

(** [struct MVMSpeshBB].  [instrs] is the instruction list from [first_ins]
    to [last_ins]; [linear_next] is kept in the graph (see [linear]). *)
Record MVMSpeshBB : Type := mkBB {
  idx      : Z;
  instrs   : list insptr;
  succ     : list bbptr;
  children : list bbptr;
  inlined  : bool
}.

(** What the optimizer reads of [g->sf->body.cu->body]. *)
Record MVMCompUnitBody : Type := mkCU {
  strings    : list MVMString;
  callsites  : list ptr;
  hll_config : ptr
}.

(** A register [(orig, i)]: the address [&g->facts[orig][i]] of its facts. *)
Definition factsptr : Type := Z * Z.

(** [struct MVMSpeshGraph].
    - [facts]: the table [g->facts[orig][i]] (zeroed where nothing is
      stored).
    - [ins_mem], [bbs]: the instructions and blocks of the graph's arena.
    - [linear]: the blocks reached from [g->entry] along [linear_next], in
      order; [g->entry] is its head.
    - [spesh_slots]: the first [num_spesh_slots] entries of the array. *)
Record MVMSpeshGraph : Type := mkGraph {
  cu                : MVMCompUnitBody;
  facts             : gmap factsptr MVMSpeshFacts;
  log_guards        : list MVMSpeshLogGuard;
  log_slots         : list (option MVMObject);
  spesh_slots       : list (option MVMObject);
  alloc_spesh_slots : Z;
  arg_guards        : list MVMSpeshGuard;
  ins_mem           : gmap insptr MVMSpeshIns;
  bbs               : gmap bbptr MVMSpeshBB;
  linear            : list bbptr;
  num_bbs           : Z
}.

(** [struct MVMSpeshCallInfo].  A field that was never assigned holds no
    value: [ci_cs = None], and no entry in the maps. An entry of
    [arg_facts] is a facts pointer or [NULL]. *)
Record MVMSpeshCallInfo : Type := mkCallInfo {
  ci_cs        : option ptr;
  prepargs_ins : option insptr;
  arg_is_const : gmap Z Z;
  arg_facts    : gmap Z (option factsptr);
  arg_ins      : gmap Z insptr
}.

Definition unassigned_call_info : MVMSpeshCallInfo :=
  mkCallInfo None None ∅ ∅ ∅.

(** The boolification modes. *)
Inductive BoolMode : Type :=
| MVM_BOOL_MODE_CALL_METHOD | MVM_BOOL_MODE_UNBOX_INT | MVM_BOOL_MODE_UNBOX_NUM
| MVM_BOOL_MODE_UNBOX_STR_NOT_EMPTY
| MVM_BOOL_MODE_UNBOX_STR_NOT_EMPTY_OR_ZERO
| MVM_BOOL_MODE_NOT_TYPE_OBJECT | MVM_BOOL_MODE_BIGINT | MVM_BOOL_MODE_ITER
| MVM_BOOL_MODE_HAS_ELEMS
| MVM_BOOL_MODE_other (m : Z).

(** [struct MVMInvocationSpec]; a handle is [None] when [MVM_is_null]. *)
Record MVMInvocationSpec : Type := mkInvSpec {
  class_handle       : option MVMObject;
  attr_name          : MVMString;
  hint               : Z;
  md_class_handle    : option MVMObject;
  md_cache_attr_name : MVMString;
  md_cache_hint      : Z;
  md_valid_attr_name : MVMString;
  md_valid_hint      : Z
}.

(** A [spesh] hook of a representation or of a container spec:
    [hook(tc, st, g, bb, ins)] rewrites the graph in place. *)
Definition spesh_hook : Type :=
  MVMSTable -> MVMSpeshGraph -> bbptr -> insptr -> option MVMSpeshGraph.

(** [struct MVMContainerSpec], the fields [optimize_decont] reads. *)
Record MVMContainerSpec : Type := mkContSpec {
  fetch_never_invokes : bool;
  cont_spesh          : option spesh_hook
}.

(** The declarations of [moar.h] that [optimize.c] uses and that are defined
    in other files of the VM: constants, accessor macros, the caches of the
    object model, the hooks of representations and container specs, the
    inliner and the op table. *)
Class VM : Type := mkVM {
  (* the target: [true] when the most significant byte of an integer is
     stored first *)
  big_endian : bool;
  (* spesh/facts.h *)
  MVM_SPESH_FACT_KNOWN_TYPE        : Z;
  MVM_SPESH_FACT_KNOWN_VALUE       : Z;
  MVM_SPESH_FACT_DECONTED          : Z;
  MVM_SPESH_FACT_CONCRETE          : Z;
  MVM_SPESH_FACT_TYPEOBJ           : Z;
  MVM_SPESH_FACT_KNOWN_DECONT_TYPE : Z;
  MVM_SPESH_FACT_DECONT_CONCRETE   : Z;
  MVM_SPESH_FACT_DECONT_TYPEOBJ    : Z;
  MVM_SPESH_FACT_FROM_LOG_GUARD    : Z;
  (* core/ops.h *)
  MVM_operand_rw_mask   : Z;
  MVM_operand_read_reg  : Z;
  MVM_operand_write_reg : Z;
  MVM_op_get_op         : Opcode -> MVMOpInfo;
  (* limits *)
  MAX_ARGS_FOR_OPT   : Z;
  MVM_SPESH_LOG_RUNS : Z;
  (* representation ids *)
  MVM_REPR_ID_MVMArray : Z;
  MVM_REPR_ID_MVMHash  : Z;
  MVM_REPR_ID_P6int    : Z;
  MVM_REPR_ID_P6num    : Z;
  MVM_REPR_ID_P6str    : Z;
  MVM_REPR_ID_MVMCode  : Z;
  (* the object model *)
  REPR_ID     : MVMObject -> Z;                      (* REPR(o)->ID *)
  REPR_spesh  : MVMObject -> option spesh_hook;      (* REPR(o)->spesh *)
  STABLE      : MVMObject -> MVMSTable;              (* STABLE(o) *)
  IS_CONCRETE : MVMObject -> bool;
  st_WHAT               : MVMSTable -> option MVMObject;
  st_hll_owner          : MVMSTable -> ptr;
  st_container_spec     : MVMSTable -> option MVMContainerSpec;
  st_boolification_mode : MVMSTable -> option BoolMode;
  st_invocation_spec    : MVMSTable -> option MVMInvocationSpec;
  MVM_6model_find_method_cache_only :
    option MVMObject -> MVMString -> option MVMObject;
  MVM_6model_can_method_cache_only :
    option MVMObject -> MVMString -> Z;
  (* [None] when the function returns 0, else the [result] it stores *)
  MVM_6model_try_cache_type_check :
    option MVMObject -> option MVMObject -> option Z;
  (* [resultreg.i64] after [MVM_coerce_istrue(tc, o, &resultreg, ...)] *)
  MVM_coerce_istrue : MVMObject -> Z;
  (* [dest] after [REPR(o)->attr_funcs.get_attribute(..., &dest, kind)] *)
  get_attribute_i64 : MVMObject -> option MVMObject -> MVMString -> Z -> Z;
  get_attribute_obj :
    MVMObject -> option MVMObject -> MVMString -> Z -> option MVMObject;
  MVM_multi_cache_find_spesh :
    MVMSpeshGraph -> MVMObject -> MVMSpeshCallInfo -> option MVMObject;
  (* the body of an [MVMCode] *)
  code_is_compiler_stub : MVMObject -> bool;
  code_spesh_candidates : MVMObject -> list MVMSpeshCandidate;
  (* spesh/inline.h *)
  MVM_spesh_inline_try_get_graph :
    MVMSpeshGraph -> MVMObject -> MVMSpeshCandidate -> option MVMSpeshGraph;
  MVM_spesh_inline :
    MVMSpeshGraph -> MVMSpeshCallInfo -> bbptr -> insptr -> MVMSpeshGraph ->
    MVMObject -> option MVMSpeshGraph;
  (* spesh/manipulate.h: which input of a PHI instruction of block [to]
     belongs to the edge from block [from] *)
  phi_drop_input : bbptr -> bbptr -> MVMSpeshIns -> MVMSpeshIns
}.

Section Optimizer.

Context `{vm : VM}.

(** [flags & mask]. *)
Definition has_flag (flags mask : Z) : bool := negb (Z.land flags mask =? 0).

(** ** Field updates *)

Definition set_facts (g : MVMSpeshGraph) (f : gmap factsptr MVMSpeshFacts) :=
  mkGraph (cu g) f (log_guards g) (log_slots g) (spesh_slots g)
    (alloc_spesh_slots g) (arg_guards g) (ins_mem g) (bbs g) (linear g)
    (num_bbs g).

Definition set_log_guards (g : MVMSpeshGraph) (l : list MVMSpeshLogGuard) :=
  mkGraph (cu g) (facts g) l (log_slots g) (spesh_slots g)
    (alloc_spesh_slots g) (arg_guards g) (ins_mem g) (bbs g) (linear g)
    (num_bbs g).

Definition set_spesh_slots (g : MVMSpeshGraph) (s : list (option MVMObject))
    (a : Z) :=
  mkGraph (cu g) (facts g) (log_guards g) (log_slots g) s a (arg_guards g)
    (ins_mem g) (bbs g) (linear g) (num_bbs g).

Definition set_ins_mem (g : MVMSpeshGraph) (m : gmap insptr MVMSpeshIns) :=
  mkGraph (cu g) (facts g) (log_guards g) (log_slots g) (spesh_slots g)
    (alloc_spesh_slots g) (arg_guards g) m (bbs g) (linear g) (num_bbs g).

Definition set_bbs (g : MVMSpeshGraph) (m : gmap bbptr MVMSpeshBB) :=
  mkGraph (cu g) (facts g) (log_guards g) (log_slots g) (spesh_slots g)
    (alloc_spesh_slots g) (arg_guards g) (ins_mem g) m (linear g) (num_bbs g).

Definition set_linear (g : MVMSpeshGraph) (l : list bbptr) (n : Z) :=
  mkGraph (cu g) (facts g) (log_guards g) (log_slots g) (spesh_slots g)
    (alloc_spesh_slots g) (arg_guards g) (ins_mem g) (bbs g) l n.

Definition set_instrs (b : MVMSpeshBB) (l : list insptr) : MVMSpeshBB :=
  mkBB (idx b) l (succ b) (children b) (inlined b).

Definition set_succ (b : MVMSpeshBB) (l : list bbptr) : MVMSpeshBB :=
  mkBB (idx b) (instrs b) l (children b) (inlined b).

Definition set_idx (b : MVMSpeshBB) (n : Z) : MVMSpeshBB :=
  mkBB n (instrs b) (succ b) (children b) (inlined b).

(** Reading the facts a pointer [p] points to, and updating them in place. *)
Definition facts_at (g : MVMSpeshGraph) (p : factsptr) : MVMSpeshFacts :=
  default zero_facts (facts g !! p).

Definition upd_facts (g : MVMSpeshGraph) (p : factsptr)
    (f : MVMSpeshFacts -> MVMSpeshFacts) : MVMSpeshGraph :=
  set_facts g (<[p := f (facts_at g p)]> (facts g)).

Definition or_flags (m : Z) (f : MVMSpeshFacts) : MVMSpeshFacts :=
  mkFacts (Z.lor (flags f) m) (type f) (decont_type f) (value f)
    (log_guard f) (usages f).

(** The bytes of a [value] union as an unsigned 64-bit number (pointers
    and [MVMint64] are eight bytes).  The [i16] member is the two bytes at
    the lowest address: the low 16 bits on a little-endian target, the high
    16 bits on a big-endian one. *)
Definition value_bytes (v : MVMSpeshValue) : Z :=
  match v with
  | value_unset => 0
  | value_o o => o mod 2 ^ 64
  | value_i64 z => z mod 2 ^ 64
  | value_i16 z =>
      if big_endian then (z mod 2 ^ 16) * 2 ^ 48 else z mod 2 ^ 16
  | value_n64 x => num64_bits x
  | value_s s => s mod 2 ^ 64
  end.

(** [value.i16 = z] on a union holding [old]: two bytes are written, the
    other six stay.  When those six are zero the union is [value_i16 z];
    otherwise it is given by the [MVMint64] that its bytes now spell. *)
Definition store_i16 (z : Z) (old : MVMSpeshValue) : MVMSpeshValue :=
  let b := value_bytes old in
  let rest := if big_endian then b mod 2 ^ 48 else b / 2 ^ 16 in
  if rest =? 0 then value_i16 z
  else value_i64 (to_int64 (if big_endian then (z mod 2 ^ 16) * 2 ^ 48 + rest
                            else rest * 2 ^ 16 + z mod 2 ^ 16)).

(** [facts->value.m = ...] for a member [m]: a store through [value.i16]
    writes two bytes, a store through any other member all eight. *)
Definition with_value (v : MVMSpeshValue) (f : MVMSpeshFacts) : MVMSpeshFacts :=
  mkFacts (flags f) (type f) (decont_type f)
    (match v with
     | value_i16 z => store_i16 z (value f)
     | _ => v
     end)
    (log_guard f) (usages f).

Definition with_type (t : option MVMObject) (f : MVMSpeshFacts) : MVMSpeshFacts :=
  mkFacts (flags f) t (decont_type f) (value f) (log_guard f) (usages f).

(** [usages--]. *)
Definition dec_usages (f : MVMSpeshFacts) : MVMSpeshFacts :=
  mkFacts (flags f) (type f) (decont_type f) (value f) (log_guard f)
    (usages f - 1).

(** [ins->info = i] and [ins->operands[k] = o]. *)
Definition set_info (g : MVMSpeshGraph) (ins : insptr) (i : MVMOpInfo)
    : option MVMSpeshGraph :=
  c ← ins_mem g !! ins;
  Some (set_ins_mem g (<[ins := mkIns i (ins_operands c)]> (ins_mem g))).

Definition set_operand (g : MVMSpeshGraph) (ins : insptr) (k : nat)
    (o : MVMSpeshOperand) : option MVMSpeshGraph :=
  c ← ins_mem g !! ins;
  if decide (k < length (ins_operands c))%nat
  then Some (set_ins_mem g
               (<[ins := mkIns (info c) (<[k := o]> (ins_operands c))]> (ins_mem g)))
  else None.

(** [ins->operands[k]] and [ins->info]. *)
Definition operand (g : MVMSpeshGraph) (ins : insptr) (k : nat)
    : option MVMSpeshOperand :=
  c ← ins_mem g !! ins; ins_operands c !! k.

Definition ins_info (g : MVMSpeshGraph) (ins : insptr) : option MVMOpInfo :=
  c ← ins_mem g !! ins; Some (info c).

(** Reading a member of an operand. *)
Definition operand_reg (o : MVMSpeshOperand) : option factsptr :=
  match o with reg a b => Some (a, b) | _ => None end.

Definition operand_lit_i16 (o : MVMSpeshOperand) : option Z :=
  match o with lit_i16 v => Some v | _ => None end.

Definition operand_lit_str_idx (o : MVMSpeshOperand) : option Z :=
  match o with lit_str_idx v => Some v | _ => None end.

Definition operand_callsite_idx (o : MVMSpeshOperand) : option Z :=
  match o with callsite_idx v => Some v | _ => None end.

Definition operand_ins_bb (o : MVMSpeshOperand) : option bbptr :=
  match o with ins_bb b => Some b | _ => None end.

(** Reading a member of a facts value.  [value.i64] is read whatever member
    was stored ([optimize_isconcrete] and [optimize_istype] store the result
    through [value.i16], and [optimize_iffy] reads it back through
    [value.i64]): it is the [MVMint64] that the eight bytes spell.  The
    pointer and floating-point members are read only as they were stored. *)
Definition read_i64 (v : MVMSpeshValue) : option Z :=
  Some (to_int64 (value_bytes v)).

Definition read_o (v : MVMSpeshValue) : option MVMObject :=
  match v with value_o o => Some o | _ => None end.

Definition read_n64 (v : MVMSpeshValue) : option MVMnum64 :=
  match v with value_n64 x => Some x | _ => None end.

Definition read_s (v : MVMSpeshValue) : option MVMString :=
  match v with value_s s => Some s | _ => None end.

(** [a[i]] for a C array kept as a list. *)
Definition index {A} (l : list A) (i : Z) : option A :=
  if i <? 0 then None else l !! Z.to_nat i.

(** ** Facts, strings, spesh slots *)

(** [get_facts_direct]: the address [&g->facts[o.reg.orig][o.reg.i]]. *)
Definition get_facts_direct (g : MVMSpeshGraph) (o : MVMSpeshOperand)
    : option factsptr :=
  operand_reg o.

Definition set_used (lg : MVMSpeshLogGuard) : MVMSpeshLogGuard :=
  mkLogGuard (lg_ins lg) (lg_bb lg) 1.

(** [MVM_spesh_get_facts]: the facts pointer, and the graph in which the
    log guard the facts depend on is marked used. *)
Definition MVM_spesh_get_facts (g : MVMSpeshGraph) (o : MVMSpeshOperand)
    : option (factsptr * MVMSpeshGraph) :=
  p ← get_facts_direct g o;
  let f := facts_at g p in
  if has_flag (flags f) MVM_SPESH_FACT_FROM_LOG_GUARD then
    lg ← index (log_guards g) (log_guard f);
    Some (p, set_log_guards g
               (<[Z.to_nat (log_guard f) := set_used lg]> (log_guards g)))
  else Some (p, g).

(** [MVM_spesh_get_string]. *)
Definition MVM_spesh_get_string (g : MVMSpeshGraph) (o : MVMSpeshOperand)
    : option MVMString :=
  i ← operand_lit_str_idx o; index (strings (cu g)) i.

(** [copy_facts]: every field but [usages]. *)
Definition copy_facts (g : MVMSpeshGraph) (to from : MVMSpeshOperand)
    : option MVMSpeshGraph :=
  tfacts ← get_facts_direct g to;
  ffacts ← get_facts_direct g from;
  let ff := facts_at g ffacts in
  Some (upd_facts g tfacts (fun tf =>
          mkFacts (flags ff) (type ff) (decont_type ff) (value ff)
            (log_guard ff) (usages tf))).

Definition num_spesh_slots (g : MVMSpeshGraph) : Z :=
  Z.of_nat (length (spesh_slots g)).

(** [MVM_spesh_add_spesh_slot]: the slot index as the [MVMint16] the
    function returns, and the graph with [c] appended. *)
Definition MVM_spesh_add_spesh_slot (g : MVMSpeshGraph) (c : option MVMObject)
    : Z * MVMSpeshGraph :=
  let alloc :=
    if alloc_spesh_slots g <=? num_spesh_slots g
    then alloc_spesh_slots g + 8 else alloc_spesh_slots g in
  (to_int16 (num_spesh_slots g),
   set_spesh_slots g (spesh_slots g ++ [c]) alloc).

(** ** Graph manipulation ([spesh/manipulate.c]) *)

(** Modelled from the spec: the body of
    [MVM_spesh_manipulate_delete_ins] ([optimize.c] only calls it); the
    spec says it "unlinks an instruction from its block's list and
    decrements no usage counters". *)
Definition MVM_spesh_manipulate_delete_ins (g : MVMSpeshGraph) (bb : bbptr)
    (ins : insptr) : option MVMSpeshGraph :=
  b ← bbs g !! bb;
  Some (set_bbs g
          (<[bb := set_instrs b (filter (fun i => i <> ins) (instrs b))]> (bbs g))).

(** Splicing [new] into a list after the element [after]. *)
Fixpoint splice_after (l : list insptr) (after new : insptr) : list insptr :=
  match l with
  | [] => []
  | x :: l' =>
      if decide (x = after) then x :: new :: l'
      else x :: splice_after l' after new
  end.

(** Modelled from the spec: the body of
    [MVM_spesh_manipulate_insert_ins] ([optimize.c] only calls it); the
    spec says it "splices after the given instruction".  With [previous == NULL] the instruction becomes the first
    of the block. *)
Definition MVM_spesh_manipulate_insert_ins (g : MVMSpeshGraph) (bb : bbptr)
    (previous : option insptr) (to_insert : insptr) : option MVMSpeshGraph :=
  b ← bbs g !! bb;
  let l := match previous with
           | None => to_insert :: instrs b
           | Some p => splice_after (instrs b) p to_insert
           end in
  Some (set_bbs g (<[bb := set_instrs b l]> (bbs g))).

(** Removing the first occurrence of a block from a successor array. *)
Fixpoint remove_first (l : list bbptr) (x : bbptr) : list bbptr :=
  match l with
  | [] => []
  | y :: l' => if decide (y = x) then l' else y :: remove_first l' x
  end.

Definition is_phi (c : MVMSpeshIns) : bool :=
  match opcode (info c) with MVM_SSA_PHI => true | _ => false end.

(** Modelled from the spec: the body of
    [MVM_spesh_manipulate_remove_successor] ([optimize.c] only calls it);
    the spec says it "drops the edge and any PHI inputs keyed by that
    edge".  The successor is a block that is
    dereferenced, so it cannot be [NULL]. *)
Definition MVM_spesh_manipulate_remove_successor (g : MVMSpeshGraph)
    (bb : bbptr) (succ_bb : option bbptr) : option MVMSpeshGraph :=
  s ← succ_bb;
  b ← bbs g !! bb;
  t ← bbs g !! s;
  let g1 := set_bbs g (<[bb := set_succ b (remove_first (succ b) s)]> (bbs g)) in
  Some (set_ins_mem g1
          (foldr (fun i m =>
                    match m !! i with
                    | Some c => if is_phi c then <[i := phi_drop_input bb s c]> m else m
                    | None => m
                    end)
                 (ins_mem g1) (instrs t))).

(** [ins->next] and [ins->prev] for an instruction in the list of [bb]. *)
Fixpoint next_in (l : list insptr) (ins : insptr) : option (option insptr) :=
  match l with
  | [] => None
  | x :: l' => if decide (x = ins) then Some (head l') else next_in l' ins
  end.

Fixpoint prev_in (l : list insptr) (ins : insptr) (before : option insptr)
    : option (option insptr) :=
  match l with
  | [] => None
  | x :: l' => if decide (x = ins) then Some before else prev_in l' ins (Some x)
  end.

Definition ins_next (g : MVMSpeshGraph) (bb : bbptr) (ins : insptr)
    : option (option insptr) :=
  b ← bbs g !! bb; next_in (instrs b) ins.

Definition ins_prev (g : MVMSpeshGraph) (bb : bbptr) (ins : insptr)
    : option (option insptr) :=
  b ← bbs g !! bb; prev_in (instrs b) ins None.

(** [bb->linear_next]. *)
Fixpoint linear_next_in (l : list bbptr) (bb : bbptr) : option (option bbptr) :=
  match l with
  | [] => None
  | x :: l' => if decide (x = bb) then Some (head l') else linear_next_in l' bb
  end.

Definition linear_next (g : MVMSpeshGraph) (bb : bbptr) : option (option bbptr) :=
  linear_next_in (linear g) bb.

(** [MVM_spesh_alloc] for a new instruction: an address of the arena that
    is not in use. *)
Definition MVM_spesh_alloc_ins (g : MVMSpeshGraph) : insptr :=
  fresh (dom (ins_mem g)).

(** ** The rewrites *)

(** [optimize_method_lookup]. *)
Definition optimize_method_lookup (g : MVMSpeshGraph) (ins : insptr)
    : option MVMSpeshGraph :=
  o1 ← operand g ins 1;
  '(obj_facts, g) ← MVM_spesh_get_facts g o1;
  '(resolved, g) ←
    (if has_flag (flags (facts_at g obj_facts)) MVM_SPESH_FACT_KNOWN_TYPE then
       o2 ← operand g ins 2;
       name ← MVM_spesh_get_string g o2;
       match MVM_6model_find_method_cache_only
               (type (facts_at g obj_facts)) name with
       | Some meth =>
           let '(ss, g) := MVM_spesh_add_spesh_slot g (Some meth) in
           o0 ← operand g ins 0;
           '(meth_facts, g) ← MVM_spesh_get_facts g o0;
           let g := upd_facts g meth_facts
                      (or_flags MVM_SPESH_FACT_KNOWN_VALUE) in
           let g := upd_facts g meth_facts (with_value (value_o meth)) in
           o1 ← operand g ins 1;
           '(recv_facts, g) ← MVM_spesh_get_facts g o1;
           let g := upd_facts g recv_facts dec_usages in
           g ← set_info g ins (MVM_op_get_op MVM_OP_sp_getspeshslot);
           g ← set_operand g ins 1 (lit_i16 ss);
           Some (true, g)
       | None => Some (false, g)
       end
     else Some (false, g));
  if (resolved : bool) then Some g
  else
    c ← ins_mem g !! ins;
    let orig_o := ins_operands c in
    if decide (3 <= length orig_o)%nat then
      let '(ss, g1) := MVM_spesh_add_spesh_slot g None in
      let '(_, g2) := MVM_spesh_add_spesh_slot g1 None in
      Some (set_ins_mem g2
              (<[ins := mkIns (MVM_op_get_op MVM_OP_sp_findmeth)
                          (take 3 orig_o ++ [lit_i16 ss])]> (ins_mem g2)))
    else None.

(** [optimize_istype]. *)
Definition optimize_istype (g : MVMSpeshGraph) (ins : insptr)
    : option MVMSpeshGraph :=
  o1 ← operand g ins 1;
  '(obj_facts, g) ← MVM_spesh_get_facts g o1;
  o2 ← operand g ins 2;
  '(type_facts, g) ← MVM_spesh_get_facts g o2;
  if has_flag (flags (facts_at g type_facts)) MVM_SPESH_FACT_KNOWN_TYPE &&
     has_flag (flags (facts_at g obj_facts)) MVM_SPESH_FACT_KNOWN_TYPE then
    match MVM_6model_try_cache_type_check (type (facts_at g obj_facts))
            (type (facts_at g type_facts)) with
    | None => Some g
    | Some result =>
        g ← set_info g ins (MVM_op_get_op MVM_OP_const_i64_16);
        o0 ← operand g ins 0;
        '(result_facts, g) ← MVM_spesh_get_facts g o0;
        let g := upd_facts g result_facts
                   (or_flags MVM_SPESH_FACT_KNOWN_VALUE) in
        g ← set_operand g ins 1 (lit_i16 (to_int16 result));
        let g := upd_facts g result_facts
                   (with_value (value_i16 (to_int16 result))) in
        let g := upd_facts g obj_facts dec_usages in
        let g := upd_facts g type_facts dec_usages in
        Some g
    end
  else Some g.

(** [optimize_is_reprid]. *)
Definition optimize_is_reprid (g : MVMSpeshGraph) (ins : insptr)
    : option MVMSpeshGraph :=
  o1 ← operand g ins 1;
  '(obj_facts, g) ← MVM_spesh_get_facts g o1;
  if negb (has_flag (flags (facts_at g obj_facts)) MVM_SPESH_FACT_KNOWN_TYPE)
  then Some g
  else
    i ← ins_info g ins;
    let wanted :=
      match opcode i with
      | MVM_OP_islist => Some MVM_REPR_ID_MVMArray
      | MVM_OP_ishash => Some MVM_REPR_ID_MVMHash
      | MVM_OP_isint  => Some MVM_REPR_ID_P6int
      | MVM_OP_isnum  => Some MVM_REPR_ID_P6num
      | MVM_OP_isstr  => Some MVM_REPR_ID_P6str
      | _ => None
      end in
    match wanted with
    | None => Some g
    | Some wanted_repr_id =>
        t ← type (facts_at g obj_facts);
        if REPR_ID t =? wanted_repr_id then
          set_info g ins (MVM_op_get_op MVM_OP_isnonnull)
        else
          o0 ← operand g ins 0;
          '(result_facts, g) ← MVM_spesh_get_facts g o0;
          g ← set_info g ins (MVM_op_get_op MVM_OP_const_i64_16);
          g ← set_operand g ins 1 (lit_i16 0);
          let g := upd_facts g result_facts
                     (or_flags MVM_SPESH_FACT_KNOWN_VALUE) in
          let g := upd_facts g result_facts (with_value (value_i64 0)) in
          Some g
    end.

(** [optimize_isconcrete]. *)
Definition optimize_isconcrete (g : MVMSpeshGraph) (ins : insptr)
    : option MVMSpeshGraph :=
  o1 ← operand g ins 1;
  '(obj_facts, g) ← MVM_spesh_get_facts g o1;
  if has_flag (flags (facts_at g obj_facts))
       (Z.lor MVM_SPESH_FACT_CONCRETE MVM_SPESH_FACT_TYPEOBJ) then
    o0 ← operand g ins 0;
    '(result_facts, g) ← MVM_spesh_get_facts g o0;
    g ← set_info g ins (MVM_op_get_op MVM_OP_const_i64_16);
    let g := upd_facts g result_facts (or_flags MVM_SPESH_FACT_KNOWN_VALUE) in
    let v := if has_flag (flags (facts_at g obj_facts)) MVM_SPESH_FACT_CONCRETE
             then 1 else 0 in
    let g := upd_facts g result_facts (with_value (value_i16 v)) in
    g ← set_operand g ins 1 (lit_i16 v);
    let g := upd_facts g obj_facts dec_usages in
    Some g
  else Some g.

(** [optimize_iffy]. *)
Definition optimize_iffy (g : MVMSpeshGraph) (ins : insptr) (bb : bbptr)
    : option MVMSpeshGraph :=
  o0 ← operand g ins 0;
  '(flag_facts, g) ← MVM_spesh_get_facts g o0;
  i ← ins_info g ins;
  let negated_op :=
    match opcode i with
    | MVM_OP_if_i | MVM_OP_if_s | MVM_OP_if_n | MVM_OP_if_o
    | MVM_OP_ifnonnull => Some 0
    | MVM_OP_unless_i | MVM_OP_unless_s | MVM_OP_unless_n
    | MVM_OP_unless_o => Some 1
    | _ => None
    end in
  match negated_op with
  | None => Some g
  | Some negated_op =>
      if has_flag (flags (facts_at g flag_facts)) MVM_SPESH_FACT_KNOWN_VALUE
      then
        (* [Some None]: the function returns without a rewrite *)
        truthvalue ←
          match opcode i with
          | MVM_OP_if_i | MVM_OP_unless_i =>
              v ← read_i64 (value (facts_at g flag_facts));
              Some (Some (to_uint8 v))
          | MVM_OP_if_o | MVM_OP_unless_o =>
              objval ← read_o (value (facts_at g flag_facts));
              match default MVM_BOOL_MODE_NOT_TYPE_OBJECT
                      (st_boolification_mode (STABLE objval)) with
              | MVM_BOOL_MODE_UNBOX_INT
              | MVM_BOOL_MODE_UNBOX_NUM
              | MVM_BOOL_MODE_UNBOX_STR_NOT_EMPTY
              | MVM_BOOL_MODE_UNBOX_STR_NOT_EMPTY_OR_ZERO
              | MVM_BOOL_MODE_BIGINT
              | MVM_BOOL_MODE_ITER
              | MVM_BOOL_MODE_HAS_ELEMS
              | MVM_BOOL_MODE_NOT_TYPE_OBJECT =>
                  Some (Some (to_uint8 (MVM_coerce_istrue objval)))
              | _ => Some None
              end
          | MVM_OP_if_n | MVM_OP_unless_n =>
              x ← read_n64 (value (facts_at g flag_facts));
              Some (Some (if num64_nonzero x then 1 else 0))
          | _ => Some None
          end;
        match truthvalue with
        | None => Some g
        | Some truthvalue =>
            let g := upd_facts g flag_facts dec_usages in
            if negb (truthvalue =? negated_op) then
              (* this conditional can be turned into an unconditional jump *)
              g ← set_info g ins (MVM_op_get_op MVM_OP_goto);
              o1 ← operand g ins 1;
              g ← set_operand g ins 0 o1;
              next ← linear_next g bb;
              MVM_spesh_manipulate_remove_successor g bb next
            else
              (* this conditional can be dropped completely *)
              o1 ← operand g ins 1;
              target ← operand_ins_bb o1;
              g ← MVM_spesh_manipulate_remove_successor g bb (Some target);
              MVM_spesh_manipulate_delete_ins g bb ins
        end
      else Some g
  end.

(** [optimize_hllize]. *)
Definition optimize_hllize (g : MVMSpeshGraph) (ins : insptr)
    : option MVMSpeshGraph :=
  o1 ← operand g ins 1;
  '(obj_facts, g) ← MVM_spesh_get_facts g o1;
  if has_flag (flags (facts_at g obj_facts)) MVM_SPESH_FACT_KNOWN_TYPE then
    match type (facts_at g obj_facts) with
    | Some t =>
        if st_hll_owner (STABLE t) =? hll_config (cu g) then
          g ← set_info g ins (MVM_op_get_op MVM_OP_set);
          o0 ← operand g ins 0;
          o1 ← operand g ins 1;
          copy_facts g o0 o1
        else Some g
    | None => Some g
    end
  else Some g.

(** [optimize_decont]. *)
Definition optimize_decont (g : MVMSpeshGraph) (bb : bbptr) (ins : insptr)
    : option MVMSpeshGraph :=
  o1 ← operand g ins 1;
  '(obj_facts, g) ← MVM_spesh_get_facts g o1;
  if has_flag (flags (facts_at g obj_facts))
       (Z.lor MVM_SPESH_FACT_DECONTED MVM_SPESH_FACT_TYPEOBJ) then
    g ← set_info g ins (MVM_op_get_op MVM_OP_set);
    o0 ← operand g ins 0;
    o1 ← operand g ins 1;
    copy_facts g o0 o1
  else
    g ←
      (if has_flag (flags (facts_at g obj_facts)) MVM_SPESH_FACT_KNOWN_TYPE then
         match type (facts_at g obj_facts) with
         | Some t =>
             let stable := STABLE t in
             match st_container_spec stable with
             | Some contspec =>
                 if fetch_never_invokes contspec then
                   match cont_spesh contspec with
                   | Some hook => hook stable g bb ins
                   | None => Some g
                   end
                 else Some g
             | None => Some g
             end
         | None => Some g
         end
       else Some g);
    o0 ← operand g ins 0;
    '(res_facts, g) ← MVM_spesh_get_facts g o0;
    let g :=
      if has_flag (flags (facts_at g obj_facts)) MVM_SPESH_FACT_KNOWN_DECONT_TYPE
      then
        let g := upd_facts g res_facts
                   (with_type (decont_type (facts_at g obj_facts))) in
        upd_facts g res_facts (or_flags MVM_SPESH_FACT_KNOWN_TYPE)
      else g in
    if has_flag (flags (facts_at g obj_facts)) MVM_SPESH_FACT_DECONT_CONCRETE
    then Some (upd_facts g res_facts (or_flags MVM_SPESH_FACT_CONCRETE))
    else if has_flag (flags (facts_at g obj_facts)) MVM_SPESH_FACT_DECONT_TYPEOBJ
    then Some (upd_facts g res_facts (or_flags MVM_SPESH_FACT_TYPEOBJ))
    else Some g.

(** [optimize_assertparamcheck]. *)
Definition optimize_assertparamcheck (g : MVMSpeshGraph) (bb : bbptr)
    (ins : insptr) : option MVMSpeshGraph :=
  o0 ← operand g ins 0;
  '(p, g) ← MVM_spesh_get_facts g o0;
  if has_flag (flags (facts_at g p)) MVM_SPESH_FACT_KNOWN_VALUE then
    v ← read_i64 (value (facts_at g p));
    if negb (v =? 0) then
      let g := upd_facts g p dec_usages in
      MVM_spesh_manipulate_delete_ins g bb ins
    else Some g
  else Some g.

Definition is_can_s (i : MVMOpInfo) : bool :=
  match opcode i with MVM_OP_can_s => true | _ => false end.

(** [optimize_can_op]. *)
Definition optimize_can_op (g : MVMSpeshGraph) (bb : bbptr) (ins : insptr)
    : option MVMSpeshGraph :=
  o1 ← operand g ins 1;
  '(obj_facts, g) ← MVM_spesh_get_facts g o1;
  if negb (has_flag (flags (facts_at g obj_facts)) MVM_SPESH_FACT_KNOWN_TYPE)
     || negb (bool_decide (is_Some (type (facts_at g obj_facts))))
  then Some g
  else
    i ← ins_info g ins;
    o2 ← operand g ins 2;
    (* [Some None]: the function returns without a rewrite *)
    '(method_name, g) ←
      (if is_can_s i then
         '(name_facts, g) ← MVM_spesh_get_facts g o2;
         if negb (has_flag (flags (facts_at g name_facts))
                    MVM_SPESH_FACT_KNOWN_VALUE)
         then Some (None, g)
         else s ← read_s (value (facts_at g name_facts)); Some (Some s, g)
       else s ← MVM_spesh_get_string g o2; Some (Some s, g));
    match method_name with
    | None => Some g
    | Some method_name =>
        let can_result :=
          MVM_6model_can_method_cache_only (type (facts_at g obj_facts))
            method_name in
        if can_result =? -1 then Some g
        else
          g ←
            (if is_can_s i then
               '(p, g) ← MVM_spesh_get_facts g o2;
               Some (upd_facts g p dec_usages)
             else Some g);
          o0 ← operand g ins 0;
          '(result_facts, g) ← MVM_spesh_get_facts g o0;
          g ← set_info g ins (MVM_op_get_op MVM_OP_const_i64_16);
          let g := upd_facts g result_facts
                     (or_flags MVM_SPESH_FACT_KNOWN_VALUE) in
          g ← set_operand g ins 1 (lit_i16 (to_int16 can_result));
          let g := upd_facts g result_facts
                     (with_value (value_i16 (to_int16 can_result))) in
          Some (upd_facts g obj_facts dec_usages)
    end.

(** [optimize_coerce]. *)
Definition optimize_coerce (g : MVMSpeshGraph) (bb : bbptr) (ins : insptr)
    : option MVMSpeshGraph :=
  o1 ← operand g ins 1;
  '(p, g) ← MVM_spesh_get_facts g o1;
  if has_flag (flags (facts_at g p)) MVM_SPESH_FACT_KNOWN_VALUE then
    o0 ← operand g ins 0;
    '(result_facts, g) ← MVM_spesh_get_facts g o0;
    v ← read_i64 (value (facts_at g p));
    let result := num64_of_int64 v in
    let g := upd_facts g p dec_usages in
    g ← set_info g ins (MVM_op_get_op MVM_OP_const_n64);
    g ← set_operand g ins 1 (lit_n64 result);
    let g := upd_facts g result_facts (or_flags MVM_SPESH_FACT_KNOWN_VALUE) in
    Some (upd_facts g result_facts (with_value (value_n64 result)))
  else Some g.

(** [optimize_repr_op]. *)
Definition optimize_repr_op (g : MVMSpeshGraph) (bb : bbptr) (ins : insptr)
    (type_operand : nat) : option MVMSpeshGraph :=
  o ← operand g ins type_operand;
  '(p, g) ← MVM_spesh_get_facts g o;
  if has_flag (flags (facts_at g p)) MVM_SPESH_FACT_KNOWN_TYPE then
    match type (facts_at g p) with
    | Some t =>
        match REPR_spesh t with
        | Some hook => hook (STABLE t) g bb ins
        | None => Some g
        end
    | None => Some g
    end
  else Some g.

(** [specialized_on_invocant]. *)
Definition specialized_on_invocant (g : MVMSpeshGraph) : bool :=
  existsb (fun gd => slot gd =? 0) (arg_guards g).

Definition is_sp_log (i : MVMOpInfo) : bool :=
  match opcode i with MVM_OP_sp_log => true | _ => false end.

(** [optimize_getlex_known]. *)
Definition optimize_getlex_known (g : MVMSpeshGraph) (bb : bbptr)
    (ins : insptr) : option MVMSpeshGraph :=
  next ← ins_next g bb ins;
  match next with
  | None => Some g
  | Some next =>
      ni ← ins_info g next;
      if is_sp_log ni then
        no1 ← operand g next 1;
        l ← operand_lit_i16 no1;
        let log_slot := to_uint16 (l * MVM_SPESH_LOG_RUNS) in
        log_obj ← index (log_slots g) log_slot;
        match log_obj with
        | None => Some g
        | Some log_obj =>
            let '(ss, g) := MVM_spesh_add_spesh_slot g (Some log_obj) in
            let ss := to_uint16 ss in
            g ← MVM_spesh_manipulate_delete_ins g bb next;
            o1 ← operand g ins 1;
            '(p, g) ← MVM_spesh_get_facts g o1;
            let g := upd_facts g p dec_usages in
            g ← set_info g ins (MVM_op_get_op MVM_OP_sp_getspeshslot);
            g ← set_operand g ins 1 (lit_i16 (to_int16 ss));
            o0 ← operand g ins 0;
            '(p, g) ← MVM_spesh_get_facts g o0;
            let g := upd_facts g p
                       (or_flags (Z.lor MVM_SPESH_FACT_KNOWN_TYPE
                                        MVM_SPESH_FACT_KNOWN_VALUE)) in
            let g := upd_facts g p (with_type (st_WHAT (STABLE log_obj))) in
            let g := upd_facts g p (with_value (value_o log_obj)) in
            if IS_CONCRETE log_obj then
              let g := upd_facts g p (or_flags MVM_SPESH_FACT_CONCRETE) in
              if negb (bool_decide (is_Some (st_container_spec (STABLE log_obj))))
              then Some (upd_facts g p (or_flags MVM_SPESH_FACT_DECONTED))
              else Some g
            else Some (upd_facts g p (or_flags MVM_SPESH_FACT_TYPEOBJ))
        end
      else Some g
  end.

(** ** Calls *)

(** The test of one guard in [try_find_spesh_candidate]: the value of
    [guard_failed] after the body of the inner loop. *)
Definition guard_failed (g : MVMSpeshGraph) (arg_info : MVMSpeshCallInfo)
    (gd : MVMSpeshGuard) : option bool :=
  facts ←
    (if slot gd <? MAX_ARGS_FOR_OPT
     then (if slot gd <? 0 then None else arg_facts arg_info !! slot gd)
     else Some None);
  let want_st := match_st gd in
  match facts with
  | None => Some true
  | Some p =>
      let f := facts_at g p in
      match kind gd with
      | MVM_SPESH_GUARD_CONC =>
          if negb (has_flag (flags f) MVM_SPESH_FACT_CONCRETE) then Some true
          else if negb (has_flag (flags f) MVM_SPESH_FACT_KNOWN_TYPE)
          then Some true
          else t ← type f; Some (negb (STABLE t =? want_st))
      | MVM_SPESH_GUARD_TYPE =>
          if negb (has_flag (flags f) MVM_SPESH_FACT_TYPEOBJ) then Some true
          else if negb (has_flag (flags f) MVM_SPESH_FACT_KNOWN_TYPE)
          then Some true
          else t ← type f; Some (negb (STABLE t =? want_st))
      | MVM_SPESH_GUARD_DC_CONC =>
          if negb (has_flag (flags f) MVM_SPESH_FACT_DECONT_CONCRETE)
          then Some true
          else if negb (has_flag (flags f) MVM_SPESH_FACT_KNOWN_DECONT_TYPE)
          then Some true
          else t ← decont_type f; Some (negb (STABLE t =? want_st))
      | MVM_SPESH_GUARD_DC_TYPE =>
          if negb (has_flag (flags f) MVM_SPESH_FACT_DECONT_TYPEOBJ)
          then Some true
          else if negb (has_flag (flags f) MVM_SPESH_FACT_KNOWN_DECONT_TYPE)
          then Some true
          else t ← decont_type f; Some (negb (STABLE t =? want_st))
      | MVM_SPESH_GUARD_other _ => Some true
      end
  end.

(** The inner loop over [cand->guards]: the final [guard_failed]. *)
Fixpoint guards_failed (g : MVMSpeshGraph) (arg_info : MVMSpeshCallInfo)
    (gds : list MVMSpeshGuard) : option bool :=
  match gds with
  | [] => Some false
  | gd :: gds' =>
      failed ← guard_failed g arg_info gd;
      if (failed : bool) then Some true else guards_failed g arg_info gds'
  end.

(** The outer loop over [sfb->spesh_candidates] from index [i]. *)
Fixpoint find_candidate_from (g : MVMSpeshGraph) (arg_info : MVMSpeshCallInfo)
    (cands : list MVMSpeshCandidate) (i : Z) : option Z :=
  match cands with
  | [] => Some (-1)
  | cand :: cands' =>
      cs ← ci_cs arg_info;
      if cand_cs cand =? cs then
        failed ← guards_failed g arg_info (guards cand);
        if (failed : bool) then find_candidate_from g arg_info cands' (i + 1)
        else Some i
      else find_candidate_from g arg_info cands' (i + 1)
  end.

(** [try_find_spesh_candidate]; the facts pointers of [arg_info] point into
    the graph [g]. *)
Definition try_find_spesh_candidate (g : MVMSpeshGraph) (code : MVMObject)
    (arg_info : MVMSpeshCallInfo) : option Z :=
  find_candidate_from g arg_info (code_spesh_candidates code) 0.

(** The resolution of the callee to a code object in [optimize_call]: the
    final value of [target]. *)
Definition resolve_target (g : MVMSpeshGraph) (code : MVMObject)
    (arg_info : MVMSpeshCallInfo) : option (option MVMObject) :=
  if REPR_ID code =? MVM_REPR_ID_MVMCode then Some (Some code)
  else
    match st_invocation_spec (STABLE code) with
    | None => Some None
    | Some ispec =>
        match md_class_handle ispec with
        | Some md =>
            let valid := get_attribute_i64 code (md_class_handle ispec)
                           (md_valid_attr_name ispec) (md_valid_hint ispec) in
            if negb (valid =? 0) then
              match get_attribute_obj code (md_class_handle ispec)
                      (md_cache_attr_name ispec) (md_cache_hint ispec) with
              | Some cache =>
                  match MVM_multi_cache_find_spesh g cache arg_info with
                  | Some found =>
                      if REPR_ID found =? MVM_REPR_ID_MVMCode
                      then Some (Some found)
                      else
                        match st_invocation_spec (STABLE found) with
                        | Some m_is =>
                            match class_handle m_is with
                            | Some _ =>
                                dest ← get_attribute_obj found (class_handle ispec)
                                         (attr_name ispec) (hint ispec);
                                if REPR_ID dest =? MVM_REPR_ID_MVMCode
                                then Some (Some dest) else Some None
                            | None => Some None
                            end
                        | None => Some None
                        end
                  | None => Some None
                  end
              | None => Some None
              end
            else Some None
        | None =>
            match class_handle ispec with
            | Some _ =>
                dest ← get_attribute_obj code (class_handle ispec)
                         (attr_name ispec) (hint ispec);
                if REPR_ID dest =? MVM_REPR_ID_MVMCode
                then Some (Some dest) else Some None
            | None => Some None
            end
        end
    end.

Definition is_invoke_v (i : MVMOpInfo) : bool :=
  match opcode i with MVM_OP_invoke_v => true | _ => false end.

(** [optimize_call].  [None] also where the source throws. *)
Definition optimize_call (g : MVMSpeshGraph) (bb : bbptr) (ins : insptr)
    (callee_idx : nat) (arg_info : MVMSpeshCallInfo) : option MVMSpeshGraph :=
  oc ← operand g ins callee_idx;
  '(callee_facts, g) ← MVM_spesh_get_facts g oc;
  if has_flag (flags (facts_at g callee_facts)) MVM_SPESH_FACT_KNOWN_VALUE then
    code ← read_o (value (facts_at g callee_facts));
    target ← resolve_target g code arg_info;
    match target with
    | None => Some g
    | Some target =>
        g ←
          (if negb (target =? code) && negb (code_is_compiler_stub target) then
             let ss_ins := MVM_spesh_alloc_ins g in
             oc ← operand g ins callee_idx;
             let '(ss, g) := MVM_spesh_add_spesh_slot g (Some target) in
             let g := set_ins_mem g
                        (<[ss_ins := mkIns (MVM_op_get_op MVM_OP_sp_getspeshslot)
                                       [oc; lit_i16 ss]]> (ins_mem g)) in
             prev ← ins_prev g bb ins;
             MVM_spesh_manipulate_insert_ins g bb prev ss_ins
           else Some g);
        spesh_cand ← try_find_spesh_candidate g target arg_info;
        if 0 <=? spesh_cand then
          cand ← index (code_spesh_candidates target) spesh_cand;
          match MVM_spesh_inline_try_get_graph g target cand with
          | Some inline_graph =>
              MVM_spesh_inline g arg_info bb ins inline_graph target
          | None =>
              i ← ins_info g ins;
              o0 ← operand g ins 0;
              if is_invoke_v i then
                Some (set_ins_mem g
                        (<[ins := mkIns (MVM_op_get_op MVM_OP_sp_fastinvoke_v)
                                    [o0; lit_i16 (to_int16 spesh_cand)]]>
                           (ins_mem g)))
              else
                o1 ← operand g ins 1;
                new_op ←
                  match opcode i with
                  | MVM_OP_invoke_i => Some MVM_OP_sp_fastinvoke_i
                  | MVM_OP_invoke_n => Some MVM_OP_sp_fastinvoke_n
                  | MVM_OP_invoke_s => Some MVM_OP_sp_fastinvoke_s
                  | MVM_OP_invoke_o => Some MVM_OP_sp_fastinvoke_o
                  | _ => None
                  end;
                Some (set_ins_mem g
                        (<[ins := mkIns (MVM_op_get_op new_op)
                                    [o0; o1; lit_i16 (to_int16 spesh_cand)]]>
                           (ins_mem g)))
          end
        else Some g
    end
  else Some g.

(** ** The driver *)

Definition with_cs (ai : MVMSpeshCallInfo) (cs : ptr) (ins : insptr) :=
  mkCallInfo (Some cs) (Some ins) (arg_is_const ai) (arg_facts ai) (arg_ins ai).

Definition with_arg (ai : MVMSpeshCallInfo) (i : Z) (p : factsptr)
    (ins : insptr) :=
  mkCallInfo (ci_cs ai) (prepargs_ins ai) (<[i := 0]> (arg_is_const ai))
    (<[i := Some p]> (arg_facts ai)) (<[i := ins]> (arg_ins ai)).

Definition with_argconst (ai : MVMSpeshCallInfo) (i : Z) (ins : insptr) :=
  mkCallInfo (ci_cs ai) (prepargs_ins ai) (<[i := 1]> (arg_is_const ai))
    (arg_facts ai) (<[i := ins]> (arg_ins ai)).

(** The body of the [while (ins)] loop of [optimize_bb]: the [switch] on the
    opcode of [ins]. *)
Definition optimize_ins (g : MVMSpeshGraph) (bb : bbptr) (ins : insptr)
    (arg_info : MVMSpeshCallInfo)
    : option (MVMSpeshGraph * MVMSpeshCallInfo) :=
  i ← ins_info g ins;
  let keep (r : option MVMSpeshGraph) := g' ← r; Some (g', arg_info) in
  match opcode i with
  | MVM_OP_set =>
      o0 ← operand g ins 0; o1 ← operand g ins 1;
      keep (copy_facts g o0 o1)
  | MVM_OP_if_i | MVM_OP_unless_i | MVM_OP_if_n | MVM_OP_unless_n
  | MVM_OP_if_o | MVM_OP_unless_o =>
      keep (optimize_iffy g ins bb)
  | MVM_OP_prepargs =>
      o0 ← operand g ins 0;
      ci ← operand_callsite_idx o0;
      cs ← index (callsites (cu g)) ci;
      Some (g, with_cs arg_info cs ins)
  | MVM_OP_arg_i | MVM_OP_arg_n | MVM_OP_arg_s | MVM_OP_arg_o =>
      o0 ← operand g ins 0;
      idx ← operand_lit_i16 o0;
      if idx <? MAX_ARGS_FOR_OPT then
        if idx <? 0 then None
        else
          o1 ← operand g ins 1;
          '(p, g) ← MVM_spesh_get_facts g o1;
          Some (g, with_arg arg_info idx p ins)
      else Some (g, arg_info)
  | MVM_OP_argconst_i | MVM_OP_argconst_n | MVM_OP_argconst_s =>
      o0 ← operand g ins 0;
      idx ← operand_lit_i16 o0;
      if idx <? MAX_ARGS_FOR_OPT then
        if idx <? 0 then None
        else Some (g, with_argconst arg_info idx ins)
      else Some (g, arg_info)
  | MVM_OP_coerce_in => keep (optimize_coerce g bb ins)
  | MVM_OP_invoke_v => keep (optimize_call g bb ins 0 arg_info)
  | MVM_OP_invoke_i | MVM_OP_invoke_n | MVM_OP_invoke_s | MVM_OP_invoke_o =>
      keep (optimize_call g bb ins 1 arg_info)
  | MVM_OP_islist | MVM_OP_ishash | MVM_OP_isint | MVM_OP_isnum
  | MVM_OP_isstr =>
      keep (optimize_is_reprid g ins)
  | MVM_OP_findmeth => keep (optimize_method_lookup g ins)
  | MVM_OP_can | MVM_OP_can_s =>
      (* XXX This causes problems, Spesh: failed to fix up handlers *)
      Some (g, arg_info)
  | MVM_OP_create => keep (optimize_repr_op g bb ins 1)
  | MVM_OP_isconcrete => keep (optimize_isconcrete g ins)
  | MVM_OP_istype => keep (optimize_istype g ins)
  | MVM_OP_bindattr_i | MVM_OP_bindattr_n | MVM_OP_bindattr_s
  | MVM_OP_bindattr_o | MVM_OP_bindattrs_i | MVM_OP_bindattrs_n
  | MVM_OP_bindattrs_s | MVM_OP_bindattrs_o =>
      keep (optimize_repr_op g bb ins 0)
  | MVM_OP_getattr_i | MVM_OP_getattr_n | MVM_OP_getattr_s
  | MVM_OP_getattr_o | MVM_OP_getattrs_i | MVM_OP_getattrs_n
  | MVM_OP_getattrs_s | MVM_OP_getattrs_o =>
      keep (optimize_repr_op g bb ins 1)
  | MVM_OP_box_i | MVM_OP_box_n | MVM_OP_box_s =>
      keep (optimize_repr_op g bb ins 2)
  | MVM_OP_unbox_i | MVM_OP_unbox_n | MVM_OP_unbox_s =>
      keep (optimize_repr_op g bb ins 1)
  | MVM_OP_elems => keep (optimize_repr_op g bb ins 1)
  | MVM_OP_hllize => keep (optimize_hllize g ins)
  | MVM_OP_decont => keep (optimize_decont g bb ins)
  | MVM_OP_assertparamcheck => keep (optimize_assertparamcheck g bb ins)
  | MVM_OP_getlexstatic_o => keep (optimize_getlex_known g bb ins)
  | MVM_OP_getlexperinvtype_o =>
      if specialized_on_invocant g
      then keep (optimize_getlex_known g bb ins)
      else Some (g, arg_info)
  | MVM_OP_sp_log | MVM_OP_sp_osrfinalize =>
      keep (MVM_spesh_manipulate_delete_ins g bb ins)
  | _ => Some (g, arg_info)
  end.

(** The [while (ins)] loop of [optimize_bb], at instruction [ins].  After
    the body, [ins->next] is read: the successor of [ins] in the list of the
    block, or, when the body unlinked [ins], the link [ins] kept.  [fuel]
    bounds the number of iterations. *)
Fixpoint optimize_instructions (fuel : nat) (g : MVMSpeshGraph) (bb : bbptr)
    (ins : option insptr) (arg_info : MVMSpeshCallInfo)
    : option MVMSpeshGraph :=
  match ins with
  | None => Some g
  | Some ins =>
      match fuel with
      | O => None
      | S fuel' =>
          link ← ins_next g bb ins;
          '(g, arg_info) ← optimize_ins g bb ins arg_info;
          b ← bbs g !! bb;
          let next := default link (next_in (instrs b) ins) in
          optimize_instructions fuel' g bb next arg_info
      end
  end.

(** The loop over [bb->children] from index [i]; [visit] is [optimize_bb]. *)
Fixpoint visit_children (visit : MVMSpeshGraph -> bbptr -> option MVMSpeshGraph)
    (fuel : nat) (g : MVMSpeshGraph) (bb : bbptr) (i : nat)
    : option MVMSpeshGraph :=
  match fuel with
  | O => None
  | S fuel' =>
      b ← bbs g !! bb;
      match children b !! i with
      | None => Some g
      | Some child =>
          g ← visit g child;
          visit_children visit fuel' g bb (S i)
      end
  end.

(** [optimize_bb]; [fuel] bounds the depth of the recursion and the length
    of the loops. *)
Fixpoint optimize_bb (fuel : nat) (g : MVMSpeshGraph) (bb : bbptr)
    : option MVMSpeshGraph :=
  match fuel with
  | O => None
  | S fuel' =>
      b ← bbs g !! bb;
      g ← optimize_instructions fuel' g bb (head (instrs b))
            unassigned_call_info;
      visit_children (optimize_bb fuel') fuel' g bb 0
  end.

(** ** Dead instructions *)

(** The loops [for (i = 1; i < ins->info->num_operands; i++) ... usages--]
    of [eliminate_dead_ins], from index [i] with [todo] iterations left;
    with [reads_only] the operand must be a read register. *)
Fixpoint propagate_non_usage (g : MVMSpeshGraph) (c : MVMSpeshIns)
    (reads_only : bool) (i todo : nat) : option MVMSpeshGraph :=
  match todo with
  | O => Some g
  | S todo' =>
      g ←
        (if reads_only &&
            negb (Z.land (info_operand (info c) i) MVM_operand_rw_mask
                  =? MVM_operand_read_reg)
         then Some g
         else
           o ← ins_operands c !! i;
           '(p, g) ← MVM_spesh_get_facts g o;
           Some (upd_facts g p dec_usages));
      propagate_non_usage g c reads_only (S i) todo'
  end.

(** The test and removal of one instruction; the boolean is [true] when the
    instruction was removed. *)
Definition eliminate_dead_ins_step (g : MVMSpeshGraph) (bb : bbptr)
    (ins : insptr) : option (MVMSpeshGraph * bool) :=
  c ← ins_mem g !! ins;
  let remove_if_unused (reads_only : bool) :=
    o0 ← ins_operands c !! 0%nat;
    '(p, g) ← MVM_spesh_get_facts g o0;
    if usages (facts_at g p) =? 0 then
      g ← propagate_non_usage g c reads_only 1
            (Z.to_nat (num_operands (info c) - 1));
      g ← MVM_spesh_manipulate_delete_ins g bb ins;
      Some (g, true)
    else Some (g, false) in
  if is_phi c then remove_if_unused false
  else if pure (info c) then
    if Z.land (info_operand (info c) 0) MVM_operand_rw_mask
       =? MVM_operand_write_reg
    then remove_if_unused true
    else Some (g, false)
  else Some (g, false).

(** The loop over the instructions of a block, from [bb->last_ins]
    backwards: [l] is the list of the instructions still to visit. *)
Fixpoint eliminate_dead_ins_list (g : MVMSpeshGraph) (bb : bbptr)
    (l : list insptr) (death : bool) : option (MVMSpeshGraph * bool) :=
  match l with
  | [] => Some (g, death)
  | ins :: l' =>
      '(g, d) ← eliminate_dead_ins_step g bb ins;
      eliminate_dead_ins_list g bb l' (death || d)
  end.

(** The loop over the blocks along [linear_next]. *)
Fixpoint eliminate_dead_ins_bbs (g : MVMSpeshGraph) (l : list bbptr)
    (death : bool) : option (MVMSpeshGraph * bool) :=
  match l with
  | [] => Some (g, death)
  | bb :: l' =>
      b ← bbs g !! bb;
      '(g, death) ← eliminate_dead_ins_list g bb (rev (instrs b)) death;
      eliminate_dead_ins_bbs g l' death
  end.

(** One iteration of [while (death)]. *)
Definition eliminate_dead_ins_pass (g : MVMSpeshGraph)
    : option (MVMSpeshGraph * bool) :=
  eliminate_dead_ins_bbs g (linear g) false.

(** The loop [while (death)]: the outer [None] when [fuel] iterations do not
    reach the end of the loop. *)
Fixpoint eliminate_dead_ins_loop (fuel : nat) (g : MVMSpeshGraph)
    : option (option MVMSpeshGraph) :=
  match fuel with
  | O => None
  | S fuel' =>
      match eliminate_dead_ins_pass g with
      | None => Some None
      | Some (g', true) => eliminate_dead_ins_loop fuel' g'
      | Some (g', false) => Some (Some g')
      end
  end.

(** The number of instructions in the blocks of a list. *)
Definition count_instrs (g : MVMSpeshGraph) (l : list bbptr) : nat :=
  sum_list (map (fun bb => length (default [] (instrs <$> bbs g !! bb))) l).

(** [eliminate_dead_ins].  Every iteration but the last removes an
    instruction, so the loop is given one more iteration than there are
    instructions. *)
Definition eliminate_dead_ins (g : MVMSpeshGraph) : option MVMSpeshGraph :=
  mjoin (eliminate_dead_ins_loop (S (count_instrs g (linear g))) g).

(** ** Unreachable blocks *)

(** [memset(seen, 0, n)] on the array [seen]. *)
Definition memset0 (seen : list Z) (n : Z) : option (list Z) :=
  if decide (0 <= n /\ (Z.to_nat n <= length seen)%nat)
  then Some (replicate (Z.to_nat n) 0 ++ drop (Z.to_nat n) seen)
  else None.

(** [a[i] = v]. *)
Definition store (a : list Z) (i : Z) (v : Z) : option (list Z) :=
  if decide (0 <= i /\ (Z.to_nat i < length a)%nat)
  then Some (<[Z.to_nat i := v]> a)
  else None.

(** [for (i = 0; i < cur_bb->num_succ; i++) seen[cur_bb->succ[i]->idx] = 1]. *)
Fixpoint mark_succs (g : MVMSpeshGraph) (seen : list Z) (ss : list bbptr)
    : option (list Z) :=
  match ss with
  | [] => Some seen
  | s :: ss' =>
      t ← bbs g !! s;
      seen ← store seen (idx t) 1;
      mark_succs g seen ss'
  end.

(** The first pass over the blocks along [linear_next]. *)
Fixpoint mark_blocks (g : MVMSpeshGraph) (seen : list Z) (l : list bbptr)
    : option (list Z) :=
  match l with
  | [] => Some seen
  | bb :: l' =>
      b ← bbs g !! bb;
      seen ← mark_succs g seen (succ b);
      mark_blocks g seen l'
  end.

(** The second pass, [while (cur_bb->linear_next)], at [cur_bb = cur] whose
    [linear_next] chain is [rest]: the chain from [cur] on after the loop,
    [g->num_bbs] and [death].  When the last block of the chain is dropped,
    [cur_bb] becomes [NULL] and the loop test dereferences it. *)
Fixpoint sweep (g : MVMSpeshGraph) (seen : list Z) (cur : bbptr)
    (rest : list bbptr) (num : Z) (death : bool)
    : option (list bbptr * Z * bool) :=
  match rest with
  | [] => Some ([cur], num, death)
  | nxt :: rest' =>
      nb ← bbs g !! nxt;
      s ← index seen (idx nb);
      if (s =? 0) && negb (inlined nb) then
        match rest' with
        | [] => None
        | y :: rest'' =>
            '(l, num', d) ← sweep g seen y rest'' (num - 1) true;
            Some (cur :: l, num', d)
        end
      else
        '(l, num', d) ← sweep g seen nxt rest' num death;
        Some (cur :: l, num', d)
  end.

(** One iteration of [while (death)] in [eliminate_dead_bbs]: both passes. *)
Definition eliminate_dead_bbs_pass (g : MVMSpeshGraph) (seen : list Z)
    : option (MVMSpeshGraph * list Z * bool) :=
  seen ← memset0 seen (num_bbs g);
  seen ← store seen 0 1;
  seen ← mark_blocks g seen (linear g);
  match linear g with
  | [] => None
  | entry :: rest =>
      '(l, num, death) ← sweep g seen entry rest (num_bbs g) false;
      Some (set_linear g l num, seen, death)
  end.

(** The loop [while (death)]: the outer [None] when [fuel] iterations do not
    reach the end of the loop. *)
Fixpoint eliminate_dead_bbs_loop (fuel : nat) (g : MVMSpeshGraph)
    (seen : list Z) : option (option MVMSpeshGraph) :=
  match fuel with
  | O => None
  | S fuel' =>
      match eliminate_dead_bbs_pass g seen with
      | None => Some None
      | Some (g', seen', true) => eliminate_dead_bbs_loop fuel' g' seen'
      | Some (g', _, false) => Some (Some g')
      end
  end.

(** The renumbering loop at the end of [eliminate_dead_bbs]. *)
Fixpoint renumber (g : MVMSpeshGraph) (l : list bbptr) (new_idx : Z)
    : option MVMSpeshGraph :=
  match l with
  | [] => Some g
  | bb :: l' =>
      b ← bbs g !! bb;
      renumber (set_bbs g (<[bb := set_idx b new_idx]> (bbs g))) l'
        (new_idx + 1)
  end.

(** [eliminate_dead_bbs].  Every iteration but the last drops a block, so
    the loop is given one more iteration than there are blocks.  The array
    [seen] has [g->num_bbs] bytes. *)
Definition eliminate_dead_bbs (g : MVMSpeshGraph) : option MVMSpeshGraph :=
  let orig_bbs := num_bbs g in
  g ← mjoin (eliminate_dead_bbs_loop (S (length (linear g))) g
               (replicate (Z.to_nat (num_bbs g)) 0));
  if negb (num_bbs g =? orig_bbs) then renumber g (linear g) 0 else Some g.

(** ** Log guards *)

(** The loop of [eliminate_unused_log_guards] over [g->log_guards]. *)
Fixpoint eliminate_unused_log_guards_from (g : MVMSpeshGraph)
    (lgs : list MVMSpeshLogGuard) : option MVMSpeshGraph :=
  match lgs with
  | [] => Some g
  | lg :: lgs' =>
      g ← (if used lg =? 0
           then MVM_spesh_manipulate_delete_ins g (lg_bb lg) (lg_ins lg)
           else Some g);
      eliminate_unused_log_guards_from g lgs'
  end.

(** [eliminate_unused_log_guards]. *)
Definition eliminate_unused_log_guards (g : MVMSpeshGraph)
    : option MVMSpeshGraph :=
  eliminate_unused_log_guards_from g (log_guards g).

(** ** The optimizer *)

(** [MVM_spesh_optimize]; [fuel] is handed to [optimize_bb]. *)
Definition MVM_spesh_optimize (fuel : nat) (g : MVMSpeshGraph)
    : option MVMSpeshGraph :=
  entry ← head (linear g);
  g ← optimize_bb fuel g entry;
  g ← eliminate_dead_ins g;
  g ← eliminate_dead_bbs g;
  eliminate_unused_log_guards g.
(* --------------------------------------------------------------------- *)
(** ** Properties of graphs                                               *)
(* --------------------------------------------------------------------- *)

(** The predicates the theorems about the optimizer are stated with. *)

(** The log guard index of the facts at [p] is in range whenever the facts
    depend on a log guard. *)
Definition log_guard_ok (g : MVMSpeshGraph) (p : factsptr) : Prop :=
  has_flag (flags (facts_at g p)) MVM_SPESH_FACT_FROM_LOG_GUARD = true ->
  is_Some (index (log_guards g) (log_guard (facts_at g p))).

(** The facts pointer a guard is tested against. *)
Definition guard_facts (arg_info : MVMSpeshCallInfo) (gd : MVMSpeshGuard)
    : option factsptr :=
  if slot gd <? MAX_ARGS_FOR_OPT
  then mjoin (arg_facts arg_info !! slot gd) else None.

(** What the guards ask of the facts of their argument, in the words of the
    specification. *)
Definition guard_holds (g : MVMSpeshGraph) (arg_info : MVMSpeshCallInfo)
    (gd : MVMSpeshGuard) : Prop :=
  exists p, guard_facts arg_info gd = Some p /\
    let f := facts_at g p in
    match kind gd with
    | MVM_SPESH_GUARD_CONC =>
        has_flag (flags f) MVM_SPESH_FACT_KNOWN_TYPE = true /\
        has_flag (flags f) MVM_SPESH_FACT_CONCRETE = true /\
        exists t, type f = Some t /\ STABLE t = match_st gd
    | MVM_SPESH_GUARD_TYPE =>
        has_flag (flags f) MVM_SPESH_FACT_KNOWN_TYPE = true /\
        has_flag (flags f) MVM_SPESH_FACT_TYPEOBJ = true /\
        exists t, type f = Some t /\ STABLE t = match_st gd
    | MVM_SPESH_GUARD_DC_CONC =>
        has_flag (flags f) MVM_SPESH_FACT_KNOWN_DECONT_TYPE = true /\
        has_flag (flags f) MVM_SPESH_FACT_DECONT_CONCRETE = true /\
        exists t, decont_type f = Some t /\ STABLE t = match_st gd
    | MVM_SPESH_GUARD_DC_TYPE =>
        has_flag (flags f) MVM_SPESH_FACT_KNOWN_DECONT_TYPE = true /\
        has_flag (flags f) MVM_SPESH_FACT_DECONT_TYPEOBJ = true /\
        exists t, decont_type f = Some t /\ STABLE t = match_st gd
    | MVM_SPESH_GUARD_other _ => False
    end.

(** The unused guards of [lgs] name instruction [i] of block [bb]. *)
Definition named_unused (lgs : list MVMSpeshLogGuard) (bb : bbptr)
    (i : insptr) : bool :=
  existsb (fun lg => (used lg =? 0) && (lg_bb lg =? bb) && (lg_ins lg =? i)) lgs.

Definition without_unused (lgs : list MVMSpeshLogGuard) (bb : bbptr)
    (b : MVMSpeshBB) : MVMSpeshBB :=
  set_instrs b (filter (fun i => negb (named_unused lgs bb i)) (instrs b)).

(** The instructions [eliminate_dead_ins] considers: a PHI, or a pure
    instruction whose first operand is a written register. *)
Definition dead_candidate (c : MVMSpeshIns) : bool :=
  is_phi c ||
  (pure (info c) &&
   (Z.land (info_operand (info c) 0) MVM_operand_rw_mask
    =? MVM_operand_write_reg)).

(** The register an instruction writes: its first operand. *)
Definition written_reg (c : MVMSpeshIns) : option factsptr :=
  ins_operands c !! 0%nat ≫= operand_reg.

(** A dead instruction: a candidate whose written register has no usages. *)
Definition is_dead (g : MVMSpeshGraph) (c : MVMSpeshIns) : Prop :=
  dead_candidate c = true /\
  exists p, written_reg c = Some p /\ usages (facts_at g p) = 0.

(** No dead instruction is left in the blocks of the chain. *)
Definition no_dead_ins (g : MVMSpeshGraph) : Prop :=
  forall bb b ins c,
    bb ∈ linear g -> bbs g !! bb = Some b -> ins ∈ instrs b ->
    ins_mem g !! ins = Some c -> ~ is_dead g c.

(** The instruction list of a block. *)
Definition blk_instrs (g : MVMSpeshGraph) (bb : bbptr) : list insptr :=
  default [] (instrs <$> bbs g !! bb).

(** What the pass needs of a candidate instruction to be defined: the
    operands it reads facts of are registers, and the log guards their facts
    name exist. *)
Definition operand_ok (g : MVMSpeshGraph) (c : MVMSpeshIns) (k : nat) : Prop :=
  exists p, ins_operands c !! k ≫= operand_reg = Some p /\ log_guard_ok g p.

Definition ins_ok (g : MVMSpeshGraph) (c : MVMSpeshIns) : Prop :=
  dead_candidate c = true ->
  operand_ok g c 0 /\
  forall k : nat,
    (1 <= k)%nat -> Z.of_nat k < num_operands (info c) ->
    (is_phi c = true \/
     Z.land (info_operand (info c) k) MVM_operand_rw_mask
     = MVM_operand_read_reg) ->
    operand_ok g c k.

Definition dead_ins_wf (g : MVMSpeshGraph) : Prop :=
  (forall bb, bb ∈ linear g -> is_Some (bbs g !! bb)) /\
  (forall bb ins, bb ∈ linear g -> ins ∈ blk_instrs g bb ->
     exists c, ins_mem g !! ins = Some c /\ ins_ok g c).

(** Operand [k] of [c] is one whose usage the removal of [c] gives back:
    the register [q], read by [c] (for a PHI, every operand after the
    first). *)
Definition drops_read (c : MVMSpeshIns) (reads_only : bool) (q : factsptr)
    (k : nat) : bool :=
  (negb reads_only ||
   (Z.land (info_operand (info c) k) MVM_operand_rw_mask
    =? MVM_operand_read_reg)) &&
  bool_decide (ins_operands c !! k ≫= operand_reg = Some q).

(** The number of such operands of [c], over the indices
    [1 .. num_operands - 1] of the loop. *)
Definition dropped_reads (c : MVMSpeshIns) (q : factsptr) : nat :=
  length (filter (fun k => drops_read c (negb (is_phi c)) q k)
            (seq 1 (Z.to_nat (num_operands (info c) - 1)))).

(** [g'] is [g] with some more log guards marked used. *)
Definition marks (g g' : MVMSpeshGraph) : Prop :=
  exists l, g' = set_log_guards g l /\
    length l = length (log_guards g) /\
    forall (k : nat) lg, log_guards g !! k = Some lg ->
      l !! k = Some lg \/ l !! k = Some (set_used lg).

(** [g'] is a later state of the pass started in [g]: usages and used flags
    may have changed, and instructions may have been unlinked. *)
Definition later (g g' : MVMSpeshGraph) : Prop :=
  ins_mem g' = ins_mem g /\ linear g' = linear g /\
  length (log_guards g') = length (log_guards g) /\
  (forall p, flags (facts_at g' p) = flags (facts_at g p) /\
             log_guard (facts_at g' p) = log_guard (facts_at g p)) /\
  (forall bb, is_Some (bbs g' !! bb) <-> is_Some (bbs g !! bb)) /\
  (forall bb, blk_instrs g' bb ⊆ blk_instrs g bb /\
              (length (blk_instrs g' bb) <= length (blk_instrs g bb))%nat).

(** One removal by [eliminate_dead_ins]: the block, the instruction, and
    the contents of the instruction. *)
Definition removal : Type := bbptr * insptr * MVMSpeshIns.

(** The usages of [q] that a list of removals gives back: one for every
    operand of a removed instruction that reads [q]. *)
Definition given_back (rem : list removal) (q : factsptr) : Z :=
  foldr (fun r s => Z.of_nat (dropped_reads r.2 q) + s) 0 rem.

(** The facts [f] with [n] usages less. *)
Definition less_usages (n : Z) (f : MVMSpeshFacts) : MVMSpeshFacts :=
  mkFacts (flags f) (type f) (decont_type f) (value f) (log_guard f)
    (usages f - n).

(** The block [b] without the instructions that [rem] removes from the
    block [bb]. *)
Definition without_removed (rem : list removal) (bb : bbptr)
    (b : MVMSpeshBB) : MVMSpeshBB :=
  set_instrs b (filter (fun i => (bb, i) ∉ rem.*1) (instrs b)).

(** [g'] is [g] with other facts, other blocks, and some more log guards
    marked used; everything else is the same. *)
Definition changes_within (g g' : MVMSpeshGraph) : Prop :=
  g' = set_bbs (set_log_guards (set_facts g (facts g')) (log_guards g'))
         (bbs g') /\
  length (log_guards g') = length (log_guards g) /\
  forall (k : nat) lg, log_guards g !! k = Some lg ->
    log_guards g' !! k = Some lg \/ log_guards g' !! k = Some (set_used lg).

(** The removals [rem], in this order, lead from the state [g1] to the
    state [g2] of a pass that started in [g0].
    - Every removed instruction is an instruction of a block of [g0], and
      was dead when it was removed: it is a candidate, and the register it
      writes had no usages left once the removals before it had given
      theirs back.
    - The facts of every register are what they were, with [usages] less by
      what the removals gave back.
    - Every block is what it was, without the removed instructions.
    - Nothing else changed but the used flags of log guards. *)
Definition cascade_from (g0 g1 g2 : MVMSpeshGraph) (rem : list removal)
    : Prop :=
  (forall (k : nat) bb ins c,
     rem !! k = Some (bb, ins, c) ->
     bb ∈ linear g0 /\ ins ∈ blk_instrs g0 bb /\
     ins_mem g0 !! ins = Some c /\
     dead_candidate c = true /\
     exists p, written_reg c = Some p /\
       usages (facts_at g1 p) - given_back (take k rem) p = 0) /\
  (forall q, facts_at g2 q = less_usages (given_back rem q) (facts_at g1 q)) /\
  (forall bb, bbs g2 !! bb = without_removed rem bb <$> bbs g1 !! bb) /\
  changes_within g1 g2.

(** The removals that lead from [g] to [g']. *)
Definition cascade (g g' : MVMSpeshGraph) (rem : list removal) : Prop :=
  cascade_from g g g' rem.

(** A [can] or [can_s] instruction. *)
Definition is_can (c : MVMSpeshIns) : bool :=
  match opcode (info c) with
  | MVM_OP_can | MVM_OP_can_s => true
  | _ => false
  end.

(** [g'] has every [can] and [can_s] instruction of [g], with the operands
    it had. *)
Definition keeps_can (g g' : MVMSpeshGraph) : Prop :=
  forall x c,
    ins_mem g !! x = Some c -> is_can c = true -> ins_mem g' !! x = Some c.

(** The services outside [optimize.c] that are handed the graph (the
    [spesh] hooks of the representations and of the container
    specifications, and the inliner) keep the [can] and [can_s]
    instructions. *)
Definition hooks_keep_can : Prop :=
  (forall t hook st g bb ins g',
     REPR_spesh t = Some hook -> hook st g bb ins = Some g' ->
     keeps_can g g') /\
  (forall st cs hook st' g bb ins g',
     st_container_spec st = Some cs -> cont_spesh cs = Some hook ->
     hook st' g bb ins = Some g' -> keeps_can g g') /\
  (forall g arg_info bb ins inline_graph target g',
     MVM_spesh_inline g arg_info bb ins inline_graph target = Some g' ->
     keeps_can g g').

(** ** More properties of graphs *)

(** The representation an [is*] op asks for. *)
Definition wanted_repr_id (op : Opcode) : option Z :=
  match op with
  | MVM_OP_islist => Some MVM_REPR_ID_MVMArray
  | MVM_OP_ishash => Some MVM_REPR_ID_MVMHash
  | MVM_OP_isint  => Some MVM_REPR_ID_P6int
  | MVM_OP_isnum  => Some MVM_REPR_ID_P6num
  | MVM_OP_isstr  => Some MVM_REPR_ID_P6str
  | _ => None
  end.

(** The facts [copy_facts] leaves in the target: those of the source, with
    the target's own [usages]. *)
Definition copied_facts (from to : MVMSpeshFacts) : MVMSpeshFacts :=
  mkFacts (flags from) (type from) (decont_type from) (value from)
    (log_guard from) (usages to).

(** The facts [optimize_decont] derives for the result of a [decont] that
    stays: what is known of the decontainerized value. *)
Definition decont_result_facts (obj res : MVMSpeshFacts) : MVMSpeshFacts :=
  let res1 :=
    if has_flag (flags obj) MVM_SPESH_FACT_KNOWN_DECONT_TYPE
    then or_flags MVM_SPESH_FACT_KNOWN_TYPE (with_type (decont_type obj) res)
    else res in
  if has_flag (flags obj) MVM_SPESH_FACT_DECONT_CONCRETE
  then or_flags MVM_SPESH_FACT_CONCRETE res1
  else if has_flag (flags obj) MVM_SPESH_FACT_DECONT_TYPEOBJ
  then or_flags MVM_SPESH_FACT_TYPEOBJ res1
  else res1.

(** [negated_op] of [optimize_iffy] for the two integer branches. *)
Definition int_branch_negated (op : Opcode) : option Z :=
  match op with
  | MVM_OP_if_i => Some 0
  | MVM_OP_unless_i => Some 1
  | _ => None
  end.

(** Why a candidate is passed over. *)
Definition candidate_rejected (g : MVMSpeshGraph) (arg_info : MVMSpeshCallInfo)
    (cand : MVMSpeshCandidate) : Prop :=
  ci_cs arg_info <> Some (cand_cs cand) \/
  exists gd, gd ∈ guards cand /\ ~ guard_holds g arg_info gd.

(** [g'] keeps of [g]: the instructions are the same objects, every block
    lists a subsequence of what it listed, and no instruction that is not a
    candidate for removal has been unlinked. *)
Definition keeps (g g' : MVMSpeshGraph) : Prop :=
  ins_mem g' = ins_mem g /\
  forall bb,
    blk_instrs g' bb `sublist_of` blk_instrs g bb /\
    forall x c, x ∈ blk_instrs g bb -> ins_mem g !! x = Some c ->
                dead_candidate c = false -> x ∈ blk_instrs g' bb.

(** The byte of [seen] for the block index [k] is never set. *)
Definition never_marked (seen : list Z) (k : Z) : Prop :=
  forall s, index seen k = Some s -> s = 0.

(** What a run of the loop leaves of the graph: everything but the chain
    and [num_bbs]. *)
Definition chain_of (g g' : MVMSpeshGraph) : Prop :=
  g' = set_linear g (linear g') (num_bbs g') /\
  linear g' `sublist_of` linear g /\
  num_bbs g' = num_bbs g
               - (Z.of_nat (length (linear g)) - Z.of_nat (length (linear g'))).

(** The operands whose facts a rewrite consults before it changes
    anything, for the ops whose rewrite depends on facts only. *)
Definition consulted_operands (op : Opcode) : option (list nat) :=
  match op with
  | MVM_OP_if_i | MVM_OP_unless_i | MVM_OP_if_n | MVM_OP_unless_n
  | MVM_OP_if_o | MVM_OP_unless_o => Some [0%nat]
  | MVM_OP_coerce_in => Some [1%nat]
  | MVM_OP_invoke_v => Some [0%nat]
  | MVM_OP_invoke_i | MVM_OP_invoke_n | MVM_OP_invoke_s | MVM_OP_invoke_o =>
      Some [1%nat]
  | MVM_OP_islist | MVM_OP_ishash | MVM_OP_isint | MVM_OP_isnum
  | MVM_OP_isstr => Some [1%nat]
  | MVM_OP_isconcrete => Some [1%nat]
  | MVM_OP_istype => Some [1%nat; 2%nat]
  | MVM_OP_create => Some [1%nat]
  | MVM_OP_bindattr_i | MVM_OP_bindattr_n | MVM_OP_bindattr_s
  | MVM_OP_bindattr_o | MVM_OP_bindattrs_i | MVM_OP_bindattrs_n
  | MVM_OP_bindattrs_s | MVM_OP_bindattrs_o => Some [0%nat]
  | MVM_OP_getattr_i | MVM_OP_getattr_n | MVM_OP_getattr_s
  | MVM_OP_getattr_o | MVM_OP_getattrs_i | MVM_OP_getattrs_n
  | MVM_OP_getattrs_s | MVM_OP_getattrs_o => Some [1%nat]
  | MVM_OP_box_i | MVM_OP_box_n | MVM_OP_box_s => Some [2%nat]
  | MVM_OP_unbox_i | MVM_OP_unbox_n | MVM_OP_unbox_s => Some [1%nat]
  | MVM_OP_elems => Some [1%nat]
  | MVM_OP_hllize => Some [1%nat]
  | MVM_OP_decont => Some [1%nat; 0%nat]
  | MVM_OP_assertparamcheck => Some [0%nat]
  | _ => None
  end.


End Optimizer.

(** ** A small VM for the examples *)

(** The op table of the examples: the operand flags of the ops that occur
    in them ([1] a read register, [2] a written register, [0] a literal),
    and which of them are pure. *)
Definition sample_op_info (op : Opcode) : MVMOpInfo :=
  match op with
  | MVM_OP_const_i64_16 => mkOpInfo op true 2 [2; 0]
  | MVM_OP_set => mkOpInfo op true 2 [2; 1]
  | MVM_OP_islist | MVM_OP_isnonnull => mkOpInfo op true 2 [2; 1]
  | MVM_OP_findmeth => mkOpInfo op false 3 [2; 1; 0]
  | MVM_OP_sp_findmeth => mkOpInfo op false 4 [2; 1; 0; 0]
  | MVM_OP_sp_getspeshslot => mkOpInfo op true 2 [2; 0]
  | MVM_OP_if_i | MVM_OP_unless_i => mkOpInfo op false 2 [1; 0]
  | MVM_OP_goto => mkOpInfo op false 1 [0]
  | MVM_OP_prepargs => mkOpInfo op false 1 [0]
  | MVM_OP_arg_o => mkOpInfo op false 2 [0; 1]
  | MVM_OP_invoke_o => mkOpInfo op false 2 [2; 1]
  | MVM_OP_can => mkOpInfo op false 3 [2; 1; 0]
  | MVM_OP_other 1 => mkOpInfo op false 1 [1]      (* an op reading a register *)
  | MVM_OP_other 2 => mkOpInfo op true 2 [2; 1]    (* a pure op with one input *)
  | MVM_OP_other 3 => mkOpInfo op true 1 [2]       (* a pure op without input *)
  | _ => mkOpInfo op false 0 []
  end.

(** The objects of the examples.
    - [100]: a type whose representation is [P6int]; its method cache holds
      the method [400] under the name [7] only.
    - [200]: an object with an invocation spec, whose attribute holds the
      code object [201].
    - [201]: a code object without specializations.
    - [202]: a code object with one specialization, for the callsite [500],
      guarded by "argument 0 is a concrete object with STable [1100]". *)
Definition sample_vm : VM := {|
  big_endian := false;
  MVM_SPESH_FACT_KNOWN_TYPE := 1;
  MVM_SPESH_FACT_KNOWN_VALUE := 2;
  MVM_SPESH_FACT_DECONTED := 4;
  MVM_SPESH_FACT_CONCRETE := 8;
  MVM_SPESH_FACT_TYPEOBJ := 16;
  MVM_SPESH_FACT_KNOWN_DECONT_TYPE := 32;
  MVM_SPESH_FACT_DECONT_CONCRETE := 64;
  MVM_SPESH_FACT_DECONT_TYPEOBJ := 128;
  MVM_SPESH_FACT_FROM_LOG_GUARD := 256;
  MVM_operand_rw_mask := 7;
  MVM_operand_read_reg := 1;
  MVM_operand_write_reg := 2;
  MVM_op_get_op := sample_op_info;
  MAX_ARGS_FOR_OPT := 4;
  MVM_SPESH_LOG_RUNS := 8;
  MVM_REPR_ID_MVMArray := 1;
  MVM_REPR_ID_MVMHash := 2;
  MVM_REPR_ID_P6int := 3;
  MVM_REPR_ID_P6num := 4;
  MVM_REPR_ID_P6str := 5;
  MVM_REPR_ID_MVMCode := 6;
  REPR_ID := fun o => if (o =? 201) || (o =? 202) then 6
                      else if o =? 100 then 3 else 0;
  REPR_spesh := fun _ => None;
  STABLE := fun o => o + 1000;
  IS_CONCRETE := fun _ => true;
  st_WHAT := fun st => Some (st - 1000);
  st_hll_owner := fun _ => 0;
  st_container_spec := fun _ => None;
  st_boolification_mode := fun _ => None;
  st_invocation_spec := fun st =>
    if st =? 1200 then Some (mkInvSpec (Some 300) 1 0 None 0 0 0 0) else None;
  MVM_6model_find_method_cache_only := fun t name =>
    match t with
    | Some 100 => if name =? 7 then Some 400 else None
    | _ => None
    end;
  MVM_6model_can_method_cache_only := fun t name =>
    match t with
    | Some 100 => if name =? 7 then 1 else 0
    | _ => -1
    end;
  MVM_6model_try_cache_type_check := fun _ _ => None;
  MVM_coerce_istrue := fun _ => 1;
  get_attribute_i64 := fun _ _ _ _ => 0;
  get_attribute_obj := fun o _ _ _ => if o =? 200 then Some 201 else None;
  MVM_multi_cache_find_spesh := fun _ _ _ => None;
  code_is_compiler_stub := fun _ => false;
  code_spesh_candidates := fun c =>
    if c =? 202
    then [mkCandidate 500 [mkGuard 0 MVM_SPESH_GUARD_CONC 1100]]
    else [];
  MVM_spesh_inline_try_get_graph := fun _ _ _ => None;
  MVM_spesh_inline := fun g _ _ _ _ _ => Some g;
  phi_drop_input := fun _ _ c => c
|}.

(** A graph with the given facts, instructions, blocks and chain, and
    nothing else. *)
Definition sample_graph (strs : list MVMString)
    (fs : list (factsptr * MVMSpeshFacts))
    (inss : list (insptr * MVMSpeshIns)) (bs : list (bbptr * MVMSpeshBB))
    (chain : list bbptr) : MVMSpeshGraph :=
  mkGraph (mkCU strs [500] 0) (list_to_map fs) [] [] [] 0 []
    (list_to_map inss) (list_to_map bs) chain (Z.of_nat (length chain)).

(** The number of operands of the instructions of the chain that read the
    register [r]. *)
Definition reads_of_ins `{VM} (c : MVMSpeshIns) (r : factsptr) : nat :=
  length (filter (fun '(k, o) =>
                    (Z.land (info_operand (info c) k) MVM_operand_rw_mask
                     = MVM_operand_read_reg) /\ operand_reg o = Some r)
                 (imap (fun k o => (k, o)) (ins_operands c))).

Definition read_references `{VM} (g : MVMSpeshGraph) (r : factsptr) : nat :=
  sum_list
    (map (fun bb =>
            sum_list
              (map (fun i => default 0%nat
                               ((fun c => reads_of_ins c r) <$> ins_mem g !! i))
                   (default [] (instrs <$> bbs g !! bb))))
         (linear g)).

End Spesh.

(* ===================================================================== *)
(** * Example inputs                                                      *)
(* ===================================================================== *)

Module Examples.

Import Spesh.

(** Three callsites with three object arguments each ([MVM_CALLSITE_ARG_OBJ]
    is written 1); the third differs from the first two in its second
    flag. *)
Definition callsite_heap : gmap ptr Callsite.MVMCallsite :=
  list_to_map
    [(1, Callsite.mkCallsite [1; 1; 1] 3 3 false false None);
     (2, Callsite.mkCallsite [1; 1; 1] 3 3 false false None);
     (3, Callsite.mkCallsite [1; 2; 1] 3 3 false false None)].

(** Three callsites with one positional and one named argument.  The
    second has the name of the first (the array of the second holds a
    further entry, which is not a name of the callsite); the third has
    another name. *)
Definition named_callsite_heap : gmap ptr Callsite.MVMCallsite :=
  list_to_map
    [(1, Callsite.mkCallsite [1; 33] 3 1 false false (Some [7; 8]));
     (2, Callsite.mkCallsite [1; 33] 3 1 false false (Some [7; 9]));
     (3, Callsite.mkCallsite [1; 33] 3 1 false false (Some [9]))].

(** [r1 := islist r2; use r1], where the type of [r2] is known to be the
    [P6int] type [100].  Each register is read once. *)
Definition g_islist : MVMSpeshGraph :=
  sample_graph []
    [((1, 0), mkFacts 0 None None value_unset 0 1);
     ((2, 0), mkFacts 1 (Some 100) None value_unset 0 1)]
    [(10, mkIns (sample_op_info MVM_OP_islist) [reg 1 0; reg 2 0]);
     (11, mkIns (sample_op_info (MVM_OP_other 1)) [reg 1 0])]
    [(1, mkBB 0 [10; 11] [] [] false)]
    [1].

(** [prepargs; arg_o 0, r3; r1 := invoke_o r2; use r1], where [r2] is known
    to hold the object [200], whose invocation spec leads to the code object
    [201]. *)
Definition g_invoke : MVMSpeshGraph :=
  sample_graph []
    [((1, 0), mkFacts 0 None None value_unset 0 1);
     ((2, 0), mkFacts 2 None None (value_o 200) 0 1);
     ((3, 0), mkFacts 0 None None value_unset 0 1)]
    [(10, mkIns (sample_op_info MVM_OP_prepargs) [callsite_idx 0]);
     (11, mkIns (sample_op_info MVM_OP_arg_o) [lit_i16 0; reg 3 0]);
     (12, mkIns (sample_op_info MVM_OP_invoke_o) [reg 1 0; reg 2 0]);
     (13, mkIns (sample_op_info (MVM_OP_other 1)) [reg 1 0])]
    [(1, mkBB 0 [10; 11; 12; 13] [] [] false)]
    [1].

(** Block 1 ends in the branch [op r1, block 3] and falls through to
    block 2; [r1] is known to be the integer 0. *)
Definition g_branch (op : Opcode) : MVMSpeshGraph :=
  sample_graph []
    [((1, 0), mkFacts 2 None None (value_i64 0) 0 1)]
    [(10, mkIns (sample_op_info op) [reg 1 0; ins_bb 3])]
    [(1, mkBB 0 [10] [2; 3] [2; 3] false);
     (2, mkBB 1 [] [] [] false);
     (3, mkBB 2 [] [] [] false)]
    [1; 2; 3].

(** [r1 := pure_op(); r2 := pure_op(r1); r3 := pure_op(r2)] where [r3] is
    not used. *)
Definition g_chain : MVMSpeshGraph :=
  sample_graph []
    [((1, 0), mkFacts 0 None None value_unset 0 1);
     ((2, 0), mkFacts 0 None None value_unset 0 1);
     ((3, 0), mkFacts 0 None None value_unset 0 0)]
    [(10, mkIns (sample_op_info (MVM_OP_other 3)) [reg 1 0]);
     (11, mkIns (sample_op_info (MVM_OP_other 2)) [reg 2 0; reg 1 0]);
     (12, mkIns (sample_op_info (MVM_OP_other 2)) [reg 3 0; reg 2 0])]
    [(1, mkBB 0 [10; 11; 12] [] [] false)]
    [1].

(** Five blocks in a chain.  Block 2 is not a successor of any block; block
    4 is not either, but is inlined. *)
Definition g_blocks : MVMSpeshGraph :=
  sample_graph [] [] []
    [(1, mkBB 0 [] [3] [] false);
     (2, mkBB 1 [] [3] [] false);
     (3, mkBB 2 [] [5] [] false);
     (4, mkBB 3 [] [5] [] true);
     (5, mkBB 4 [] [] [] false)]
    [1; 2; 3; 4; 5].

(** [r1 := findmeth r2, "name"], where the name is the string of the given
    handle and the type of [r2] is known to be the type [100]. *)
Definition g_findmeth (name : MVMString) : MVMSpeshGraph :=
  sample_graph [name]
    [((1, 0), mkFacts 0 None None value_unset 0 1);
     ((2, 0), mkFacts 1 (Some 100) None value_unset 0 1)]
    [(10, mkIns (sample_op_info MVM_OP_findmeth)
            [reg 1 0; reg 2 0; lit_str_idx 0])]
    [(1, mkBB 0 [10] [] [] false)]
    [1].

(** [r1 := can r2, "name"; use r1] with the type of [r2] known. *)
Definition g_can : MVMSpeshGraph :=
  sample_graph [7]
    [((1, 0), mkFacts 0 None None value_unset 0 1);
     ((2, 0), mkFacts 1 (Some 100) None value_unset 0 1)]
    [(10, mkIns (sample_op_info MVM_OP_can) [reg 1 0; reg 2 0; lit_str_idx 0]);
     (11, mkIns (sample_op_info (MVM_OP_other 1)) [reg 1 0])]
    [(1, mkBB 0 [10; 11] [] [] false)]
    [1].

(** [r2 := set r3; r1 := can r2, "name"], where the type of [r3] is known
    and nothing is known of [r2]. *)
Definition g_set_can : MVMSpeshGraph :=
  sample_graph [7]
    [((1, 0), mkFacts 0 None None value_unset 0 1);
     ((2, 0), mkFacts 0 None None value_unset 0 1);
     ((3, 0), mkFacts 1 (Some 100) None value_unset 0 1)]
    [(10, mkIns (sample_op_info MVM_OP_set) [reg 2 0; reg 3 0]);
     (11, mkIns (sample_op_info MVM_OP_can) [reg 1 0; reg 2 0; lit_str_idx 0])]
    [(1, mkBB 0 [10; 11] [] [] false)]
    [1].

(** The facts of the argument register [r3] of a call with callsite [500]:
    a concrete object of the type [100]. *)
Definition g_arg : MVMSpeshGraph :=
  sample_graph [] [((3, 0), mkFacts 9 (Some 100) None value_unset 0 1)] [] [] [].

Definition call_info : MVMSpeshCallInfo :=
  mkCallInfo (Some 500) None ∅ {[0 := Some (3, 0)]} ∅.

(** A block with two guard instructions, [20] and [21], of the log guards 0
    and 1; the facts of [r1] come from log guard 0, and no log guard has
    been used yet. *)
Definition g_guards : MVMSpeshGraph :=
  mkGraph (mkCU [] [500] 0)
    {[(1, 0) := mkFacts 257 (Some 100) None value_unset 0 1]}
    [mkLogGuard 20 1 0; mkLogGuard 21 1 0] [] [] 0 []
    (list_to_map
       [(20, mkIns (sample_op_info (MVM_OP_other 1)) [reg 1 0]);
        (21, mkIns (sample_op_info (MVM_OP_other 1)) [reg 2 0]);
        (22, mkIns (sample_op_info MVM_OP_islist) [reg 3 0; reg 1 0])])
    {[1 := mkBB 0 [20; 21; 22] [] [] false]} [1] 1.

(** Six blocks in a chain; the blocks 2 and 4 are not successors of any
    block, and block 5 is a successor of these two only. *)
Definition g_stale : MVMSpeshGraph :=
  sample_graph [] [] []
    [(1, mkBB 0 [] [3; 6] [] false);
     (2, mkBB 1 [] [5] [] false);
     (3, mkBB 2 [] [6] [] false);
     (4, mkBB 3 [] [5] [] false);
     (5, mkBB 4 [] [6] [] false);
     (6, mkBB 5 [] [] [] false)]
    [1; 2; 3; 4; 5; 6].

(** Two blocks; the last one is not a successor of any block. *)
Definition g_last : MVMSpeshGraph :=
  sample_graph [] [] []
    [(1, mkBB 0 [] [] [] false);
     (2, mkBB 1 [] [] [] false)]
    [1; 2].

(** [r1 := op r2], with the given facts of [r2]. *)
Definition g_unary (op : Opcode) (f2 : MVMSpeshFacts) : MVMSpeshGraph :=
  sample_graph []
    [((1, 0), mkFacts 0 None None value_unset 0 1); ((2, 0), f2)]
    [(10, mkIns (sample_op_info op) [reg 1 0; reg 2 0])]
    [(1, mkBB 0 [10] [] [] false)]
    [1].

(** [r1 := istype r2, r3], where the types of [r2] and [r3] are known. *)
Definition g_istype : MVMSpeshGraph :=
  sample_graph []
    [((1, 0), mkFacts 0 None None value_unset 0 1);
     ((2, 0), mkFacts 1 (Some 100) None value_unset 0 1);
     ((3, 0), mkFacts 1 (Some 100) None value_unset 0 1)]
    [(10, mkIns (sample_op_info MVM_OP_istype) [reg 1 0; reg 2 0; reg 3 0])]
    [(1, mkBB 0 [10] [] [] false)]
    [1].

(** The blocks of [g_branch], with [r1] known to be the integer [v]. *)
Definition g_branch_int (op : Opcode) (v : Z) : MVMSpeshGraph :=
  sample_graph []
    [((1, 0), mkFacts 2 None None (value_i64 v) 0 1)]
    [(10, mkIns (sample_op_info op) [reg 1 0; ins_bb 3])]
    [(1, mkBB 0 [10] [2; 3] [2; 3] false);
     (2, mkBB 1 [] [] [] false);
     (3, mkBB 2 [] [] [] false)]
    [1; 2; 3].

(** [r1 := invoke_o r2], where [r2] is known to hold the code object [202]
    and the argument register [r3] a concrete object of the type [100]. *)
Definition g_fastinvoke : MVMSpeshGraph :=
  sample_graph []
    [((1, 0), mkFacts 0 None None value_unset 0 1);
     ((2, 0), mkFacts 2 None None (value_o 202) 0 1);
     ((3, 0), mkFacts 9 (Some 100) None value_unset 0 1)]
    [(12, mkIns (sample_op_info MVM_OP_invoke_o) [reg 1 0; reg 2 0])]
    [(1, mkBB 0 [12] [] [] false)]
    [1].

(** The blocks of [g_branch], with [r1] known and its value union holding
    [v]. *)
Definition g_branch_stored (op : Opcode) (v : MVMSpeshValue) : MVMSpeshGraph :=
  sample_graph []
    [((1, 0), mkFacts 2 None None v 0 1)]
    [(10, mkIns (sample_op_info op) [reg 1 0; ins_bb 3])]
    [(1, mkBB 0 [10] [2; 3] [2; 3] false);
     (2, mkBB 1 [] [] [] false);
     (3, mkBB 2 [] [] [] false)]
    [1; 2; 3].

(** Block 1 is [r1 := isconcrete r2; if_i r1, block 3] and falls through to
    block 2; the facts of [r2] are given. *)
Definition g_isconcrete_branch (f2 : MVMSpeshFacts) : MVMSpeshGraph :=
  sample_graph []
    [((1, 0), mkFacts 0 None None value_unset 0 1); ((2, 0), f2)]
    [(10, mkIns (sample_op_info MVM_OP_isconcrete) [reg 1 0; reg 2 0]);
     (11, mkIns (sample_op_info MVM_OP_if_i) [reg 1 0; ins_bb 3])]
    [(1, mkBB 0 [10; 11] [2; 3] [2; 3] false);
     (2, mkBB 1 [] [] [] false);
     (3, mkBB 2 [] [] [] false)]
    [1; 2; 3].

(** A call like [call_info], with the callsite [501]. *)
Definition other_call_info : MVMSpeshCallInfo :=
  mkCallInfo (Some 501) None ∅ {[0 := Some (3, 0)]} ∅.

End Examples.

(* ===================================================================== *)
(** * Heap snapshots ([src/profiler/heapsnapshot.c])                      *)
(* ===================================================================== *)

Module HeapSnapshot.

Import String.StringSyntax.

(** A C string: the characters before the terminating NUL.  [strcmp]
    returns 0 on two strings exactly when they hold the same characters. *)
Definition cstr := String.string.

(** Conversion to [MVMuint64]. *)
Definition to_uint64 (z : Z) : Z := z mod 2 ^ 64.

(** What [heapsnapshot.h] declares and this file uses: the constants, the
    sizes of the structs, and the types of the two counters of a
    collectable, given as the conversions to them. *)
Class ABI : Type := mkABI {
  MVM_SNAPSHOT_REF_KIND_BITS   : Z;
  MVM_SNAPSHOT_REF_KIND_STRING : Z;
  MVM_SNAPSHOT_COL_KIND_PERM_ROOTS     : Z;
  MVM_SNAPSHOT_COL_KIND_INSTANCE_ROOTS : Z;
  MVM_SNAPSHOT_COL_KIND_CSTACK_ROOTS   : Z;
  MVM_SNAPSHOT_COL_KIND_THREAD_ROOTS   : Z;
  MVM_SNAPSHOT_COL_KIND_ROOT           : Z;
  to_refs_start : Z -> Z;
  to_num_refs   : Z -> Z;
  sizeof_ptr         : Z;
  sizeof_snapshot    : Z;
  sizeof_collectable : Z;
  sizeof_reference   : Z;
  sizeof_workitem    : Z
}.

(** [struct MVMHeapSnapshotCollectable]. *)
Record MVMHeapSnapshotCollectable : Type := mkCollectable {
  kind                : Z;
  type_or_frame_index : Z;
  collectable_size    : Z;
  unmanaged_size      : Z;
  refs_start          : Z;
  num_refs            : Z
}.

(** [struct MVMHeapSnapshotReference]. *)
Record MVMHeapSnapshotReference : Type := mkReference {
  description       : Z;
  collectable_index : Z
}.

(** [struct MVMHeapSnapshot].  An array is the list of the cells of its
    allocation; the [alloc_] counter is kept beside it as in the source. *)
Record MVMHeapSnapshot : Type := mkSnapshot {
  collectables       : list MVMHeapSnapshotCollectable;
  num_collectables   : Z;
  alloc_collectables : Z;
  references         : list MVMHeapSnapshotReference;
  num_references     : Z;
  alloc_references   : Z
}.

(** [struct MVMHeapSnapshotWorkItem]. *)
Record MVMHeapSnapshotWorkItem : Type := mkWorkItem {
  wi_kind : Z;
  col_idx : Z;
  target  : option ptr
}.

(** [struct MVMHeapSnapshotCollection], the fields this file uses.  A cell
    of [strings] is a [char *]: [None] is [NULL]. *)
Record MVMHeapSnapshotCollection : Type := mkCollection {
  snapshots          : list MVMHeapSnapshot;
  num_snapshots      : Z;
  alloc_snapshots    : Z;
  strings            : list (option cstr);
  num_strings        : Z;
  alloc_strings      : Z;
  strings_free       : list Z;
  num_strings_free   : Z;
  alloc_strings_free : Z
}.

(** [struct MVMHeapSnapshotState]; [col] and [hs] are the objects the two
    pointers of the struct point to. *)
Record MVMHeapSnapshotState : Type := mkSnapState {
  col             : MVMHeapSnapshotCollection;
  hs              : MVMHeapSnapshot;
  workitems       : list MVMHeapSnapshotWorkItem;
  num_workitems   : Z;
  alloc_workitems : Z;
  ref_from        : Z
}.

(** The all-zero values that [memset] and [MVM_calloc] leave. *)
Definition zero_collectable : MVMHeapSnapshotCollectable :=
  mkCollectable 0 0 0 0 0 0.
Definition zero_reference : MVMHeapSnapshotReference := mkReference 0 0.
Definition zero_snapshot : MVMHeapSnapshot := mkSnapshot [] 0 0 [] 0 0.
Definition zero_workitem : MVMHeapSnapshotWorkItem := mkWorkItem 0 0 None.
Definition zero_collection : MVMHeapSnapshotCollection :=
  mkCollection [] 0 0 [] 0 0 [] 0 0.

(** [a[i]] and [a[i] = v] on an array kept as the list of its cells; outside
    the allocation there is no defined result. *)
Definition cell {A} (a : list A) (i : Z) : option A :=
  if i <? 0 then None else a !! Z.to_nat i.

Definition set_cell {A} (a : list A) (i : Z) (v : A) : option (list A) :=
  if decide (0 <= i /\ (Z.to_nat i < length a)%nat)
  then Some (<[Z.to_nat i := v]> a) else None.

Section Snapshots.

Context `{abi : ABI}.

(** ** The instance *)

(** [tc->instance->heap_snapshots]: [None] is [NULL]. *)
Definition instance : Type := option MVMHeapSnapshotCollection.

(** [MVM_profile_heap_profiling]. *)
Definition MVM_profile_heap_profiling (inst : instance) : bool :=
  bool_decide (is_Some inst).

(** [MVM_profile_heap_start]. *)
Definition MVM_profile_heap_start (inst : instance) : instance :=
  Some zero_collection.

(** ** Storage *)

(** [grow_storage(&store, &num, &alloc, size)]: the new [store] and
    [alloc].  [MVM_realloc] keeps the cells of the old allocation that fit
    the new one, and [memset] clears the cells from index [num] on.  There
    is no defined result when the size in bytes does not fit a [size_t], or
    when cells below [num] were never allocated. *)
Definition grow_storage {A} (zero : A) (store : list A) (num alloc size : Z)
    : option (list A * Z) :=
  if num =? alloc then
    let alloc' := if negb (alloc =? 0) then to_uint64 (2 * alloc) else 32 in
    if decide (alloc' * size < 2 ^ 64 /\ num <= alloc' /\
               (Z.to_nat num <= length store)%nat)
    then Some (take (Z.to_nat num) store
                 ++ replicate (Z.to_nat (alloc' - num)) zero, alloc')
    else None
  else Some (store, alloc).

(** ** The string heap *)

(** The loop of [get_string_index] from index [i], with [todo] iterations
    left: the index of the first string equal to [str]. *)
Fixpoint find_string (strs : list (option cstr)) (str : cstr) (i : Z)
    (todo : nat) : option (option Z) :=
  match todo with
  | O => Some None
  | S todo' =>
      c ← cell strs i;
      s ← c;
      if String.eqb s str then Some (Some i)
      else find_string strs str (i + 1) todo'
  end.

(** [get_string_index(tc, ss, str, is_const)] on the collection [ss->col]:
    the index, and the collection afterwards. *)
Definition get_string_index (c : MVMHeapSnapshotCollection) (str : cstr)
    (is_const : bool) : option (Z * MVMHeapSnapshotCollection) :=
  found ← find_string (strings c) str 0 (Z.to_nat (num_strings c));
  match found with
  | Some i => Some (i, c)
  | None =>
      '(strs, alloc_s) ←
        grow_storage None (strings c) (num_strings c) (alloc_strings c)
          sizeof_ptr;
      '(sfree, alloc_f) ←
        grow_storage 0 (strings_free c) (num_strings_free c)
          (alloc_strings_free c) 1;
      strs ← set_cell strs (num_strings c) (Some str);
      sfree ← set_cell sfree (num_strings c) (if is_const then 0 else 1);
      Some (num_strings c,
            mkCollection (snapshots c) (num_snapshots c) (alloc_snapshots c)
              strs (to_uint64 (num_strings c + 1)) alloc_s
              sfree (num_strings_free c) alloc_f)
  end.

(** ** The work list *)

Definition set_hs (ss : MVMHeapSnapshotState) (h : MVMHeapSnapshot) :=
  mkSnapState (col ss) h (workitems ss) (num_workitems ss)
    (alloc_workitems ss) (ref_from ss).

Definition set_col (ss : MVMHeapSnapshotState) (c : MVMHeapSnapshotCollection) :=
  mkSnapState c (hs ss) (workitems ss) (num_workitems ss)
    (alloc_workitems ss) (ref_from ss).

(** [push_workitem(tc, ss, kind, target)]: the collectable index returned,
    and the state afterwards.  The work item is given a [NULL] target,
    whatever [target] is. *)
Definition push_workitem (ss : MVMHeapSnapshotState) (kind : Z)
    (target : option ptr) : option (Z * MVMHeapSnapshotState) :=
  let kind := Spesh.to_uint16 kind in
  let h := hs ss in
  '(cols, alloc_c) ←
    grow_storage zero_collectable (collectables h) (num_collectables h)
      (alloc_collectables h) sizeof_collectable;
  let col_idx := num_collectables h in
  let h := mkSnapshot cols (to_uint64 (num_collectables h + 1)) alloc_c
             (references h) (num_references h) (alloc_references h) in
  '(wis, alloc_w) ←
    grow_storage zero_workitem (workitems ss) (num_workitems ss)
      (alloc_workitems ss) sizeof_workitem;
  wis ← set_cell wis (num_workitems ss) (mkWorkItem kind col_idx None);
  Some (col_idx,
        mkSnapState (col ss) h wis (to_uint64 (num_workitems ss + 1)) alloc_w
          (ref_from ss)).

(** [pop_workitem]. *)
Definition pop_workitem (ss : MVMHeapSnapshotState)
    : option (MVMHeapSnapshotWorkItem * MVMHeapSnapshotState) :=
  let n := to_uint64 (num_workitems ss - 1) in
  wi ← cell (workitems ss) n;
  Some (wi, mkSnapState (col ss) (hs ss) (workitems ss) n
              (alloc_workitems ss) (ref_from ss)).

(** ** References *)

Definition set_collectable (h : MVMHeapSnapshot) (i : Z)
    (f : MVMHeapSnapshotCollectable -> MVMHeapSnapshotCollectable)
    : option MVMHeapSnapshot :=
  c ← cell (collectables h) i;
  cols ← set_cell (collectables h) i (f c);
  Some (mkSnapshot cols (num_collectables h) (alloc_collectables h)
          (references h) (num_references h) (alloc_references h)).

(** [set_ref_from]; no result when the function panics. *)
Definition set_ref_from (ss : MVMHeapSnapshotState) (col_idx : Z)
    : option MVMHeapSnapshotState :=
  c ← cell (collectables (hs ss)) col_idx;
  if negb (num_refs c =? 0) then None
  else
    h ← set_collectable (hs ss) col_idx (fun c =>
           mkCollectable (kind c) (type_or_frame_index c) (collectable_size c)
             (unmanaged_size c) (to_refs_start (num_references (hs ss)))
             (num_refs c));
    Some (mkSnapState (col ss) h (workitems ss) (num_workitems ss)
            (alloc_workitems ss) col_idx).

(** [add_reference(tc, ss, ref_kind, index, to)]. *)
Definition add_reference (ss : MVMHeapSnapshotState) (ref_kind index to : Z)
    : option MVMHeapSnapshotState :=
  if decide (0 <= MVM_SNAPSHOT_REF_KIND_BITS < 64) then
    let description :=
      Z.lor (to_uint64 (Z.shiftl index MVM_SNAPSHOT_REF_KIND_BITS))
            (Spesh.to_uint16 ref_kind) in
    let h := hs ss in
    '(refs, alloc_r) ←
      grow_storage zero_reference (references h) (num_references h)
        (alloc_references h) sizeof_reference;
    refs ← set_cell refs (num_references h) (mkReference description to);
    let h := mkSnapshot (collectables h) (num_collectables h)
               (alloc_collectables h) refs (to_uint64 (num_references h + 1))
               alloc_r in
    h ← set_collectable h (ref_from ss) (fun c =>
           mkCollectable (kind c) (type_or_frame_index c) (collectable_size c)
             (unmanaged_size c) (refs_start c) (to_num_refs (num_refs c + 1)));
    Some (set_hs ss h)
  else None.

(** [add_reference_cstr] and [add_reference_const_cstr]. *)
Definition add_reference_cstr (ss : MVMHeapSnapshotState) (s : cstr) (to : Z)
    : option MVMHeapSnapshotState :=
  '(str_idx, c) ← get_string_index (col ss) s false;
  add_reference (set_col ss c) MVM_SNAPSHOT_REF_KIND_STRING str_idx to.

Definition add_reference_const_cstr (ss : MVMHeapSnapshotState) (s : cstr)
    (to : Z) : option MVMHeapSnapshotState :=
  '(str_idx, c) ← get_string_index (col ss) s true;
  add_reference (set_col ss c) MVM_SNAPSHOT_REF_KIND_STRING str_idx to.

(** ** Recording *)

(** The four kinds of roots, with the descriptions of their references, in
    the order [process_workitems] adds them. *)
Local Open Scope string_scope.

Definition root_kinds : list (cstr * Z) :=
  [("Permanent Roots", MVM_SNAPSHOT_COL_KIND_PERM_ROOTS);
   ("VM Instance Roots", MVM_SNAPSHOT_COL_KIND_INSTANCE_ROOTS);
   ("C Stack Roots", MVM_SNAPSHOT_COL_KIND_CSTACK_ROOTS);
   ("Thread Roots", MVM_SNAPSHOT_COL_KIND_THREAD_ROOTS)].

Local Close Scope string_scope.

(** The four statements of the case [MVM_SNAPSHOT_COL_KIND_ROOT]: the
    argument [push_workitem(..)] is evaluated before the call of
    [add_reference_const_cstr]. *)
Fixpoint add_roots (ss : MVMHeapSnapshotState) (l : list (cstr * Z))
    : option MVMHeapSnapshotState :=
  match l with
  | [] => Some ss
  | (name, k) :: l' =>
      '(to, ss) ← push_workitem ss k None;
      ss ← add_reference_const_cstr ss name to;
      add_roots ss l'
  end.

(** The body of the loop of [process_workitems]; no result when the
    function panics. *)
Definition process_workitem (ss : MVMHeapSnapshotState)
    : option MVMHeapSnapshotState :=
  '(item, ss) ← pop_workitem ss;
  h ← set_collectable (hs ss) (col_idx item) (fun c =>
         mkCollectable (wi_kind item) (type_or_frame_index c)
           (collectable_size c) (unmanaged_size c) (refs_start c) (num_refs c));
  ss ← set_ref_from (set_hs ss h) (col_idx item);
  if wi_kind item =? MVM_SNAPSHOT_COL_KIND_PERM_ROOTS then Some ss
  else if wi_kind item =? MVM_SNAPSHOT_COL_KIND_INSTANCE_ROOTS then Some ss
  else if wi_kind item =? MVM_SNAPSHOT_COL_KIND_CSTACK_ROOTS then Some ss
  else if wi_kind item =? MVM_SNAPSHOT_COL_KIND_THREAD_ROOTS then Some ss
  else if wi_kind item =? MVM_SNAPSHOT_COL_KIND_ROOT then add_roots ss root_kinds
  else None.

(** [process_workitems]: the outer [None] when [fuel] iterations do not
    empty the work list. *)
Fixpoint process_workitems (fuel : nat) (ss : MVMHeapSnapshotState)
    : option (option MVMHeapSnapshotState) :=
  if 0 <? num_workitems ss then
    match fuel with
    | O => None
    | S fuel' =>
        match process_workitem ss with
        | None => Some None
        | Some ss' => process_workitems fuel' ss'
        end
    end
  else Some (Some ss).

(** [record_snapshot(tc, col, hs)]: the collection and the snapshot
    afterwards.  The root item puts four more on the work list, so five
    iterations empty it and the sixth test of the loop ends it. *)
Definition record_snapshot (c : MVMHeapSnapshotCollection)
    (h : MVMHeapSnapshot)
    : option (MVMHeapSnapshotCollection * MVMHeapSnapshot) :=
  let ss := mkSnapState c h [] 0 0 0 in
  '(_, ss) ← push_workitem ss MVM_SNAPSHOT_COL_KIND_ROOT None;
  ss ← mjoin (process_workitems 6 ss);
  Some (col ss, hs ss).

(** [MVM_profile_heap_take_snapshot]. *)
Definition MVM_profile_heap_take_snapshot (inst : instance)
    : option instance :=
  match inst with
  | Some c =>
      '(snaps, alloc) ←
        grow_storage zero_snapshot (snapshots c) (num_snapshots c)
          (alloc_snapshots c) sizeof_snapshot;
      h ← cell snaps (num_snapshots c);
      let c := mkCollection snaps (num_snapshots c) alloc (strings c)
                 (num_strings c) (alloc_strings c) (strings_free c)
                 (num_strings_free c) (alloc_strings_free c) in
      '(c, h) ← record_snapshot c h;
      snaps ← set_cell (snapshots c) (num_snapshots c) h;
      Some (Some (mkCollection snaps (to_uint64 (num_snapshots c + 1))
                    (alloc_snapshots c) (strings c) (num_strings c)
                    (alloc_strings c) (strings_free c) (num_strings_free c)
                    (alloc_strings_free c)))
  | None => Some None
  end.

End Snapshots.


(** ** Properties of the storage *)

Section SnapshotProperties.

Context `{abi : ABI}.

(** An array with its two [MVMuint64] counters, as [grow_storage] keeps
    it: [num] of the [alloc] cells are in use, and the list holds the
    [alloc] cells. *)
Definition storage_ok {A} (store : list A) (num alloc : Z) : Prop :=
  0 <= num <= alloc /\ alloc < 2 ^ 64 /\ Z.of_nat (length store) = alloc.

(** The three numbers [references_str] prints for a reference: the kind
    [description & ((1 << MVM_SNAPSHOT_REF_KIND_BITS) - 1)], the index
    [description >> MVM_SNAPSHOT_REF_KIND_BITS], and the target.  The mask
    is computed in [int]. *)
Definition reference_fields (r : MVMHeapSnapshotReference)
    : option (Z * Z * Z) :=
  if decide (0 <= MVM_SNAPSHOT_REF_KIND_BITS < 31) then
    Some (Z.land (description r)
            (Z.shiftl 1 MVM_SNAPSHOT_REF_KIND_BITS - 1),
          Z.shiftr (description r) MVM_SNAPSHOT_REF_KIND_BITS,
          collectable_index r)
  else None.

(** The string heap of a collection: the cells in use hold strings, and no
    string is held twice. *)
Definition strings_ok (c : MVMHeapSnapshotCollection) : Prop :=
  storage_ok (strings c) (num_strings c) (alloc_strings c) /\
  (forall j, 0 <= j < num_strings c ->
     exists s, cell (strings c) j = Some (Some s)) /\
  (forall j k s, 0 <= j < num_strings c -> 0 <= k < num_strings c ->
     cell (strings c) j = Some (Some s) -> cell (strings c) k = Some (Some s) ->
     j = k).

(** The three arrays of a snapshot in the making. *)
Definition state_ok (ss : MVMHeapSnapshotState) : Prop :=
  storage_ok (workitems ss) (num_workitems ss) (alloc_workitems ss) /\
  storage_ok (collectables (hs ss)) (num_collectables (hs ss))
    (alloc_collectables (hs ss)) /\
  storage_ok (references (hs ss)) (num_references (hs ss))
    (alloc_references (hs ss)).

(** What the code takes for granted of [heapsnapshot.h]: a struct has a
    size, 32 of them fit the address space, the kinds are [MVMuint16]
    values, the root kind is none of the four kinds below it, a string
    reference kind fits the bits kept for it, and the two counters of a
    collectable hold the numbers up to 4. *)
Definition abi_ok : Prop :=
  Forall (fun size => 0 < size /\ 32 * size < 2 ^ 64)
    [sizeof_snapshot; sizeof_collectable; sizeof_reference; sizeof_workitem] /\
  Forall (fun k => 0 <= k < 65536)
    (MVM_SNAPSHOT_COL_KIND_ROOT :: root_kinds.*2) /\
  (MVM_SNAPSHOT_COL_KIND_ROOT ∉ root_kinds.*2) /\
  0 <= MVM_SNAPSHOT_REF_KIND_BITS < 31 /\
  0 <= MVM_SNAPSHOT_REF_KIND_STRING < 2 ^ MVM_SNAPSHOT_REF_KIND_BITS /\
  MVM_SNAPSHOT_REF_KIND_STRING < 65536 /\
  (forall n, 0 <= n <= 4 -> to_refs_start n = n /\ to_num_refs n = n).

(** Strings looked up or added one after the other: the indices, in the
    order of the strings, and the collection afterwards. *)
Fixpoint add_strings (c : MVMHeapSnapshotCollection) (l : list (cstr * bool))
    : option (list Z * MVMHeapSnapshotCollection) :=
  match l with
  | [] => Some ([], c)
  | (s, is_const) :: l' =>
      r ← get_string_index c s is_const;
      r' ← add_strings r.2 l';
      Some (r.1 :: r'.1, r'.2)
  end.

(** The descriptions of the four root references, as
    [add_reference_const_cstr] passes them. *)
Definition root_names : list (cstr * bool) :=
  map (fun r => (r.1, true)) root_kinds.

(** The array of snapshots of a collection: the cells not yet in use are
    all-zero, as [MVM_calloc] and [grow_storage] leave them. *)
Definition snapshots_ok (c : MVMHeapSnapshotCollection) : Prop :=
  storage_ok (snapshots c) (num_snapshots c) (alloc_snapshots c) /\
  forall j, num_snapshots c <= j < alloc_snapshots c ->
    cell (snapshots c) j = Some zero_snapshot.

(** A collection with another array of snapshots. *)
Definition set_snapshots (c : MVMHeapSnapshotCollection)
    (snaps : list MVMHeapSnapshot) (num alloc : Z) : MVMHeapSnapshotCollection :=
  mkCollection snaps num alloc (strings c) (num_strings c) (alloc_strings c)
    (strings_free c) (num_strings_free c) (alloc_strings_free c).

(** The collection after the strings [names] were added to an empty one:
    both arrays were grown once, to 32 cells, and [num_strings_free] is
    still 0. *)
Definition string_heap (names : list cstr) (sfree : list Z)
    : MVMHeapSnapshotCollection :=
  mkCollection [] 0 0
    (map Some names ++ replicate (32 - length names)%nat None)
    (Z.of_nat (length names)) 32 sfree 0 32.

End SnapshotProperties.

End HeapSnapshot.

(** ** Example inputs *)

Module SnapshotExamples.

Import HeapSnapshot.

(** The constants and sizes of a 64-bit build: two bits for the kind of a
    reference, [refs_start] an [MVMuint64] and [num_refs] an [MVMuint32]. *)
Definition sample_abi : ABI := {|
  MVM_SNAPSHOT_REF_KIND_BITS := 2;
  MVM_SNAPSHOT_REF_KIND_STRING := 2;
  MVM_SNAPSHOT_COL_KIND_PERM_ROOTS := 4;
  MVM_SNAPSHOT_COL_KIND_INSTANCE_ROOTS := 5;
  MVM_SNAPSHOT_COL_KIND_CSTACK_ROOTS := 6;
  MVM_SNAPSHOT_COL_KIND_THREAD_ROOTS := 7;
  MVM_SNAPSHOT_COL_KIND_ROOT := 8;
  to_refs_start := to_uint64;
  to_num_refs := fun z => z mod 2 ^ 32;
  sizeof_ptr := 8;
  sizeof_snapshot := 48;
  sizeof_collectable := 32;
  sizeof_reference := 16;
  sizeof_workitem := 24
|}.

(** The state [record_snapshot] starts from, on an empty collection. *)
Definition ss_start : MVMHeapSnapshotState :=
  mkSnapState zero_collection zero_snapshot [] 0 0 0.

(** A state with one collectable, the current source of references, and
    nothing on the work list. *)
Definition ss_root : MVMHeapSnapshotState :=
  mkSnapState zero_collection
    (mkSnapshot (replicate 32 zero_collectable) 1 32 [] 0 0)
    (replicate 32 zero_workitem) 0 32 0.

End SnapshotExamples.
(* ===================================================================== *)
(** * Properties of the callsite interner                                 *)
(* ===================================================================== *)

Section InternerFacts.

Import Callsite.

Variable MVM_string_equal : MVMString -> MVMString -> bool.
Variable MVM_INTERN_ARITY_LIMIT : Z.

Local Abbreviation callsites_equal := (Callsite.callsites_equal MVM_string_equal).
Local Abbreviation search := (Callsite.search MVM_string_equal).
Local Abbreviation try_intern :=
  (Callsite.MVM_callsite_try_intern MVM_string_equal MVM_INTERN_ARITY_LIMIT).
Local Abbreviation try_intern_all :=
  (Callsite.try_intern_all MVM_string_equal MVM_INTERN_ARITY_LIMIT).
Local Abbreviation names_differ := (Callsite.names_differ MVM_string_equal).
Local Abbreviation callsites_differ := (Callsite.callsites_differ MVM_string_equal).
Local Abbreviation interns_inv := (Callsite.interns_inv MVM_string_equal).

Lemma take_differs_at (k : nat) (a b : list Z) :
  take k a <> take k b -> exists i : nat, (i < k)%nat /\ a !! i <> b !! i.
Proof.
  revert a b. induction k as [|k IH]; intros a b Hne.
  - destruct Hne. by rewrite !take_0.
  - destruct a as [|x a], b as [|y b]; simpl in Hne.
    + by destruct Hne.
    + exists 0%nat. split; [lia | done].
    + exists 0%nat. split; [lia | done].
    + destruct (decide (x = y)) as [->|Hxy].
      * destruct (IH a b) as (i & Hi & Hd); [congruence|].
        exists (S i). split; [lia | done].
      * exists 0%nat. split; [lia | simpl; congruence].
Qed.

Lemma names_equal_from_false n1 n2 (i todo : nat) :
  Callsite.names_equal_from MVM_string_equal n1 n2 i todo = Some false ->
  exists (j : nat) na nb s1 s2,
    (i <= j < i + todo)%nat /\
    n1 = Some na /\ n2 = Some nb /\ na !! j = Some s1 /\ nb !! j = Some s2 /\
    MVM_string_equal s1 s2 = false.
Proof.
  revert i. induction todo as [|todo IH]; intros i H; simpl in H; [done|].
  destruct n1 as [na|]; [|done]. destruct n2 as [nb|]; [|done]. simpl in H.
  destruct (na !! i) as [s1|] eqn:E1; [|done].
  destruct (nb !! i) as [s2|] eqn:E2; [|done]. simpl in H.
  destruct (MVM_string_equal s1 s2) eqn:Es.
  - apply IH in H as (j & na' & nb' & t1 & t2 & Hj & H).
    exists j, na', nb', t1, t2. split; [lia | done].
  - exists i, na, nb, s1, s2. split; [lia | done].
Qed.

Lemma callsites_equal_false a b nf nn :
  callsites_equal a b nf nn = Some false ->
  nf = cs_num_flags a -> nn = cs_num_nameds b ->
  flags_differ a b \/ names_differ a b.
Proof.
  unfold Callsite.callsites_equal, memcmp_differs. intros H Hnf Hnn.
  case_decide as Hlen; [|done]. simpl in H.
  case_bool_decide as Hd.
  - left. destruct (take_differs_at _ _ _ Hd) as (i & Hi & Hne).
    exists i. split; [|done]. rewrite <- Hnf. lia.
  - right. apply names_equal_from_false in H.
    destruct H as (j & na & nb & s1 & s2 & Hj & ? & ? & ? & ? & ?).
    exists j, na, nb, s1, s2. split; [|done]. rewrite <- Hnn. lia.
Qed.

Lemma search_none h bkt cs nf nn :
  search h bkt cs nf nn = Some None ->
  forall q, q ∈ bkt ->
    exists c, h !! q = Some c /\ callsites_equal c cs nf nn = Some false.
Proof.
  induction bkt as [|q0 bkt IH]; intros H q Hq; [by apply elem_of_nil in Hq|].
  simpl in H.
  destruct (h !! q0) as [c|] eqn:Ec; [|done]. simpl in H.
  destruct (callsites_equal c cs nf nn) as [[]|] eqn:Ee; simpl in H; try done.
  apply elem_of_cons in Hq as [->|Hq]; eauto.
Qed.

Lemma same_shape_refl a : same_shape a a.
Proof. by repeat split. Qed.

Lemma same_shape_set_interned a : same_shape (set_interned a) a.
Proof. by repeat split. Qed.

Lemma same_shape_num_flags a b : same_shape a b -> cs_num_flags a = cs_num_flags b.
Proof.
  intros (_ & Hc & Hp & _). unfold cs_num_flags, cs_num_nameds. by rewrite Hc, Hp.
Qed.

Lemma same_shape_num_nameds a b :
  same_shape a b -> cs_num_nameds a = cs_num_nameds b.
Proof. intros (_ & Hc & Hp & _). unfold cs_num_nameds. by rewrite Hc, Hp. Qed.

(** [callsites_equal] does not read [is_interned]. *)
Lemma same_shape_equal a a' b b' nf nn :
  same_shape a' a -> same_shape b' b ->
  callsites_equal a' b' nf nn = callsites_equal a b nf nn.
Proof.
  intros (Hfa & _ & _ & Hna) (Hfb & _ & _ & Hnb).
  unfold Callsite.callsites_equal. by rewrite Hfa, Hfb, Hna, Hnb.
Qed.

Lemma interns_inv_initial h : interns_inv (initial h).
Proof.
  split; intros n bkt *; simpl; rewrite lookup_empty; done.
Qed.

Lemma bucket_elem st n bkt q :
  by_arity (interns st) !! n = Some bkt -> q ∈ bkt -> q ∈ bucket st n.
Proof. intros H Hq. unfold bucket. by rewrite H. Qed.

Lemma try_intern_inv st p st' p' :
  interns_inv st -> try_intern st p = Some (st', p') -> interns_inv st'.
Proof.
  intros [I1 I2]. unfold Callsite.MVM_callsite_try_intern.
  destruct (heap st !! p) as [cs|] eqn:Ecs; [|done]. simpl.
  destruct (has_flattening cs); [intros [= <- <-]; by split|].
  destruct (_ && _); [intros [= <- <-]; by split|].
  destruct (_ <=? _); [intros [= <- <-]; by split|].
  destruct (search _ _ _ _ _) as [[q0|]|] eqn:Es; simpl; [| |done].
  - (* a match: the callsite passed in is freed *)
    intros [= <- <-]. split; simpl.
    + intros n bkt q c Hb Hq Hc. apply lookup_delete_Some in Hc as [_ Hc]. eauto.
    + intros n bkt i j p1 q1 a b Hb Hij Hi Hj Ha Hc.
      apply lookup_delete_Some in Ha as [_ Ha].
      apply lookup_delete_Some in Hc as [_ Hc]. eauto.
  - (* no match: the callsite is appended *)
    intros [= <- <-].
    assert (Hold : forall x c, <[p:=set_interned cs]> (heap st) !! x = Some c ->
              exists c0, heap st !! x = Some c0 /\ same_shape c c0).
    { intros x c. rewrite lookup_insert. case_decide as Hx.
      - intros [= <-]. subst x. eauto using same_shape_set_interned.
      - eauto using same_shape_refl. }
    split; simpl.
    + intros n bkt q c Hb Hq Hc.
      destruct (Hold _ _ Hc) as (c0 & Hc0 & Hs).
      rewrite (same_shape_num_flags _ _ Hs).
      rewrite lookup_insert in Hb. case_decide as Hn.
      * injection Hb as <-. subst n.
        apply elem_of_app in Hq as [Hq|Hq].
        -- unfold bucket in Hq.
           destruct (by_arity (interns st) !! cs_num_flags cs) as [bkt0|] eqn:Eb;
             simpl in Hq; [eauto | by apply elem_of_nil in Hq].
        -- apply list_elem_of_singleton in Hq as ->. congruence.
      * eauto.
    + intros n bkt i j p1 q1 a b Hb Hij Hi Hj Ha Hc.
      destruct (Hold _ _ Ha) as (a0 & Ha0 & Hsa).
      destruct (Hold _ _ Hc) as (b0 & Hb0 & Hsb).
      rewrite (same_shape_equal a0 _ b0 _ _ _ Hsa Hsb).
      rewrite (same_shape_num_nameds _ _ Hsb).
      rewrite lookup_insert in Hb. case_decide as Hn.
      * injection Hb as <-. subst n.
        destruct (decide (j < length (bucket st (cs_num_flags cs)))%nat) as [Hj'|Hj'].
        -- rewrite lookup_app_l in Hi, Hj by lia.
           unfold bucket in Hi, Hj.
           destruct (by_arity (interns st) !! cs_num_flags cs) as [bkt0|] eqn:Eb;
             simpl in Hi, Hj; [eauto | done].
        -- assert (j = length (bucket st (cs_num_flags cs))) as ->.
           { apply lookup_lt_Some in Hj. rewrite length_app in Hj. simpl in Hj. lia. }
           rewrite lookup_app_l in Hi by lia.
           rewrite list_lookup_middle in Hj by done. injection Hj as <-.
           assert (b0 = cs) as -> by congruence.
           destruct (search_none _ _ _ _ _ Es p1) as (c & Hc1 & He).
           { by eapply list_elem_of_lookup_2. }
           assert (c = a0) as -> by congruence. done.
      * eauto.
Qed.

Lemma try_intern_all_inv ps st st' :
  interns_inv st -> try_intern_all st ps = Some st' -> interns_inv st'.
Proof.
  revert st. induction ps as [|p ps IH]; intros st Hinv H; simpl in H.
  - by injection H as <-.
  - destruct (try_intern st p) as [[st1 p1]|] eqn:E; [|done]. simpl in H.
    eauto using try_intern_inv.
Qed.

Lemma flags_differ_sym a b :
  cs_num_flags a = cs_num_flags b -> flags_differ a b -> flags_differ b a.
Proof.
  intros Hn (i & Hi & Hne). exists i. rewrite <- Hn. split; [done | congruence].
Qed.

(** C8.  After any sequence of [MVM_callsite_try_intern] calls starting from
    an empty intern store, take two callsites [a] and [b] stored in the
    store under different pointers, at index [i] of the array of arity [n]
    and at index [j] of the array of arity [m].
    - They differ: in their number of flags, in one of the first
      [num_flags] flag bytes, or in one of the [num_nameds] names that
      [callsites_equal] compares, which is not [MVM_string_equal] to the
      name at the same index of the other callsite.
    - When they are in the same array, [callsites_equal] finds them
      different, called as [MVM_callsite_try_intern] calls it (the earlier
      entry first, with the counts of the later one): no callsite equal to
      one already in its array is ever stored. *)
Theorem interned_callsites_differ h ps st n m bn bm (i j : nat) p q a b :
  try_intern_all (initial h) ps = Some st ->
  by_arity (interns st) !! n = Some bn -> bn !! i = Some p ->
  by_arity (interns st) !! m = Some bm -> bm !! j = Some q ->
  p <> q ->
  heap st !! p = Some a -> heap st !! q = Some b ->
  callsites_differ a b /\
  (n = m ->
   i <> j /\
   ((i < j)%nat ->
    callsites_equal a b (cs_num_flags b) (cs_num_nameds b) = Some false) /\
   ((j < i)%nat ->
    callsites_equal b a (cs_num_flags a) (cs_num_nameds a) = Some false)).
Proof.
  intros Hrun Hbn Hi Hbm Hj Hpq Ha Hb.
  destruct (try_intern_all_inv _ _ _ (interns_inv_initial h) Hrun) as [I1 I2].
  assert (Hna : cs_num_flags a = n).
  { eapply I1; eauto. by eapply list_elem_of_lookup_2. }
  assert (Hnb : cs_num_flags b = m).
  { eapply I1; eauto. by eapply list_elem_of_lookup_2. }
  assert (Hsame : n = m ->
    i <> j /\
    ((i < j)%nat ->
     callsites_equal a b (cs_num_flags b) (cs_num_nameds b) = Some false) /\
    ((j < i)%nat ->
     callsites_equal b a (cs_num_flags a) (cs_num_nameds a) = Some false)).
  { intros <-. assert (bm = bn) as -> by congruence.
    split; [intros ->; congruence|].
    split; intros Hlt; [rewrite Hnb | rewrite Hna]; eapply I2; eauto. }
  split; [|done].
  unfold Callsite.callsites_differ.
  destruct (decide (n = m)) as [Hnm|Hnm]; [|left; congruence].
  right. destruct (Hsame Hnm) as (Hij & Hlt & Hgt).
  destruct (decide (i < j)%nat) as [Hlt'|Hge].
  - destruct (callsites_equal_false _ _ _ _ (Hlt Hlt')) as [Hf|Hn];
      [congruence | done | by left | right; by left].
  - assert (j < i)%nat as Hgt' by lia.
    destruct (callsites_equal_false _ _ _ _ (Hgt Hgt')) as [Hf|Hn];
      [congruence | done | | right; by right].
    left. apply flags_differ_sym; [congruence | done].
Qed.

End InternerFacts.
(* ===================================================================== *)
(** * More on the callsite interner                                       *)
(* ===================================================================== *)

Section InternerMore.

Import Callsite.

Variable MVM_string_equal : MVMString -> MVMString -> bool.
Variable MVM_INTERN_ARITY_LIMIT : Z.

Local Abbreviation callsites_equal := (Callsite.callsites_equal MVM_string_equal).
Local Abbreviation search := (Callsite.search MVM_string_equal).
Local Abbreviation try_intern :=
  (Callsite.MVM_callsite_try_intern MVM_string_equal MVM_INTERN_ARITY_LIMIT).
Local Abbreviation try_intern_all :=
  (Callsite.try_intern_all MVM_string_equal MVM_INTERN_ARITY_LIMIT).
Local Abbreviation internable := (Callsite.internable MVM_INTERN_ARITY_LIMIT).
Local Abbreviation entries_ok := (Callsite.entries_ok MVM_INTERN_ARITY_LIMIT).

Lemma names_equal_from_true n1 n2 (i todo : nat) :
  Callsite.names_equal_from MVM_string_equal n1 n2 i todo = Some true <->
  forall k : nat, (i <= k < i + todo)%nat ->
    exists na nb s1 s2,
      n1 = Some na /\ n2 = Some nb /\ na !! k = Some s1 /\ nb !! k = Some s2 /\
      MVM_string_equal s1 s2 = true.
Proof.
  revert i. induction todo as [|todo IH]; intros i; simpl.
  - split; [intros _ k Hk; lia | done].
  - split.
    + intros H k Hk.
      destruct n1 as [na|]; [|done]. destruct n2 as [nb|]; [|done]. simpl in H.
      destruct (na !! i) as [s1|] eqn:E1; [|done].
      destruct (nb !! i) as [s2|] eqn:E2; [|done]. simpl in H.
      destruct (MVM_string_equal s1 s2) eqn:Es; [|done].
      destruct (decide (k = i)) as [->|Hne].
      * exists na, nb, s1, s2. done.
      * apply (proj1 (IH (S i)) H). lia.
    + intros H.
      destruct (H i) as (na & nb & s1 & s2 & -> & -> & E1 & E2 & Es); [lia|].
      simpl. rewrite E1, E2. simpl. rewrite Es.
      apply IH. intros k Hk. apply H. lia.
Qed.

Lemma callsites_equal_intro (cs1 cs2 : MVMCallsite) (num_flags num_nameds : Z) :
  (Z.to_nat num_flags <= length (arg_flags cs1))%nat ->
  (Z.to_nat num_flags <= length (arg_flags cs2))%nat ->
  take (Z.to_nat num_flags) (arg_flags cs1)
  = take (Z.to_nat num_flags) (arg_flags cs2) ->
  (forall k : nat, (k < Z.to_nat num_nameds)%nat ->
     exists na nb s1 s2,
       arg_names cs1 = Some na /\ arg_names cs2 = Some nb /\
       na !! k = Some s1 /\ nb !! k = Some s2 /\
       MVM_string_equal s1 s2 = true) ->
  callsites_equal cs1 cs2 num_flags num_nameds = Some true.
Proof.
  intros H1 H2 Ht Hn. unfold Callsite.callsites_equal, memcmp_differs.
  rewrite decide_True by done. simpl.
  rewrite bool_decide_eq_false_2 by (intros Hne; by apply Hne).
  apply names_equal_from_true. intros k Hk. apply Hn. lia.
Qed.

(** X1.  [callsites_equal] returns 1 exactly when both flag arrays hold at
    least [num_flags] bytes, the first [num_flags] bytes agree, and for
    every index below [num_nameds] both callsites have a name there and
    [MVM_string_equal] accepts the pair.  (Where a name is missing or an
    array is too short the C code reads memory it does not own.) *)
Theorem callsites_equal_iff (cs1 cs2 : MVMCallsite) (num_flags num_nameds : Z) :
  callsites_equal cs1 cs2 num_flags num_nameds = Some true <->
  (Z.to_nat num_flags <= length (arg_flags cs1))%nat /\
  (Z.to_nat num_flags <= length (arg_flags cs2))%nat /\
  take (Z.to_nat num_flags) (arg_flags cs1)
  = take (Z.to_nat num_flags) (arg_flags cs2) /\
  forall k : nat, (k < Z.to_nat num_nameds)%nat ->
    exists na nb s1 s2,
      arg_names cs1 = Some na /\ arg_names cs2 = Some nb /\
      na !! k = Some s1 /\ nb !! k = Some s2 /\
      MVM_string_equal s1 s2 = true.
Proof.
  split.
  - unfold Callsite.callsites_equal, memcmp_differs.
    intros H. case_decide as Hlen; [|done]. simpl in H.
    case_bool_decide as Hd; [done|].
    destruct Hlen. split; [done|]. split; [done|].
    split; [by destruct (decide (take (Z.to_nat num_flags) (arg_flags cs1)
                                 = take (Z.to_nat num_flags) (arg_flags cs2)))|].
    intros k Hk. apply (proj1 (names_equal_from_true _ _ 0 _) H). lia.
  - intros (H1 & H2 & Ht & Hn). by apply callsites_equal_intro.
Qed.


(** The result of the search loop. *)
Lemma search_spec h bkt cs nf nn r :
  search h bkt cs nf nn = Some r ->
  match r with
  | Some q =>
      exists (i : nat) c,
        bkt !! i = Some q /\ h !! q = Some c /\
        callsites_equal c cs nf nn = Some true /\
        forall (j : nat) q', (j < i)%nat -> bkt !! j = Some q' ->
          exists c', h !! q' = Some c' /\
                     callsites_equal c' cs nf nn = Some false
  | None =>
      forall q', q' ∈ bkt ->
        exists c', h !! q' = Some c' /\
                   callsites_equal c' cs nf nn = Some false
  end.
Proof.
  revert r. induction bkt as [|q0 bkt IH]; intros r H; simpl in H.
  - injection H as <-. intros q' Hq. by apply elem_of_nil in Hq.
  - destruct (h !! q0) as [c|] eqn:Ec; [|done]. simpl in H.
    destruct (callsites_equal c cs nf nn) as [[]|] eqn:Ee; simpl in H; [| |done].
    + injection H as <-. exists 0%nat, c. repeat split; try done.
      intros j q' Hj. lia.
    + specialize (IH r H). destruct r as [q|].
      * destruct IH as (i & c1 & Hi & Hc1 & He1 & Hbefore).
        exists (S i), c1. repeat split; try done.
        intros [|j] q' Hj Hq'; simpl in Hq'.
        -- injection Hq' as <-. eauto.
        -- apply (Hbefore j); [lia | done].
      * intros q' Hq'. apply elem_of_cons in Hq' as [->|Hq']; eauto.
Qed.

(** What one call does. *)
Lemma try_intern_cases st p st' q :
  try_intern st p = Some (st', q) ->
  exists cs, heap st !! p = Some cs /\
    ((~ internable cs /\ st' = st /\ q = p) \/
     (internable cs /\
      search (heap st) (bucket st (cs_num_flags cs)) cs
        (cs_num_flags cs) (cs_num_nameds cs) = Some (Some q) /\
      st' = mkState (delete p (heap st)) (interns st)) \/
     (internable cs /\
      search (heap st) (bucket st (cs_num_flags cs)) cs
        (cs_num_flags cs) (cs_num_nameds cs) = Some None /\
      q = p /\
      st' = mkState (<[p := set_interned cs]> (heap st))
              (mkInterns (<[cs_num_flags cs := bucket st (cs_num_flags cs) ++ [p]]>
                            (by_arity (interns st)))))).
Proof.
  unfold Callsite.MVM_callsite_try_intern, Callsite.internable.
  destruct (heap st !! p) as [cs|] eqn:Ecs; [|done]. simpl. intros H.
  exists cs. split; [done|].
  destruct (has_flattening cs) eqn:Ef.
  { injection H as <- <-. left. split; [|done]. intros (? & _). done. }
  destruct ((0 <? cs_num_nameds cs) && negb (bool_decide (is_Some (arg_names cs))))
    eqn:En.
  { injection H as <- <-. left. split; [|done]. intros (_ & Hn & _).
    apply andb_true_iff in En as [En1 En2]. apply Z.ltb_lt in En1.
    apply negb_true_iff, bool_decide_eq_false in En2. auto. }
  destruct (Z.leb_spec MVM_INTERN_ARITY_LIMIT (cs_num_flags cs)) as [Hl|Hl].
  { injection H as <- <-. left. split; [|done]. intros (_ & _ & ?). lia. }
  assert (Hint : has_flattening cs = false /\
                 (0 < cs_num_nameds cs -> is_Some (arg_names cs)) /\
                 cs_num_flags cs < MVM_INTERN_ARITY_LIMIT).
  { split; [done|]. split; [|done]. intros Hn.
    apply andb_false_iff in En as [En|En].
    - apply Z.ltb_ge in En. lia.
    - by apply negb_false_iff, bool_decide_eq_true in En. }
  destruct (search _ _ _ _ _) as [[q0|]|] eqn:Es; simpl in H; [| |done].
  - injection H as <- <-. right. left. destruct Hint as (_ & Hn & _).
    by repeat split.
  - injection H as <- <-. right. right. destruct Hint as (_ & Hn & _).
    by repeat split.
Qed.

Lemma bucket_insert h st n l m :
  bucket (mkState h (mkInterns (<[n := l]> (by_arity (interns st))))) m
  = if decide (n = m) then l else bucket st m.
Proof.
  unfold bucket. simpl. rewrite lookup_insert. by case_decide.
Qed.

Lemma try_intern_grows st p st' q n :
  try_intern st p = Some (st', q) ->
  bucket st n `prefix_of` bucket st' n /\
  forall x, x <> p -> heap st' !! x = heap st !! x.
Proof.
  intros H. apply try_intern_cases in H
    as (cs & Hcs & [(_ & -> & _)|[(_ & _ & ->)|(_ & _ & _ & ->)]]).
  - done.
  - split; [done|]. intros x Hx. simpl. by rewrite lookup_delete_ne.
  - split.
    + unfold bucket at 2. simpl. rewrite lookup_insert. case_decide as Hn.
      * subst n. simpl. by apply prefix_app_r.
      * done.
    + intros x Hx. simpl. by rewrite lookup_insert_ne.
Qed.

(** X2.  Over any sequence of [MVM_callsite_try_intern] calls the intern
    store only grows at the end of its arrays: what was interned stays at
    its index; and no callsite other than the ones passed in is written or
    freed. *)
Theorem interns_only_grow st ps st' :
  try_intern_all st ps = Some st' ->
  (forall n, bucket st n `prefix_of` bucket st' n) /\
  (forall x, x ∉ ps -> heap st' !! x = heap st !! x).
Proof.
  revert st. induction ps as [|p ps IH]; intros st H; simpl in H.
  - injection H as <-. done.
  - destruct (try_intern st p) as [[st1 p1]|] eqn:E; [|done]. simpl in H.
    destruct (IH _ H) as [IH1 IH2]. split.
    + intros n. etrans; [|apply IH1]. by eapply try_intern_grows.
    + intros x Hx. apply not_elem_of_cons in Hx as [Hxp Hx].
      rewrite IH2 by done.
      by apply (proj2 (try_intern_grows st p st1 p1 0 E)).
Qed.


Lemma internable_set_interned cs :
  internable cs -> internable (set_interned cs).
Proof. done. Qed.

Lemma try_intern_entries_ok st p st' q :
  entries_ok st -> try_intern st p = Some (st', q) -> entries_ok st'.
Proof.
  intros Hok H. apply try_intern_cases in H
    as (cs & Hcs & [(_ & -> & _)|[(_ & _ & ->)|(Hi & _ & _ & ->)]]).
  - done.
  - intros n x c Hx Hc. simpl in Hc. apply lookup_delete_Some in Hc as [_ Hc].
    by apply (Hok n x c).
  - intros n x c Hx Hc. simpl in Hc. rewrite bucket_insert in Hx.
    rewrite lookup_insert in Hc. case_decide as Hxp.
    + injection Hc as <-. subst x. split; [done|]. split; [done|].
      case_decide as Hn; [done|].
      by destruct (Hok n p cs Hx Hcs) as (_ & _ & ?).
    + case_decide as Hn; [|by apply (Hok n x c)].
      subst n. apply elem_of_app in Hx as [Hx|Hx]; [by apply (Hok _ x c)|].
      apply list_elem_of_singleton in Hx. done.
Qed.

(** X3.  After any sequence of calls from an empty store, every callsite
    of the array of arity [n] that is still allocated is marked
    [is_interned], has no flattening, has its names when it has named
    arguments, has [n] flags, and [n] is below [MVM_INTERN_ARITY_LIMIT]. *)
Theorem interned_entries_ok h ps st n p c :
  try_intern_all (initial h) ps = Some st ->
  p ∈ bucket st n -> heap st !! p = Some c ->
  is_interned c = true /\ has_flattening c = false /\
  (0 < cs_num_nameds c -> is_Some (arg_names c)) /\
  cs_num_flags c = n /\ n < MVM_INTERN_ARITY_LIMIT.
Proof.
  intros Hrun Hp Hc.
  assert (Hok : entries_ok st).
  { clear Hp Hc. revert Hrun.
    assert (H0 : entries_ok (initial h)).
    { intros n0 x c0 Hx. unfold bucket in Hx. simpl in Hx.
      rewrite lookup_empty in Hx. by apply elem_of_nil in Hx. }
    revert H0. generalize (initial h). induction ps as [|p0 ps IH];
      intros st0 H0 Hrun; simpl in Hrun.
    - by injection Hrun as <-.
    - destruct (try_intern st0 p0) as [[st1 p1]|] eqn:E; [|done]. simpl in Hrun.
      eauto using try_intern_entries_ok. }
  destruct (Hok n p c Hp Hc) as (Hi & (Hf & Hn & Hl) & Hnf).
  repeat split; try done. lia.
Qed.

(** [callsites_equal] reads the flags and the names of its arguments and
    nothing else. *)
Lemma callsites_equal_ext a a' b b' nf nn :
  arg_flags a' = arg_flags a -> arg_names a' = arg_names a ->
  arg_flags b' = arg_flags b -> arg_names b' = arg_names b ->
  callsites_equal a' b' nf nn = callsites_equal a b nf nn.
Proof.
  unfold Callsite.callsites_equal. by intros -> -> -> ->.
Qed.

Lemma callsites_equal_refl cs :
  arrays_ok cs ->
  (forall s, s ∈ compared_names cs (cs_num_nameds cs) ->
             MVM_string_equal s s = true) ->
  callsites_equal cs cs (cs_num_flags cs) (cs_num_nameds cs) = Some true.
Proof.
  intros [Hf Hn] Hrefl. apply callsites_equal_intro; [done..|].
  intros k Hk.
  destruct (arg_names cs) as [na|] eqn:Ena; simpl in Hn; [|lia].
  destruct (lookup_lt_is_Some_2 na k) as [s Hs]; [lia|].
  exists na, na, s, s. repeat split; try done.
  apply Hrefl. unfold compared_names. rewrite Ena. simpl.
  apply (list_elem_of_lookup_2 _ k). rewrite lookup_take_lt by done. done.
Qed.

(** The converse of [search_spec]: the first entry that compares equal is
    found. *)
Lemma search_finds h bkt cs nf nn (i : nat) q c :
  bkt !! i = Some q -> h !! q = Some c ->
  callsites_equal c cs nf nn = Some true ->
  (forall (j : nat) q', (j < i)%nat -> bkt !! j = Some q' ->
     exists c', h !! q' = Some c' /\
                callsites_equal c' cs nf nn = Some false) ->
  search h bkt cs nf nn = Some (Some q).
Proof.
  revert i. induction bkt as [|q0 bkt IH]; intros i Hi Hc He Hb; [done|].
  destruct i as [|i]; simpl in *.
  - injection Hi as ->. by rewrite Hc; simpl; rewrite He.
  - destruct (Hb 0%nat q0) as (c' & Hc' & He'); [lia | done |].
    rewrite Hc'. simpl. rewrite He'. apply (IH i); try done.
    intros j q' Hj Hq'. apply (Hb (S j)); [lia | done].
Qed.


(** X4.  For a callsite the interner accepts, the pointer left in
    [*cs_ptr] is in the array of the callsite's arity.  Either it is the
    pointer passed in, now marked interned and appended to the array, or the
    store is as before, the callsite passed in has been freed, and the
    interned callsite returned compares equal to it. *)
Theorem try_intern_returns_interned st p cs st' q :
  heap st !! p = Some cs -> internable cs ->
  try_intern st p = Some (st', q) ->
  q ∈ bucket st' (cs_num_flags cs) /\
  ((q = p /\ heap st' !! p = Some (set_interned cs) /\
    bucket st' (cs_num_flags cs) = bucket st (cs_num_flags cs) ++ [p]) \/
   (interns st' = interns st /\ heap st' = delete p (heap st) /\
    exists c, heap st !! q = Some c /\
      callsites_equal c cs (cs_num_flags cs) (cs_num_nameds cs) = Some true)).
Proof.
  intros Hcs Hint H. apply try_intern_cases in H
    as (cs' & Hcs' & [(Hn & _)|[(_ & Hs & ->)|(_ & _ & -> & ->)]]);
    assert (cs' = cs) as -> by congruence.
  - done.
  - apply search_spec in Hs as (i & c & Hi & Hc & He & _). split.
    + by apply (list_elem_of_lookup_2 _ i).
    + right. split; [done|]. split; [done|]. eauto.
  - rewrite bucket_insert, decide_True by done. split.
    + apply elem_of_app. right. by apply list_elem_of_singleton.
    + left. split; [done|]. simpl. by rewrite lookup_insert_eq.
Qed.

(** X5.  Interning a callsite that is not yet in the store, and then a
    second callsite with the same flags, counts and names, leaves the same
    pointer in both: the second callsite is freed and the store is not
    changed by the second call.  Names must compare equal to themselves, and
    the arrays of the first callsite must be as long as its counts say. *)
Theorem equal_callsites_share_pointer st p1 cs1 st1 q p2 cs2 :
  heap st !! p1 = Some cs1 -> internable cs1 -> arrays_ok cs1 ->
  p1 ∉ bucket st (cs_num_flags cs1) ->
  (forall s, s ∈ compared_names cs1 (cs_num_nameds cs1) ->
             MVM_string_equal s s = true) ->
  try_intern st p1 = Some (st1, q) ->
  heap st1 !! p2 = Some cs2 ->
  arg_flags cs2 = arg_flags cs1 -> arg_count cs2 = arg_count cs1 ->
  num_pos cs2 = num_pos cs1 -> arg_names cs2 = arg_names cs1 ->
  has_flattening cs2 = false ->
  exists st2, try_intern st1 p2 = Some (st2, q) /\
              heap st2 !! p2 = None /\ interns st2 = interns st1.
Proof.
  intros Hcs1 Hint Hwf Hnew Hrefl H1 Hcs2 Hfl Hac Hnp Hnm Hnf.
  assert (Hnn : cs_num_nameds cs2 = cs_num_nameds cs1)
    by (unfold cs_num_nameds; by rewrite Hac, Hnp).
  assert (Hnfl : cs_num_flags cs2 = cs_num_flags cs1)
    by (unfold cs_num_flags; by rewrite Hnp, Hnn).
  assert (Heq : forall c nf nn,
            callsites_equal c cs2 nf nn = callsites_equal c cs1 nf nn)
    by (intros; by apply callsites_equal_ext).
  assert (Hfound : search (heap st1) (bucket st1 (cs_num_flags cs1)) cs2
                     (cs_num_flags cs1) (cs_num_nameds cs1) = Some (Some q)).
  { apply try_intern_cases in H1
      as (cs' & Hcs' & [(Hn & _)|[(_ & Hs & ->)|(_ & Hs & -> & ->)]]);
      assert (cs' = cs1) as -> by congruence.
    - done.
    - apply search_spec in Hs as (i & c & Hi & Hc & He & Hb).
      assert (Hne : forall (j : nat) x,
                bucket st (cs_num_flags cs1) !! j = Some x -> x <> p1).
      { intros j x Hx ->. apply Hnew. by apply (list_elem_of_lookup_2 _ j). }
      apply (search_finds _ _ _ _ _ i q c); simpl.
      + done.
      + rewrite lookup_delete_ne; [done|]. intros <-. by apply (Hne i p1).
      + by rewrite Heq.
      + intros j q' Hj Hq'. destruct (Hb j q' Hj Hq') as (c' & Hc' & He').
        exists c'. rewrite Heq. split; [|done].
        rewrite lookup_delete_ne; [done|]. intros <-. by apply (Hne j p1).
    - pose proof (search_spec _ _ _ _ _ _ Hs) as Hall. simpl in Hall.
      rewrite bucket_insert, decide_True by done.
      apply (search_finds _ _ _ _ _ (length (bucket st (cs_num_flags cs1))) p1
               (set_interned cs1)); simpl.
      + by rewrite list_lookup_middle.
      + by rewrite lookup_insert_eq.
      + rewrite Heq.
        rewrite (callsites_equal_ext cs1 (set_interned cs1) cs1 cs1) by done.
        by apply callsites_equal_refl.
      + intros j q' Hj Hq'. rewrite lookup_app_l in Hq' by done.
        destruct (Hall q') as (c' & Hc' & He');
          [by apply (list_elem_of_lookup_2 _ j)|].
        exists c'. rewrite Heq. split; [|done].
        rewrite lookup_insert_ne; [done|]. intros <-. apply Hnew.
        by apply (list_elem_of_lookup_2 _ j). }
  unfold Callsite.MVM_callsite_try_intern. rewrite Hcs2. simpl.
  rewrite Hnf, Hnn, Hnfl, Hnm. destruct Hint as (_ & Hnames & Hlim).
  assert (Hb : (0 <? cs_num_nameds cs1) &&
               negb (bool_decide (is_Some (arg_names cs1))) = false).
  { destruct (Z.ltb_spec 0 (cs_num_nameds cs1)); [|done]. simpl.
    by rewrite bool_decide_eq_true_2 by auto. }
  rewrite Hb. destruct (Z.leb_spec MVM_INTERN_ARITY_LIMIT (cs_num_flags cs1));
    [lia|].
  rewrite Hfound. simpl. eexists. split; [done|]. simpl.
  by rewrite lookup_delete_eq.
Qed.

(** X6.  Passing a pointer that is already in the store frees the interned
    callsite itself: after the call the array still holds the pointer, and
    the memory it points to has been released. *)
Theorem reintern_frees_interned st p cs st' q :
  heap st !! p = Some cs -> internable cs -> arrays_ok cs ->
  p ∈ bucket st (cs_num_flags cs) ->
  (forall s, s ∈ compared_names cs (cs_num_nameds cs) ->
             MVM_string_equal s s = true) ->
  try_intern st p = Some (st', q) ->
  heap st' !! p = None /\ p ∈ bucket st' (cs_num_flags cs) /\
  interns st' = interns st.
Proof.
  intros Hcs Hint Hwf Hin Hrefl H. apply try_intern_cases in H
    as (cs' & Hcs' & [(Hn & _)|[(_ & Hs & ->)|(_ & Hs & _)]]);
    assert (cs' = cs) as -> by congruence.
  - done.
  - simpl. by rewrite lookup_delete_eq.
  - apply search_spec in Hs. simpl in Hs.
    destruct (Hs p Hin) as (c' & Hc' & He').
    assert (c' = cs) as -> by congruence.
    rewrite callsites_equal_refl in He' by done. done.
Qed.


Variable MVM_CALLSITE_ARG_OBJ : Z.

Local Abbreviation inv_arg_callsite := (Callsite.inv_arg_callsite MVM_CALLSITE_ARG_OBJ).
Local Abbreviation statics_at_start := (Callsite.statics_at_start MVM_CALLSITE_ARG_OBJ).
Local Abbreviation initialize_common :=
  (Callsite.MVM_callsite_initialize_common MVM_string_equal MVM_INTERN_ARITY_LIMIT).

(** X7.  After [MVM_callsite_initialize_common] at the start of the
    program, [MVM_callsite_get_common] returns the address of the static
    [inv_arg_callsite] for [MVM_CALLSITE_ID_INV_ARG] and throws for any other
    id; the static callsite is interned as the only entry of arity 1, and
    every other callsite with one positional object argument interns to
    it. *)
Theorem common_callsite_interned (a : ptr) (h : gmap ptr MVMCallsite) :
  1 < MVM_INTERN_ARITY_LIMIT ->
  exists s1,
    initialize_common (statics_at_start a h) = Some s1 /\
    MVM_callsite_get_common s1 MVM_CALLSITE_ID_INV_ARG = Some a /\
    (forall id, MVM_callsite_get_common s1 (MVM_CALLSITE_ID_other id) = None) /\
    heap (cs_state s1) !! a = Some (set_interned inv_arg_callsite) /\
    bucket (cs_state s1) 1 = [a] /\
    forall p cs,
      heap (cs_state s1) !! p = Some cs -> p <> a ->
      arg_flags cs !! 0%nat = Some MVM_CALLSITE_ARG_OBJ ->
      arg_count cs = 1 -> num_pos cs = 1 -> has_flattening cs = false ->
      exists st2, try_intern (cs_state s1) p = Some (st2, a) /\
                  heap st2 !! p = None /\ bucket st2 1 = [a].
Proof.
  intros Hlim.
  assert (Hrun : try_intern (initial (<[a := inv_arg_callsite]> h)) a
    = Some (mkState (<[a := set_interned inv_arg_callsite]>
                       (<[a := inv_arg_callsite]> h))
              (mkInterns (<[1 := [a]]> ∅)), a)).
  { unfold Callsite.MVM_callsite_try_intern. simpl.
    rewrite lookup_insert_eq. simpl.
    change (cs_num_flags inv_arg_callsite) with 1.
    change (cs_num_nameds inv_arg_callsite) with 0. simpl.
    destruct (Z.leb_spec MVM_INTERN_ARITY_LIMIT 1); [lia|].
    unfold bucket. simpl. rewrite lookup_empty. simpl. done. }
  eexists. split.
  { unfold Callsite.MVM_callsite_initialize_common, Callsite.statics_at_start.
    simpl. rewrite Hrun. simpl. reflexivity. }
  simpl. split; [done|]. split; [done|].
  split; [by rewrite lookup_insert_eq|].
  split; [unfold bucket; simpl; by rewrite lookup_insert_eq|].
  intros p cs Hcs Hpa Hfl Hac Hnp Hnf.
  assert (Hnn : cs_num_nameds cs = 0) by (unfold cs_num_nameds; by rewrite Hac, Hnp).
  assert (Hn : cs_num_flags cs = 1) by (unfold cs_num_flags; rewrite Hnp, Hnn; lia).
  simpl in Hcs.
  unfold Callsite.MVM_callsite_try_intern. simpl. rewrite Hcs. simpl.
  rewrite Hnf, Hnn, Hn. simpl.
  destruct (Z.leb_spec MVM_INTERN_ARITY_LIMIT 1); [lia|].
  assert (Hb : forall hh,
            bucket (mkState hh (mkInterns (<[1 := [a]]> ∅))) 1 = [a]).
  { intros hh. unfold bucket. simpl. by rewrite lookup_insert_eq. }
  rewrite !Hb. simpl. rewrite lookup_insert_eq. simpl.
  assert (He : callsites_equal (set_interned inv_arg_callsite) cs 1 0 = Some true).
  { destruct (arg_flags cs) as [|x l] eqn:El; [done|].
    simpl in Hfl. injection Hfl as ->.
    apply callsites_equal_intro; simpl; rewrite ?El; simpl;
      [lia | lia | by rewrite take_0 | intros k Hk; lia]. }
  rewrite He. simpl. eexists. split; [done|]. simpl.
  split; [by rewrite lookup_delete_eq | apply Hb].
Qed.

End InternerMore.


(* ===================================================================== *)
(** * Properties of the spesh optimizer                                   *)
(* ===================================================================== *)

Section OptimizerFacts.

Import Spesh.

Context `{vm : VM}.

(** ** Reading the value union *)

Lemma to_int64_small (z : Z) :
  - 2 ^ 63 <= z < 2 ^ 63 -> to_int64 z = z.
Proof.
  intros H. unfold to_int64.
  rewrite Z.mod_small by lia. lia.
Qed.

Lemma to_int64_mod (z : Z) : to_int64 (z mod 2 ^ 64) = to_int64 z.
Proof.
  unfold to_int64.
  rewrite <- (Zplus_mod_idemp_l z). done.
Qed.

(** [value.i64] can be read from every union. *)
Lemma read_i64_total (v : MVMSpeshValue) : is_Some (read_i64 v).
Proof. by eexists. Qed.

(** A value stored through [value.i64] is read back. *)
Lemma read_i64_stored (z : Z) :
  - 2 ^ 63 <= z < 2 ^ 63 -> read_i64 (value_i64 z) = Some z.
Proof.
  intros H. unfold read_i64. simpl.
  by rewrite to_int64_mod, to_int64_small.
Qed.

(** The zeroed union reads 0. *)
Lemma read_i64_unset : read_i64 value_unset = Some 0.
Proof. done. Qed.

(** A value stored through [value.i16] into a zeroed union: on a
    little-endian target [value.i64] reads it zero-extended, on a big-endian
    one shifted to the two highest bytes. *)
Lemma read_i64_i16 (z : Z) :
  read_i64 (value_i16 z)
  = Some (if big_endian then to_int64 ((z mod 2 ^ 16) * 2 ^ 48)
          else z mod 2 ^ 16).
Proof.
  unfold read_i64. simpl. destruct big_endian; [done|].
  rewrite to_int64_small; [done|].
  pose proof (Z.mod_pos_bound z (2 ^ 16)). lia.
Qed.

(** The 0 or 1 that [optimize_isconcrete] and [optimize_istype] store
    through [value.i16] into a zeroed union is what [optimize_iffy] compares:
    [(MVMuint8)value.i64] is 0 exactly when the stored value is 0 on a
    little-endian target. *)
Lemma read_i64_flag (z : Z) :
  big_endian = false -> 0 <= z < 2 ^ 16 -> read_i64 (value_i16 z) = Some z.
Proof.
  intros Hbe Hz. rewrite read_i64_i16, Hbe. by rewrite Z.mod_small.
Qed.

Lemma read_i64_inv (v : MVMSpeshValue) (z : Z) :
  read_i64 v = Some z -> to_int64 (value_bytes v) = z.
Proof. unfold read_i64. congruence. Qed.

(** ** Facts lookups *)

Lemma index_Some {A} (l : list A) (i : Z) (x : A) :
  index l i = Some x -> 0 <= i /\ l !! Z.to_nat i = Some x.
Proof. unfold index. destruct (Z.ltb_spec i 0); [done | auto]. Qed.

Lemma get_facts_inv g o p g' :
  MVM_spesh_get_facts g o = Some (p, g') ->
  operand_reg o = Some p /\
  exists l, g' = set_log_guards g l /\ length l = length (log_guards g).
Proof.
  unfold MVM_spesh_get_facts, get_facts_direct. intros H.
  destruct (operand_reg o) as [q|]; [|done]. simpl in H.
  destruct (has_flag _ _).
  - destruct (index _ _) as [lg|]; [|done]. simpl in H.
    injection H as <- <-. split; [done|].
    eexists. split; [done|]. by rewrite length_insert.
  - injection H as <- <-. split; [done|].
    exists (log_guards g). by destruct g.
Qed.

Lemma get_facts_Some g o p :
  operand_reg o = Some p -> log_guard_ok g p ->
  exists l, MVM_spesh_get_facts g o = Some (p, set_log_guards g l) /\
            length l = length (log_guards g).
Proof.
  intros Ho Hok. unfold MVM_spesh_get_facts, get_facts_direct.
  rewrite Ho. simpl. unfold log_guard_ok in Hok.
  destruct (has_flag _ _).
  - destruct Hok as [lg Hlg]; [done|]. rewrite Hlg. simpl.
    eexists. split; [done|]. by rewrite length_insert.
  - exists (log_guards g). by destruct g.
Qed.

Lemma facts_at_set_log_guards g l p :
  facts_at (set_log_guards g l) p = facts_at g p.
Proof. done. Qed.

Lemma log_guard_ok_length g g' p :
  facts g' = facts g -> length (log_guards g') = length (log_guards g) ->
  log_guard_ok g p -> log_guard_ok g' p.
Proof.
  unfold log_guard_ok, facts_at. intros -> Hlen Hok Hf.
  destruct (Hok Hf) as [lg Hlg]. apply index_Some in Hlg as [Hi Hlg].
  apply lookup_lt_Some in Hlg. unfold index.
  destruct (Z.ltb_spec (log_guard (default zero_facts (facts g !! p))) 0); [lia|].
  apply lookup_lt_is_Some. lia.
Qed.

Lemma operand_lookup g ins c (k : nat) o :
  ins_mem g !! ins = Some c -> ins_operands c !! k = Some o ->
  operand g ins k = Some o.
Proof. intros H1 H2. unfold operand. rewrite H1. done. Qed.

Lemma set_info_Some g ins c i :
  ins_mem g !! ins = Some c ->
  set_info g ins i
  = Some (set_ins_mem g (<[ins := mkIns i (ins_operands c)]> (ins_mem g))).
Proof. intros H. unfold set_info. by rewrite H. Qed.

Lemma set_operand_Some g ins c (k : nat) o :
  ins_mem g !! ins = Some c -> (k < length (ins_operands c))%nat ->
  set_operand g ins k o
  = Some (set_ins_mem g
            (<[ins := mkIns (info c) (<[k := o]> (ins_operands c))]> (ins_mem g))).
Proof. intros H Hk. unfold set_operand. rewrite H. simpl. by case_decide. Qed.

Lemma facts_at_upd g p f q :
  facts_at (upd_facts g p f) q
  = if decide (p = q) then f (facts_at g p) else facts_at g q.
Proof.
  unfold facts_at, upd_facts. simpl. rewrite lookup_insert.
  by case_decide.
Qed.

Lemma facts_at_set_ins_mem g m p : facts_at (set_ins_mem g m) p = facts_at g p.
Proof. done. Qed.

Lemma facts_at_set_spesh_slots g l a p :
  facts_at (set_spesh_slots g l a) p = facts_at g p.
Proof. done. Qed.

Lemma facts_at_set_bbs g m p : facts_at (set_bbs g m) p = facts_at g p.
Proof. done. Qed.

Lemma log_guard_ok_upd g p f q :
  (forall x, log_guard (f x) = log_guard x) ->
  (forall x, has_flag (flags (f x)) MVM_SPESH_FACT_FROM_LOG_GUARD
             = has_flag (flags x) MVM_SPESH_FACT_FROM_LOG_GUARD) ->
  log_guard_ok g q -> log_guard_ok (upd_facts g p f) q.
Proof.
  intros Hlg Hfl Hok. unfold log_guard_ok. rewrite facts_at_upd.
  case_decide as E; [subst q|]; simpl; [rewrite Hlg, Hfl|]; exact Hok.
Qed.

Lemma to_int16_small n : 0 <= n < 32768 -> to_int16 n = n.
Proof. intros H. unfold to_int16. rewrite Z.mod_small by lia. lia. Qed.

Lemma has_flag_lor_other f a b :
  Z.land a b = 0 -> has_flag (Z.lor f a) b = has_flag f b.
Proof.
  intros H. unfold has_flag. by rewrite Z.land_lor_distr_l, H, Z.lor_0_r.
Qed.

Ltac facts_simpl :=
  repeat first
    [ rewrite facts_at_set_ins_mem | rewrite facts_at_set_log_guards
    | rewrite facts_at_set_spesh_slots | rewrite facts_at_set_bbs
    | rewrite facts_at_upd ].

#[local] Arguments to_int16 : simpl never.
#[local] Arguments num_spesh_slots : simpl never.
#[local] Arguments MVM_spesh_get_facts : simpl never.
#[local] Arguments operand : simpl never.
#[local] Arguments set_info : simpl never.
#[local] Arguments set_operand : simpl never.
#[local] Arguments upd_facts : simpl never.
#[local] Arguments facts_at : simpl never.

(** ** Candidate selection *)

Lemma guard_failed_false g arg_info gd :
  guard_failed g arg_info gd = Some false -> guard_holds g arg_info gd.
Proof.
  unfold guard_failed, guard_holds, guard_facts. intros H.
  destruct (slot gd <? MAX_ARGS_FOR_OPT); [|done].
  destruct (slot gd <? 0); [done|].
  destruct (arg_facts arg_info !! slot gd) as [[p|]|]; simpl in *; [|done|done].
  exists p. split; [done|].
  destruct (kind gd); try done;
    repeat match type of H with
    | context [has_flag ?a ?b] => destruct (has_flag a b); simpl in H; try done
    end;
    match type of H with
    | context [type ?f] => destruct (type f) as [t|]
    | context [decont_type ?f] => destruct (decont_type f) as [t|]
    end; simpl in H; try done;
    injection H as H; apply negb_false_iff, Z.eqb_eq in H; eauto 10.
Qed.

Lemma guards_failed_false g arg_info gds :
  guards_failed g arg_info gds = Some false ->
  forall gd, gd ∈ gds -> guard_holds g arg_info gd.
Proof.
  induction gds as [|gd0 gds IH]; intros H gd Hin; [by apply elem_of_nil in Hin|].
  simpl in H.
  destruct (guard_failed g arg_info gd0) as [[]|] eqn:E; simpl in H; try done.
  apply elem_of_cons in Hin as [->|Hin]; eauto using guard_failed_false.
Qed.

Lemma find_candidate_from_sound g arg_info cands (i r : Z) :
  find_candidate_from g arg_info cands i = Some r -> r <> -1 -> 0 <= i ->
  i <= r /\
  exists cand, cands !! Z.to_nat (r - i) = Some cand /\
    ci_cs arg_info = Some (cand_cs cand) /\
    forall gd, gd ∈ guards cand -> guard_holds g arg_info gd.
Proof.
  revert i. induction cands as [|cand cands IH]; intros i H Hr Hi; simpl in H.
  - congruence.
  - destruct (ci_cs arg_info) as [cs|] eqn:Ecs; [|done]. simpl in H.
    assert (Hrec : find_candidate_from g arg_info cands (i + 1) = Some r ->
              i <= r /\ exists cand0,
                (cand :: cands) !! Z.to_nat (r - i) = Some cand0 /\
                Some cs = Some (cand_cs cand0) /\
                forall gd, gd ∈ guards cand0 -> guard_holds g arg_info gd).
    { intros H'. destruct (IH _ H' Hr) as (Hle & c & Hc & Hcs & Hg); [lia|].
      split; [lia|]. exists c. split; [|done].
      replace (Z.to_nat (r - i)) with (S (Z.to_nat (r - (i + 1)))) by lia. done. }
    destruct (Z.eqb_spec (cand_cs cand) cs) as [Heq|]; [|auto].
    destruct (guards_failed g arg_info (guards cand)) as [[]|] eqn:Eg;
      simpl in H; [auto| |done].
    injection H as ->. split; [lia|]. exists cand.
    rewrite Z.sub_diag. split; [done|]. split; [congruence|].
    eauto using guards_failed_false.
Qed.


(** ** Method lookup *)

(** C5.  [optimize_method_lookup] on a [findmeth] instruction
    [d := findmeth r, name].  When the facts of the receiver [r] carry
    KNOWN_TYPE and the method cache of that type holds a method for [name],
    the instruction becomes [sp_getspeshslot d, n] where [n] is the index of
    a new spesh slot holding the method, the facts of [d] gain KNOWN_VALUE
    with the method as value, and [usages] of [r] goes down by one.
    Otherwise (type not known, or no method in the cache) the instruction
    becomes [sp_findmeth d, r, name, n] where [n] is the index of the first
    of two new spesh slots holding [NULL].  The slot index is stored as an
    [MVMint16], so the graph is taken to hold fewer than [2^15] slots. *)
Theorem method_lookup_rewrite (g : MVMSpeshGraph) (ins : insptr) (c : MVMSpeshIns)
    (d r : factsptr) (s : Z) (name : MVMString) :
  ins_mem g !! ins = Some c ->
  ins_operands c = [reg d.1 d.2; reg r.1 r.2; lit_str_idx s] ->
  index (strings (cu g)) s = Some name ->
  log_guard_ok g d -> log_guard_ok g r ->
  Z.land MVM_SPESH_FACT_KNOWN_VALUE MVM_SPESH_FACT_FROM_LOG_GUARD = 0 ->
  num_spesh_slots g < 32768 ->
  exists g', optimize_method_lookup g ins = Some g' /\
    let n := num_spesh_slots g in
    match (if has_flag (flags (facts_at g r)) MVM_SPESH_FACT_KNOWN_TYPE
           then MVM_6model_find_method_cache_only (type (facts_at g r)) name
           else None) with
    | Some meth =>
        ins_mem g' !! ins
        = Some (mkIns (MVM_op_get_op MVM_OP_sp_getspeshslot)
                  [reg d.1 d.2; lit_i16 n; lit_str_idx s]) /\
        spesh_slots g' = spesh_slots g ++ [Some meth] /\
        flags (facts_at g' d)
        = Z.lor (flags (facts_at g d)) MVM_SPESH_FACT_KNOWN_VALUE /\
        value (facts_at g' d) = value_o meth /\
        usages (facts_at g' r) = usages (facts_at g r) - 1
    | None =>
        ins_mem g' !! ins
        = Some (mkIns (MVM_op_get_op MVM_OP_sp_findmeth)
                  [reg d.1 d.2; reg r.1 r.2; lit_str_idx s; lit_i16 n]) /\
        spesh_slots g' = spesh_slots g ++ [None; None]
    end.
Proof.
  intros Hc Hops Hname Hd Hr Hbits Hn.
  assert (Hn0 : 0 <= num_spesh_slots g) by (unfold num_spesh_slots; lia).
  unfold optimize_method_lookup.
  rewrite (operand_lookup g ins c 1 (reg r.1 r.2)) by (done || by rewrite Hops).
  simpl.
  destruct (get_facts_Some g (reg r.1 r.2) r) as (l1 & -> & Hl1); [by destruct r | done |].
  simpl. rewrite facts_at_set_log_guards.
  set (g1 := set_log_guards g l1).
  assert (Hd1 : log_guard_ok g1 d) by (by eapply (log_guard_ok_length g)).
  assert (Hr1 : log_guard_ok g1 r) by (by eapply (log_guard_ok_length g)).
  destruct (has_flag (flags (facts_at g r)) MVM_SPESH_FACT_KNOWN_TYPE) eqn:Ekt.
  - rewrite (operand_lookup g1 ins c 2 (lit_str_idx s)) by (done || by rewrite Hops).
    simpl. unfold MVM_spesh_get_string. simpl. rewrite Hname. simpl.
    destruct (MVM_6model_find_method_cache_only _ _) as [meth|] eqn:Em.
    + simpl.
      match goal with |- context [operand ?gg ins 0] => set (g2 := gg) end.
      rewrite (operand_lookup g2 ins c 0 (reg d.1 d.2)) by (done || by rewrite Hops).
      simpl.
      destruct (get_facts_Some g2 (reg d.1 d.2) d) as (l2 & -> & Hl2);
        [by destruct d | apply (log_guard_ok_length g); [reflexivity | exact Hl1 | exact Hd] |].
      simpl.
      match goal with |- context [operand ?gg ins 1] => set (g3 := gg) end.
      rewrite (operand_lookup g3 ins c 1 (reg r.1 r.2)) by (done || by rewrite Hops).
      simpl.
      destruct (get_facts_Some g3 (reg r.1 r.2) r) as (l3 & -> & Hl3); [by destruct r | |].
      { unfold g3. apply log_guard_ok_upd; [done..|].
        apply log_guard_ok_upd; [done| |].
        - intros x. simpl. by apply has_flag_lor_other.
        - apply (log_guard_ok_length g); [reflexivity | exact (eq_trans Hl2 Hl1) | exact Hr]. }
      simpl.
      erewrite set_info_Some by exact Hc. simpl.
      erewrite set_operand_Some; [|simpl; apply lookup_insert_eq | simpl; rewrite Hops; simpl; lia].
      simpl. eexists. split; [done|]. simpl.
      rewrite insert_insert_eq, lookup_insert_eq, Hops. simpl.
      unfold g1 at 1. unfold num_spesh_slots at 1. simpl. fold (num_spesh_slots g).
      rewrite to_int16_small by lia.
      split; [done|]. split; [done|].
      unfold g3, g2, g1. facts_simpl.
      repeat case_decide; simplify_eq; done.
    + simpl. rewrite Hc. simpl. rewrite Hops. simpl.
      eexists. split; [done|]. simpl. rewrite lookup_insert_eq.
      unfold g1 at 1. unfold num_spesh_slots at 1. simpl. fold (num_spesh_slots g).
      rewrite to_int16_small by lia. rewrite <- app_assoc. done.
  - simpl. rewrite Hc. simpl. rewrite Hops. simpl.
    eexists. split; [done|]. simpl. rewrite lookup_insert_eq.
    unfold g1 at 1. unfold num_spesh_slots at 1. simpl. fold (num_spesh_slots g).
    rewrite to_int16_small by lia. rewrite <- app_assoc. done.
Qed.

(** ** Branches on a known value *)

Lemma phi_drop_keeps (from to : bbptr) (l : list insptr)
    (m : gmap insptr MVMSpeshIns) (i : insptr) (c : MVMSpeshIns) :
  m !! i = Some c -> is_phi c = false ->
  foldr (fun i m =>
           match m !! i with
           | Some c => if is_phi c then <[i := phi_drop_input from to c]> m else m
           | None => m
           end) m l !! i = Some c.
Proof.
  intros Hm Hphi. induction l as [|x l IH]; simpl; [done|].
  destruct (_ !! x) as [cx|] eqn:Ex; [|done].
  destruct (is_phi cx) eqn:Epx; [|done].
  rewrite lookup_insert_ne; [done|]. intros ->. congruence.
Qed.

(** C3, as the code has it.  [optimize_iffy] on a branch [op f, target]
    whose flag register [f] has KNOWN_VALUE and whose [value.i64] reads 0,
    through whichever member the value was stored ([value.i64], or
    [value.i16] as [optimize_isconcrete] and [optimize_istype] do).
    - [if_i]: the branch is never taken, and the instruction is deleted from
      its block; the edge to [target] is removed from the successors of the
      block (control falls through).
    - [unless_i]: the branch is always taken, and the instruction becomes
      [goto target]; the edge to the fall-through block [bb->linear_next] is
      removed.
    In both cases [usages] of [f] goes down by one. *)
Theorem iffy_on_known_zero (g : MVMSpeshGraph) (ins : insptr) (bb : bbptr)
    (c : MVMSpeshIns) (f : factsptr) (target : bbptr) (b : MVMSpeshBB) :
  ins_mem g !! ins = Some c ->
  ins_operands c = [reg f.1 f.2; ins_bb target] ->
  has_flag (flags (facts_at g f)) MVM_SPESH_FACT_KNOWN_VALUE = true ->
  read_i64 (value (facts_at g f)) = Some 0 ->
  log_guard_ok g f ->
  bbs g !! bb = Some b ->
  (opcode (info c) = MVM_OP_if_i -> is_Some (bbs g !! target) ->
   exists g',
     optimize_iffy g ins bb = Some g' /\
     bbs g' !! bb
     = Some (mkBB (idx b) (filter (fun i => i <> ins) (instrs b))
               (remove_first (succ b) target) (children b) (inlined b)) /\
     ins_mem g' !! ins = Some c /\
     usages (facts_at g' f) = usages (facts_at g f) - 1) /\
  (opcode (info c) = MVM_OP_unless_i ->
   forall next,
     linear_next g bb = Some (Some next) -> is_Some (bbs g !! next) ->
     opcode (MVM_op_get_op MVM_OP_goto) = MVM_OP_goto ->
     exists g',
       optimize_iffy g ins bb = Some g' /\
       ins_mem g' !! ins
       = Some (mkIns (MVM_op_get_op MVM_OP_goto) [ins_bb target; ins_bb target]) /\
       bbs g' !! bb
       = Some (mkBB (idx b) (instrs b) (remove_first (succ b) next)
                 (children b) (inlined b)) /\
       usages (facts_at g' f) = usages (facts_at g f) - 1).
Proof.
  intros Hc Hops Hkv Hval Hlg Hbb.
  apply read_i64_inv in Hval.
  assert (Ho0 : operand g ins 0 = Some (reg f.1 f.2))
    by (apply (operand_lookup g ins c); [done | by rewrite Hops]).
  destruct (get_facts_Some g (reg f.1 f.2) f) as (l1 & Hgf & Hl1);
    [by destruct f | done |].
  split.
  - intros Hop [t Ht]. unfold optimize_iffy.
    rewrite Ho0. simpl. rewrite Hgf. simpl.
    unfold ins_info. simpl. rewrite Hc. simpl. rewrite Hop.
    rewrite facts_at_set_log_guards, Hkv, Hval. simpl.
    rewrite (operand_lookup _ ins c 1 (ins_bb target)) by (done || by rewrite Hops).
    simpl. unfold MVM_spesh_manipulate_remove_successor. simpl.
    rewrite Hbb, Ht. simpl.
    unfold MVM_spesh_manipulate_delete_ins. simpl.
    rewrite lookup_insert_eq. simpl.
    eexists. split; [done|]. simpl.
    rewrite insert_insert_eq, lookup_insert_eq.
    split; [done|]. split.
    + apply phi_drop_keeps; [done|]. unfold is_phi. by rewrite Hop.
    + facts_simpl. rewrite decide_True by done. done.
  - intros Hop next Hnext [t Ht] Hgoto. unfold optimize_iffy.
    rewrite Ho0. simpl. rewrite Hgf. simpl.
    unfold ins_info. simpl. rewrite Hc. simpl. rewrite Hop.
    rewrite facts_at_set_log_guards, Hkv, Hval. simpl.
    erewrite set_info_Some by exact Hc. simpl.
    erewrite operand_lookup; [|simpl; apply lookup_insert_eq | simpl; by rewrite Hops].
    simpl.
    erewrite set_operand_Some;
      [|simpl; apply lookup_insert_eq | simpl; rewrite Hops; simpl; lia].
    simpl. unfold linear_next in *. simpl. rewrite Hnext. simpl.
    unfold MVM_spesh_manipulate_remove_successor. simpl.
    rewrite Hbb, Ht. simpl.
    eexists. split; [done|]. simpl.
    rewrite insert_insert_eq, lookup_insert_eq, Hops. simpl.
    split; [|split; [done|]].
    + apply phi_drop_keeps; [apply lookup_insert_eq|].
      unfold is_phi. simpl. by rewrite Hgoto.
    + facts_simpl. rewrite decide_True by done. done.
Qed.

(** ** Log guards *)

Lemma named_unused_cons lg lgs bb i :
  named_unused (lg :: lgs) bb i
  = (used lg =? 0) && (lg_bb lg =? bb) && (lg_ins lg =? i)
    || named_unused lgs bb i.
Proof. done. Qed.

Lemma eliminate_unused_from_spec (lgs : list MVMSpeshLogGuard)
    (g : MVMSpeshGraph) :
  (forall lg, lg ∈ lgs -> used lg = 0 -> is_Some (bbs g !! lg_bb lg)) ->
  exists m,
    eliminate_unused_log_guards_from g lgs = Some (set_bbs g m) /\
    forall bb, m !! bb = without_unused lgs bb <$> bbs g !! bb.
Proof.
  revert g. induction lgs as [|lg lgs IH]; intros g Hbbs; simpl.
  - exists (bbs g). split; [by destruct g|]. intros bb.
    unfold without_unused. simpl.
    destruct (bbs g !! bb) as [b|]; simpl; [|done].
    f_equal. destruct b. unfold set_instrs. simpl. f_equal.
    induction instrs0 as [|x l IHl]; [done|].
    rewrite filter_cons_True by done. by f_equal.
  - destruct (Z.eqb_spec (used lg) 0) as [Hu|Hu].
    + destruct (Hbbs lg) as [b0 Hb0]; [by left | done |].
      unfold MVM_spesh_manipulate_delete_ins. rewrite Hb0. simpl.
      set (g1 := set_bbs g _).
      destruct (IH g1) as (m & Hm & Hlook).
      { intros lg' Hin Hu'. unfold g1. simpl.
        destruct (Hbbs lg') as [b' Hb']; [by right | done |].
        rewrite lookup_insert. case_decide; eauto. }
      exists m. split; [by rewrite Hm|]. intros bb. rewrite Hlook.
      unfold g1. simpl. rewrite lookup_insert. case_decide as Ebb.
      * subst bb. rewrite Hb0. simpl. f_equal.
        unfold without_unused, set_instrs. simpl. f_equal.
        rewrite list_filter_filter. apply list_filter_iff. intros i.
        rewrite Hu, !Z.eqb_refl. simpl.
        destruct (Z.eqb_spec (lg_ins lg) i) as [->|Hne]; simpl.
        -- split; [by intros [_ ?] | done].
        -- split; [by intros [? _] | done].
      * destruct (bbs g !! bb) as [b|]; simpl; [|done]. f_equal.
        unfold without_unused. f_equal. apply list_filter_iff. intros i.
        rewrite named_unused_cons, Hu. simpl.
        destruct (Z.eqb_spec (lg_bb lg) bb) as [Heq|Hne]; [congruence|].
        by simpl.
    + destruct (IH g) as (m & Hm & Hlook).
      { intros lg' Hin Hu'. apply Hbbs; [by right | done]. }
      exists m. split; [done|]. intros bb. rewrite Hlook.
      destruct (bbs g !! bb) as [b|]; simpl; [|done]. f_equal.
      unfold without_unused. f_equal. apply list_filter_iff. intros i.
      rewrite named_unused_cons.
      destruct (Z.eqb_spec (used lg) 0); [done|]. by simpl.
Qed.

(** C10.  (1) A lookup through [MVM_spesh_get_facts] of facts that carry
    FROM_LOG_GUARD sets [used] of the log guard the facts name to 1, and
    changes nothing else, whatever the caller does with the facts.
    (2) [eliminate_unused_log_guards] deletes from every block exactly the
    instructions named by a log guard whose [used] is 0 and changes nothing
    else.  (3) So, after such a lookup, the instruction of the guard is
    retained (when no other, unused, guard names the same instruction). *)
Theorem log_guards_used_and_eliminated :
  (forall g o p lg,
     get_facts_direct g o = Some p ->
     has_flag (flags (facts_at g p)) MVM_SPESH_FACT_FROM_LOG_GUARD = true ->
     index (log_guards g) (log_guard (facts_at g p)) = Some lg ->
     exists l,
       MVM_spesh_get_facts g o = Some (p, set_log_guards g l) /\
       l = <[Z.to_nat (log_guard (facts_at g p)) :=
               mkLogGuard (lg_ins lg) (lg_bb lg) 1]> (log_guards g) /\
       index l (log_guard (facts_at g p))
       = Some (mkLogGuard (lg_ins lg) (lg_bb lg) 1)) /\
  (forall g,
     (forall lg, lg ∈ log_guards g -> used lg = 0 ->
                 is_Some (bbs g !! lg_bb lg)) ->
     exists m,
       eliminate_unused_log_guards g = Some (set_bbs g m) /\
       forall bb, m !! bb = without_unused (log_guards g) bb <$> bbs g !! bb) /\
  (forall g o p g1 g2 lg b,
     MVM_spesh_get_facts g o = Some (p, g1) ->
     has_flag (flags (facts_at g p)) MVM_SPESH_FACT_FROM_LOG_GUARD = true ->
     index (log_guards g) (log_guard (facts_at g p)) = Some lg ->
     (forall lg', lg' ∈ log_guards g1 -> used lg' = 0 ->
                  ~ (lg_bb lg' = lg_bb lg /\ lg_ins lg' = lg_ins lg)) ->
     eliminate_unused_log_guards g1 = Some g2 ->
     bbs g !! lg_bb lg = Some b -> lg_ins lg ∈ instrs b ->
     exists b2, bbs g2 !! lg_bb lg = Some b2 /\ lg_ins lg ∈ instrs b2).
Proof.
  assert (Hmark : forall g o p lg,
     get_facts_direct g o = Some p ->
     has_flag (flags (facts_at g p)) MVM_SPESH_FACT_FROM_LOG_GUARD = true ->
     index (log_guards g) (log_guard (facts_at g p)) = Some lg ->
     exists l,
       MVM_spesh_get_facts g o = Some (p, set_log_guards g l) /\
       l = <[Z.to_nat (log_guard (facts_at g p)) :=
               mkLogGuard (lg_ins lg) (lg_bb lg) 1]> (log_guards g) /\
       index l (log_guard (facts_at g p))
       = Some (mkLogGuard (lg_ins lg) (lg_bb lg) 1)).
  { intros g o p lg Ho Hf Hi. unfold MVM_spesh_get_facts.
    rewrite Ho. simpl. rewrite Hf, Hi. simpl.
    eexists. split; [done|]. split; [done|].
    apply index_Some in Hi as [Hge Hi]. unfold index.
    destruct (Z.ltb_spec (log_guard (facts_at g p)) 0); [lia|].
    apply list_lookup_insert_eq. by eapply lookup_lt_Some. }
  split; [exact Hmark|]. split.
  - intros g Hbbs. by apply eliminate_unused_from_spec.
  - intros g o p g1 g2 lg b Hgf Hf Hi Hothers Helim Hb Hin.
    destruct (get_facts_inv _ _ _ _ Hgf) as [Ho _].
    destruct (Hmark g o p lg Ho Hf Hi) as (l & Hgf' & -> & _).
    rewrite Hgf in Hgf'. injection Hgf' as ->.
    unfold eliminate_unused_log_guards in Helim.
    assert (Hfilter : forall lgs g0 g0' b0,
      eliminate_unused_log_guards_from g0 lgs = Some g0' ->
      bbs g0 !! lg_bb lg = Some b0 -> lg_ins lg ∈ instrs b0 ->
      (forall lg', lg' ∈ lgs -> used lg' = 0 ->
                   ~ (lg_bb lg' = lg_bb lg /\ lg_ins lg' = lg_ins lg)) ->
      exists b2, bbs g0' !! lg_bb lg = Some b2 /\ lg_ins lg ∈ instrs b2).
    { induction lgs as [|lg0 lgs IH]; intros g0 g0' b0 He Hb0 Hin0 Hoth; simpl in He.
      - injection He as <-. eauto.
      - destruct (Z.eqb_spec (used lg0) 0) as [Hu|Hu].
        + unfold MVM_spesh_manipulate_delete_ins in He.
          destruct (bbs g0 !! lg_bb lg0) as [b1|] eqn:Eb1; [|done]. simpl in He.
          destruct (decide (lg_bb lg0 = lg_bb lg)) as [Heq|Hne].
          * eapply (IH _ _ _ He).
            -- simpl. rewrite Heq. apply lookup_insert_eq.
            -- simpl. rewrite Heq, Hb0 in Eb1. injection Eb1 as <-.
               apply list_elem_of_filter. split; [|done].
               intros E. eapply Hoth; [by left | done | done].
            -- intros lg' Hin'. apply Hoth. by right.
          * eapply (IH _ _ _ He).
            -- simpl. rewrite lookup_insert_ne by done. exact Hb0.
            -- done.
            -- intros lg' Hin'. apply Hoth. by right.
        + eapply (IH _ _ _ He); eauto. intros lg' Hin'. apply Hoth. by right. }
    eapply Hfilter; eauto.
Qed.

(** ** Dead instructions *)

Lemma set_log_guards_id g : set_log_guards g (log_guards g) = g.
Proof. by destruct g. Qed.

Lemma set_used_idemp lg : set_used (set_used lg) = set_used lg.
Proof. done. Qed.

Lemma marks_refl g : marks g g.
Proof.
  exists (log_guards g). rewrite set_log_guards_id. split; [done|]. split; [done|]. auto.
Qed.

Lemma marks_trans g1 g2 g3 : marks g1 g2 -> marks g2 g3 -> marks g1 g3.
Proof.
  intros (l & -> & Hl & H1) (l' & -> & Hl' & H2). exists l'.
  split; [done|]. simpl in *. split; [congruence|].
  intros k lg Hk. destruct (H1 k lg Hk) as [E|E]; destruct (H2 k _ E) as [E'|E'];
    rewrite E'; auto.
Qed.

Lemma later_refl g : later g g.
Proof. repeat split; auto. Qed.

Lemma later_trans g1 g2 g3 : later g1 g2 -> later g2 g3 -> later g1 g3.
Proof.
  intros (A1 & A2 & A3 & A4 & A5 & A6) (B1 & B2 & B3 & B4 & B5 & B6).
  repeat split; try congruence.
  - rewrite (proj1 (B4 p)). apply A4.
  - rewrite (proj2 (B4 p)). apply A4.
  - intros H. apply A5, B5, H.
  - intros H. apply B5, A5, H.
  - etrans; [apply B6 | apply A6].
  - etrans; [apply B6 | apply A6].
Qed.

Lemma marks_later g g' : marks g g' -> later g g'.
Proof. intros (l & -> & Hl & _). repeat split; auto. Qed.

Lemma upd_dec_later g p : later g (upd_facts g p dec_usages).
Proof.
  repeat split; auto; simpl; rewrite facts_at_upd; case_decide; by subst.
Qed.

Lemma get_facts_marks g o p g' :
  MVM_spesh_get_facts g o = Some (p, g') -> marks g g'.
Proof.
  unfold MVM_spesh_get_facts. intros H.
  destruct (get_facts_direct g o) as [q|]; [|done]. simpl in H.
  destruct (has_flag _ _).
  - destruct (index _ _) as [lg|] eqn:Ei; [|done]. simpl in H.
    injection H as <- <-. apply index_Some in Ei as [Hge Ei].
    eexists. split; [done|]. split; [by rewrite length_insert|].
    intros k lg' Hk.
    destruct (decide (k = Z.to_nat (log_guard (facts_at g q)))) as [->|Hne].
    + right. rewrite list_lookup_insert_eq by (by eapply lookup_lt_Some). congruence.
    + left. by rewrite list_lookup_insert_ne.
  - injection H as <- <-. apply marks_refl.
Qed.

Lemma log_guard_ok_later g g' p : later g g' -> log_guard_ok g p -> log_guard_ok g' p.
Proof.
  intros (_ & _ & Hlen & Hf & _) Hok. unfold log_guard_ok.
  rewrite (proj1 (Hf p)), (proj2 (Hf p)). intros Hfl.
  destruct (Hok Hfl) as [lg Hlg]. apply index_Some in Hlg as [Hi Hlg].
  apply lookup_lt_Some in Hlg. unfold index.
  destruct (Z.ltb_spec (log_guard (facts_at g p)) 0); [lia|].
  apply lookup_lt_is_Some. lia.
Qed.

Lemma ins_ok_later g g' c : later g g' -> ins_ok g c -> ins_ok g' c.
Proof.
  intros Hl Hok Hc. destruct (Hok Hc) as [(p & Hp & Hlg) Hrest]. split.
  - exists p. eauto using log_guard_ok_later.
  - intros k H1 H2 H3. destruct (Hrest k H1 H2 H3) as (q & Hq & Hlq).
    exists q. eauto using log_guard_ok_later.
Qed.

Lemma dead_ins_wf_later g g' : later g g' -> dead_ins_wf g -> dead_ins_wf g'.
Proof.
  intros Hl [W1 W2]. pose proof Hl as (A1 & A2 & A3 & A4 & A5 & A6). split.
  - intros bb Hbb. rewrite A2 in Hbb. apply A5, W1, Hbb.
  - intros bb ins Hbb Hin. rewrite A2 in Hbb.
    destruct (W2 bb ins Hbb) as (c & Hc & Hok); [by apply A6|].
    exists c. rewrite A1. eauto using ins_ok_later.
Qed.

Lemma marks_facts g g' p : marks g g' -> facts_at g' p = facts_at g p.
Proof. by intros (l & -> & _). Qed.

Lemma marks_bbs g g' : marks g g' -> bbs g' = bbs g.
Proof. by intros (l & -> & _). Qed.

Lemma marks_ins_mem g g' : marks g g' -> ins_mem g' = ins_mem g.
Proof. by intros (l & -> & _). Qed.

Lemma marks_linear g g' : marks g g' -> linear g' = linear g.
Proof. by intros (l & -> & _). Qed.

Lemma propagate_later g c ro (i todo : nat) g' :
  propagate_non_usage g c ro i todo = Some g' ->
  later g g' /\ bbs g' = bbs g.
Proof.
  revert g i. induction todo as [|todo IH]; intros g i H; simpl in H.
  - injection H as <-. split; [apply later_refl | done].
  - destruct (_ && _).
    + simpl in H. by apply IH in H.
    + destruct (ins_operands c !! i) as [o|]; [|done]. simpl in H.
      destruct (MVM_spesh_get_facts g o) as [[p g1]|] eqn:Eg; [|done].
      simpl in H. apply IH in H as [Hl Hb].
      apply get_facts_marks in Eg. split.
      * eapply later_trans; [|exact Hl].
        eapply later_trans; [by apply marks_later | apply upd_dec_later].
      * rewrite Hb. simpl. by apply marks_bbs.
Qed.

Lemma propagate_Some g c ro (i todo : nat) :
  (forall k : nat, (i <= k < i + todo)%nat ->
     (ro = false \/
      Z.land (info_operand (info c) k) MVM_operand_rw_mask
      = MVM_operand_read_reg) ->
     operand_ok g c k) ->
  is_Some (propagate_non_usage g c ro i todo).
Proof.
  revert g i. induction todo as [|todo IH]; intros g i Hok; simpl; [done|].
  assert (Hnext : forall g1, later g g1 ->
            is_Some (propagate_non_usage g1 c ro (S i) todo)).
  { intros g1 Hl. apply IH. intros k Hk Hc.
    destruct (Hok k) as (p & Hp & Hlg); [lia | done |].
    exists p. eauto using log_guard_ok_later. }
  destruct ro; simpl.
  - destruct (Z.eqb_spec (Z.land (info_operand (info c) i) MVM_operand_rw_mask)
                MVM_operand_read_reg) as [Heq|Hne]; simpl.
    + destruct (Hok i) as (p & Hp & Hlg); [lia | auto |].
      destruct (ins_operands c !! i) as [o|]; [|done]. simpl in *.
      destruct (get_facts_Some g o p Hp Hlg) as (l & -> & Hl). simpl.
      apply Hnext. eapply later_trans; [|apply upd_dec_later].
      repeat split; auto.
    + apply Hnext, later_refl.
  - destruct (Hok i) as (p & Hp & Hlg); [lia | auto |].
    destruct (ins_operands c !! i) as [o|]; [|done]. simpl in *.
    destruct (get_facts_Some g o p Hp Hlg) as (l & -> & Hl). simpl.
    apply Hnext. eapply later_trans; [|apply upd_dec_later].
    repeat split; auto.
Qed.

Lemma blk_instrs_insert g bb b l bb' :
  bbs g !! bb = Some b ->
  blk_instrs (set_bbs g (<[bb := set_instrs b l]> (bbs g))) bb'
  = if decide (bb = bb') then l else blk_instrs g bb'.
Proof.
  intros Hb. unfold blk_instrs. simpl. rewrite lookup_insert.
  by case_decide.
Qed.

Lemma filter_ne_length (l : list insptr) (x : insptr) :
  x ∈ l -> (length (filter (fun i => i <> x) l) < length l)%nat.
Proof.
  intros Hin. induction l as [|y l IH]; [by apply elem_of_nil in Hin|].
  destruct (decide (y = x)) as [->|Hne].
  - rewrite filter_cons_False by (intros H; by apply H).
    pose proof (length_filter (fun i => i <> x) l). simpl. lia.
  - rewrite filter_cons_True by done. simpl.
    apply elem_of_cons in Hin as [->|Hin]; [done|]. specialize (IH Hin). lia.
Qed.

Lemma delete_ins_later g bb ins g' :
  MVM_spesh_manipulate_delete_ins g bb ins = Some g' ->
  later g g' /\
  (ins ∈ blk_instrs g bb ->
   (length (blk_instrs g' bb) < length (blk_instrs g bb))%nat).
Proof.
  unfold MVM_spesh_manipulate_delete_ins. intros H.
  destruct (bbs g !! bb) as [b|] eqn:Eb; [|done]. simpl in H. injection H as <-.
  split.
  - repeat split; auto.
    + simpl. rewrite lookup_insert. case_decide; [subst; by rewrite Eb | done].
    + simpl. rewrite lookup_insert. case_decide; [done | auto].
    + rewrite (blk_instrs_insert g bb b _ bb0 Eb). case_decide; [subst|done].
      unfold blk_instrs. rewrite Eb. simpl.
      intros x Hx. by apply list_elem_of_filter in Hx as [_ ?].
    + rewrite (blk_instrs_insert g bb b _ bb0 Eb). case_decide; [subst|done].
      unfold blk_instrs. rewrite Eb. simpl. apply length_filter.
  - rewrite (blk_instrs_insert g bb b _ bb Eb), decide_True by done.
    unfold blk_instrs. rewrite Eb. simpl. apply filter_ne_length.
Qed.

Lemma delete_ins_Some g bb ins :
  is_Some (bbs g !! bb) -> is_Some (MVM_spesh_manipulate_delete_ins g bb ins).
Proof.
  intros [b Hb]. unfold MVM_spesh_manipulate_delete_ins. rewrite Hb. by eexists.
Qed.

(** The three ways [eliminate_dead_ins_step] ends. *)
Lemma dead_ins_step_cases g bb ins g' d :
  eliminate_dead_ins_step g bb ins = Some (g', d) ->
  exists c, ins_mem g !! ins = Some c /\
    ((dead_candidate c = false /\ g' = g /\ d = false) \/
     (dead_candidate c = true /\
      exists o0 p g1,
        ins_operands c !! 0%nat = Some o0 /\
        MVM_spesh_get_facts g o0 = Some (p, g1) /\
        ((usages (facts_at g1 p) <> 0 /\ g' = g1 /\ d = false) \/
         (usages (facts_at g1 p) = 0 /\ d = true /\
          exists g2,
            propagate_non_usage g1 c (negb (is_phi c)) 1
              (Z.to_nat (num_operands (info c) - 1)) = Some g2 /\
            MVM_spesh_manipulate_delete_ins g2 bb ins = Some g')))).
Proof.
  unfold eliminate_dead_ins_step, dead_candidate. intros H.
  destruct (ins_mem g !! ins) as [c|]; [|done]. simpl in H.
  exists c. split; [done|].
  assert (Hrem : forall ro,
    (ins_operands c !! 0%nat ≫= fun o0 =>
       MVM_spesh_get_facts g o0 ≫= fun '(p, g0) =>
         if usages (facts_at g0 p) =? 0
         then propagate_non_usage g0 c ro 1 (Z.to_nat (num_operands (info c) - 1))
              ≫= fun g1 => MVM_spesh_manipulate_delete_ins g1 bb ins
              ≫= fun g2 => Some (g2, true)
         else Some (g0, false)) = Some (g', d) ->
    exists o0 p g1,
      ins_operands c !! 0%nat = Some o0 /\
      MVM_spesh_get_facts g o0 = Some (p, g1) /\
      ((usages (facts_at g1 p) <> 0 /\ g' = g1 /\ d = false) \/
       (usages (facts_at g1 p) = 0 /\ d = true /\
        exists g2,
          propagate_non_usage g1 c ro 1
            (Z.to_nat (num_operands (info c) - 1)) = Some g2 /\
          MVM_spesh_manipulate_delete_ins g2 bb ins = Some g'))).
  { intros ro Hr.
    destruct (ins_operands c !! 0%nat) as [o0|]; [|done]. simpl in Hr.
    destruct (MVM_spesh_get_facts g o0) as [[p g1]|] eqn:Eg; [|done]. simpl in Hr.
    exists o0, p, g1. split; [done|]. split; [done|].
    destruct (Z.eqb_spec (usages (facts_at g1 p)) 0) as [Hu|Hu].
    - right. split; [done|].
      destruct (propagate_non_usage _ _ _ _ _) as [g2|] eqn:En; [|done]. simpl in Hr.
      destruct (MVM_spesh_manipulate_delete_ins _ _ _) as [g3|] eqn:Ed; [|done].
      simpl in Hr. injection Hr as <- <-. split; [done|]. by exists g2.
    - left. by injection Hr as <- <-. }
  destruct (is_phi c) eqn:Ephi; simpl.
  - right. split; [done|]. by apply Hrem.
  - destruct (pure (info c)); simpl.
    + destruct (_ =? _); simpl.
      * right. split; [done|]. by apply Hrem.
      * left. by injection H as <- <-.
    + left. by injection H as <- <-.
Qed.

Lemma written_reg_get_facts g c o0 p g1 :
  ins_operands c !! 0%nat = Some o0 ->
  MVM_spesh_get_facts g o0 = Some (p, g1) ->
  written_reg c = Some p.
Proof.
  intros Ho Hg. unfold written_reg. rewrite Ho. simpl.
  by apply get_facts_inv in Hg as [? _].
Qed.

Lemma dead_ins_step_later g bb ins g' d :
  eliminate_dead_ins_step g bb ins = Some (g', d) -> later g g'.
Proof.
  intros H. apply dead_ins_step_cases in H as (c & Hc & [(? & -> & ?)|(? & o0 & p & g1 & Ho & Hg & H)]).
  - apply later_refl.
  - apply get_facts_marks, marks_later in Hg.
    destruct H as [(? & -> & ?)|(? & ? & g2 & Hp & Hd)]; [done|].
    apply propagate_later in Hp as [Hp _]. apply delete_ins_later in Hd as [Hd _].
    eauto using later_trans.
Qed.

Lemma dead_ins_step_false g bb ins g' :
  eliminate_dead_ins_step g bb ins = Some (g', false) ->
  marks g g' /\ forall c, ins_mem g !! ins = Some c -> ~ is_dead g c.
Proof.
  intros H. apply dead_ins_step_cases in H as (c & Hc & [(Hn & -> & _)|(? & o0 & p & g1 & Ho & Hg & H)]).
  - split; [apply marks_refl|]. intros c' Hc' [Hd _]. congruence.
  - destruct H as [(Hu & -> & _)|(_ & ? & _)]; [|done].
    pose proof (get_facts_marks _ _ _ _ Hg) as Hm. split; [done|].
    intros c' Hc' (_ & q & Hq & Hu'). assert (c' = c) as -> by congruence.
    rewrite (written_reg_get_facts _ _ _ _ _ Ho Hg) in Hq. injection Hq as <-.
    by rewrite (marks_facts _ _ _ Hm) in Hu.
Qed.

Lemma dead_ins_step_true g bb ins g' :
  eliminate_dead_ins_step g bb ins = Some (g', true) ->
  ins ∈ blk_instrs g bb ->
  (length (blk_instrs g' bb) < length (blk_instrs g bb))%nat.
Proof.
  intros H Hin. apply dead_ins_step_cases in H as (c & Hc & [(? & ? & ?)|(? & o0 & p & g1 & Ho & Hg & H)]); [done|].
  destruct H as [(? & ? & ?)|(_ & _ & g2 & Hp & Hd)]; [done|].
  apply get_facts_marks, marks_bbs in Hg.
  apply propagate_later in Hp as [_ Hb].
  apply delete_ins_later in Hd as [_ Hd].
  assert (Hbi : blk_instrs g2 bb = blk_instrs g bb).
  { unfold blk_instrs. by rewrite Hb, Hg. }
  rewrite <- Hbi. apply Hd. by rewrite Hbi.
Qed.

Lemma dead_ins_step_Some g bb ins c :
  ins_mem g !! ins = Some c -> ins_ok g c -> is_Some (bbs g !! bb) ->
  is_Some (eliminate_dead_ins_step g bb ins).
Proof.
  intros Hc Hok Hbb. unfold eliminate_dead_ins_step. rewrite Hc. simpl.
  assert (Hrem : forall ro, ro = negb (is_phi c) -> dead_candidate c = true ->
    is_Some (ins_operands c !! 0%nat ≫= fun o0 =>
       MVM_spesh_get_facts g o0 ≫= fun '(p, g0) =>
         if usages (facts_at g0 p) =? 0
         then propagate_non_usage g0 c ro 1 (Z.to_nat (num_operands (info c) - 1))
              ≫= fun g1 => MVM_spesh_manipulate_delete_ins g1 bb ins
              ≫= fun g2 => Some (g2, true)
         else Some (g0, false))).
  { intros ro Hro Hcand. destruct (Hok Hcand) as [(p & Hp & Hlg) Hrest].
    destruct (ins_operands c !! 0%nat) as [o0|]; [|done]. simpl in *.
    destruct (get_facts_Some g o0 p Hp Hlg) as (l & Hg & Hl). rewrite Hg. simpl.
    destruct (_ =? _); [|done].
    assert (Hl1 : later g (set_log_guards g l)) by (repeat split; auto).
    destruct (propagate_Some (set_log_guards g l) c ro 1
                (Z.to_nat (num_operands (info c) - 1))) as [g2 Hg2].
    { intros k Hk Hcond. destruct (Hrest k) as (q & Hq & Hlq); [lia | lia | |].
      - subst ro. destruct Hcond as [Hphi|?]; [|auto].
        left. by destruct (is_phi c).
      - exists q. eauto using log_guard_ok_later. }
    rewrite Hg2. simpl. apply propagate_later in Hg2 as [_ Hb].
    destruct (delete_ins_Some g2 bb ins) as [g3 Hg3]; [by rewrite Hb|].
    rewrite Hg3. done. }
  unfold dead_candidate in Hrem.
  destruct (is_phi c) eqn:Ephi; simpl in *; [by apply Hrem|].
  destruct (pure (info c)); simpl in *; [|done].
  destruct (_ =? _); simpl in *; [by apply Hrem | done].
Qed.

Lemma is_dead_marks g g' c : marks g g' -> is_dead g' c <-> is_dead g c.
Proof.
  intros Hm. unfold is_dead.
  split; intros (Hc & p & Hp & Hu); (split; [done|]); exists p;
    (split; [done|]); [by rewrite <- (marks_facts _ _ _ Hm) | by rewrite (marks_facts _ _ _ Hm)].
Qed.

Lemma elem_of_rev {A} (x : A) (l : list A) : x ∈ rev l <-> x ∈ l.
Proof. rewrite !list_elem_of_In. symmetry. apply in_rev. Qed.

Lemma dead_ins_list_later g bb l d g' d' :
  eliminate_dead_ins_list g bb l d = Some (g', d') -> later g g'.
Proof.
  revert g d. induction l as [|i l IH]; intros g d H; simpl in H.
  - injection H as <- <-. apply later_refl.
  - destruct (eliminate_dead_ins_step g bb i) as [[g1 d1]|] eqn:Es; [|done].
    simpl in H. eauto using later_trans, dead_ins_step_later.
Qed.

Lemma dead_ins_list_false g bb l d g' :
  eliminate_dead_ins_list g bb l d = Some (g', false) ->
  d = false /\ marks g g' /\
  forall i c, i ∈ l -> ins_mem g !! i = Some c -> ~ is_dead g c.
Proof.
  revert g d. induction l as [|i l IH]; intros g d H; simpl in H.
  - injection H as <- <-. split; [done|]. split; [apply marks_refl|].
    intros i c Hi. by apply elem_of_nil in Hi.
  - destruct (eliminate_dead_ins_step g bb i) as [[g1 d1]|] eqn:Es; [|done].
    simpl in H. apply IH in H as (Hd & Hm & Hnd).
    apply orb_false_iff in Hd as [-> ->].
    apply dead_ins_step_false in Es as [Hm1 Hnd1].
    split; [done|]. split; [by eapply marks_trans|].
    intros j c Hj Hc. apply elem_of_cons in Hj as [->|Hj]; [by apply Hnd1|].
    rewrite <- (is_dead_marks _ _ c Hm1). apply (Hnd j); [done|].
    by rewrite (marks_ins_mem _ _ Hm1).
Qed.

Lemma dead_ins_list_true g bb l d g' :
  eliminate_dead_ins_list g bb l d = Some (g', true) ->
  (forall i, i ∈ l -> i ∈ blk_instrs g bb) ->
  d = true \/ (length (blk_instrs g' bb) < length (blk_instrs g bb))%nat.
Proof.
  revert g d. induction l as [|i l IH]; intros g d H Hsub; simpl in H.
  - injection H as <- <-. by left.
  - destruct (eliminate_dead_ins_step g bb i) as [[g1 d1]|] eqn:Es; [|done].
    simpl in H. destruct d1.
    + right. apply dead_ins_list_later in H as (_ & _ & _ & _ & _ & Hlen).
      apply dead_ins_step_true in Es; [|apply Hsub; by left].
      specialize (Hlen bb). lia.
    + apply dead_ins_step_false in Es as [Hm _].
      assert (Hbi : blk_instrs g1 bb = blk_instrs g bb).
      { unfold blk_instrs. by rewrite (marks_bbs _ _ Hm). }
      apply IH in H.
      * rewrite Hbi in H. destruct H as [H|H]; [|by right].
        left. by rewrite orb_false_r in H.
      * intros j Hj. rewrite Hbi. apply Hsub. by right.
Qed.

Lemma dead_ins_list_Some g bb l d :
  (forall i, i ∈ l -> exists c, ins_mem g !! i = Some c /\ ins_ok g c) ->
  is_Some (bbs g !! bb) ->
  is_Some (eliminate_dead_ins_list g bb l d).
Proof.
  revert g d. induction l as [|i l IH]; intros g d Hok Hbb; simpl; [done|].
  destruct (Hok i) as (c & Hc & Hokc); [by left|].
  destruct (dead_ins_step_Some g bb i c Hc Hokc Hbb) as [[g1 d1] Hs].
  rewrite Hs. simpl. pose proof (dead_ins_step_later _ _ _ _ _ Hs) as Hl.
  apply IH.
  - intros j Hj. destruct (Hok j) as (cj & Hcj & Hokj); [by right|].
    exists cj. destruct Hl as (-> & _). eauto using ins_ok_later, dead_ins_step_later.
  - by apply Hl.
Qed.

Lemma dead_ins_bbs_later g l d g' d' :
  eliminate_dead_ins_bbs g l d = Some (g', d') -> later g g'.
Proof.
  revert g d. induction l as [|bb l IH]; intros g d H; simpl in H.
  - injection H as <- <-. apply later_refl.
  - destruct (bbs g !! bb) as [b|]; [|done]. simpl in H.
    destruct (eliminate_dead_ins_list _ _ _ _) as [[g1 d1]|] eqn:El; [|done].
    simpl in H. eauto using later_trans, dead_ins_list_later.
Qed.

Lemma elem_of_blk_instrs g bb b i :
  bbs g !! bb = Some b -> i ∈ blk_instrs g bb <-> i ∈ instrs b.
Proof. intros Hb. unfold blk_instrs. by rewrite Hb. Qed.

Lemma dead_ins_bbs_false g l d g' :
  eliminate_dead_ins_bbs g l d = Some (g', false) ->
  d = false /\ marks g g' /\
  forall bb i c, bb ∈ l -> i ∈ blk_instrs g bb ->
    ins_mem g !! i = Some c -> ~ is_dead g c.
Proof.
  revert g d. induction l as [|bb l IH]; intros g d H; simpl in H.
  - injection H as <- <-. split; [done|]. split; [apply marks_refl|].
    intros bb i c Hbb. by apply elem_of_nil in Hbb.
  - destruct (bbs g !! bb) as [b|] eqn:Eb; [|done]. simpl in H.
    destruct (eliminate_dead_ins_list _ _ _ _) as [[g1 d1]|] eqn:El; [|done].
    simpl in H. apply IH in H as (-> & Hm & Hnd).
    apply dead_ins_list_false in El as (-> & Hm1 & Hnd1).
    split; [done|]. split; [by eapply marks_trans|].
    intros bb' i c Hbb Hi Hc. apply elem_of_cons in Hbb as [->|Hbb].
    + apply (Hnd1 i); [|done]. apply elem_of_rev.
      by apply (proj1 (elem_of_blk_instrs g bb b i Eb)).
    + rewrite <- (is_dead_marks _ _ c Hm1). apply (Hnd bb' i); [done| |].
      * unfold blk_instrs. by rewrite (marks_bbs _ _ Hm1).
      * by rewrite (marks_ins_mem _ _ Hm1).
Qed.

Lemma dead_ins_bbs_true g l d g' :
  eliminate_dead_ins_bbs g l d = Some (g', true) ->
  d = true \/
  exists bb, bb ∈ l /\
    (length (blk_instrs g' bb) < length (blk_instrs g bb))%nat.
Proof.
  revert g d. induction l as [|bb l IH]; intros g d H; simpl in H.
  - injection H as <- <-. by left.
  - destruct (bbs g !! bb) as [b|] eqn:Eb; [|done]. simpl in H.
    destruct (eliminate_dead_ins_list _ _ _ _) as [[g1 d1]|] eqn:El; [|done].
    simpl in H.
    pose proof (dead_ins_list_later _ _ _ _ _ _ El) as Hl1.
    pose proof (dead_ins_bbs_later _ _ _ _ _ H) as Hl2.
    apply IH in H as [->|(bb' & Hbb' & Hlt)].
    + destruct (dead_ins_list_true _ _ _ _ _ El) as [Hd|Hlt].
      * intros i Hi. apply (proj1 (elem_of_rev _ _)) in Hi.
        by apply (proj2 (elem_of_blk_instrs g bb b i Eb)).
      * by left.
      * right. exists bb. split; [by left|].
        destruct Hl2 as (_ & _ & _ & _ & _ & Hlen). specialize (Hlen bb). lia.
    + right. exists bb'. split; [by right|].
      destruct Hl1 as (_ & _ & _ & _ & _ & Hlen). specialize (Hlen bb'). lia.
Qed.

Lemma dead_ins_bbs_Some g l d :
  (forall bb, bb ∈ l -> is_Some (bbs g !! bb)) ->
  (forall bb i, bb ∈ l -> i ∈ blk_instrs g bb ->
     exists c, ins_mem g !! i = Some c /\ ins_ok g c) ->
  is_Some (eliminate_dead_ins_bbs g l d).
Proof.
  revert g d. induction l as [|bb l IH]; intros g d Hbbs Hok; simpl; [done|].
  destruct (Hbbs bb) as [b Hb]; [by left|]. rewrite Hb. simpl.
  destruct (dead_ins_list_Some g bb (rev (instrs b)) d) as [[g1 d1] Hs].
  { intros i Hi. apply (proj1 (elem_of_rev _ _)) in Hi. apply (Hok bb); [by left|].
    by apply (proj2 (elem_of_blk_instrs g bb b i Hb)). }
  { by rewrite Hb. }
  rewrite Hs. simpl. pose proof (dead_ins_list_later _ _ _ _ _ _ Hs) as Hl.
  apply IH.
  - intros bb' Hbb'. apply Hl, Hbbs. by right.
  - intros bb' i Hbb' Hi.
    destruct (Hok bb' i) as (c & Hc & Hokc); [by right | by apply Hl |].
    exists c. destruct Hl as (Hmem & _). rewrite Hmem.
    split; [done|]. eapply ins_ok_later; [|done]. eapply dead_ins_list_later, Hs.
Qed.

Lemma count_instrs_le g g' l :
  (forall bb, (length (blk_instrs g' bb) <= length (blk_instrs g bb))%nat) ->
  (count_instrs g' l <= count_instrs g l)%nat.
Proof.
  intros H. unfold count_instrs. induction l as [|bb l IH]; simpl; [done|].
  specialize (H bb). unfold blk_instrs in H. lia.
Qed.

Lemma count_instrs_lt g g' l bb :
  (forall bb, (length (blk_instrs g' bb) <= length (blk_instrs g bb))%nat) ->
  bb ∈ l -> (length (blk_instrs g' bb) < length (blk_instrs g bb))%nat ->
  (count_instrs g' l < count_instrs g l)%nat.
Proof.
  intros H Hin Hlt. induction l as [|bb' l IH]; [by apply elem_of_nil in Hin|].
  pose proof (count_instrs_le g g' l H) as Hle.
  unfold count_instrs in *. simpl.
  apply elem_of_cons in Hin as [<-|Hin].
  - unfold blk_instrs in Hlt. lia.
  - specialize (IH Hin). specialize (H bb'). unfold blk_instrs in H. lia.
Qed.

(** The loop ends within its fuel, in a state that a pass leaves alone. *)
Lemma dead_ins_loop_ends (fuel : nat) g :
  dead_ins_wf g -> (count_instrs g (linear g) < fuel)%nat ->
  exists g0 g',
    eliminate_dead_ins_loop fuel g = Some (Some g') /\
    later g g' /\ eliminate_dead_ins_pass g0 = Some (g', false).
Proof.
  revert g. induction fuel as [|fuel IH]; intros g Hwf Hcount; [lia|].
  simpl. destruct Hwf as [W1 W2].
  destruct (dead_ins_bbs_Some g (linear g) false W1 W2) as [[g1 d] Hp].
  unfold eliminate_dead_ins_pass at 1. rewrite Hp.
  pose proof (dead_ins_bbs_later _ _ _ _ _ Hp) as Hl.
  destruct d.
  - destruct (dead_ins_bbs_true _ _ _ _ Hp) as [?|(bb & Hbb & Hlt)]; [done|].
    destruct (IH g1) as (g0 & g' & Hloop & Hl' & Hpass).
    + by apply (dead_ins_wf_later g).
    + assert (count_instrs g1 (linear g) < count_instrs g (linear g))%nat.
      { apply (count_instrs_lt g g1 (linear g) bb); [apply Hl | done | done]. }
      destruct Hl as (_ & -> & _). lia.
    + exists g0, g'. eauto using later_trans.
  - exists g, g1. done.
Qed.

(** The usages after the loop that propagates non-usage. *)
Lemma propagate_usages g c ro (i todo : nat) :
  (forall k : nat, (i <= k < i + todo)%nat ->
     (ro = false \/
      Z.land (info_operand (info c) k) MVM_operand_rw_mask
      = MVM_operand_read_reg) ->
     operand_ok g c k) ->
  exists g', propagate_non_usage g c ro i todo = Some g' /\
    forall q, usages (facts_at g' q)
              = usages (facts_at g q)
                - Z.of_nat (length (filter (fun k => drops_read c ro q k)
                                      (seq i todo))).
Proof.
  revert g i. induction todo as [|todo IH]; intros g i Hok; simpl.
  { exists g. split; [done|]. intros q. lia. }
  assert (Hnext : forall g1, later g g1 ->
            exists g', propagate_non_usage g1 c ro (S i) todo = Some g' /\
              forall q, usages (facts_at g' q)
                = usages (facts_at g1 q)
                  - Z.of_nat (length (filter (fun k => drops_read c ro q k)
                                        (seq (S i) todo)))).
  { intros g1 Hl. apply IH. intros k Hk Hc.
    destruct (Hok k) as (p & Hp & Hlg); [lia | done |].
    exists p. eauto using log_guard_ok_later. }
  assert (Hskip : negb ro || (Z.land (info_operand (info c) i) MVM_operand_rw_mask
                              =? MVM_operand_read_reg) = false ->
          exists g', propagate_non_usage g c ro (S i) todo = Some g' /\
            forall q, usages (facts_at g' q)
              = usages (facts_at g q)
                - Z.of_nat (length (filter (fun k => drops_read c ro q k)
                                      (seq i (S todo))))).
  { intros Hs. destruct (Hnext g (later_refl g)) as (g' & Hg' & Hu).
    exists g'. split; [done|]. intros q. rewrite Hu. simpl.
    rewrite filter_cons_False; [done|].
    unfold drops_read. rewrite Hs. simpl. tauto. }
  assert (Hdec : negb ro || (Z.land (info_operand (info c) i) MVM_operand_rw_mask
                              =? MVM_operand_read_reg) = true ->
          exists g',
            (o ← ins_operands c !! i;
             '(p, g0) ← MVM_spesh_get_facts g o;
             Some (upd_facts g0 p dec_usages)) ≫=
            (fun g0 => propagate_non_usage g0 c ro (S i) todo) = Some g' /\
            forall q, usages (facts_at g' q)
              = usages (facts_at g q)
                - Z.of_nat (length (filter (fun k => drops_read c ro q k)
                                      (seq i (S todo))))).
  { intros Hs. destruct (Hok i) as (p & Hp & Hlg); [lia | |].
    { apply orb_true_iff in Hs as [Hs|Hs]; [left; by destruct ro | right; lia]. }
    destruct (ins_operands c !! i) as [o|] eqn:Eo; [|done]. simpl in Hp.
    destruct (get_facts_Some g o p Hp Hlg) as (l & Hgf & Hl).
    simpl. rewrite Hgf. simpl.
    pose proof (get_facts_marks _ _ _ _ Hgf) as Hm.
    destruct (Hnext (upd_facts (set_log_guards g l) p dec_usages))
      as (g' & Hg' & Hu).
    { eapply later_trans; [apply marks_later, Hm | apply upd_dec_later]. }
    exists g'. split; [done|]. intros q. rewrite Hu.
    rewrite facts_at_upd. simpl.
    destruct (decide (p = q)) as [->|Hne].
    - rewrite filter_cons_True.
      2:{ unfold drops_read. rewrite Hs, Eo. simpl. rewrite Hp.
          by rewrite bool_decide_eq_true_2. }
      simpl. rewrite (marks_facts _ _ q Hm). lia.
    - rewrite filter_cons_False.
      2:{ unfold drops_read. rewrite Hs, Eo. simpl. rewrite Hp.
          rewrite bool_decide_eq_false_2 by congruence. simpl. tauto. }
      by rewrite (marks_facts _ _ q Hm). }
  destruct ro; simpl in *.
  - destruct (Z.land (info_operand (info c) i) MVM_operand_rw_mask
              =? MVM_operand_read_reg) eqn:E; simpl; auto.
  - auto.
Qed.


(** ** The removals of a run *)

Lemma given_back_app r1 r2 q :
  given_back (r1 ++ r2) q = given_back r1 q + given_back r2 q.
Proof.
  unfold given_back. induction r1 as [|r r1 IH]; simpl; [lia|].
  rewrite IH. lia.
Qed.

Lemma filter_all {A} (P : A -> Prop) `{forall x, Decision (P x)} (l : list A) :
  (forall x, x ∈ l -> P x) -> filter P l = l.
Proof.
  intros Hall. induction l as [|x l IH]; [done|].
  rewrite filter_cons_True by (apply Hall; by left).
  f_equal. apply IH. intros y Hy. apply Hall. by right.
Qed.

Lemma less_usages_0 f : less_usages 0 f = f.
Proof. destruct f. unfold less_usages. simpl. f_equal. lia. Qed.

Lemma less_usages_twice n m f :
  less_usages m (less_usages n f) = less_usages (n + m) f.
Proof. unfold less_usages. simpl. f_equal. lia. Qed.

Lemma less_usages_dec f : dec_usages f = less_usages 1 f.
Proof. done. Qed.

Lemma without_removed_nil bb b : without_removed [] bb b = b.
Proof.
  unfold without_removed. rewrite filter_all; [by destruct b|].
  intros i _. simpl. apply not_elem_of_nil.
Qed.

Lemma without_removed_app r1 r2 bb b :
  without_removed r2 bb (without_removed r1 bb b)
  = without_removed (r1 ++ r2) bb b.
Proof.
  unfold without_removed. simpl. unfold set_instrs. simpl. f_equal.
  rewrite list_filter_filter. apply list_filter_iff. intros i.
  rewrite fmap_app, not_elem_of_app. tauto.
Qed.

Lemma changes_within_refl g : changes_within g g.
Proof. split; [by destruct g|]. split; [done|]. auto. Qed.

Lemma changes_within_trans g1 g2 g3 :
  changes_within g1 g2 -> changes_within g2 g3 -> changes_within g1 g3.
Proof.
  intros (E1 & L1 & M1) (E2 & L2 & M2). split; [|split].
  - rewrite E2 at 1. rewrite E1 at 1. done.
  - congruence.
  - intros k lg Hk.
    destruct (M1 k lg Hk) as [E|E]; destruct (M2 k _ E) as [E'|E'];
      rewrite E'; auto.
Qed.

Lemma marks_changes_within g g' : marks g g' -> changes_within g g'.
Proof.
  intros (l & -> & Hl & Hm). split; [by destruct g|]. split; [done|]. done.
Qed.

Lemma upd_facts_changes_within g p f : changes_within g (upd_facts g p f).
Proof. split; [by destruct g|]. split; [done|]. auto. Qed.

Lemma set_bbs_changes_within g m : changes_within g (set_bbs g m).
Proof. split; [by destruct g|]. split; [done|]. auto. Qed.

(** The loop that propagates non-usage changes facts only, and of the
    facts the usages only. *)
Lemma propagate_frame g c ro (i todo : nat) g' :
  propagate_non_usage g c ro i todo = Some g' ->
  changes_within g g' /\
  forall q, exists n, facts_at g' q = less_usages n (facts_at g q).
Proof.
  revert g i. induction todo as [|todo IH]; intros g i H; simpl in H.
  - injection H as <-. split; [apply changes_within_refl|].
    intros q. exists 0. by rewrite less_usages_0.
  - destruct (_ && _).
    + simpl in H. by apply IH in H.
    + destruct (ins_operands c !! i) as [o|]; [|done]. simpl in H.
      destruct (MVM_spesh_get_facts g o) as [[p g1]|] eqn:Eg; [|done].
      simpl in H. apply IH in H as [Hc Hf].
      apply get_facts_marks in Eg. split.
      * eapply changes_within_trans; [|exact Hc].
        eapply changes_within_trans;
          [by apply marks_changes_within | apply upd_facts_changes_within].
      * intros q. destruct (Hf q) as [n Hn]. rewrite Hn, facts_at_upd.
        rewrite (marks_facts _ _ p Eg), (marks_facts _ _ q Eg).
        case_decide as Hpq; [subst q|by exists n].
        exists (1 + n). by rewrite less_usages_dec, less_usages_twice.
Qed.

Lemma less_usages_usages n f f' :
  f' = less_usages n f -> n = usages f - usages f'.
Proof. intros ->. simpl. lia. Qed.

(** The removal of a dead instruction. *)
Lemma dead_ins_step_removal g bb ins c p b :
  ins_mem g !! ins = Some c -> bbs g !! bb = Some b -> ins_ok g c ->
  dead_candidate c = true -> written_reg c = Some p ->
  usages (facts_at g p) = 0 ->
  exists g',
    eliminate_dead_ins_step g bb ins = Some (g', true) /\
    (forall q, facts_at g' q
               = less_usages (Z.of_nat (dropped_reads c q)) (facts_at g q)) /\
    bbs g'
    = <[bb := set_instrs b (filter (fun i => i <> ins) (instrs b))]> (bbs g) /\
    changes_within g g'.
Proof.
  intros Hc Hb Hok Hcand Hw Hu.
  destruct (Hok Hcand) as [(p0 & Hp0 & Hlg) Hreads].
  unfold written_reg in Hw. rewrite Hw in Hp0. injection Hp0 as <-.
  destruct (ins_operands c !! 0%nat) as [o0|] eqn:Eo; [|done]. simpl in Hw.
  destruct (get_facts_Some g o0 p Hw Hlg) as (l & Hgf & Hl).
  pose proof (get_facts_marks _ _ _ _ Hgf) as Hm.
  destruct (propagate_usages (set_log_guards g l) c (negb (is_phi c)) 1
              (Z.to_nat (num_operands (info c) - 1))) as (g2 & Hp & Hus).
  { intros k Hk Hr. destruct (Hreads k) as (q & Hq & Hlq); [lia | lia | |].
    - destruct Hr as [Hr|Hr]; [left; by destruct (is_phi c) | by right].
    - exists q. split; [done|].
      eapply log_guard_ok_later; [apply marks_later, Hm | done]. }
  pose proof (propagate_later _ _ _ _ _ _ Hp) as [_ Hbb].
  pose proof (propagate_frame _ _ _ _ _ _ Hp) as [Hcw Hfr].
  pose proof (marks_bbs _ _ Hm) as Hbb1.
  set (g' := set_bbs g2
               (<[bb := set_instrs b (filter (fun i => i <> ins) (instrs b))]>
                  (bbs g2))).
  assert (Hrun : forall ro, ro = negb (is_phi c) ->
    (ins_operands c !! 0%nat ≫= fun o0 =>
       MVM_spesh_get_facts g o0 ≫= fun '(p, g0) =>
         if usages (facts_at g0 p) =? 0
         then propagate_non_usage g0 c ro 1 (Z.to_nat (num_operands (info c) - 1))
              ≫= fun g1 => MVM_spesh_manipulate_delete_ins g1 bb ins
              ≫= fun g2 => Some (g2, true)
         else Some (g0, false)) = Some (g', true)).
  { intros ro ->. rewrite Eo. simpl. rewrite Hgf. simpl.
    rewrite (marks_facts _ _ p Hm), Hu. simpl. rewrite Hp. simpl.
    unfold MVM_spesh_manipulate_delete_ins. rewrite Hbb, Hbb1, Hb. simpl.
    unfold g'. by rewrite Hbb, Hbb1. }
  exists g'. split; [|split; [|split]].
  - unfold eliminate_dead_ins_step. rewrite Hc. simpl.
    unfold dead_candidate in Hcand.
    destruct (is_phi c) eqn:Ephi; [by apply Hrun|].
    simpl in Hcand. apply andb_true_iff in Hcand as [-> ->]. by apply Hrun.
  - intros q. unfold g'. rewrite facts_at_set_bbs.
    destruct (Hfr q) as [n Hn]. rewrite Hn.
    rewrite (marks_facts _ _ q Hm). f_equal.
    apply less_usages_usages in Hn. rewrite Hn, Hus.
    unfold dropped_reads. ring.
  - unfold g'. simpl. by rewrite Hbb, Hbb1.
  - eapply changes_within_trans; [by apply marks_changes_within|].
    eapply changes_within_trans; [exact Hcw|]. apply set_bbs_changes_within.
Qed.

Lemma dead_ins_step_decrements g bb ins c p :
  ins_mem g !! ins = Some c -> is_Some (bbs g !! bb) -> ins_ok g c ->
  dead_candidate c = true -> written_reg c = Some p ->
  usages (facts_at g p) = 0 ->
  exists g',
    eliminate_dead_ins_step g bb ins = Some (g', true) /\
    (ins ∉ blk_instrs g' bb) /\
    forall q, usages (facts_at g' q)
              = usages (facts_at g q) - Z.of_nat (dropped_reads c q).
Proof.
  intros Hc [b Hb] Hok Hcand Hw Hu.
  destruct (dead_ins_step_removal g bb ins c p b) as (g' & Hs & Hus & Hbl & _);
    [done..|].
  exists g'. split; [done|]. split.
  - unfold blk_instrs. rewrite Hbl, lookup_insert_eq. simpl.
    intros Hin. by apply list_elem_of_filter in Hin as [Hne _].
  - intros q. by rewrite Hus.
Qed.

Lemma cascade_from_marks g0 g g' : marks g g' -> cascade_from g0 g g' [].
Proof.
  intros Hm. split; [intros k bb ins c Hk; done|]. split; [|split].
  - intros q. rewrite (marks_facts _ _ q Hm). simpl.
    by rewrite less_usages_0.
  - intros bb. rewrite (marks_bbs _ _ Hm).
    destruct (bbs g !! bb) as [b|]; [|done]. simpl.
    by rewrite without_removed_nil.
  - by apply marks_changes_within.
Qed.

Lemma cascade_from_trans g0 g1 g2 g3 r1 r2 :
  cascade_from g0 g1 g2 r1 -> cascade_from g0 g2 g3 r2 ->
  cascade_from g0 g1 g3 (r1 ++ r2).
Proof.
  intros (E1 & U1 & B1 & C1) (E2 & U2 & B2 & C2). split; [|split; [|split]].
  - intros k bb ins c Hk.
    destruct (decide (k < length r1)%nat) as [Hlt|Hge].
    + rewrite lookup_app_l in Hk by done.
      rewrite take_app_le by lia. by apply E1.
    + assert (Hle : (length r1 <= k)%nat) by (clear -Hge; lia).
      rewrite lookup_app_r in Hk by done.
      destruct (E2 _ _ _ _ Hk) as (? & ? & ? & ? & p & Hw & Hu).
      repeat (split; [done|]). exists p. split; [done|].
      rewrite take_app_ge by done. rewrite given_back_app.
      rewrite U1 in Hu. simpl in Hu. by rewrite Z.sub_add_distr.
  - intros q. by rewrite U2, U1, less_usages_twice, given_back_app.
  - intros bb. rewrite B2, B1.
    destruct (bbs g1 !! bb) as [b|]; [|done]. simpl.
    by rewrite without_removed_app.
  - by eapply changes_within_trans.
Qed.

Lemma dead_ins_step_cascade g0 g bb ins g' d :
  eliminate_dead_ins_step g bb ins = Some (g', d) ->
  later g0 g -> dead_ins_wf g0 -> bb ∈ linear g0 -> ins ∈ blk_instrs g0 bb ->
  exists rem, cascade_from g0 g g' rem.
Proof.
  intros Hs Hl [W1 W2] Hbb Hin.
  destruct (W2 bb ins Hbb Hin) as (c & Hc0 & Hok0).
  assert (Hc : ins_mem g !! ins = Some c) by (destruct Hl as (-> & _); done).
  pose proof (ins_ok_later _ _ c Hl Hok0) as Hok.
  assert (Hb : is_Some (bbs g !! bb)) by (apply Hl, W1; done).
  destruct Hb as [b Hb].
  pose proof Hs as Hs'.
  apply dead_ins_step_cases in Hs'
    as (c' & Hc' & [(_ & -> & _)|(Hcand & o0 & p & g1 & Ho & Hg & H)]).
  { exists []. apply cascade_from_marks, marks_refl. }
  assert (c' = c) as -> by congruence.
  pose proof (get_facts_marks _ _ _ _ Hg) as Hm.
  destruct H as [(_ & -> & _)|(Hu & -> & _)].
  { exists []. by apply cascade_from_marks. }
  rewrite (marks_facts _ _ p Hm) in Hu.
  pose proof (written_reg_get_facts _ _ _ _ _ Ho Hg) as Hw.
  destruct (dead_ins_step_removal g bb ins c p b)
    as (g'' & Hs'' & Hus & Hbl & Hcw); [done..|].
  assert (g'' = g') as -> by congruence.
  exists [(bb, ins, c)]. split; [|split; [|split]].
  - intros k bb1 ins1 c1 Hk. destruct k as [|k]; [|done].
    injection Hk as <- <- <-. repeat (split; [done|]).
    exists p. split; [done|]. simpl. lia.
  - intros q. rewrite Hus. simpl. f_equal. lia.
  - intros bb'. rewrite Hbl, lookup_insert. case_decide as Hd.
    + subst bb'. rewrite Hb. simpl. f_equal. unfold without_removed. f_equal.
      apply list_filter_iff. intros i. simpl.
      rewrite not_elem_of_cons. split.
      * intros Hne. split; [congruence | apply not_elem_of_nil].
      * intros [Hne _] ->. done.
    + destruct (bbs g !! bb') as [b'|]; [|done]. simpl. f_equal.
      unfold without_removed. rewrite filter_all; [by destruct b'|].
      intros i _. simpl.
      rewrite not_elem_of_cons. split; [congruence | apply not_elem_of_nil].
  - done.
Qed.

Lemma dead_ins_list_cascade g0 g bb l d g' d' :
  eliminate_dead_ins_list g bb l d = Some (g', d') ->
  later g0 g -> dead_ins_wf g0 -> bb ∈ linear g0 ->
  (forall i, i ∈ l -> i ∈ blk_instrs g0 bb) ->
  exists rem, cascade_from g0 g g' rem.
Proof.
  revert g d. induction l as [|i l IH]; intros g d H Hl Hwf Hbb Hin; simpl in H.
  - injection H as <- <-. exists []. apply cascade_from_marks, marks_refl.
  - destruct (eliminate_dead_ins_step g bb i) as [[g1 d1]|] eqn:Es; [|done].
    simpl in H.
    destruct (dead_ins_step_cascade g0 g bb i g1 d1) as (r1 & Hr1);
      [done | done | done | done | apply Hin; by left |].
    destruct (IH g1 (d || d1)) as (r2 & Hr2); [done | | done | done | |].
    + eapply later_trans; [done | by eapply dead_ins_step_later].
    + intros j Hj. apply Hin. by right.
    + exists (r1 ++ r2). by eapply cascade_from_trans.
Qed.

Lemma dead_ins_bbs_cascade g0 g l d g' d' :
  eliminate_dead_ins_bbs g l d = Some (g', d') ->
  later g0 g -> dead_ins_wf g0 -> (forall bb, bb ∈ l -> bb ∈ linear g0) ->
  exists rem, cascade_from g0 g g' rem.
Proof.
  revert g d. induction l as [|bb l IH]; intros g d H Hl Hwf Hin; simpl in H.
  - injection H as <- <-. exists []. apply cascade_from_marks, marks_refl.
  - destruct (bbs g !! bb) as [b|] eqn:Eb; [|done]. simpl in H.
    destruct (eliminate_dead_ins_list _ _ _ _) as [[g1 d1]|] eqn:El; [|done].
    simpl in H.
    destruct (dead_ins_list_cascade g0 g bb (rev (instrs b)) d g1 d1)
      as (r1 & Hr1); [done | done | done | apply Hin; by left | |].
    { intros i Hi. apply (proj1 (elem_of_rev _ _)) in Hi.
      apply Hl. by apply (proj2 (elem_of_blk_instrs g bb b i Eb)). }
    destruct (IH g1 d1) as (r2 & Hr2); [done | | done | |].
    + eapply later_trans; [done | by eapply dead_ins_list_later].
    + intros bb' Hbb'. apply Hin. by right.
    + exists (r1 ++ r2). by eapply cascade_from_trans.
Qed.

Lemma dead_ins_loop_cascade (fuel : nat) g0 g g' :
  eliminate_dead_ins_loop fuel g = Some (Some g') ->
  later g0 g -> dead_ins_wf g0 ->
  exists rem, cascade_from g0 g g' rem.
Proof.
  revert g. induction fuel as [|fuel IH]; intros g H Hl Hwf; simpl in H; [done|].
  destruct (eliminate_dead_ins_pass g) as [[g1 d]|] eqn:Ep; [|done].
  unfold eliminate_dead_ins_pass in Ep.
  destruct (dead_ins_bbs_cascade g0 g (linear g) false g1 d) as (r1 & Hr1);
    [done | done | done | |].
  { intros bb Hbb. destruct Hl as (_ & <- & _). done. }
  destruct d.
  - destruct (IH g1) as (r2 & Hr2); [done | | done |].
    + eapply later_trans; [done | by eapply dead_ins_bbs_later].
    + exists (r1 ++ r2). by eapply cascade_from_trans.
  - injection H as <-. by exists r1.
Qed.
(** C6.  On a graph whose candidate instructions name registers,
    [eliminate_dead_ins] ends, and in the graph it returns no instruction
    of a block of the chain is a PHI, or a pure instruction with a written
    register as first operand, whose written register has [usages == 0].
    The pass only unlinks instructions and changes usages and used flags
    ([later]), and what it did is a list of removals ([cascade]): every
    removed instruction was dead when it was removed, counting the usages
    that the removals before it gave back; the blocks of the result are
    the blocks of the graph without the removed instructions; the facts of
    a register are what they were, with [usages] less by one for every
    operand of a removed instruction that read the register; and nothing
    else of the graph changed but the used flags of log guards.  On a dead
    instruction the body of the loop unlinks the instruction and takes one
    off [usages] of a register for every operand that reads it, which is
    what lets the elimination cascade. *)
Theorem dead_ins_fixed_point (g : MVMSpeshGraph) :
  dead_ins_wf g ->
  (exists g' rem,
     eliminate_dead_ins g = Some g' /\ no_dead_ins g' /\ later g g' /\
     cascade g g' rem) /\
  (forall bb ins c,
     bb ∈ linear g -> ins ∈ blk_instrs g bb -> ins_mem g !! ins = Some c ->
     is_dead g c ->
     exists g1,
       eliminate_dead_ins_step g bb ins = Some (g1, true) /\
       (ins ∉ blk_instrs g1 bb) /\
       forall q, usages (facts_at g1 q)
                 = usages (facts_at g q) - Z.of_nat (dropped_reads c q)).
Proof.
  intros Hwf. split.
  - unfold eliminate_dead_ins.
    destruct (dead_ins_loop_ends (S (count_instrs g (linear g))) g Hwf)
      as (g0 & g' & Hloop & Hl & Hpass); [lia|].
    destruct (dead_ins_loop_cascade _ g g g' Hloop (later_refl g) Hwf)
      as (rem & Hrem).
    exists g', rem. rewrite Hloop. split; [done|].
    split; [|by split].
    unfold eliminate_dead_ins_pass in Hpass.
    apply dead_ins_bbs_false in Hpass as (_ & Hm & Hnd).
    intros bb b ins c Hbb Hb Hin Hc. rewrite (is_dead_marks _ _ c Hm).
    rewrite (marks_linear _ _ Hm) in Hbb. rewrite (marks_bbs _ _ Hm) in Hb.
    rewrite (marks_ins_mem _ _ Hm) in Hc.
    apply (Hnd bb ins c); [done | | done].
    by apply (proj2 (elem_of_blk_instrs g0 bb b ins Hb)).
  - intros bb ins c Hbb Hin Hc (Hcand & p & Hw & Hu).
    destruct Hwf as [Hb Hi].
    destruct (Hi bb ins Hbb Hin) as (c' & Hc' & Hok).
    assert (c' = c) as -> by congruence.
    by apply (dead_ins_step_decrements g bb ins c p); auto.
Qed.

(** ** Running the cleanup passes again *)

Lemma get_facts_again g o p g1 g2 :
  MVM_spesh_get_facts g o = Some (p, g1) -> marks g1 g2 ->
  MVM_spesh_get_facts g2 o = Some (p, g2).
Proof.
  intros H Hm. pose proof (get_facts_marks _ _ _ _ H) as Hm1.
  unfold MVM_spesh_get_facts in *.
  destruct (get_facts_direct g o) as [q|] eqn:Eq; [|done]. simpl in *.
  unfold get_facts_direct in *. rewrite Eq. simpl.
  rewrite (marks_facts _ _ q Hm), (marks_facts _ _ q Hm1).
  destruct (has_flag _ _).
  - destruct (index _ _) as [lg|] eqn:Ei; [|done]. simpl in H.
    injection H as <- <-.
    apply index_Some in Ei as [Hge Ei].
    destruct Hm as (l2 & -> & Hl2 & Hk). simpl in *.
    assert (Hl2k : l2 !! Z.to_nat (log_guard (facts_at g q)) = Some (set_used lg)).
    { assert (Hpre : <[Z.to_nat (log_guard (facts_at g q)) := set_used lg]>
                       (log_guards g) !! Z.to_nat (log_guard (facts_at g q))
                     = Some (set_used lg)).
      { apply list_lookup_insert_eq. exact (lookup_lt_Some _ _ _ Ei). }
      destruct (Hk _ _ Hpre) as [E|E]; done. }
    unfold index. destruct (Z.ltb_spec (log_guard (facts_at g q)) 0); [lia|].
    rewrite Hl2k. simpl. do 2 f_equal.
    rewrite set_used_idemp. rewrite (list_insert_id l2 _ _ Hl2k). done.
  - by injection H as <- <-.
Qed.

Lemma dead_ins_step_noncandidate g bb ins c :
  ins_mem g !! ins = Some c -> dead_candidate c = false ->
  eliminate_dead_ins_step g bb ins = Some (g, false).
Proof.
  intros Hc Hn. unfold eliminate_dead_ins_step, dead_candidate in *.
  rewrite Hc. simpl. apply orb_false_iff in Hn as [-> Hn].
  destruct (pure (info c)); [|done]. simpl in Hn. by rewrite Hn.
Qed.

Lemma dead_ins_step_used g bb ins c o0 p g1 :
  ins_mem g !! ins = Some c -> dead_candidate c = true ->
  ins_operands c !! 0%nat = Some o0 ->
  MVM_spesh_get_facts g o0 = Some (p, g1) ->
  usages (facts_at g1 p) <> 0 ->
  eliminate_dead_ins_step g bb ins = Some (g1, false).
Proof.
  intros Hc Hcand Ho Hg Hu. unfold eliminate_dead_ins_step, dead_candidate in *.
  rewrite Hc. simpl. rewrite Ho. simpl. rewrite Hg. simpl.
  apply Z.eqb_neq in Hu. rewrite Hu.
  destruct (is_phi c); [done|]. simpl in Hcand.
  apply andb_true_iff in Hcand as [-> ->]. done.
Qed.

Lemma dead_ins_step_false_again g bb ins g1 g2 :
  eliminate_dead_ins_step g bb ins = Some (g1, false) -> marks g1 g2 ->
  eliminate_dead_ins_step g2 bb ins = Some (g2, false).
Proof.
  intros H Hm. pose proof (dead_ins_step_false _ _ _ _ H) as [Hm1 _].
  apply dead_ins_step_cases in H
    as (c & Hc & [(Hn & -> & _)|(Hcand & o0 & p & g1' & Ho & Hg & H)]).
  - apply (dead_ins_step_noncandidate g2 bb ins c); [|done].
    by rewrite (marks_ins_mem _ _ Hm).
  - destruct H as [(Hu & -> & _)|(_ & ? & _)]; [|done].
    apply (dead_ins_step_used g2 bb ins c o0 p); try done.
    + by rewrite (marks_ins_mem _ _ Hm), (marks_ins_mem _ _ Hm1).
    + by eapply get_facts_again.
    + by rewrite (marks_facts _ _ _ Hm).
Qed.

Lemma dead_ins_list_false_again g bb l g1 g2 :
  eliminate_dead_ins_list g bb l false = Some (g1, false) -> marks g1 g2 ->
  eliminate_dead_ins_list g2 bb l false = Some (g2, false).
Proof.
  revert g. induction l as [|i l IH]; intros g H Hm; simpl in *; [done|].
  destruct (eliminate_dead_ins_step g bb i) as [[g0 d0]|] eqn:Es; [|done].
  simpl in H. pose proof (dead_ins_list_false _ _ _ _ _ H) as (-> & Hm0 & _).
  rewrite (dead_ins_step_false_again _ _ _ _ g2 Es) by (by eapply marks_trans).
  simpl. by apply (IH g0).
Qed.

Lemma dead_ins_bbs_false_again g l g1 g2 :
  eliminate_dead_ins_bbs g l false = Some (g1, false) -> marks g1 g2 ->
  eliminate_dead_ins_bbs g2 l false = Some (g2, false).
Proof.
  revert g. induction l as [|bb l IH]; intros g H Hm; simpl in *; [done|].
  pose proof (dead_ins_bbs_false g (bb :: l) false g1) as Hall. simpl in Hall.
  destruct (Hall H) as (_ & Hm1 & _).
  rewrite (marks_bbs _ _ Hm), (marks_bbs _ _ Hm1).
  destruct (bbs g !! bb) as [b|] eqn:Eb; [|done]. simpl in *.
  destruct (eliminate_dead_ins_list g bb (rev (instrs b)) false)
    as [[g0 d0]|] eqn:El; [|done].
  simpl in H. pose proof (dead_ins_bbs_false _ _ _ _ H) as (-> & Hm0 & _).
  rewrite (dead_ins_list_false_again _ _ _ _ g2 El) by (by eapply marks_trans).
  simpl. by apply (IH g0).
Qed.

Lemma dead_ins_loop_result (fuel : nat) g g' :
  eliminate_dead_ins_loop fuel g = Some (Some g') ->
  exists g0, eliminate_dead_ins_pass g0 = Some (g', false).
Proof.
  revert g. induction fuel as [|fuel IH]; intros g H; simpl in H; [done|].
  destruct (eliminate_dead_ins_pass g) as [[g1 []]|] eqn:Ep; [eauto | | done].
  injection H as <-. eauto.
Qed.

Lemma dead_ins_again g g1 :
  eliminate_dead_ins g = Some g1 -> eliminate_dead_ins g1 = Some g1.
Proof.
  unfold eliminate_dead_ins. intros H.
  destruct (eliminate_dead_ins_loop _ g) as [[g'|]|] eqn:El; simpl in H; [|done..].
  injection H as ->.
  apply dead_ins_loop_result in El as [g0 Hp].
  unfold eliminate_dead_ins_pass in *.
  pose proof (dead_ins_bbs_false _ _ _ _ Hp) as (_ & Hm & _).
  simpl. unfold eliminate_dead_ins_pass.
  rewrite (marks_linear _ _ Hm).
  by rewrite (dead_ins_bbs_false_again _ _ _ g1 Hp (marks_refl g1)).
Qed.

Lemma filter_ne_id (l : list insptr) (x : insptr) :
  x ∉ l -> filter (fun i => i <> x) l = l.
Proof.
  intros Hx. induction l as [|y l IH]; [done|].
  apply not_elem_of_cons in Hx as [Hne Hx].
  rewrite filter_cons_True by done. by rewrite IH.
Qed.

Lemma set_bbs_id g : set_bbs g (bbs g) = g.
Proof. by destruct g. Qed.

Lemma delete_ins_absent g bb ins b :
  bbs g !! bb = Some b -> ins ∉ instrs b ->
  MVM_spesh_manipulate_delete_ins g bb ins = Some g.
Proof.
  intros Hb Hx. unfold MVM_spesh_manipulate_delete_ins. rewrite Hb. simpl.
  rewrite filter_ne_id by done.
  replace (set_instrs b (instrs b)) with b by (by destruct b).
  by rewrite insert_id, set_bbs_id.
Qed.

Lemma eliminate_unused_from_result lgs g g1 :
  eliminate_unused_log_guards_from g lgs = Some g1 ->
  g1 = set_bbs g (bbs g1) /\
  (forall bb, bbs g1 !! bb = without_unused lgs bb <$> bbs g !! bb) /\
  (forall lg, lg ∈ lgs -> used lg = 0 -> is_Some (bbs g !! lg_bb lg)).
Proof.
  intros H.
  assert (Hdom : forall lg, lg ∈ lgs -> used lg = 0 -> is_Some (bbs g !! lg_bb lg)).
  { clear -H. revert g H. induction lgs as [|lg0 lgs IH]; intros g H lg Hin Hu;
      [by apply elem_of_nil in Hin|]. simpl in H.
    destruct (Z.eqb_spec (used lg0) 0) as [Hu0|Hu0].
    - unfold MVM_spesh_manipulate_delete_ins in H.
      destruct (bbs g !! lg_bb lg0) as [b0|] eqn:Eb0; [|done]. simpl in H.
      apply elem_of_cons in Hin as [->|Hin]; [by rewrite Eb0|].
      specialize (IH _ H lg Hin Hu). simpl in IH.
      rewrite lookup_insert in IH. case_decide as E; [by rewrite <- E, Eb0 | done].
    - apply elem_of_cons in Hin as [->|Hin]; [done|]. eauto. }
  destruct (eliminate_unused_from_spec lgs g Hdom) as (m & Hm & Hlook).
  rewrite H in Hm. injection Hm as ->. simpl. done.
Qed.

Lemma eliminate_unused_from_fixed lgs g :
  (forall lg, lg ∈ lgs -> used lg = 0 ->
     exists b, bbs g !! lg_bb lg = Some b /\ lg_ins lg ∉ instrs b) ->
  eliminate_unused_log_guards_from g lgs = Some g.
Proof.
  induction lgs as [|lg lgs IH]; intros H; simpl; [done|].
  destruct (Z.eqb_spec (used lg) 0) as [Hu|Hu].
  - destruct (H lg) as (b & Hb & Hx); [by left | done |].
    rewrite (delete_ins_absent g _ _ b Hb Hx). simpl.
    apply IH. intros lg' Hin. apply H. by right.
  - simpl. apply IH. intros lg' Hin. apply H. by right.
Qed.

Lemma named_unused_true lgs lg :
  lg ∈ lgs -> used lg = 0 -> named_unused lgs (lg_bb lg) (lg_ins lg) = true.
Proof.
  intros Hin Hu. unfold named_unused. apply existsb_exists. exists lg.
  split; [by apply list_elem_of_In|]. by rewrite Hu, !Z.eqb_refl.
Qed.

Lemma unused_log_guards_again g g1 :
  eliminate_unused_log_guards g = Some g1 ->
  eliminate_unused_log_guards g1 = Some g1.
Proof.
  unfold eliminate_unused_log_guards. intros H.
  apply eliminate_unused_from_result in H as (Hg1 & Hlook & Hdom).
  assert (Hlg : log_guards g1 = log_guards g) by (by rewrite Hg1).
  rewrite Hlg. apply eliminate_unused_from_fixed. intros lg Hin Hu.
  destruct (Hdom lg Hin Hu) as [b Hb].
  exists (without_unused (log_guards g) (lg_bb lg) b).
  rewrite Hlook, Hb. split; [done|]. simpl.
  intros Hx. apply list_elem_of_filter in Hx as [Hneg _].
  by rewrite named_unused_true in Hneg.
Qed.

(** C2, as the code has it.  Two of the cleanup passes leave their own
    result alone: [eliminate_dead_ins] applied to a graph it returned
    returns that graph, and so does [eliminate_unused_log_guards]. *)
Theorem cleanup_passes_idempotent (g g1 : MVMSpeshGraph) :
  (eliminate_dead_ins g = Some g1 -> eliminate_dead_ins g1 = Some g1) /\
  (eliminate_unused_log_guards g = Some g1 ->
   eliminate_unused_log_guards g1 = Some g1).
Proof. split; [apply dead_ins_again | apply unused_log_guards_again]. Qed.

(** ** Unreachable blocks *)

Lemma store_spec a i v a' :
  store a i v = Some a' ->
  index a' i = Some v /\ length a' = length a /\
  forall j, j <> i -> index a' j = index a j.
Proof.
  unfold store. case_decide as H; [|done]. intros [= <-].
  destruct H as [Hi Hlt]. unfold index. split.
  - destruct (Z.ltb_spec i 0); [lia|]. by apply list_lookup_insert_eq.
  - split; [apply length_insert|]. intros j Hj.
    destruct (Z.ltb_spec j 0); [done|].
    apply list_lookup_insert_ne. lia.
Qed.

Lemma store_keeps_one a i a' j :
  store a i 1 = Some a' -> index a j = Some 1 -> index a' j = Some 1.
Proof.
  intros Hs Hj. destruct (store_spec _ _ _ _ Hs) as (Hi & _ & Hne).
  destruct (decide (j = i)) as [->|Hji]; [done|]. by rewrite Hne.
Qed.

Lemma mark_succs_spec g seen ss seen' :
  mark_succs g seen ss = Some seen' ->
  (forall j, index seen j = Some 1 -> index seen' j = Some 1) /\
  (forall s, s ∈ ss ->
     exists t, bbs g !! s = Some t /\ index seen' (idx t) = Some 1).
Proof.
  revert seen. induction ss as [|s ss IH]; intros seen H; simpl in H.
  - injection H as <-. split; [done|]. intros s Hs. by apply elem_of_nil in Hs.
  - destruct (bbs g !! s) as [t|] eqn:Et; [|done]. simpl in H.
    destruct (store seen (idx t) 1) as [seen1|] eqn:Es; [|done]. simpl in H.
    destruct (IH _ H) as [Hmono Hmarked]. split.
    + intros j Hj. eauto using store_keeps_one.
    + intros s' Hs'. apply elem_of_cons in Hs' as [->|Hs']; [|eauto].
      exists t. split; [done|]. apply Hmono.
      by destruct (store_spec _ _ _ _ Es) as [? _].
Qed.

Lemma mark_blocks_spec g seen l seen' :
  mark_blocks g seen l = Some seen' ->
  (forall j, index seen j = Some 1 -> index seen' j = Some 1) /\
  (forall bb b s, bb ∈ l -> bbs g !! bb = Some b -> s ∈ succ b ->
     exists t, bbs g !! s = Some t /\ index seen' (idx t) = Some 1).
Proof.
  revert seen. induction l as [|bb l IH]; intros seen H; simpl in H.
  - injection H as <-. split; [done|]. intros bb b s Hbb. by apply elem_of_nil in Hbb.
  - destruct (bbs g !! bb) as [b|] eqn:Eb; [|done]. simpl in H.
    destruct (mark_succs g seen (succ b)) as [seen1|] eqn:Es; [|done]. simpl in H.
    destruct (IH _ H) as [Hmono Hmarked].
    destruct (mark_succs_spec _ _ _ _ Es) as [Hmono1 Hmarked1]. split.
    + auto.
    + intros bb' b' s Hbb' Hb' Hs. apply elem_of_cons in Hbb' as [->|Hbb']; [|eauto].
      assert (b' = b) as -> by congruence.
      destruct (Hmarked1 s Hs) as (t & Ht & Hone). eauto.
Qed.

(** What the second pass does to the chain [cur :: rest]. *)
Lemma sweep_spec g seen (n : nat) :
  forall rest cur num death l num' d,
    (length rest <= n)%nat ->
    sweep g seen cur rest num death = Some (l, num', d) ->
    head l = Some cur /\
    (forall bb, bb ∈ l -> bb ∈ cur :: rest) /\
    (forall bb, bb ∈ rest -> bb ∉ l ->
       exists nb, bbs g !! bb = Some nb /\ index seen (idx nb) = Some 0 /\
                  inlined nb = false) /\
    (d = true -> death = true \/ (length l < S (length rest))%nat) /\
    (length l <= S (length rest))%nat.
Proof.
  induction n as [|n IH]; intros rest cur num death l num' d Hlen H.
  - destruct rest; [|simpl in Hlen; lia]. simpl in H. injection H as <- <- <-.
    repeat split; auto; try (simpl; lia).
    intros bb Hbb. by apply elem_of_nil in Hbb.
  - destruct rest as [|nxt rest']; simpl in H.
    { injection H as <- <- <-. repeat split; auto; try (simpl; lia).
      intros bb Hbb. by apply elem_of_nil in Hbb. }
    destruct (bbs g !! nxt) as [nb|] eqn:Enb; [|done]. simpl in H.
    destruct (index seen (idx nb)) as [s|] eqn:Es; [|done]. simpl in H.
    destruct ((s =? 0) && negb (inlined nb)) eqn:Edrop.
    + apply andb_true_iff in Edrop as [Hs Hinl].
      apply Z.eqb_eq in Hs as ->. apply negb_true_iff in Hinl.
      destruct rest' as [|y rest'']; [done|].
      destruct (sweep g seen y rest'' (num - 1) true) as [[[l1 n1] d1]|] eqn:Esw;
        [|done]. simpl in H. injection H as <- <- <-.
      apply IH in Esw as (Hhd & Hsub & Hrem & Hd & Hle); [|simpl in Hlen; lia].
      split; [done|]. split; [|split; [|split]].
      * intros bb Hbb. apply elem_of_cons in Hbb as [->|Hbb]; [by left|].
        right. right. by apply Hsub.
      * intros bb Hbb Hnot. apply not_elem_of_cons in Hnot as [Hne Hnot].
        apply elem_of_cons in Hbb as [->|Hbb]; [eauto|].
        apply elem_of_cons in Hbb as [->|Hbb]; [|eauto].
        destruct l1; [done|]. injection Hhd as ->. destruct Hnot. by left.
      * intros _. right. simpl in *. lia.
      * simpl in *. lia.
    + destruct (sweep g seen nxt rest' num death) as [[[l1 n1] d1]|] eqn:Esw;
        [|done]. simpl in H. injection H as <- <- <-.
      apply IH in Esw as (Hhd & Hsub & Hrem & Hd & Hle); [|simpl in Hlen; lia].
      split; [done|]. split; [|split; [|split]].
      * intros bb Hbb. apply elem_of_cons in Hbb as [->|Hbb]; [by left|].
        right. by apply Hsub.
      * intros bb Hbb Hnot. apply not_elem_of_cons in Hnot as [Hne Hnot].
        apply elem_of_cons in Hbb as [->|Hbb]; [|eauto].
        destruct l1; [done|]. injection Hhd as ->. destruct Hnot. by left.
      * intros Hd1. destruct (Hd Hd1) as [?|?]; [by left | right; simpl in *; lia].
      * simpl in *. lia.
Qed.

(** Blocks that are kept by the second pass: those seen, and the inlined. *)
Lemma sweep_keeps_inlined g seen (n : nat) :
  forall rest cur num death l num' d,
    (length rest <= n)%nat ->
    sweep g seen cur rest num death = Some (l, num', d) ->
    forall bb b, bb ∈ cur :: rest -> bbs g !! bb = Some b ->
                 inlined b = true -> bb ∈ l.
Proof.
  intros rest cur num death l num' d Hlen H bb b Hbb Hb Hinl.
  destruct (sweep_spec g seen n _ _ _ _ _ _ _ Hlen H) as (Hhd & _ & Hrem & _).
  destruct (decide (bb ∈ l)) as [|Hnot]; [done|].
  apply elem_of_cons in Hbb as [->|Hbb].
  - destruct l; [done|]. injection Hhd as ->. destruct Hnot. by left.
  - destruct (Hrem bb Hbb Hnot) as (nb & Hnb & _ & Hn). congruence.
Qed.

Lemma dead_bbs_pass_spec g seen g' seen' d :
  eliminate_dead_bbs_pass g seen = Some (g', seen', d) ->
  bbs g' = bbs g /\
  head (linear g') = head (linear g) /\
  (forall bb, bb ∈ linear g' -> bb ∈ linear g) /\
  (forall bb b, bb ∈ linear g -> bbs g !! bb = Some b -> inlined b = true ->
                bb ∈ linear g') /\
  (d = true -> (length (linear g') < length (linear g))%nat) /\
  (forall bb, bb ∈ linear g -> bb ∉ linear g' ->
     head (linear g) <> Some bb /\
     (exists nb, bbs g !! bb = Some nb /\ inlined nb = false) /\
     forall p pb, p ∈ linear g -> bbs g !! p = Some pb -> bb ∉ succ pb).
Proof.
  unfold eliminate_dead_bbs_pass. intros H.
  destruct (memset0 seen (num_bbs g)) as [seen1|]; [|done]. simpl in H.
  destruct (store seen1 0 1) as [seen2|]; [|done]. simpl in H.
  destruct (mark_blocks g seen2 (linear g)) as [seen3|] eqn:Em; [|done]. simpl in H.
  destruct (linear g) as [|entry rest] eqn:El; [done|].
  destruct (sweep g seen3 entry rest (num_bbs g) false) as [[[l n] d0]|] eqn:Es;
    [|done]. simpl in H. injection H as <- <- <-. simpl.
  destruct (sweep_spec g seen3 (length rest) _ _ _ _ _ _ _ (le_n _) Es)
    as (Hhd & Hsub & Hrem & Hd & Hle).
  destruct (mark_blocks_spec _ _ _ _ Em) as [_ Hmarked].
  split; [done|]. split; [done|]. split; [done|]. split; [|split].
  - intros bb b. by apply (sweep_keeps_inlined g seen3 (length rest) _ _ _ _ _ _ _ (le_n _) Es).
  - intros Hd1. destruct (Hd Hd1) as [?|?]; [done | simpl; lia].
  - intros bb Hbb Hnot.
    assert (Hentry : entry ∈ l).
    { destruct l; [done|]. injection Hhd as ->. by left. }
    assert (Hne : bb <> entry) by (intros ->; done).
    apply elem_of_cons in Hbb as [->|Hbb]; [done|].
    destruct (Hrem bb Hbb Hnot) as (nb & Hnb & Hseen & Hinl).
    split; [congruence|]. split; [eauto|].
    intros p pb Hp Hpb Hs.
    destruct (Hmarked p pb bb Hp Hpb Hs) as (t & Ht & Hone). congruence.
Qed.

Lemma dead_bbs_loop_spec (fuel : nat) :
  forall g seen g',
    eliminate_dead_bbs_loop fuel g seen = Some (Some g') ->
    bbs g' = bbs g /\
    head (linear g') = head (linear g) /\
    (forall bb, bb ∈ linear g' -> bb ∈ linear g) /\
    (forall bb b, bb ∈ linear g -> bbs g !! bb = Some b -> inlined b = true ->
                  bb ∈ linear g').
Proof.
  induction fuel as [|fuel IH]; intros g seen g' H; simpl in H; [done|].
  destruct (eliminate_dead_bbs_pass g seen) as [[[g1 seen1] d]|] eqn:Ep; [|done].
  destruct (dead_bbs_pass_spec _ _ _ _ _ Ep) as (Hb & Hh & Hsub & Hinl & _).
  destruct d.
  - destruct (IH _ _ _ H) as (Hb' & Hh' & Hsub' & Hinl').
    split; [congruence|]. split; [congruence|]. split; [auto|].
    intros bb b Hbb Hbbs Hi. apply (Hinl' bb b); [eauto | congruence | done].
  - by injection H as <-.
Qed.

Lemma dead_bbs_loop_ends (fuel : nat) :
  forall g seen,
    (length (linear g) < fuel)%nat ->
    eliminate_dead_bbs_loop fuel g seen <> None.
Proof.
  induction fuel as [|fuel IH]; intros g seen Hlen; [lia|]. simpl.
  destruct (eliminate_dead_bbs_pass g seen) as [[[g1 seen1] d]|] eqn:Ep; [|done].
  destruct (dead_bbs_pass_spec _ _ _ _ _ Ep) as (_ & _ & _ & _ & Hd & _).
  destruct d; [|done]. apply IH. specialize (Hd eq_refl). lia.
Qed.

Lemma renumber_linear g l n g' :
  renumber g l n = Some g' -> linear g' = linear g.
Proof.
  revert g n. induction l as [|bb l IH]; intros g n H; simpl in H.
  - by injection H as <-.
  - destruct (bbs g !! bb) as [b|]; [|done]. simpl in H. by apply IH in H.
Qed.

(** C7.  [eliminate_dead_bbs] keeps the entry block at the head of the
    chain and keeps every block of the chain whose [inlined] flag is set.
    In every iteration of its loop, a block that is dropped from the chain
    is not the entry, is not inlined, and is not a successor of any block
    that was on the chain at the start of the iteration.  The loop ends
    within as many iterations as there are blocks, plus one. *)
Theorem dead_bbs_keeps_entry_and_inlined (g g' : MVMSpeshGraph) :
  eliminate_dead_bbs g = Some g' ->
  head (linear g') = head (linear g) /\
  (forall bb b, bb ∈ linear g -> bbs g !! bb = Some b -> inlined b = true ->
                bb ∈ linear g') /\
  (forall g0 seen g1 seen1 d bb,
     eliminate_dead_bbs_pass g0 seen = Some (g1, seen1, d) ->
     bb ∈ linear g0 -> bb ∉ linear g1 ->
     head (linear g0) <> Some bb /\
     (exists nb, bbs g0 !! bb = Some nb /\ inlined nb = false) /\
     forall p pb, p ∈ linear g0 -> bbs g0 !! p = Some pb -> bb ∉ succ pb) /\
  (forall seen,
     eliminate_dead_bbs_loop (S (length (linear g))) g seen <> None).
Proof.
  unfold eliminate_dead_bbs. intros H.
  destruct (eliminate_dead_bbs_loop _ g _) as [[g1|]|] eqn:El; simpl in H; [|done..].
  destruct (dead_bbs_loop_spec _ _ _ _ El) as (Hb & Hh & Hsub & Hinl).
  assert (Hlin : linear g' = linear g1).
  { destruct (negb _); [by eapply renumber_linear | by injection H as <-]. }
  rewrite Hlin. split; [done|]. split; [done|]. split.
  - intros g0 seen g2 seen1 d bb Hp. by apply (dead_bbs_pass_spec _ _ _ _ _ Hp).
  - intros seen. apply dead_bbs_loop_ends. lia.
Qed.
(* --------------------------------------------------------------------- *)
(** ** More on the optimizer                                              *)
(* --------------------------------------------------------------------- *)

(** ** Spesh slots *)

(** X8.  [MVM_spesh_add_spesh_slot] appends [c] to the spesh slots and
    touches nothing else of the graph.  The allocation count stays at or
    above the number of slots, growing by 8 exactly when the array is
    full.  With fewer than [2^15] slots the index returned is the old
    number of slots: the new slot holds [c] and the slots below it are as
    before.  From [2^15] slots on the [MVMint16] returned is negative and
    names no slot. *)
Theorem add_spesh_slot_spec (g : MVMSpeshGraph) (c : option MVMObject) :
  let i := (MVM_spesh_add_spesh_slot g c).1 in
  let g' := (MVM_spesh_add_spesh_slot g c).2 in
  spesh_slots g' = spesh_slots g ++ [c] /\
  (facts g' = facts g /\ log_guards g' = log_guards g /\
   ins_mem g' = ins_mem g /\ bbs g' = bbs g /\ linear g' = linear g) /\
  (num_spesh_slots g <= alloc_spesh_slots g ->
   num_spesh_slots g' <= alloc_spesh_slots g' /\
   alloc_spesh_slots g' =
     (if num_spesh_slots g =? alloc_spesh_slots g
      then alloc_spesh_slots g + 8 else alloc_spesh_slots g)) /\
  (num_spesh_slots g < 32768 ->
   i = num_spesh_slots g /\
   index (spesh_slots g') i = Some c /\
   forall j, j < i -> index (spesh_slots g') j = index (spesh_slots g) j) /\
  (32768 <= num_spesh_slots g < 65536 ->
   i = num_spesh_slots g - 65536 /\ index (spesh_slots g') i = None).
Proof.
  unfold MVM_spesh_add_spesh_slot. simpl.
  assert (Hn0 : 0 <= num_spesh_slots g) by (unfold num_spesh_slots; lia).
  split; [done|]. split; [done|]. split; [|split].
  - intros Hle. unfold num_spesh_slots in *. simpl. rewrite length_app. simpl.
    destruct (Z.leb_spec (alloc_spesh_slots g) (Z.of_nat (length (spesh_slots g))));
      destruct (Z.eqb_spec (Z.of_nat (length (spesh_slots g))) (alloc_spesh_slots g));
      lia.
  - intros Hlt. rewrite to_int16_small by lia. split; [done|].
    unfold index, num_spesh_slots in *. split.
    + destruct (Z.ltb_spec (Z.of_nat (length (spesh_slots g))) 0); [lia|].
      rewrite Nat2Z.id. by rewrite list_lookup_middle.
    + intros j Hj. destruct (Z.ltb_spec j 0); [done|].
      rewrite lookup_app_l by lia. done.
  - intros Hr. unfold to_int16.
    replace ((num_spesh_slots g + 32768) mod 65536)
      with (num_spesh_slots g - 32768).
    2:{ apply (Z.mod_unique_pos _ _ 1); lia. }
    split; [lia|]. unfold index.
    destruct (Z.ltb_spec (num_spesh_slots g - 32768 - 32768) 0); [done | lia].
Qed.

(** ** The rewrites to constants *)

Lemma log_guard_ok_marked g l p :
  length l = length (log_guards g) ->
  log_guard_ok g p -> log_guard_ok (set_log_guards g l) p.
Proof. intros Hl. by apply (log_guard_ok_length g). Qed.

(** X9.  [optimize_is_reprid] on [d := is* r].  Without KNOWN_TYPE on [r]
    nothing changes.  With a known type whose representation is the one
    asked for, the op becomes [isnonnull] and no facts change.  With a known
    type of another representation the instruction becomes
    [const_i64_16 d, 0], [d] gains KNOWN_VALUE with the value 0, and no
    [usages] counter changes (not even that of [r], whose read is gone). *)
Theorem is_reprid_rewrite (g : MVMSpeshGraph) (ins : insptr) (c : MVMSpeshIns)
    (d r : factsptr) (wanted : Z) :
  ins_mem g !! ins = Some c ->
  ins_operands c = [reg d.1 d.2; reg r.1 r.2] ->
  wanted_repr_id (opcode (info c)) = Some wanted ->
  log_guard_ok g d -> log_guard_ok g r ->
  (has_flag (flags (facts_at g r)) MVM_SPESH_FACT_KNOWN_TYPE = true ->
   is_Some (type (facts_at g r))) ->
  exists g', optimize_is_reprid g ins = Some g' /\
    match (if has_flag (flags (facts_at g r)) MVM_SPESH_FACT_KNOWN_TYPE
           then type (facts_at g r) else None) with
    | None =>
        ins_mem g' = ins_mem g /\ forall p, facts_at g' p = facts_at g p
    | Some t =>
        if REPR_ID t =? wanted then
          ins_mem g' !! ins
          = Some (mkIns (MVM_op_get_op MVM_OP_isnonnull)
                    [reg d.1 d.2; reg r.1 r.2]) /\
          forall p, facts_at g' p = facts_at g p
        else
          ins_mem g' !! ins
          = Some (mkIns (MVM_op_get_op MVM_OP_const_i64_16)
                    [reg d.1 d.2; lit_i16 0]) /\
          flags (facts_at g' d)
          = Z.lor (flags (facts_at g d)) MVM_SPESH_FACT_KNOWN_VALUE /\
          value (facts_at g' d) = value_i64 0 /\
          (forall p, usages (facts_at g' p) = usages (facts_at g p)) /\
          (forall p, p <> d -> facts_at g' p = facts_at g p)
    end.
Proof.
  intros Hc Hops Hw Hd Hr Hty.
  unfold optimize_is_reprid.
  rewrite (operand_lookup g ins c 1 (reg r.1 r.2)) by (done || by rewrite Hops).
  simpl.
  destruct (get_facts_Some g (reg r.1 r.2) r) as (l1 & -> & Hl1);
    [by destruct r | done |].
  simpl. rewrite facts_at_set_log_guards.
  destruct (has_flag (flags (facts_at g r)) MVM_SPESH_FACT_KNOWN_TYPE) eqn:Ekt;
    simpl.
  2:{ eexists. split; [done|]. done. }
  destruct Hty as [t Ht]; [done|]. rewrite Ht.
  unfold ins_info. simpl. rewrite Hc. simpl.
  assert (Hwm : match opcode (info c) with
                | MVM_OP_islist => Some MVM_REPR_ID_MVMArray
                | MVM_OP_ishash => Some MVM_REPR_ID_MVMHash
                | MVM_OP_isint => Some MVM_REPR_ID_P6int
                | MVM_OP_isnum => Some MVM_REPR_ID_P6num
                | MVM_OP_isstr => Some MVM_REPR_ID_P6str
                | _ => None
                end = Some wanted) by exact Hw.
  rewrite Hwm. simpl.
  destruct (REPR_ID t =? wanted).
  - erewrite set_info_Some by exact Hc. eexists. split; [done|]. simpl.
    rewrite lookup_insert_eq, Hops. done.
  - set (g1 := set_log_guards g l1).
    rewrite (operand_lookup g1 ins c 0 (reg d.1 d.2)) by (done || by rewrite Hops).
    simpl.
    destruct (get_facts_Some g1 (reg d.1 d.2) d) as (l2 & -> & Hl2);
      [by destruct d | by apply log_guard_ok_marked |].
    simpl. erewrite set_info_Some by exact Hc. simpl.
    erewrite set_operand_Some;
      [|simpl; apply lookup_insert_eq | simpl; rewrite Hops; simpl; lia].
    simpl. eexists. split; [done|]. simpl.
    rewrite insert_insert_eq, lookup_insert_eq, Hops. simpl.
    split; [done|].
    split; [facts_simpl; repeat case_decide; simplify_eq; done|].
    split; [facts_simpl; repeat case_decide; simplify_eq; done|].
    split.
    + intros p. facts_simpl. repeat case_decide; simplify_eq; done.
    + intros p Hp. facts_simpl. repeat case_decide; simplify_eq; done.
Qed.

(** X10.  [optimize_isconcrete] on [d := isconcrete r] with [d] and [r]
    different registers.  When [r] is known to be concrete or known to be a
    type object the instruction becomes [const_i64_16 d, v] with [v = 1] for
    concrete and [0] otherwise, [d] gains KNOWN_VALUE with that value, and
    [usages] of [r] goes down by one; otherwise nothing changes. *)
Theorem isconcrete_rewrite (g : MVMSpeshGraph) (ins : insptr) (c : MVMSpeshIns)
    (d r : factsptr) :
  ins_mem g !! ins = Some c ->
  ins_operands c = [reg d.1 d.2; reg r.1 r.2] ->
  d <> r ->
  log_guard_ok g d -> log_guard_ok g r ->
  exists g', optimize_isconcrete g ins = Some g' /\
    if has_flag (flags (facts_at g r))
         (Z.lor MVM_SPESH_FACT_CONCRETE MVM_SPESH_FACT_TYPEOBJ) then
      let v := if has_flag (flags (facts_at g r)) MVM_SPESH_FACT_CONCRETE
               then 1 else 0 in
      ins_mem g' !! ins
      = Some (mkIns (MVM_op_get_op MVM_OP_const_i64_16)
                [reg d.1 d.2; lit_i16 v]) /\
      facts_at g' d
      = with_value (value_i16 v)
          (or_flags MVM_SPESH_FACT_KNOWN_VALUE (facts_at g d)) /\
      facts_at g' r = dec_usages (facts_at g r) /\
      (forall p, p <> d -> p <> r -> facts_at g' p = facts_at g p)
    else
      ins_mem g' = ins_mem g /\ forall p, facts_at g' p = facts_at g p.
Proof.
  intros Hc Hops Hdr Hd Hr.
  unfold optimize_isconcrete.
  rewrite (operand_lookup g ins c 1 (reg r.1 r.2)) by (done || by rewrite Hops).
  simpl.
  destruct (get_facts_Some g (reg r.1 r.2) r) as (l1 & -> & Hl1);
    [by destruct r | done |].
  simpl. rewrite facts_at_set_log_guards.
  destruct (has_flag (flags (facts_at g r)) _) eqn:Ekt; simpl.
  2:{ eexists. split; [done|]. done. }
  rewrite (operand_lookup (set_log_guards g l1) ins c 0 (reg d.1 d.2))
    by (done || by rewrite Hops).
  simpl.
  destruct (get_facts_Some (set_log_guards g l1) (reg d.1 d.2) d)
    as (l2 & -> & Hl2);
    [by destruct d | by apply log_guard_ok_marked |].
  simpl. erewrite set_info_Some by exact Hc. simpl.
  facts_simpl. rewrite decide_False by done. facts_simpl.
  erewrite set_operand_Some;
    [|simpl; apply lookup_insert_eq | simpl; rewrite Hops; simpl; lia].
  simpl. eexists. split; [done|]. simpl.
  rewrite insert_insert_eq, lookup_insert_eq, Hops. simpl.
  split; [done|].
  split; [facts_simpl; repeat case_decide; simplify_eq; done|].
  split; [facts_simpl; repeat case_decide; simplify_eq; done|].
  intros p Hp1 Hp2. facts_simpl. repeat case_decide; simplify_eq; done.
Qed.


(** X12.  [optimize_coerce] on [d := coerce_in r].  When [r] has
    KNOWN_VALUE, with [v] what [value.i64] reads (through whichever member
    the value was stored), the instruction becomes [const_n64 d, x] with [x]
    the binary64 number nearest to [v], [d] gains KNOWN_VALUE with [x], and
    [usages] of [r] goes down by one; without a known value nothing
    changes. *)
Theorem coerce_rewrite (g : MVMSpeshGraph) (bb : bbptr) (ins : insptr)
    (c : MVMSpeshIns) (d r : factsptr) :
  ins_mem g !! ins = Some c ->
  ins_operands c = [reg d.1 d.2; reg r.1 r.2] ->
  d <> r ->
  log_guard_ok g d -> log_guard_ok g r ->
  exists g', optimize_coerce g bb ins = Some g' /\
    match (if has_flag (flags (facts_at g r)) MVM_SPESH_FACT_KNOWN_VALUE
           then read_i64 (value (facts_at g r)) else None) with
    | Some v =>
        ins_mem g' !! ins
        = Some (mkIns (MVM_op_get_op MVM_OP_const_n64)
                  [reg d.1 d.2; lit_n64 (num64_of_int64 v)]) /\
        facts_at g' d
        = with_value (value_n64 (num64_of_int64 v))
            (or_flags MVM_SPESH_FACT_KNOWN_VALUE (facts_at g d)) /\
        facts_at g' r = dec_usages (facts_at g r) /\
        (forall p, p <> d -> p <> r -> facts_at g' p = facts_at g p)
    | None =>
        ins_mem g' = ins_mem g /\ forall p, facts_at g' p = facts_at g p
    end.
Proof.
  intros Hc Hops Hdr Hd Hr.
  unfold optimize_coerce.
  rewrite (operand_lookup g ins c 1 (reg r.1 r.2)) by (done || by rewrite Hops).
  simpl.
  destruct (get_facts_Some g (reg r.1 r.2) r) as (l1 & -> & Hl1);
    [by destruct r | done |].
  simpl. rewrite facts_at_set_log_guards.
  destruct (has_flag (flags (facts_at g r)) MVM_SPESH_FACT_KNOWN_VALUE) eqn:Ekv;
    simpl.
  2:{ eexists. split; [done|]. done. }
  rewrite (operand_lookup (set_log_guards g l1) ins c 0 (reg d.1 d.2))
    by (done || by rewrite Hops).
  simpl.
  destruct (get_facts_Some (set_log_guards g l1) (reg d.1 d.2) d)
    as (l2 & -> & Hl2);
    [by destruct d | by apply log_guard_ok_marked |].
  simpl. facts_simpl. simpl.
  erewrite set_info_Some by exact Hc. simpl.
  erewrite set_operand_Some;
    [|simpl; apply lookup_insert_eq | simpl; rewrite Hops; simpl; lia].
  simpl. eexists. split; [done|]. simpl.
  rewrite insert_insert_eq, lookup_insert_eq, Hops. simpl.
  split; [done|].
  split; [facts_simpl; repeat case_decide; simplify_eq; done|].
  split; [facts_simpl; repeat case_decide; simplify_eq; done|].
  intros p Hp1 Hp2. facts_simpl. repeat case_decide; simplify_eq; done.
Qed.

(** ** The rewrites to [set] *)

(** X13.  [optimize_hllize] on [d := hllize r].  When the type of [r] is
    known, is not [NULL], and belongs to the HLL of the compilation unit,
    the instruction becomes [set d, r] and [d] takes over every fact of [r]
    but keeps its own [usages]; in every other case nothing changes. *)
Theorem hllize_to_set (g : MVMSpeshGraph) (ins : insptr) (c : MVMSpeshIns)
    (d r : factsptr) :
  ins_mem g !! ins = Some c ->
  ins_operands c = [reg d.1 d.2; reg r.1 r.2] ->
  log_guard_ok g r ->
  exists g', optimize_hllize g ins = Some g' /\
    match (if has_flag (flags (facts_at g r)) MVM_SPESH_FACT_KNOWN_TYPE
           then type (facts_at g r) else None) with
    | Some t =>
        if st_hll_owner (STABLE t) =? hll_config (cu g) then
          ins_mem g' !! ins
          = Some (mkIns (MVM_op_get_op MVM_OP_set) [reg d.1 d.2; reg r.1 r.2]) /\
          facts_at g' d = copied_facts (facts_at g r) (facts_at g d) /\
          (forall p, p <> d -> facts_at g' p = facts_at g p)
        else ins_mem g' = ins_mem g /\ forall p, facts_at g' p = facts_at g p
    | None => ins_mem g' = ins_mem g /\ forall p, facts_at g' p = facts_at g p
    end.
Proof.
  intros Hc Hops Hr.
  unfold optimize_hllize.
  rewrite (operand_lookup g ins c 1 (reg r.1 r.2)) by (done || by rewrite Hops).
  simpl.
  destruct (get_facts_Some g (reg r.1 r.2) r) as (l1 & -> & Hl1);
    [by destruct r | done |].
  simpl. rewrite facts_at_set_log_guards.
  destruct (has_flag (flags (facts_at g r)) MVM_SPESH_FACT_KNOWN_TYPE); simpl.
  2:{ eexists. split; [done|]. done. }
  destruct (type (facts_at g r)) as [t|].
  2:{ eexists. split; [done|]. done. }
  simpl. destruct (st_hll_owner (STABLE t) =? hll_config (cu g)).
  2:{ eexists. split; [done|]. done. }
  erewrite set_info_Some by exact Hc. simpl.
  match goal with |- context [operand ?gg ins 0] => set (g3 := gg) end.
  rewrite (operand_lookup g3 ins (mkIns (MVM_op_get_op MVM_OP_set)
                                    (ins_operands c)) 0 (reg d.1 d.2))
    by (simpl; (apply lookup_insert_eq || by rewrite Hops)).
  simpl.
  rewrite (operand_lookup g3 ins (mkIns (MVM_op_get_op MVM_OP_set)
                                    (ins_operands c)) 1 (reg r.1 r.2))
    by (simpl; (apply lookup_insert_eq || by rewrite Hops)).
  simpl. unfold copy_facts, get_facts_direct. simpl.
  eexists. split; [done|]. unfold g3. simpl.
  rewrite lookup_insert_eq, Hops.
  split; [done|].
  replace (r.1, r.2) with r by (by destruct r).
  replace (d.1, d.2) with d by (by destruct d).
  split; [facts_simpl; repeat case_decide; simplify_eq; done|].
  intros p Hp. facts_simpl. repeat case_decide; simplify_eq; done.
Qed.

(** X14.  [optimize_decont] on [d := decont r], for a type without a
    container-spec [spesh] hook.  When [r] is known to be decontainerized
    or a type object the instruction becomes [set d, r] and [d] takes over
    the facts of [r] (keeping its own [usages]).  Otherwise the instruction
    stays and [d] learns what is known of the decontainerized value: its
    type, and whether it is concrete or a type object. *)
Theorem decont_rewrite (g : MVMSpeshGraph) (bb : bbptr) (ins : insptr)
    (c : MVMSpeshIns) (d r : factsptr) :
  ins_mem g !! ins = Some c ->
  ins_operands c = [reg d.1 d.2; reg r.1 r.2] ->
  d <> r ->
  log_guard_ok g d -> log_guard_ok g r ->
  (forall t cs, type (facts_at g r) = Some t ->
     st_container_spec (STABLE t) = Some cs -> cont_spesh cs = None) ->
  exists g', optimize_decont g bb ins = Some g' /\
    if has_flag (flags (facts_at g r))
         (Z.lor MVM_SPESH_FACT_DECONTED MVM_SPESH_FACT_TYPEOBJ) then
      ins_mem g' !! ins
      = Some (mkIns (MVM_op_get_op MVM_OP_set) [reg d.1 d.2; reg r.1 r.2]) /\
      facts_at g' d = copied_facts (facts_at g r) (facts_at g d) /\
      (forall p, p <> d -> facts_at g' p = facts_at g p)
    else
      ins_mem g' = ins_mem g /\
      facts_at g' d = decont_result_facts (facts_at g r) (facts_at g d) /\
      (forall p, p <> d -> facts_at g' p = facts_at g p).
Proof.
  intros Hc Hops Hdr Hd Hr Hhook.
  unfold optimize_decont.
  rewrite (operand_lookup g ins c 1 (reg r.1 r.2)) by (done || by rewrite Hops).
  simpl.
  destruct (get_facts_Some g (reg r.1 r.2) r) as (l1 & -> & Hl1);
    [by destruct r | done |].
  simpl. rewrite facts_at_set_log_guards.
  destruct (has_flag (flags (facts_at g r)) (Z.lor _ _)); simpl.
  - erewrite set_info_Some by exact Hc. simpl.
    match goal with |- context [operand ?gg ins 0] => set (g3 := gg) end.
    rewrite (operand_lookup g3 ins (mkIns (MVM_op_get_op MVM_OP_set)
                                      (ins_operands c)) 0 (reg d.1 d.2))
      by (simpl; (apply lookup_insert_eq || by rewrite Hops)).
    simpl.
    rewrite (operand_lookup g3 ins (mkIns (MVM_op_get_op MVM_OP_set)
                                      (ins_operands c)) 1 (reg r.1 r.2))
      by (simpl; (apply lookup_insert_eq || by rewrite Hops)).
    simpl. unfold copy_facts, get_facts_direct. simpl.
    eexists. split; [done|]. unfold g3. simpl.
    rewrite lookup_insert_eq, Hops.
    split; [done|].
    replace (r.1, r.2) with r by (by destruct r).
    replace (d.1, d.2) with d by (by destruct d).
    split; [facts_simpl; repeat case_decide; simplify_eq; done|].
    intros p Hp. facts_simpl. repeat case_decide; simplify_eq; done.
  - assert (Hstep :
      (if has_flag (flags (facts_at g r)) MVM_SPESH_FACT_KNOWN_TYPE
       then
         match type (facts_at g r) with
         | Some t =>
             match st_container_spec (STABLE t) with
             | Some contspec =>
                 if fetch_never_invokes contspec
                 then match cont_spesh contspec with
                      | Some hook => hook (STABLE t) (set_log_guards g l1) bb ins
                      | None => Some (set_log_guards g l1)
                      end
                 else Some (set_log_guards g l1)
             | None => Some (set_log_guards g l1)
             end
         | None => Some (set_log_guards g l1)
         end
       else Some (set_log_guards g l1)) = Some (set_log_guards g l1)).
    { destruct (has_flag _ _); [|done].
      destruct (type (facts_at g r)) as [t|] eqn:Et; [|done].
      destruct (st_container_spec (STABLE t)) as [cs|] eqn:Ecs; [|done].
      destruct (fetch_never_invokes cs); [|done].
      by rewrite (Hhook t cs). }
    rewrite Hstep. simpl.
    rewrite (operand_lookup (set_log_guards g l1) ins c 0 (reg d.1 d.2))
      by (done || by rewrite Hops).
    simpl.
    destruct (get_facts_Some (set_log_guards g l1) (reg d.1 d.2) d)
      as (l2 & -> & Hl2); [by destruct d | by apply log_guard_ok_marked |].
    simpl. facts_simpl. unfold decont_result_facts.
    destruct (has_flag (flags (facts_at g r)) MVM_SPESH_FACT_KNOWN_DECONT_TYPE);
      facts_simpl; rewrite ?decide_False by done; facts_simpl;
      rewrite ?decide_False by done;
      destruct (has_flag (flags (facts_at g r)) MVM_SPESH_FACT_DECONT_CONCRETE);
      [| destruct (has_flag (flags (facts_at g r)) MVM_SPESH_FACT_DECONT_TYPEOBJ)
       | | destruct (has_flag (flags (facts_at g r)) MVM_SPESH_FACT_DECONT_TYPEOBJ)];
      (eexists; split; [done|]; split; [done|];
       split; [facts_simpl; repeat case_decide; simplify_eq; done|];
       intros p Hp; facts_simpl; repeat case_decide; simplify_eq; done).
Qed.

(** ** Branches on a known integer *)

(** X15.  [optimize_iffy] on [if_i f, target] or [unless_i f, target]
    where [f] has KNOWN_VALUE and [value.i64] reads [v], through whichever
    member the value was stored.  The value is narrowed to an
    [MVMuint8] and compared with [negated_op] (0 for [if_i], 1 for
    [unless_i]).  When [v mod 256] differs from it the branch becomes
    [goto target] and the edge to the fall-through block is removed; when it
    is equal the instruction is deleted and the edge to [target] is removed.
    So [if_i] on 256 is dropped like [if_i] on 0, and [unless_i] on 2 becomes
    a [goto].  [usages] of [f] goes down by one either way. *)
Theorem iffy_on_known_int (g : MVMSpeshGraph) (ins : insptr) (bb : bbptr)
    (c : MVMSpeshIns) (f : factsptr) (target : bbptr) (b : MVMSpeshBB)
    (v negated : Z) :
  ins_mem g !! ins = Some c ->
  ins_operands c = [reg f.1 f.2; ins_bb target] ->
  int_branch_negated (opcode (info c)) = Some negated ->
  has_flag (flags (facts_at g f)) MVM_SPESH_FACT_KNOWN_VALUE = true ->
  read_i64 (value (facts_at g f)) = Some v ->
  log_guard_ok g f ->
  bbs g !! bb = Some b ->
  (v mod 256 <> negated ->
   forall next,
     linear_next g bb = Some (Some next) -> is_Some (bbs g !! next) ->
     opcode (MVM_op_get_op MVM_OP_goto) = MVM_OP_goto ->
     exists g',
       optimize_iffy g ins bb = Some g' /\
       ins_mem g' !! ins
       = Some (mkIns (MVM_op_get_op MVM_OP_goto) [ins_bb target; ins_bb target]) /\
       bbs g' !! bb
       = Some (mkBB (idx b) (instrs b) (remove_first (succ b) next)
                 (children b) (inlined b)) /\
       usages (facts_at g' f) = usages (facts_at g f) - 1) /\
  (v mod 256 = negated ->
   is_Some (bbs g !! target) ->
   exists g',
     optimize_iffy g ins bb = Some g' /\
     bbs g' !! bb
     = Some (mkBB (idx b) (filter (fun i => i <> ins) (instrs b))
               (remove_first (succ b) target) (children b) (inlined b)) /\
     ins_mem g' !! ins = Some c /\
     usages (facts_at g' f) = usages (facts_at g f) - 1).
Proof.
  intros Hc Hops Hneg Hkv Hval Hlg Hbb.
  apply read_i64_inv in Hval.
  assert (Ho0 : operand g ins 0 = Some (reg f.1 f.2))
    by (apply (operand_lookup g ins c); [done | by rewrite Hops]).
  destruct (get_facts_Some g (reg f.1 f.2) f) as (l1 & Hgf & Hl1);
    [by destruct f | done |].
  assert (Hphi : is_phi c = false).
  { unfold is_phi. by destruct (opcode (info c)). }
  assert (Hstart :
    optimize_iffy g ins bb
    = (let g1 := upd_facts (set_log_guards g l1) f dec_usages in
       if negb (to_uint8 v =? negated) then
         g2 ← set_info g1 ins (MVM_op_get_op MVM_OP_goto);
         o1 ← operand g2 ins 1;
         g3 ← set_operand g2 ins 0 o1;
         next ← linear_next g3 bb;
         MVM_spesh_manipulate_remove_successor g3 bb next
       else
         o1 ← operand g1 ins 1;
         target ← operand_ins_bb o1;
         g2 ← MVM_spesh_manipulate_remove_successor g1 bb (Some target);
         MVM_spesh_manipulate_delete_ins g2 bb ins)).
  { unfold optimize_iffy.
    rewrite Ho0. simpl. rewrite Hgf. simpl.
    unfold ins_info. simpl. rewrite Hc. simpl.
    rewrite facts_at_set_log_guards, Hkv, Hval.
    destruct (opcode (info c)); try discriminate Hneg;
      injection Hneg as <-; reflexivity. }
  rewrite Hstart. clear Hstart. simpl. unfold to_uint8.
  split.
  - intros Hne next Hnext [t Ht] Hgoto.
    destruct (Z.eqb_spec (v mod 256) negated) as [|_]; [done|]. simpl.
    erewrite set_info_Some by exact Hc. simpl.
    erewrite operand_lookup; [|simpl; apply lookup_insert_eq | simpl; by rewrite Hops].
    simpl.
    erewrite set_operand_Some;
      [|simpl; apply lookup_insert_eq | simpl; rewrite Hops; simpl; lia].
    simpl. unfold linear_next in *. simpl. rewrite Hnext. simpl.
    unfold MVM_spesh_manipulate_remove_successor. simpl.
    rewrite Hbb, Ht. simpl.
    eexists. split; [done|]. simpl.
    rewrite insert_insert_eq, lookup_insert_eq, Hops. simpl.
    split; [|split; [done|]].
    + apply phi_drop_keeps; [apply lookup_insert_eq|].
      unfold is_phi. simpl. by rewrite Hgoto.
    + facts_simpl. rewrite decide_True by done. done.
  - intros He [t Ht].
    destruct (Z.eqb_spec (v mod 256) negated) as [_|]; [|done]. simpl.
    rewrite (operand_lookup _ ins c 1 (ins_bb target)) by (done || by rewrite Hops).
    simpl. unfold MVM_spesh_manipulate_remove_successor. simpl.
    rewrite Hbb, Ht. simpl.
    unfold MVM_spesh_manipulate_delete_ins. simpl.
    rewrite lookup_insert_eq. simpl.
    eexists. split; [done|]. simpl.
    rewrite insert_insert_eq, lookup_insert_eq.
    split; [done|]. split.
    + by apply phi_drop_keeps.
    + facts_simpl. rewrite decide_True by done. done.
Qed.

(** ** Candidate selection: the first match *)

Lemma guard_failed_true g arg_info gd :
  guard_failed g arg_info gd = Some true -> ~ guard_holds g arg_info gd.
Proof.
  unfold guard_failed, guard_holds, guard_facts. intros H (p & Hp & Hk).
  destruct (slot gd <? MAX_ARGS_FOR_OPT); [|done].
  destruct (slot gd <? 0); [done|].
  destruct (arg_facts arg_info !! slot gd) as [[q|]|]; simpl in *; [|done|done].
  injection Hp as ->.
  destruct (kind gd); try done;
    destruct Hk as (Hf1 & Hf2 & t & Ht & Hst);
    rewrite ?Hf1, ?Hf2, Ht in H; simpl in H;
    injection H as H; apply negb_true_iff, Z.eqb_neq in H; done.
Qed.

Lemma guards_failed_true g arg_info gds :
  guards_failed g arg_info gds = Some true ->
  exists gd, gd ∈ gds /\ ~ guard_holds g arg_info gd.
Proof.
  induction gds as [|gd gds IH]; simpl; [done|]. intros H.
  destruct (guard_failed g arg_info gd) as [[]|] eqn:E; simpl in H; [| |done].
  - exists gd. split; [apply elem_of_cons; by left|]. by apply guard_failed_true.
  - destruct (IH H) as (gd' & Hin & Hn). exists gd'.
    split; [apply elem_of_cons; by right | done].
Qed.

Lemma find_candidate_from_first g arg_info cands i r :
  0 <= i ->
  find_candidate_from g arg_info cands i = Some r ->
  (r = -1 \/ i <= r < i + Z.of_nat (length cands)) /\
  forall (j : nat) cand,
    cands !! j = Some cand -> (r = -1 \/ i + Z.of_nat j < r) ->
    candidate_rejected g arg_info cand.
Proof.
  revert i. induction cands as [|cand cands IH]; intros i Hi H; simpl in H.
  - injection H as <-. split; [by left|]. intros j c Hc. done.
  - destruct (ci_cs arg_info) as [cs|] eqn:Ecs; [|done]. simpl in H.
    assert (Hrec : find_candidate_from g arg_info cands (i + 1) = Some r ->
              candidate_rejected g arg_info cand ->
              (r = -1 \/ i <= r < i + Z.of_nat (length (cand :: cands))) /\
              forall (j : nat) cand0,
                (cand :: cands) !! j = Some cand0 ->
                (r = -1 \/ i + Z.of_nat j < r) ->
                candidate_rejected g arg_info cand0).
    { intros H' Hrej. destruct (IH (i + 1)) as [Hr Hall]; [lia | done |]. split.
      - destruct Hr as [->|Hr]; [by left|]. right. simpl. lia.
      - intros [|j] cand0 Hc Hj; simpl in Hc.
        + by injection Hc as <-.
        + apply (Hall j); [done|]. destruct Hj as [->|Hj]; [by left|]. right. lia. }
    destruct (Z.eqb_spec (cand_cs cand) cs) as [Heq|Hne].
    + destruct (guards_failed g arg_info (guards cand)) as [[]|] eqn:Eg;
        simpl in H; [| |done].
      * apply Hrec; [done|]. right. by apply guards_failed_true.
      * injection H as <-. split; [right; simpl; lia|].
        intros j cand0 Hc [Hj|Hj]; lia.
    + apply Hrec; [done|]. left. rewrite Ecs. congruence.
Qed.

(** X16.  [try_find_spesh_candidate] returns [-1] or the index of a
    candidate, and every candidate before the index returned (every
    candidate, when [-1] is returned) was passed over for a reason: its
    callsite is not the call's, or one of its guards does not hold of the
    argument facts.  The first matching candidate wins. *)
Theorem try_find_spesh_candidate_first (g : MVMSpeshGraph) (code : MVMObject)
    (arg_info : MVMSpeshCallInfo) (r : Z) :
  try_find_spesh_candidate g code arg_info = Some r ->
  (r = -1 \/ 0 <= r < Z.of_nat (length (code_spesh_candidates code))) /\
  forall j cand,
    index (code_spesh_candidates code) j = Some cand ->
    (r = -1 \/ j < r) ->
    candidate_rejected g arg_info cand.
Proof.
  unfold try_find_spesh_candidate. intros H.
  destruct (find_candidate_from_first _ _ _ 0 r ltac:(lia) H) as [Hr Hall].
  split; [destruct Hr; [by left | right; lia]|].
  intros j cand Hj Hlt. apply index_Some in Hj as [Hj0 Hj].
  apply (Hall (Z.to_nat j)); [done|].
  destruct Hlt; [by left | right; lia].
Qed.

(** ** Calls of a known code object *)

Lemma guards_failed_marked g l arg_info gds :
  guards_failed (set_log_guards g l) arg_info gds = guards_failed g arg_info gds.
Proof. induction gds as [|gd gds IH]; simpl; [done|]. by rewrite IH. Qed.

Lemma find_candidate_from_marked g l arg_info cands i :
  find_candidate_from (set_log_guards g l) arg_info cands i
  = find_candidate_from g arg_info cands i.
Proof.
  revert i. induction cands as [|cand cands IH]; intros i; simpl; [done|].
  rewrite guards_failed_marked. by rewrite !IH.
Qed.

(** X17.  [optimize_call] on [d := invoke_o callee] where [callee] is
    known to be a code object ([MVMCode]) that the inliner declines.  When
    [try_find_spesh_candidate] returns an index [r >= 0] the instruction
    becomes [sp_fastinvoke_o d, callee, r], and the candidate [r] has the
    call's callsite and guards that hold of the argument facts.  When no
    candidate matches, the instruction stays.  In both cases no
    [sp_getspeshslot] is inserted, and facts, blocks and spesh slots are as
    before. *)
Theorem call_points_at_candidate (g : MVMSpeshGraph) (bb : bbptr) (ins : insptr)
    (c : MVMSpeshIns) (d callee : factsptr) (code : MVMObject)
    (arg_info : MVMSpeshCallInfo) (r : Z) :
  ins_mem g !! ins = Some c ->
  opcode (info c) = MVM_OP_invoke_o ->
  ins_operands c = [reg d.1 d.2; reg callee.1 callee.2] ->
  log_guard_ok g callee ->
  has_flag (flags (facts_at g callee)) MVM_SPESH_FACT_KNOWN_VALUE = true ->
  value (facts_at g callee) = value_o code ->
  REPR_ID code = MVM_REPR_ID_MVMCode ->
  try_find_spesh_candidate g code arg_info = Some r ->
  (forall g0 cand, MVM_spesh_inline_try_get_graph g0 code cand = None) ->
  exists g', optimize_call g bb ins 1 arg_info = Some g' /\
    facts g' = facts g /\ bbs g' = bbs g /\ spesh_slots g' = spesh_slots g /\
    if 0 <=? r then
      ins_mem g' !! ins
      = Some (mkIns (MVM_op_get_op MVM_OP_sp_fastinvoke_o)
                [reg d.1 d.2; reg callee.1 callee.2; lit_i16 (to_int16 r)]) /\
      exists cand,
        index (code_spesh_candidates code) r = Some cand /\
        ci_cs arg_info = Some (cand_cs cand) /\
        forall gd, gd ∈ guards cand -> guard_holds g arg_info gd
    else ins_mem g' = ins_mem g.
Proof.
  intros Hc Hop Hops Hlg Hkv Hval Hcode Hfind Hinl.
  unfold optimize_call.
  rewrite (operand_lookup g ins c 1 (reg callee.1 callee.2))
    by (done || by rewrite Hops).
  simpl.
  destruct (get_facts_Some g (reg callee.1 callee.2) callee) as (l1 & -> & Hl1);
    [by destruct callee | done |].
  simpl. rewrite facts_at_set_log_guards, Hkv, Hval. simpl.
  unfold resolve_target. rewrite Hcode, Z.eqb_refl. simpl.
  rewrite Z.eqb_refl. simpl.
  unfold try_find_spesh_candidate in *. rewrite find_candidate_from_marked, Hfind.
  simpl. destruct (Z.leb_spec 0 r) as [Hr|Hr].
  - destruct (find_candidate_from_sound _ _ _ _ _ Hfind ltac:(lia))
      as (_ & cand & Hcand & Hcs & Hg); [lia|].
    rewrite Z.sub_0_r in Hcand.
    assert (Hidx : index (code_spesh_candidates code) r = Some cand).
    { unfold index. destruct (Z.ltb_spec r 0); [lia | done]. }
    rewrite Hidx. simpl. rewrite Hinl.
    unfold ins_info. simpl. rewrite Hc. simpl.
    rewrite (operand_lookup _ ins c 0 (reg d.1 d.2)) by (done || by rewrite Hops).
    simpl. unfold is_invoke_v. rewrite Hop.
    rewrite (operand_lookup _ ins c 1 (reg callee.1 callee.2))
      by (done || by rewrite Hops).
    simpl. eexists. split; [done|]. simpl.
    do 3 (split; [done|]). rewrite lookup_insert_eq. split; [done|].
    exists cand. done.
  - eexists. split; [done|]. done.
Qed.

(** ** What dead-instruction elimination keeps *)

Lemma keeps_refl g : keeps g g.
Proof. split; [done|]. intros bb. split; [done | auto]. Qed.

Lemma keeps_trans g1 g2 g3 : keeps g1 g2 -> keeps g2 g3 -> keeps g1 g3.
Proof.
  intros [A1 A2] [B1 B2]. split; [congruence|]. intros bb.
  destruct (A2 bb) as [As Ak], (B2 bb) as [Bs Bk]. split.
  - by etrans.
  - intros x c Hx Hc Hd. apply (Bk x c); [by apply (Ak x c) | congruence | done].
Qed.

Lemma later_keeps_same g g' :
  ins_mem g' = ins_mem g -> bbs g' = bbs g -> keeps g g'.
Proof.
  intros Hm Hb. split; [done|]. intros bb. unfold blk_instrs. rewrite Hb.
  split; [done | auto].
Qed.

Lemma dead_ins_step_keeps g bb ins g' d :
  eliminate_dead_ins_step g bb ins = Some (g', d) -> keeps g g'.
Proof.
  intros H. apply dead_ins_step_cases in H
    as (c & Hc & [(? & -> & ?)|(Hcand & o0 & p & g1 & Ho & Hg & H)]).
  - apply keeps_refl.
  - apply get_facts_marks in Hg.
    pose proof (marks_bbs _ _ Hg) as Hb1. pose proof (marks_ins_mem _ _ Hg) as Hm1.
    destruct H as [(? & -> & ?)|(? & ? & g2 & Hp & Hd)].
    + by apply later_keeps_same.
    + apply propagate_later in Hp as [(Hm2 & _) Hb2].
      unfold MVM_spesh_manipulate_delete_ins in Hd.
      destruct (bbs g2 !! bb) as [b|] eqn:Eb; [|done]. simpl in Hd.
      injection Hd as <-.
      assert (Hbi : forall bb0, blk_instrs g2 bb0 = blk_instrs g bb0).
      { intros bb0. unfold blk_instrs. by rewrite Hb2, Hb1. }
      split; [simpl; congruence|]. intros bb0.
      rewrite (blk_instrs_insert g2 bb b _ bb0 Eb).
      case_decide as Hbb; [subst bb0|]; rewrite <- ?Hbi.
      * assert (Hl : blk_instrs g2 bb = instrs b)
          by (unfold blk_instrs; by rewrite Eb).
        rewrite Hl. split; [apply sublist_filter|].
        intros x cx Hx Hcx Hdx. apply list_elem_of_filter. split; [|done].
        intros ->. congruence.
      * split; [done | auto].
Qed.

Lemma dead_ins_list_keeps g bb l d g' d' :
  eliminate_dead_ins_list g bb l d = Some (g', d') -> keeps g g'.
Proof.
  revert g d. induction l as [|i l IH]; intros g d H; simpl in H.
  - injection H as <- <-. apply keeps_refl.
  - destruct (eliminate_dead_ins_step g bb i) as [[g1 d1]|] eqn:Es; [|done].
    simpl in H. eauto using keeps_trans, dead_ins_step_keeps.
Qed.

Lemma dead_ins_bbs_keeps g l d g' d' :
  eliminate_dead_ins_bbs g l d = Some (g', d') -> keeps g g'.
Proof.
  revert g d. induction l as [|bb l IH]; intros g d H; simpl in H.
  - injection H as <- <-. apply keeps_refl.
  - destruct (bbs g !! bb) as [b|]; [|done]. simpl in H.
    destruct (eliminate_dead_ins_list _ _ _ _) as [[g1 d1]|] eqn:El; [|done].
    simpl in H. eauto using keeps_trans, dead_ins_list_keeps.
Qed.

Lemma dead_ins_loop_keeps (fuel : nat) g g' :
  eliminate_dead_ins_loop fuel g = Some (Some g') -> keeps g g'.
Proof.
  revert g. induction fuel as [|fuel IH]; intros g H; simpl in H; [done|].
  destruct (eliminate_dead_ins_pass g) as [[g1 []]|] eqn:Ep; [| |done].
  - eapply keeps_trans; [|by apply IH]. by eapply dead_ins_bbs_keeps.
  - injection H as <-. by eapply dead_ins_bbs_keeps.
Qed.

(** X18.  [eliminate_dead_ins] changes no instruction; it leaves in every
    block a subsequence of the instructions the block had (their order is
    kept); and it never unlinks an instruction that is neither a PHI nor a
    pure instruction whose first operand is a written register. *)
Theorem dead_ins_keeps_other_instructions (g g' : MVMSpeshGraph) :
  eliminate_dead_ins g = Some g' ->
  ins_mem g' = ins_mem g /\
  forall bb,
    blk_instrs g' bb `sublist_of` blk_instrs g bb /\
    forall x c, x ∈ blk_instrs g bb -> ins_mem g !! x = Some c ->
                dead_candidate c = false -> x ∈ blk_instrs g' bb.
Proof.
  unfold eliminate_dead_ins. intros H.
  destruct (eliminate_dead_ins_loop _ g) as [[g1|]|] eqn:El; simpl in H; [|done..].
  injection H as <-. by apply dead_ins_loop_keeps in El.
Qed.

(** ** An unreachable block at the end of the chain *)

Lemma memset0_never_marked seen n seen' k :
  memset0 seen n = Some seen' -> never_marked seen k -> never_marked seen' k.
Proof.
  unfold memset0, never_marked, index. intros H Hk s.
  case_decide as Hn; [|done]. injection H as <-.
  destruct (Z.ltb_spec k 0); [done|].
  destruct (decide (Z.to_nat k < Z.to_nat n)%nat) as [Hlt|Hge].
  - rewrite lookup_app_l by (rewrite length_replicate; lia).
    intros Hs. apply lookup_replicate in Hs as [-> _]. done.
  - rewrite lookup_app_r by (rewrite length_replicate; lia).
    rewrite length_replicate, lookup_drop.
    replace (Z.to_nat n + (Z.to_nat k - Z.to_nat n))%nat with (Z.to_nat k) by lia.
    destruct (Z.ltb_spec k 0); [lia|]. apply Hk.
Qed.

Lemma store_never_marked seen i v seen' k :
  store seen i v = Some seen' -> i <> k ->
  never_marked seen k -> never_marked seen' k.
Proof.
  intros H Hik Hk s Hs. apply store_spec in H as (_ & _ & Hother).
  rewrite Hother in Hs by done. by apply Hk.
Qed.

Lemma mark_succs_never_marked g seen ss seen' k :
  mark_succs g seen ss = Some seen' ->
  (forall s t, s ∈ ss -> bbs g !! s = Some t -> idx t <> k) ->
  never_marked seen k -> never_marked seen' k.
Proof.
  revert seen. induction ss as [|s ss IH]; intros seen H Hss Hk; simpl in H.
  - by injection H as <-.
  - destruct (bbs g !! s) as [t|] eqn:Et; [|done]. simpl in H.
    destruct (store seen (idx t) 1) as [seen1|] eqn:Est; [|done]. simpl in H.
    apply (IH seen1); [done | |].
    + intros s' t' Hs'. apply Hss. apply elem_of_cons. by right.
    + eapply store_never_marked; [done | | done].
      apply (Hss s t); [apply elem_of_cons; by left | done].
Qed.

Lemma mark_blocks_never_marked g seen l seen' k :
  mark_blocks g seen l = Some seen' ->
  (forall bb b s t, bb ∈ l -> bbs g !! bb = Some b -> s ∈ succ b ->
                    bbs g !! s = Some t -> idx t <> k) ->
  never_marked seen k -> never_marked seen' k.
Proof.
  revert seen. induction l as [|bb l IH]; intros seen H Hl Hk; simpl in H.
  - by injection H as <-.
  - destruct (bbs g !! bb) as [b|] eqn:Eb; [|done]. simpl in H.
    destruct (mark_succs g seen (succ b)) as [seen1|] eqn:Em; [|done]. simpl in H.
    apply (IH seen1); [done | |].
    + intros bb' b' s t Hbb'. apply Hl. apply elem_of_cons. by right.
    + eapply mark_succs_never_marked; [done | | done].
      intros s t Hs Ht. apply (Hl bb b s t); [apply elem_of_cons; by left|done..].
Qed.

(** The second pass on a chain that ends in a block it would drop: the
    pass drops a block, or the loop test reads through [NULL]. *)
Lemma sweep_last_unmarked g seen lst lb (n : nat) :
  bbs g !! lst = Some lb -> inlined lb = false ->
  never_marked seen (idx lb) ->
  forall rest cur num death l num' d,
    (length rest <= n)%nat ->
    last rest = Some lst -> NoDup rest ->
    sweep g seen cur rest num death = Some (l, num', d) ->
    d = true /\ last l = Some lst /\ (2 <= length l)%nat.
Proof.
  intros Hlb Hinl Hk.
  induction n as [|n IH]; intros rest cur num death l num' d Hlen Hlast Hnd H;
    destruct rest as [|nxt rest']; simpl in Hlen; try done; try lia.
  simpl in H.
  destruct (bbs g !! nxt) as [nb|] eqn:Enb; [|done]. simpl in H.
  destruct (index seen (idx nb)) as [s|] eqn:Es; [|done]. simpl in H.
  apply NoDup_cons in Hnd as [Hni Hnd].
  destruct rest' as [|y rest''].
  - (* [nxt] is the last block *)
    simpl in Hlast. injection Hlast as ->.
    assert (nb = lb) as -> by congruence.
    rewrite (Hk s Es), Hinl in H. simpl in H. done.
  - rewrite last_cons_cons in Hlast.
    destruct ((s =? 0) && negb (inlined nb)).
    + destruct (sweep g seen y rest'' (num - 1) true) as [[[l1 n1] d1]|] eqn:Esw;
        [|done].
      simpl in H. injection H as <- <- <-.
      destruct rest'' as [|z rest3].
      * simpl in Esw. injection Esw as <- <- <-.
        simpl in Hlast. split; [done|]. split; [done | simpl; lia].
      * apply NoDup_cons in Hnd as [_ Hnd].
        apply IH in Esw as (-> & Hl1 & Hlen1);
          [|simpl in *; lia | by rewrite last_cons_cons in Hlast | done].
        split; [done|]. split; [|simpl; lia].
        destruct l1 as [|a l1]; [simpl in Hlen1; lia|].
        by rewrite last_cons_cons.
    + destruct (sweep g seen nxt (y :: rest'') num death) as [[[l1 n1] d1]|] eqn:Esw;
        [|done].
      simpl in H. injection H as <- <- <-.
      apply IH in Esw as (-> & Hl1 & Hlen1); [|simpl in *; lia | done | done].
      split; [done|]. split; [|simpl; lia].
      destruct l1 as [|a l1]; [simpl in Hlen1; lia|].
      by rewrite last_cons_cons.
Qed.

(** ** The chain after unreachable-block elimination *)

Lemma sweep_sublist g seen (n : nat) :
  forall rest cur num death l num' d,
    (length rest <= n)%nat ->
    sweep g seen cur rest num death = Some (l, num', d) ->
    l `sublist_of` cur :: rest /\
    num' = num - (Z.of_nat (S (length rest)) - Z.of_nat (length l)).
Proof.
  induction n as [|n IH]; intros rest cur num death l num' d Hlen H;
    destruct rest as [|nxt rest']; simpl in H, Hlen; try lia.
  - injection H as <- <- <-. split; [done | simpl length; lia].
  - injection H as <- <- <-. split; [done | simpl length; lia].
  - destruct (bbs g !! nxt) as [nb|]; [|done]. simpl in H.
    destruct (index seen (idx nb)) as [s|]; [|done]. simpl in H.
    destruct ((s =? 0) && negb (inlined nb)).
    + destruct rest' as [|y rest'']; [done|].
      destruct (sweep g seen y rest'' (num - 1) true) as [[[l1 n1] d1]|] eqn:Es;
        [|done].
      simpl in H. injection H as <- <- <-.
      apply IH in Es as [Hs Hn]; [|simpl in Hlen; lia]. split.
      * apply sublist_skip, sublist_cons. done.
      * simpl length in *. lia.
    + destruct (sweep g seen nxt rest' num death) as [[[l1 n1] d1]|] eqn:Es;
        [|done].
      simpl in H. injection H as <- <- <-.
      apply IH in Es as [Hs Hn]; [|lia]. split.
      * by apply sublist_skip.
      * simpl length in *. lia.
Qed.

Lemma chain_of_trans g1 g2 g3 : chain_of g1 g2 -> chain_of g2 g3 -> chain_of g1 g3.
Proof.
  intros (A1 & A2 & A3) (B1 & B2 & B3). split; [|split].
  - rewrite B1 at 1. rewrite A1. done.
  - by etrans.
  - lia.
Qed.

Lemma dead_bbs_pass_chain g seen g' seen' d :
  eliminate_dead_bbs_pass g seen = Some (g', seen', d) -> chain_of g g'.
Proof.
  unfold eliminate_dead_bbs_pass. intros H.
  destruct (memset0 seen (num_bbs g)) as [s1|]; [|done]. simpl in H.
  destruct (store s1 0 1) as [s2|]; [|done]. simpl in H.
  destruct (mark_blocks g s2 (linear g)) as [s3|]; [|done]. simpl in H.
  destruct (linear g) as [|entry rest] eqn:El; [done|].
  destruct (sweep g s3 entry rest (num_bbs g) false) as [[[l n] d0]|] eqn:Es;
    [|done].
  simpl in H. injection H as <- <- <-.
  apply (sweep_sublist _ _ (length rest)) in Es as [Hs Hn]; [|done].
  split; [done|]. simpl.
  rewrite El. split; [done|]. simpl length in *. lia.
Qed.

Lemma dead_bbs_loop_chain (fuel : nat) :
  forall g seen g',
    eliminate_dead_bbs_loop fuel g seen = Some (Some g') -> chain_of g g'.
Proof.
  induction fuel as [|fuel IH]; intros g seen g' H; simpl in H; [done|].
  destruct (eliminate_dead_bbs_pass g seen) as [[[g1 s1] []]|] eqn:Ep; [| |done].
  - eapply chain_of_trans; [by eapply dead_bbs_pass_chain | by eapply IH].
  - injection H as <-. by eapply dead_bbs_pass_chain.
Qed.

Lemma renumber_spec g l n g' :
  renumber g l n = Some g' -> NoDup l ->
  g' = set_bbs g (bbs g') /\
  (forall bb, bb ∉ l -> bbs g' !! bb = bbs g !! bb) /\
  (forall (k : nat) bb, l !! k = Some bb ->
     exists b, bbs g !! bb = Some b /\
               bbs g' !! bb = Some (set_idx b (n + Z.of_nat k))).
Proof.
  revert g n. induction l as [|bb l IH]; intros g n H Hnd; simpl in H.
  - injection H as <-. split; [by destruct g|]. split; [done|].
    intros k bb Hk. done.
  - destruct (bbs g !! bb) as [b|] eqn:Eb; [|done]. simpl in H.
    apply NoDup_cons in Hnd as [Hni Hnd].
    destruct (IH _ _ H Hnd) as (Hg & Hout & Hin). simpl in *.
    split; [by rewrite Hg|]. split.
    + intros x Hx. apply not_elem_of_cons in Hx as [Hxb Hx].
      rewrite (Hout x Hx). by rewrite lookup_insert_ne.
    + intros [|k] x Hk; simpl in Hk.
      * injection Hk as <-. exists b. split; [done|].
        rewrite (Hout bb Hni), lookup_insert_eq. by rewrite Z.add_0_r.
      * destruct (Hin k x Hk) as (b' & Hb' & Hx).
        assert (x <> bb).
        { intros ->. apply Hni. by apply (list_elem_of_lookup_2 _ k). }
        rewrite lookup_insert_ne in Hb' by done.
        exists b'. split; [done|]. rewrite Hx. do 2 f_equal. lia.
Qed.

(** X19.  On a chain without repetition, the chain [eliminate_dead_bbs]
    leaves is a subsequence of the chain it was given, and [num_bbs] goes
    down by the number of blocks dropped.  When no block is dropped the
    graph is returned as it was.  When a block is dropped, the blocks of the
    new chain are given the indices [0, 1, 2, ...] in chain order and are
    otherwise unchanged; blocks off the chain, and facts, instructions, log
    guards and spesh slots, are untouched. *)
Theorem dead_bbs_chain (g g' : MVMSpeshGraph) :
  eliminate_dead_bbs g = Some g' -> NoDup (linear g) ->
  linear g' `sublist_of` linear g /\
  num_bbs g' = num_bbs g
               - (Z.of_nat (length (linear g)) - Z.of_nat (length (linear g'))) /\
  (length (linear g') = length (linear g) -> g' = g) /\
  (length (linear g') <> length (linear g) ->
   forall (k : nat) bb, linear g' !! k = Some bb ->
     exists b, bbs g !! bb = Some b /\
               bbs g' !! bb = Some (set_idx b (Z.of_nat k))) /\
  (forall bb, bb ∉ linear g' -> bbs g' !! bb = bbs g !! bb) /\
  (facts g' = facts g /\ ins_mem g' = ins_mem g /\
   log_guards g' = log_guards g /\ spesh_slots g' = spesh_slots g).
Proof.
  unfold eliminate_dead_bbs. intros H Hnd.
  destruct (eliminate_dead_bbs_loop _ g _) as [[g1|]|] eqn:El; simpl in H; [|done..].
  apply dead_bbs_loop_chain in El as (Hg1 & Hsub & Hnum).
  assert (Hlen := sublist_length _ _ Hsub).
  destruct (Z.eqb_spec (num_bbs g1) (num_bbs g)) as [Heq|Hne]; simpl in H.
  - injection H as <-.
    assert (Hl : length (linear g1) = length (linear g)) by lia.
    assert (Hlin : linear g1 = linear g).
    { clear -Hsub Hl. induction Hsub as [|x l1 l2 Hs IH|x l1 l2 Hs IH]; simpl in *.
      - done.
      - f_equal. apply IH. lia.
      - apply sublist_length in Hs. lia. }
    assert (Hgg : g1 = g).
    { rewrite Hg1, Hlin, Heq. by destruct g. }
    subst g1. split; [done|]. split; [lia|]. split; [done|].
    split; [done|]. done.
  - assert (Hnd1 : NoDup (linear g1)) by (by eapply sublist_NoDup).
    pose proof (renumber_linear _ _ _ _ H) as Hlin.
    apply renumber_spec in H as (Hg' & Hout & Hin); [|done].
    assert (Hb1 : bbs g1 = bbs g) by (by rewrite Hg1).
    rewrite Hlin. split; [done|].
    split; [rewrite Hg'; simpl; lia|].
    split; [intros; lia|].
    split; [intros _ k bb Hk; rewrite <- Hb1; by apply Hin|].
    split; [intros bb Hbb; rewrite <- Hb1; by apply Hout|].
    rewrite Hg', Hg1. done.
Qed.

Lemma dead_bbs_pass_last_unmarked g seen lst lb g' seen' d :
  bbs g !! lst = Some lb -> inlined lb = false -> idx lb <> 0 ->
  (forall bb b s t, bb ∈ linear g -> bbs g !! bb = Some b -> s ∈ succ b ->
                    bbs g !! s = Some t -> idx t <> idx lb) ->
  NoDup (linear g) -> last (linear g) = Some lst ->
  (2 <= length (linear g))%nat ->
  never_marked seen (idx lb) ->
  eliminate_dead_bbs_pass g seen = Some (g', seen', d) ->
  d = true /\ bbs g' = bbs g /\ linear g' `sublist_of` linear g /\
  last (linear g') = Some lst /\ (2 <= length (linear g'))%nat /\
  never_marked seen' (idx lb).
Proof.
  intros Hlb Hinl Hidx Hsucc Hnd Hlast Hlen Hk H.
  unfold eliminate_dead_bbs_pass in H.
  destruct (memset0 seen (num_bbs g)) as [s1|] eqn:E1; [|done]. simpl in H.
  destruct (store s1 0 1) as [s2|] eqn:E2; [|done]. simpl in H.
  destruct (mark_blocks g s2 (linear g)) as [s3|] eqn:E3; [|done]. simpl in H.
  assert (Hk3 : never_marked s3 (idx lb)).
  { eapply mark_blocks_never_marked; [done | done |].
    eapply store_never_marked; [done | congruence |].
    by eapply memset0_never_marked. }
  destruct (linear g) as [|entry rest] eqn:El; [done|].
  destruct (sweep g s3 entry rest (num_bbs g) false) as [[[l n] d0]|] eqn:Es;
    [|done].
  simpl in H. injection H as <- <- <-. simpl.
  destruct rest as [|r0 rest0]; [simpl in Hlen; lia|].
  rewrite last_cons_cons in Hlast. apply NoDup_cons in Hnd as [_ Hnd].
  pose proof (sweep_sublist _ _ _ _ _ _ _ _ _ _ (le_n _) Es) as [Hsub _].
  apply (sweep_last_unmarked g s3 lst lb (length (r0 :: rest0)) Hlb Hinl Hk3)
    in Es as (-> & Hl & Hl2); [|done..].
  done.
Qed.

Lemma dead_bbs_loop_last_unmarked g0 lst lb (fuel : nat) :
  bbs g0 !! lst = Some lb -> inlined lb = false -> idx lb <> 0 ->
  (forall bb b s t, bb ∈ linear g0 -> bbs g0 !! bb = Some b -> s ∈ succ b ->
                    bbs g0 !! s = Some t -> idx t <> idx lb) ->
  NoDup (linear g0) ->
  forall g seen g',
    bbs g = bbs g0 -> linear g `sublist_of` linear g0 ->
    last (linear g) = Some lst -> (2 <= length (linear g))%nat ->
    never_marked seen (idx lb) ->
    eliminate_dead_bbs_loop fuel g seen <> Some (Some g').
Proof.
  intros Hlb Hinl Hidx Hsucc Hnd.
  induction fuel as [|fuel IH]; intros g seen g' Hb Hsub Hlast Hlen Hk; simpl;
    [done|].
  destruct (eliminate_dead_bbs_pass g seen) as [[[g1 s1] d]|] eqn:Ep; [|done].
  apply (dead_bbs_pass_last_unmarked g seen lst lb) in Ep
    as (-> & Hb1 & Hsub1 & Hlast1 & Hlen1 & Hk1); try done.
  - apply IH; try done; [congruence | by etrans].
  - by rewrite Hb.
  - rewrite Hb. intros bb b s t Hbb. apply Hsucc.
    by eapply elem_of_sublist.
  - by eapply sublist_NoDup.
Qed.

(** X20.  When the last block of the chain is not the entry, is not
    inlined, has an index other than 0, and no successor of a block of the
    chain has its index, [eliminate_dead_bbs] has no defined result: the
    second pass drops the block, which leaves [cur_bb] [NULL], and the loop
    test reads [cur_bb->linear_next]. *)
Theorem dead_bbs_last_unreachable (g : MVMSpeshGraph) (lst : bbptr)
    (lb : MVMSpeshBB) :
  NoDup (linear g) ->
  last (linear g) = Some lst -> head (linear g) <> Some lst ->
  bbs g !! lst = Some lb -> inlined lb = false -> idx lb <> 0 ->
  (forall bb b s t, bb ∈ linear g -> bbs g !! bb = Some b -> s ∈ succ b ->
                    bbs g !! s = Some t -> idx t <> idx lb) ->
  eliminate_dead_bbs g = None.
Proof.
  intros Hnd Hlast Hhead Hlb Hinl Hidx Hsucc. unfold eliminate_dead_bbs.
  assert (Hlen : (2 <= length (linear g))%nat).
  { destruct (linear g) as [|a [|b l]]; simpl in *; [done | congruence | lia]. }
  destruct (eliminate_dead_bbs_loop _ g _) as [[g1|]|] eqn:El; [|done..].
  exfalso. revert El.
  apply (dead_bbs_loop_last_unmarked g lst lb); try done.
  intros s Hs. unfold index in Hs. destruct (idx lb <? 0); [done|].
  by apply lookup_replicate in Hs as [-> _].
Qed.

(** ** Without facts, no rewrite *)

Lemma has_flag_0 m : has_flag 0 m = false.
Proof. unfold has_flag. by rewrite Z.land_0_l. Qed.

Lemma get_facts_unflagged g o p :
  operand_reg o = Some p -> flags (facts_at g p) = 0 ->
  MVM_spesh_get_facts g o = Some (p, g).
Proof.
  intros Ho Hf. unfold MVM_spesh_get_facts, get_facts_direct.
  rewrite Ho. simpl. by rewrite Hf, has_flag_0.
Qed.

(** X21.  For the ops whose rewrite depends on facts only (branches,
    [coerce_in], the invokes, the [is*] ops, [isconcrete], [istype], the
    representation ops, [hllize], [decont], [assertparamcheck]): when the
    registers the rewrite consults have no flag set, the body of the
    driver's loop leaves the graph and the call info exactly as they
    were. *)
Theorem no_facts_no_rewrite (g : MVMSpeshGraph) (bb : bbptr) (ins : insptr)
    (arg_info : MVMSpeshCallInfo) (c : MVMSpeshIns) (ks : list nat) :
  ins_mem g !! ins = Some c ->
  consulted_operands (opcode (info c)) = Some ks ->
  (forall k, k ∈ ks ->
     exists p, ins_operands c !! k ≫= operand_reg = Some p /\
               flags (facts_at g p) = 0) ->
  optimize_ins g bb ins arg_info = Some (g, arg_info).
Proof.
  intros Hc Hks Hall.
  assert (Hget : forall k, k ∈ ks ->
            exists o p, operand g ins k = Some o /\
                        MVM_spesh_get_facts g o = Some (p, g) /\
                        flags (facts_at g p) = 0).
  { intros k Hk. destruct (Hall k Hk) as (p & Hp & Hf).
    destruct (ins_operands c !! k) as [o|] eqn:Eo; [|done]. simpl in Hp.
    exists o, p. split; [by apply (operand_lookup g ins c)|].
    split; [by apply get_facts_unflagged | done]. }
  unfold optimize_ins, ins_info. rewrite Hc. simpl.
  destruct (opcode (info c)) eqn:Eop; simpl in Hks; try discriminate Hks;
    injection Hks as <-;
    repeat match goal with
    | H : forall k, k ∈ (?a :: ?l) -> _ |- _ =>
        let o := fresh "o" in let p := fresh "p" in
        let Ho := fresh "Ho" in let Hg := fresh "Hg" in let Hf := fresh "Hf" in
        destruct (H a ltac:(apply elem_of_cons; by left)) as (o & p & Ho & Hg & Hf);
        assert (forall k, k ∈ l -> exists o p, operand g ins k = Some o /\
                  MVM_spesh_get_facts g o = Some (p, g) /\
                  flags (facts_at g p) = 0)
          by (intros k0 Hk0; apply H; apply elem_of_cons; by right);
        clear H
    end;
    unfold optimize_iffy, optimize_coerce, optimize_call, optimize_is_reprid,
      optimize_isconcrete, optimize_istype, optimize_repr_op, optimize_hllize,
      optimize_decont, optimize_assertparamcheck, ins_info;
    repeat first
      [ rewrite Hc | rewrite Eop
      | match goal with
        | H : operand g ins _ = Some _ |- _ => rewrite H
        | H : MVM_spesh_get_facts g _ = Some _ |- _ => rewrite H
        | H : flags (facts_at g _) = 0 |- _ => rewrite H
        end
      | rewrite has_flag_0 | progress simpl ];
    done.
Qed.

(** ** The [can] and [can_s] ops *)

#[local] Arguments ins_info : simpl never.
#[local] Arguments copy_facts : simpl never.
#[local] Arguments MVM_spesh_add_spesh_slot : simpl never.
#[local] Arguments MVM_spesh_get_string : simpl never.
#[local] Arguments MVM_spesh_manipulate_delete_ins : simpl never.
#[local] Arguments MVM_spesh_manipulate_insert_ins : simpl never.
#[local] Arguments MVM_spesh_manipulate_remove_successor : simpl never.
#[local] Arguments MVM_spesh_alloc_ins : simpl never.
#[local] Arguments linear_next : simpl never.
#[local] Arguments ins_next : simpl never.
#[local] Arguments ins_prev : simpl never.
#[local] Arguments index : simpl never.
#[local] Arguments read_i64 : simpl never.
#[local] Arguments read_o : simpl never.
#[local] Arguments read_n64 : simpl never.
#[local] Arguments read_s : simpl never.
#[local] Arguments resolve_target : simpl never.
#[local] Arguments try_find_spesh_candidate : simpl never.
#[local] Arguments has_flag : simpl never.
#[local] Arguments operand_lit_i16 : simpl never.
#[local] Arguments operand_ins_bb : simpl never.
#[local] Arguments operand_callsite_idx : simpl never.

Lemma is_can_not_phi c : is_can c = true -> is_phi c = false.
Proof. unfold is_can, is_phi. by destruct (opcode (info c)). Qed.

Lemma keeps_can_refl g : keeps_can g g.
Proof. by intros x c. Qed.

Lemma keeps_can_trans g1 g2 g3 :
  keeps_can g1 g2 -> keeps_can g2 g3 -> keeps_can g1 g3.
Proof. intros H1 H2 x c Hx Hc. auto. Qed.

Section Frame.

(** An instruction [x] that is not the one being rewritten. *)
Variables (x : insptr) (c : MVMSpeshIns).
Hypothesis Hcan : is_can c = true.

Lemma ins_mem_upd_facts g p f : ins_mem (upd_facts g p f) = ins_mem g.
Proof. done. Qed.

Lemma get_facts_frame g o p g1 :
  MVM_spesh_get_facts g o = Some (p, g1) ->
  ins_mem g !! x = Some c -> ins_mem g1 !! x = Some c.
Proof.
  intros H. apply get_facts_inv in H as (_ & l & -> & _). done.
Qed.

Lemma set_info_frame g ins i g1 :
  set_info g ins i = Some g1 -> x <> ins ->
  ins_mem g !! x = Some c -> ins_mem g1 !! x = Some c.
Proof.
  unfold set_info. intros H Hne Hx.
  destruct (ins_mem g !! ins) as [c0|]; [|done]. injection H as <-.
  simpl. by rewrite lookup_insert_ne.
Qed.

Lemma set_operand_frame g ins k o g1 :
  set_operand g ins k o = Some g1 -> x <> ins ->
  ins_mem g !! x = Some c -> ins_mem g1 !! x = Some c.
Proof.
  unfold set_operand. intros H Hne Hx.
  destruct (ins_mem g !! ins) as [c0|]; [|done]. simpl in H.
  case_decide; [|done]. injection H as <-.
  simpl. by rewrite lookup_insert_ne.
Qed.

Lemma copy_facts_frame g a b g1 :
  copy_facts g a b = Some g1 ->
  ins_mem g !! x = Some c -> ins_mem g1 !! x = Some c.
Proof.
  unfold copy_facts. intros H Hx.
  destruct (get_facts_direct g a); [|done].
  destruct (get_facts_direct g b); [|done]. by injection H as <-.
Qed.

Lemma add_spesh_slot_frame g o ss g1 :
  MVM_spesh_add_spesh_slot g o = (ss, g1) ->
  ins_mem g !! x = Some c -> ins_mem g1 !! x = Some c.
Proof. unfold MVM_spesh_add_spesh_slot. by intros [= _ <-]. Qed.

Lemma delete_ins_frame g bb ins g1 :
  MVM_spesh_manipulate_delete_ins g bb ins = Some g1 ->
  ins_mem g !! x = Some c -> ins_mem g1 !! x = Some c.
Proof.
  unfold MVM_spesh_manipulate_delete_ins. intros H Hx.
  destruct (bbs g !! bb); [|done]. by injection H as <-.
Qed.

Lemma insert_ins_frame g bb prev ins g1 :
  MVM_spesh_manipulate_insert_ins g bb prev ins = Some g1 ->
  ins_mem g !! x = Some c -> ins_mem g1 !! x = Some c.
Proof.
  unfold MVM_spesh_manipulate_insert_ins. intros H Hx.
  destruct (bbs g !! bb); [|done]. by injection H as <-.
Qed.

Lemma remove_successor_frame g bb s g1 :
  MVM_spesh_manipulate_remove_successor g bb s = Some g1 ->
  ins_mem g !! x = Some c -> ins_mem g1 !! x = Some c.
Proof.
  unfold MVM_spesh_manipulate_remove_successor. intros H Hx.
  destruct s as [s|]; [|done]. simpl in H.
  destruct (bbs g !! bb); [|done]. simpl in H.
  destruct (bbs g !! s); [|done]. injection H as <-. simpl.
  apply phi_drop_keeps; [done | by apply is_can_not_phi].
Qed.

Lemma alloc_ins_frame g c0 :
  ins_mem g !! x = Some c ->
  <[MVM_spesh_alloc_ins g := c0]> (ins_mem g) !! x = Some c.
Proof.
  intros Hx. rewrite lookup_insert_ne; [done|].
  unfold MVM_spesh_alloc_ins. intros <-.
  pose proof (is_fresh (dom (ins_mem g))) as Hf.
  apply Hf, elem_of_dom. by eexists.
Qed.

Hypothesis Hhooks : hooks_keep_can.

Lemma repr_hook_frame t hook st g bb ins g1 :
  REPR_spesh t = Some hook -> hook st g bb ins = Some g1 ->
  ins_mem g !! x = Some c -> ins_mem g1 !! x = Some c.
Proof.
  intros Ht Hh Hx. destruct Hhooks as (H1 & _ & _).
  by apply (H1 _ _ _ _ _ _ _ Ht Hh).
Qed.

Lemma cont_hook_frame st cs hook st' g bb ins g1 :
  st_container_spec st = Some cs -> cont_spesh cs = Some hook ->
  hook st' g bb ins = Some g1 ->
  ins_mem g !! x = Some c -> ins_mem g1 !! x = Some c.
Proof.
  intros Hs Hc Hh Hx. destruct Hhooks as (_ & H2 & _).
  by apply (H2 _ _ _ _ _ _ _ _ Hs Hc Hh).
Qed.

Lemma inline_frame g arg_info bb ins ig target g1 :
  MVM_spesh_inline g arg_info bb ins ig target = Some g1 ->
  ins_mem g !! x = Some c -> ins_mem g1 !! x = Some c.
Proof.
  intros Hi Hx. destruct Hhooks as (_ & _ & H3).
  by apply (H3 _ _ _ _ _ _ _ Hi).
Qed.

(** Taking a run of a rewrite apart: one equation for every step. *)
Ltac unbind :=
  repeat match goal with
  | H : None = Some _ |- _ => discriminate H
  | H : Some _ = Some _ |- _ => simplify_eq
  | H : mbind _ ?e = Some _ |- _ =>
      let E := fresh "E" in destruct e eqn:E; simpl in H
  | H : match ?d with _ => _ end = Some _ |- _ =>
      let E := fresh "E" in destruct d eqn:E; simpl in H
  end.

(** Following the instruction [x] back through the steps. *)
Ltac keep :=
  repeat rewrite ins_mem_upd_facts; simpl;
  first
    [ eassumption
    | match goal with
      | E : MVM_spesh_get_facts _ _ = Some (_, ?g1)
        |- ins_mem ?g1 !! _ = Some _ =>
          apply (get_facts_frame _ _ _ _ E); keep
      | E : set_info _ _ _ = Some ?g1 |- ins_mem ?g1 !! _ = Some _ =>
          apply (set_info_frame _ _ _ _ E); [assumption | keep]
      | E : set_operand _ _ _ _ = Some ?g1 |- ins_mem ?g1 !! _ = Some _ =>
          apply (set_operand_frame _ _ _ _ _ E); [assumption | keep]
      | E : copy_facts _ _ _ = Some ?g1 |- ins_mem ?g1 !! _ = Some _ =>
          apply (copy_facts_frame _ _ _ _ E); keep
      | E : MVM_spesh_add_spesh_slot _ _ = (_, ?g1)
        |- ins_mem ?g1 !! _ = Some _ =>
          apply (add_spesh_slot_frame _ _ _ _ E); keep
      | E : MVM_spesh_manipulate_delete_ins _ _ _ = Some ?g1
        |- ins_mem ?g1 !! _ = Some _ =>
          apply (delete_ins_frame _ _ _ _ E); keep
      | E : MVM_spesh_manipulate_insert_ins _ _ _ _ = Some ?g1
        |- ins_mem ?g1 !! _ = Some _ =>
          apply (insert_ins_frame _ _ _ _ _ E); keep
      | E : MVM_spesh_manipulate_remove_successor _ _ _ = Some ?g1
        |- ins_mem ?g1 !! _ = Some _ =>
          apply (remove_successor_frame _ _ _ _ E); keep
      | E : MVM_spesh_inline _ _ _ _ _ _ = Some ?g1
        |- ins_mem ?g1 !! _ = Some _ =>
          apply (inline_frame _ _ _ _ _ _ _ E); keep
      | E : REPR_spesh _ = Some ?h, H : ?h _ _ _ _ = Some ?g1
        |- ins_mem ?g1 !! _ = Some _ =>
          apply (repr_hook_frame _ _ _ _ _ _ _ E H); keep
      | E : cont_spesh _ = Some ?h, E' : st_container_spec _ = Some _,
        H : ?h _ _ _ _ = Some ?g1
        |- ins_mem ?g1 !! _ = Some _ =>
          apply (cont_hook_frame _ _ _ _ _ _ _ _ E' E H); keep
      | |- <[MVM_spesh_alloc_ins _ := _]> _ !! _ = Some _ =>
          apply alloc_ins_frame; keep
      | |- <[_ := _]> _ !! _ = Some _ =>
          rewrite lookup_insert_ne by done; keep
      | |- context [if ?b then _ else _] => destruct b; keep
      end ].

Lemma optimize_iffy_frame g ins bb g' :
  optimize_iffy g ins bb = Some g' -> x <> ins ->
  ins_mem g !! x = Some c -> ins_mem g' !! x = Some c.
Proof. intros H Hne Hx. unfold optimize_iffy in H. unbind; keep. Qed.

Lemma optimize_coerce_frame g bb ins g' :
  optimize_coerce g bb ins = Some g' -> x <> ins ->
  ins_mem g !! x = Some c -> ins_mem g' !! x = Some c.
Proof. intros H Hne Hx. unfold optimize_coerce in H. unbind; keep. Qed.

Lemma optimize_call_frame g bb ins k arg_info g' :
  optimize_call g bb ins k arg_info = Some g' -> x <> ins ->
  ins_mem g !! x = Some c -> ins_mem g' !! x = Some c.
Proof. intros H Hne Hx. unfold optimize_call in H. unbind; keep. Qed.

Lemma optimize_is_reprid_frame g ins g' :
  optimize_is_reprid g ins = Some g' -> x <> ins ->
  ins_mem g !! x = Some c -> ins_mem g' !! x = Some c.
Proof. intros H Hne Hx. unfold optimize_is_reprid in H. unbind; keep. Qed.

Lemma optimize_method_lookup_frame g ins g' :
  optimize_method_lookup g ins = Some g' -> x <> ins ->
  ins_mem g !! x = Some c -> ins_mem g' !! x = Some c.
Proof. intros H Hne Hx. unfold optimize_method_lookup in H. unbind; keep. Qed.

Lemma optimize_repr_op_frame g bb ins k g' :
  optimize_repr_op g bb ins k = Some g' -> x <> ins ->
  ins_mem g !! x = Some c -> ins_mem g' !! x = Some c.
Proof. intros H Hne Hx. unfold optimize_repr_op in H. unbind; keep. Qed.

Lemma optimize_isconcrete_frame g ins g' :
  optimize_isconcrete g ins = Some g' -> x <> ins ->
  ins_mem g !! x = Some c -> ins_mem g' !! x = Some c.
Proof. intros H Hne Hx. unfold optimize_isconcrete in H. unbind; keep. Qed.

Lemma optimize_istype_frame g ins g' :
  optimize_istype g ins = Some g' -> x <> ins ->
  ins_mem g !! x = Some c -> ins_mem g' !! x = Some c.
Proof. intros H Hne Hx. unfold optimize_istype in H. unbind; keep. Qed.

Lemma optimize_hllize_frame g ins g' :
  optimize_hllize g ins = Some g' -> x <> ins ->
  ins_mem g !! x = Some c -> ins_mem g' !! x = Some c.
Proof. intros H Hne Hx. unfold optimize_hllize in H. unbind; keep. Qed.

Lemma optimize_decont_frame g bb ins g' :
  optimize_decont g bb ins = Some g' -> x <> ins ->
  ins_mem g !! x = Some c -> ins_mem g' !! x = Some c.
Proof. intros H Hne Hx. unfold optimize_decont in H. unbind; keep. Qed.

Lemma optimize_assertparamcheck_frame g bb ins g' :
  optimize_assertparamcheck g bb ins = Some g' -> x <> ins ->
  ins_mem g !! x = Some c -> ins_mem g' !! x = Some c.
Proof. intros H Hne Hx. unfold optimize_assertparamcheck in H. unbind; keep. Qed.

Lemma optimize_getlex_known_frame g bb ins g' :
  optimize_getlex_known g bb ins = Some g' -> x <> ins ->
  ins_mem g !! x = Some c -> ins_mem g' !! x = Some c.
Proof. intros H Hne Hx. unfold optimize_getlex_known in H. unbind; keep. Qed.

#[local] Arguments optimize_iffy : simpl never.
#[local] Arguments optimize_coerce : simpl never.
#[local] Arguments optimize_call : simpl never.
#[local] Arguments optimize_is_reprid : simpl never.
#[local] Arguments optimize_method_lookup : simpl never.
#[local] Arguments optimize_repr_op : simpl never.
#[local] Arguments optimize_isconcrete : simpl never.
#[local] Arguments optimize_istype : simpl never.
#[local] Arguments optimize_hllize : simpl never.
#[local] Arguments optimize_decont : simpl never.
#[local] Arguments optimize_assertparamcheck : simpl never.
#[local] Arguments optimize_getlex_known : simpl never.

(** The body of the driver's loop at another instruction. *)
Lemma optimize_ins_frame g bb ins arg_info g' arg_info' :
  optimize_ins g bb ins arg_info = Some (g', arg_info') -> x <> ins ->
  ins_mem g !! x = Some c -> ins_mem g' !! x = Some c.
Proof.
  intros H Hne Hx. unfold optimize_ins in H. unbind;
    eauto 2 using optimize_iffy_frame, optimize_coerce_frame,
      optimize_call_frame, optimize_is_reprid_frame,
      optimize_method_lookup_frame, optimize_repr_op_frame,
      optimize_isconcrete_frame, optimize_istype_frame,
      optimize_hllize_frame, optimize_decont_frame,
      optimize_assertparamcheck_frame, optimize_getlex_known_frame,
      copy_facts_frame, delete_ins_frame, get_facts_frame.
Qed.

End Frame.

(** The body of the driver's loop keeps the [can] and [can_s]
    instructions: at such an instruction it does nothing, and at another
    instruction it rewrites that instruction, PHI instructions and new
    instructions only. *)
Lemma optimize_ins_keeps_can g bb ins arg_info g' arg_info' :
  hooks_keep_can ->
  optimize_ins g bb ins arg_info = Some (g', arg_info') -> keeps_can g g'.
Proof.
  intros Hh H x c Hx Hc. destruct (decide (x = ins)) as [->|Hne].
  - unfold optimize_ins, ins_info in H. rewrite Hx in H. simpl in H.
    unfold is_can in Hc.
    destruct (opcode (info c)); try discriminate Hc; by simplify_eq.
  - by apply (optimize_ins_frame x c Hc Hh _ _ _ _ _ _ H).
Qed.

Lemma optimize_instructions_keeps_can (fuel : nat) g bb ins arg_info g' :
  hooks_keep_can ->
  optimize_instructions fuel g bb ins arg_info = Some g' -> keeps_can g g'.
Proof.
  intros Hh. revert g ins arg_info.
  induction fuel as [|fuel IH]; intros g ins arg_info H;
    destruct ins as [ins|]; simpl in H; try done;
    try (injection H as <-; apply keeps_can_refl).
  destruct (ins_next g bb ins) as [link|]; [|done]. simpl in H.
  destruct (optimize_ins g bb ins arg_info) as [[g1 ai1]|] eqn:Es; [|done].
  simpl in H. destruct (bbs g1 !! bb) as [b|]; [|done]. simpl in H.
  eapply keeps_can_trans; [by eapply optimize_ins_keeps_can | by eapply IH].
Qed.

Lemma visit_children_keeps_can visit (fuel : nat) g bb (i : nat) g' :
  (forall g bb g', visit g bb = Some g' -> keeps_can g g') ->
  visit_children visit fuel g bb i = Some g' -> keeps_can g g'.
Proof.
  intros Hv. revert g i.
  induction fuel as [|fuel IH]; intros g i H; simpl in H; [done|].
  destruct (bbs g !! bb) as [b|]; [|done]. simpl in H.
  destruct (children b !! i) as [child|].
  - destruct (visit g child) as [g1|] eqn:E1; [|done]. simpl in H.
    eapply keeps_can_trans; [by eapply Hv | by eapply IH].
  - injection H as <-. apply keeps_can_refl.
Qed.

Lemma optimize_bb_keeps_can (fuel : nat) g bb g' :
  hooks_keep_can -> optimize_bb fuel g bb = Some g' -> keeps_can g g'.
Proof.
  intros Hh. revert g bb g'.
  induction fuel as [|fuel IH]; intros g bb g' H; simpl in H; [done|].
  destruct (bbs g !! bb) as [b|]; [|done]. simpl in H.
  destruct (optimize_instructions _ _ _ _ _) as [g1|] eqn:E1; [|done].
  simpl in H.
  eapply keeps_can_trans; [by eapply optimize_instructions_keeps_can|].
  by eapply visit_children_keeps_can.
Qed.



End OptimizerFacts.

(* ===================================================================== *)
(** * The theorems at the example inputs                                  *)
(* ===================================================================== *)

Section Instances.

Import Spesh Examples.

(** The callsites 1 and 3 of [callsite_heap], both interned by three calls
    on the callsites 1, 2 and 3, differ in a flag; the callsites 1 and 3 of
    [named_callsite_heap] differ in their name, and [callsites_equal] tells
    them apart. *)
Lemma interned_callsites_differ_witness :
  (Callsite.callsites_differ Z.eqb
     (Callsite.mkCallsite [1; 1; 1] 3 3 false true None)
     (Callsite.mkCallsite [1; 2; 1] 3 3 false true None) /\
   Callsite.callsites_equal Z.eqb
     (Callsite.mkCallsite [1; 1; 1] 3 3 false true None)
     (Callsite.mkCallsite [1; 2; 1] 3 3 false true None) 3 0 = Some false) /\
  (Callsite.callsites_differ Z.eqb
     (Callsite.mkCallsite [1; 33] 3 1 false true (Some [7; 8]))
     (Callsite.mkCallsite [1; 33] 3 1 false true (Some [9])) /\
   Callsite.callsites_equal Z.eqb
     (Callsite.mkCallsite [1; 33] 3 1 false true (Some [7; 8]))
     (Callsite.mkCallsite [1; 33] 3 1 false true (Some [9])) 2 1 = Some false).
Proof.
  split.
  - edestruct (interned_callsites_differ Z.eqb 8 callsite_heap [1; 2; 3])
      with (n := 3) (m := 3) (i := 0%nat) (j := 1%nat) (p := 1) (q := 3)
           (a := Callsite.mkCallsite [1; 1; 1] 3 3 false true None)
           (b := Callsite.mkCallsite [1; 2; 1] 3 3 false true None)
      as [Hd Hs].
    + vm_compute. reflexivity.
    + vm_compute. reflexivity.
    + reflexivity.
    + vm_compute. reflexivity.
    + reflexivity.
    + lia.
    + vm_compute. reflexivity.
    + vm_compute. reflexivity.
    + split; [exact Hd|]. destruct (Hs eq_refl) as (_ & Hlt & _). apply Hlt. lia.
  - edestruct (interned_callsites_differ Z.eqb 8 named_callsite_heap [1; 2; 3])
      with (n := 2) (m := 2) (i := 0%nat) (j := 1%nat) (p := 1) (q := 3)
           (a := Callsite.mkCallsite [1; 33] 3 1 false true (Some [7; 8]))
           (b := Callsite.mkCallsite [1; 33] 3 1 false true (Some [9]))
      as [Hd Hs].
    + vm_compute. reflexivity.
    + vm_compute. reflexivity.
    + reflexivity.
    + vm_compute. reflexivity.
    + reflexivity.
    + lia.
    + vm_compute. reflexivity.
    + vm_compute. reflexivity.
    + split; [exact Hd|]. destruct (Hs eq_refl) as (_ & Hlt & _). apply Hlt. lia.
Defined.

(** The second callsite of [named_callsite_heap] is found equal to the
    first, whose name it shares, and is not stored: the call frees it and
    returns the first. *)
Lemma equal_named_callsite_not_stored :
  Callsite.callsites_equal Z.eqb
    (Callsite.mkCallsite [1; 33] 3 1 false true (Some [7; 8]))
    (Callsite.mkCallsite [1; 33] 3 1 false false (Some [7; 9])) 2 1
  = Some true /\
  ~ Callsite.names_differ Z.eqb
      (Callsite.mkCallsite [1; 33] 3 1 false true (Some [7; 8]))
      (Callsite.mkCallsite [1; 33] 3 1 false false (Some [7; 9])) /\
  exists st st',
    Callsite.MVM_callsite_try_intern Z.eqb 8
      (Callsite.initial named_callsite_heap) 1 = Some (st, 1) /\
    Callsite.MVM_callsite_try_intern Z.eqb 8 st 2 = Some (st', 1) /\
    Callsite.heap st' !! 2 = None /\
    Callsite.by_arity (Callsite.interns st') !! 2 = Some [1].
Proof.
  split; [vm_compute; reflexivity|]. split.
  - intros (i & na & nb & s1 & s2 & Hi & Ha & Hb & H1 & H2 & Hs).
    simpl in Ha, Hb. injection Ha as <-. injection Hb as <-.
    assert (i = 0%nat) as -> by (vm_compute in Hi; destruct i; [done|];
      exfalso; revert Hi; unfold Z.lt; by destruct i).
    simpl in H1, H2. injection H1 as <-. injection H2 as <-. done.
  - eexists _, _. split; [vm_compute; reflexivity|].
    split; [vm_compute; reflexivity|]. split; vm_compute; reflexivity.
Qed.


Lemma sample_log_guard_ok g p :
  has_flag (flags (facts_at g p)) 256 = false ->
  log_guard_ok (vm := sample_vm) g p.
Proof. unfold log_guard_ok. simpl. intros ->. done. Defined.

(** [findmeth] on the type [100]: the method named [7] is in the cache. *)
Lemma method_lookup_rewrite_witness :
  exists g',
    optimize_method_lookup (vm := sample_vm) (g_findmeth 7) 10 = Some g' /\
    ins_mem g' !! 10
    = Some (mkIns (sample_op_info MVM_OP_sp_getspeshslot)
              [reg 1 0; lit_i16 0; lit_str_idx 0]) /\
    spesh_slots g' = [Some 400] /\
    flags (facts_at g' (1, 0)) = 2 /\
    value (facts_at g' (1, 0)) = value_o 400 /\
    usages (facts_at g' (2, 0)) = 0.
Proof.
  apply (method_lookup_rewrite (vm := sample_vm) (g_findmeth 7) 10
           (mkIns (sample_op_info MVM_OP_findmeth)
              [reg 1 0; reg 2 0; lit_str_idx 0]) (1, 0) (2, 0) 0 7).
  - vm_compute. reflexivity.
  - reflexivity.
  - reflexivity.
  - apply sample_log_guard_ok. vm_compute. reflexivity.
  - apply sample_log_guard_ok. vm_compute. reflexivity.
  - reflexivity.
  - vm_compute. reflexivity.
Defined.

(** [if_i] and [unless_i] on a register known to be 0, stored through
    [value.i64]; and [if_i] on the 0 that [optimize_isconcrete] stores
    through [value.i16]. *)
Lemma iffy_on_known_zero_witness :
  (exists g',
     optimize_iffy (vm := sample_vm) (g_branch MVM_OP_if_i) 10 1 = Some g' /\
     bbs g' !! 1 = Some (mkBB 0 [] [2] [2; 3] false) /\
     ins_mem g' !! 10
     = Some (mkIns (sample_op_info MVM_OP_if_i) [reg 1 0; ins_bb 3]) /\
     usages (facts_at g' (1, 0)) = 0) /\
  (exists g',
     optimize_iffy (vm := sample_vm) (g_branch MVM_OP_unless_i) 10 1 = Some g' /\
     ins_mem g' !! 10
     = Some (mkIns (sample_op_info MVM_OP_goto) [ins_bb 3; ins_bb 3]) /\
     bbs g' !! 1 = Some (mkBB 0 [10] [3] [2; 3] false) /\
     usages (facts_at g' (1, 0)) = 0) /\
  (exists g',
     optimize_iffy (vm := sample_vm)
       (g_branch_stored MVM_OP_if_i (value_i16 0)) 10 1 = Some g' /\
     bbs g' !! 1 = Some (mkBB 0 [] [2] [2; 3] false) /\
     ins_mem g' !! 10
     = Some (mkIns (sample_op_info MVM_OP_if_i) [reg 1 0; ins_bb 3]) /\
     usages (facts_at g' (1, 0)) = 0).
Proof.
  split; [|split].
  - refine (proj1 (iffy_on_known_zero (vm := sample_vm)
                     (g_branch MVM_OP_if_i) 10 1
                     (mkIns (sample_op_info MVM_OP_if_i) [reg 1 0; ins_bb 3])
                     (1, 0) 3 (mkBB 0 [10] [2; 3] [2; 3] false) _ _ _ _ _ _)
                  _ _).
    + vm_compute. reflexivity.
    + reflexivity.
    + reflexivity.
    + vm_compute. reflexivity.
    + apply sample_log_guard_ok. vm_compute. reflexivity.
    + vm_compute. reflexivity.
    + reflexivity.
    + vm_compute. eauto.
  - refine (proj2 (iffy_on_known_zero (vm := sample_vm)
                     (g_branch MVM_OP_unless_i) 10 1
                     (mkIns (sample_op_info MVM_OP_unless_i) [reg 1 0; ins_bb 3])
                     (1, 0) 3 (mkBB 0 [10] [2; 3] [2; 3] false) _ _ _ _ _ _)
                  _ 2 _ _ _).
    + vm_compute. reflexivity.
    + reflexivity.
    + reflexivity.
    + vm_compute. reflexivity.
    + apply sample_log_guard_ok. vm_compute. reflexivity.
    + vm_compute. reflexivity.
    + reflexivity.
    + vm_compute. reflexivity.
    + vm_compute. eauto.
    + reflexivity.
  - refine (proj1 (iffy_on_known_zero (vm := sample_vm)
                     (g_branch_stored MVM_OP_if_i (value_i16 0)) 10 1
                     (mkIns (sample_op_info MVM_OP_if_i) [reg 1 0; ins_bb 3])
                     (1, 0) 3 (mkBB 0 [10] [2; 3] [2; 3] false) _ _ _ _ _ _)
                  _ _).
    + vm_compute. reflexivity.
    + reflexivity.
    + reflexivity.
    + vm_compute. reflexivity.
    + apply sample_log_guard_ok. vm_compute. reflexivity.
    + vm_compute. reflexivity.
    + reflexivity.
    + vm_compute. eauto.
Defined.

(** C3 as stated fails: [if_i] on a register known to be 0 is not rewritten
    to a [goto]; the instruction keeps its opcode and is unlinked from its
    block. *)
Lemma if_i_known_zero_is_not_goto :
  ~ exists g' c,
      optimize_iffy (vm := sample_vm) (g_branch MVM_OP_if_i) 10 1 = Some g' /\
      ins_mem g' !! 10 = Some c /\ opcode (info c) = MVM_OP_goto.
Proof.
  intros (g' & c & Hrun & Hc & Hop).
  vm_compute in Hrun. injection Hrun as <-.
  vm_compute in Hc. injection Hc as <-. discriminate Hop.
Qed.



(** The rewrite that is switched off would have changed the instruction. *)
Lemma can_rewrite_would_apply :
  exists g',
    optimize_can_op (vm := sample_vm) g_can 1 10 = Some g' /\
    ins_mem g' !! 10
    = Some (mkIns (sample_op_info MVM_OP_const_i64_16)
              [reg 1 0; lit_i16 1; lit_str_idx 0]).
Proof. eexists. split; vm_compute; reflexivity. Qed.

(** A lookup of the facts of [r1], which come from log guard 0, marks that
    guard used; the cleanup then deletes the instruction of guard 1 only. *)
Lemma log_guards_used_and_eliminated_witness :
  exists g1 g2,
    MVM_spesh_get_facts (vm := sample_vm) g_guards (reg 1 0) = Some ((1, 0), g1) /\
    log_guards g1 = [mkLogGuard 20 1 1; mkLogGuard 21 1 0] /\
    eliminate_unused_log_guards g1 = Some g2 /\
    instrs <$> bbs g2 !! 1 = Some [20; 22].
Proof.
  destruct (log_guards_used_and_eliminated (vm := sample_vm))
    as (Hmark & Helim & _).
  destruct (Hmark g_guards (reg 1 0) (1, 0) (mkLogGuard 20 1 0))
    as (l & Hget & Hl & _); [reflexivity | reflexivity | reflexivity |].
  destruct (Helim (set_log_guards g_guards l)) as (m & Hrun & Hm).
  { subst l. intros lg Hin _. vm_compute in Hin.
    apply elem_of_cons in Hin as [->|Hin]; [vm_compute; eauto|].
    apply elem_of_cons in Hin as [->|Hin]; [vm_compute; eauto|].
    by apply elem_of_nil in Hin. }
  exists (set_log_guards g_guards l), (set_bbs (set_log_guards g_guards l) m).
  split; [exact Hget|]. split; [by subst l|]. split; [exact Hrun|].
  simpl. refine (eq_trans (f_equal (fmap instrs) (Hm 1)) _).
  subst l. reflexivity.
Defined.

(** What the removals of the pass on [g_chain] are: the three instructions
    of block 1 are among them, and they give back the one usage of [r1] and
    the one usage of [r2]. *)
Lemma chain_removals g' rem :
  eliminate_dead_ins (vm := sample_vm) g_chain = Some g' ->
  cascade (vm := sample_vm) g_chain g' rem ->
  (1, 10) ∈ rem.*1 /\ (1, 11) ∈ rem.*1 /\ (1, 12) ∈ rem.*1 /\
  given_back (vm := sample_vm) rem (1, 0) = 1 /\
  given_back (vm := sample_vm) rem (2, 0) = 1 /\
  given_back (vm := sample_vm) rem (3, 0) = 0.
Proof.
  intros Hrun (_ & U & B & _).
  assert (Hg : bbs g' !! 1 = Some (mkBB 0 [] [] [] false) /\
               usages (facts_at g' (1, 0)) = 0 /\
               usages (facts_at g' (2, 0)) = 0 /\
               usages (facts_at g' (3, 0)) = 0).
  { vm_compute in Hrun. injection Hrun as <-. repeat split; reflexivity. }
  destruct Hg as (Hb & H1 & H2 & H3).
  assert (Hf : filter (fun i => (1, i) ∉ rem.*1) [10; 11; 12] = []).
  { pose proof (eq_trans (eq_sym Hb) (B 1)) as B1.
    change (Some (mkBB 0 [] [] [] false)
            = Some (without_removed rem 1 (mkBB 0 [10; 11; 12] [] [] false)))
      in B1.
    injection B1 as B1. by symmetry. }
  assert (Hin : forall i, i ∈ [10; 11; 12] -> (1, i) ∈ rem.*1).
  { intros i Hi. destruct (decide ((1, i) ∈ rem.*1)) as [|Hn]; [done|].
    assert (Hi' : i ∈ filter (fun i => (1, i) ∉ rem.*1) [10; 11; 12])
      by (by apply list_elem_of_filter).
    rewrite Hf in Hi'. by apply elem_of_nil in Hi'. }
  split; [apply Hin; set_solver|]. split; [apply Hin; set_solver|].
  split; [apply Hin; set_solver|].
  pose proof (f_equal usages (U (1, 0))) as U1.
  pose proof (f_equal usages (U (2, 0))) as U2.
  pose proof (f_equal usages (U (3, 0))) as U3.
  rewrite H1 in U1. rewrite H2 in U2. rewrite H3 in U3.
  change (0 = 1 - given_back (vm := sample_vm) rem (1, 0)) in U1.
  change (0 = 1 - given_back (vm := sample_vm) rem (2, 0)) in U2.
  change (0 = 0 - given_back (vm := sample_vm) rem (3, 0)) in U3.
  lia.
Qed.

(** The chain of three pure instructions is deleted, and no register has a
    usage left: [r1] and [r2] each had one, which the removal of their
    reader gave back. *)
Lemma dead_ins_fixed_point_witness :
  (exists g' rem,
     eliminate_dead_ins (vm := sample_vm) g_chain = Some g' /\
     no_dead_ins (vm := sample_vm) g' /\ later g_chain g' /\
     cascade (vm := sample_vm) g_chain g' rem /\
     ((1, 10) ∈ rem.*1 /\ (1, 11) ∈ rem.*1 /\ (1, 12) ∈ rem.*1 /\
      given_back (vm := sample_vm) rem (1, 0) = 1 /\
      given_back (vm := sample_vm) rem (2, 0) = 1 /\
      given_back (vm := sample_vm) rem (3, 0) = 0) /\
     instrs <$> bbs g' !! 1 = Some [] /\
     usages (facts_at g_chain (1, 0)) = 1 /\
     usages (facts_at g_chain (2, 0)) = 1 /\
     usages (facts_at g_chain (3, 0)) = 0 /\
     usages (facts_at g' (1, 0)) = 0 /\
     usages (facts_at g' (2, 0)) = 0 /\
     usages (facts_at g' (3, 0)) = 0) /\
  (exists g1,
     eliminate_dead_ins_step (vm := sample_vm) g_chain 1 12 = Some (g1, true) /\
     instrs <$> bbs g1 !! 1 = Some [10; 11] /\
     usages (facts_at g_chain (2, 0)) = 1 /\
     usages (facts_at g1 (2, 0)) = 0).
Proof.
  destruct (dead_ins_fixed_point (vm := sample_vm) g_chain)
    as [(g' & rem & Hrun & Hnd & Hl & Hcas) Hstep].
  - split.
    + intros bb Hbb. apply list_elem_of_singleton in Hbb as ->. vm_compute. eauto.
    + intros bb ins Hbb Hin. apply list_elem_of_singleton in Hbb as ->.
      change (ins ∈ [10; 11; 12]) in Hin.
      assert (Hok : forall p, log_guard_ok (vm := sample_vm) g_chain p).
      { intros p. apply sample_log_guard_ok. unfold facts_at.
        destruct (facts g_chain !! p) as [f|] eqn:E; [|reflexivity].
        change (facts g_chain) with
          (list_to_map (M := gmap factsptr MVMSpeshFacts)
             [((1, 0), mkFacts 0 None None value_unset 0 1);
              ((2, 0), mkFacts 0 None None value_unset 0 1);
              ((3, 0), mkFacts 0 None None value_unset 0 0)]) in E.
        apply elem_of_list_to_map_2 in E.
        repeat (apply elem_of_cons in E as [[= -> ->]|E]; [reflexivity|]).
        by apply elem_of_nil in E. }
      repeat (apply elem_of_cons in Hin as [->|Hin]);
        [| | | by apply elem_of_nil in Hin];
        (eexists; split; [vm_compute; reflexivity|]); intros _; split.
      * exists (1, 0). split; [reflexivity | apply Hok].
      * intros k H1 H2. simpl in H2. lia.
      * exists (2, 0). split; [reflexivity | apply Hok].
      * intros k H1 H2 _. assert (k = 1%nat) as -> by (simpl in H2; lia).
        exists (1, 0). split; [reflexivity | apply Hok].
      * exists (3, 0). split; [reflexivity | apply Hok].
      * intros k H1 H2 _. assert (k = 1%nat) as -> by (simpl in H2; lia).
        exists (2, 0). split; [reflexivity | apply Hok].
  - split.
    + exists g', rem. split; [exact Hrun|]. split; [exact Hnd|].
      split; [exact Hl|]. split; [exact Hcas|].
      split; [exact (chain_removals g' rem Hrun Hcas)|].
      vm_compute in Hrun. injection Hrun as <-.
      repeat split; reflexivity.
    + destruct (Hstep 1 12
                  (mkIns (sample_op_info (MVM_OP_other 2)) [reg 3 0; reg 2 0]))
        as (g1 & Hs & _ & Hu).
      * apply list_elem_of_singleton. reflexivity.
      * change (12 ∈ [10; 11; 12]). set_solver.
      * vm_compute. reflexivity.
      * split; [reflexivity|]. exists (3, 0). split; reflexivity.
      * exists g1. split; [exact Hs|].
        split; [vm_compute in Hs; injection Hs as <-; reflexivity|].
        split; [reflexivity|]. rewrite Hu. vm_compute. reflexivity.
Defined.

(** The unreachable block 2 is dropped; the entry and the inlined block 4
    stay. *)
Lemma dead_bbs_keeps_entry_and_inlined_witness :
  exists g',
    eliminate_dead_bbs g_blocks = Some g' /\
    linear g' = [1; 3; 4; 5] /\
    head (linear g') = head (linear g_blocks) /\
    (forall bb b, bb ∈ linear g_blocks -> bbs g_blocks !! bb = Some b ->
                  inlined b = true -> bb ∈ linear g').
Proof.
  eexists. split; [vm_compute; reflexivity|]. split; [reflexivity|].
  match goal with |- head (linear ?g') = _ /\ _ =>
    destruct (dead_bbs_keeps_entry_and_inlined g_blocks g') as (Hh & Hi & _)
  end.
  - vm_compute. reflexivity.
  - split; [exact Hh | exact Hi].
Defined.

(** The cleanup passes on their own results. *)
Lemma cleanup_passes_idempotent_witness :
  exists g1 g2,
    eliminate_dead_ins (vm := sample_vm) g_chain = Some g1 /\
    eliminate_dead_ins (vm := sample_vm) g1 = Some g1 /\
    eliminate_unused_log_guards g_guards = Some g2 /\
    eliminate_unused_log_guards g2 = Some g2.
Proof.
  eexists. eexists.
  split; [vm_compute; reflexivity|]. split.
  - match goal with |- eliminate_dead_ins ?g1 = _ =>
      apply (proj1 (cleanup_passes_idempotent (vm := sample_vm) g_chain g1))
    end.
    vm_compute. reflexivity.
  - split; [vm_compute; reflexivity|].
    match goal with |- eliminate_unused_log_guards ?g2 = _ =>
      apply (proj2 (cleanup_passes_idempotent (vm := sample_vm) g_guards g2))
    end.
    vm_compute. reflexivity.
Defined.

(** C2 as stated fails: a second run of [MVM_spesh_optimize] inserts a
    second [sp_getspeshslot] before the call and appends a second spesh
    slot. *)
Lemma optimize_twice_differs :
  exists g1 g2,
    MVM_spesh_optimize (vm := sample_vm) 10 g_invoke = Some g1 /\
    MVM_spesh_optimize (vm := sample_vm) 10 g1 = Some g2 /\
    instrs <$> bbs g1 !! 1 = Some [10; 11; 14; 12; 13] /\
    instrs <$> bbs g2 !! 1 = Some [10; 11; 14; 15; 12; 13] /\
    spesh_slots g1 = [Some 201] /\
    spesh_slots g2 = [Some 201; Some 201] /\
    g2 <> g1.
Proof.
  eexists. eexists.
  split; [vm_compute; reflexivity|].
  split; [vm_compute; reflexivity|].
  do 4 (split; [reflexivity|]).
  intros H. apply (f_equal (fun g => length (spesh_slots g))) in H.
  vm_compute in H. discriminate H.
Qed.

(** C1 fails on the code: after [MVM_spesh_optimize] of [g_islist], where
    [r2] is read once and has [usages = 1], no instruction reads [r2] and
    its [usages] is still 1. *)
Lemma is_reprid_keeps_usage :
  read_references (H := sample_vm) g_islist (2, 0) = 1%nat /\
  usages (facts_at g_islist (2, 0)) = 1 /\
  exists g',
    MVM_spesh_optimize (vm := sample_vm) 10 g_islist = Some g' /\
    ins_mem g' !! 10
    = Some (mkIns (sample_op_info MVM_OP_const_i64_16) [reg 1 0; lit_i16 0]) /\
    read_references (H := sample_vm) g' (2, 0) = 0%nat /\
    usages (facts_at g' (2, 0)) = 1.
Proof.
  split; [vm_compute; reflexivity|]. split; [reflexivity|].
  eexists. split; [vm_compute; reflexivity|].
  split; [vm_compute; reflexivity|]. split; vm_compute; reflexivity.
Qed.

(** Two more runs of [eliminate_dead_bbs].  In [g_stale] the first run keeps
    block 5, which no block of the final chain has as a successor: its mark
    in [seen] is left from the first iteration, because [memset] clears
    [g->num_bbs] bytes only after [g->num_bbs] has gone down.  A second run
    drops block 5. *)
Lemma dead_bbs_stale_mark :
  exists g1 g2,
    eliminate_dead_bbs g_stale = Some g1 /\ linear g1 = [1; 3; 5; 6] /\
    eliminate_dead_bbs g1 = Some g2 /\ linear g2 = [1; 3; 6].
Proof.
  eexists. eexists. split; [vm_compute; reflexivity|]. split; [reflexivity|].
  split; [vm_compute; reflexivity | reflexivity].
Qed.

(** When the last block of the chain is dropped, [cur_bb] becomes [NULL] and
    the test of the loop reads [cur_bb->linear_next]. *)
Lemma dead_bbs_last_block_dropped : eliminate_dead_bbs g_last = None.
Proof. vm_compute. reflexivity. Qed.

End Instances.

(* ===================================================================== *)
(** * Properties of the heap snapshots                                    *)
(* ===================================================================== *)

Section SnapshotFacts.

Import HeapSnapshot.

Context `{abi : ABI}.

(** ** Cells *)

Lemma cell_Some {A} (a : list A) (i : Z) (x : A) :
  cell a i = Some x <-> 0 <= i /\ a !! Z.to_nat i = Some x.
Proof.
  unfold cell. destruct (Z.ltb_spec i 0); [|tauto].
  split; [done | lia].
Qed.

Lemma cell_lt {A} (a : list A) (i : Z) :
  0 <= i < Z.of_nat (length a) -> is_Some (cell a i).
Proof.
  intros Hi. unfold cell. destruct (Z.ltb_spec i 0); [lia|].
  apply lookup_lt_is_Some. lia.
Qed.

Lemma set_cell_Some {A} (a : list A) (i : Z) (v : A) :
  0 <= i < Z.of_nat (length a) ->
  set_cell a i v = Some (<[Z.to_nat i := v]> a).
Proof. intros Hi. unfold set_cell. rewrite decide_True; [done | lia]. Qed.

Lemma set_cell_spec {A} (a a' : list A) (i : Z) (v : A) :
  set_cell a i v = Some a' ->
  0 <= i < Z.of_nat (length a) /\ length a' = length a /\
  cell a' i = Some v /\ forall j, j <> i -> cell a' j = cell a j.
Proof.
  unfold set_cell. case_decide as H; [|done]. intros [= <-].
  split; [lia|]. split; [by rewrite length_insert|]. split.
  - apply cell_Some. split; [lia|]. apply list_lookup_insert_eq. lia.
  - intros j Hj. unfold cell. destruct (Z.ltb_spec j 0); [done|].
    apply list_lookup_insert_ne. lia.
Qed.

(** ** Storage *)

Lemma grow_storage_ok {A} (zero : A) (store store' : list A)
    (num alloc alloc' size : Z) :
  storage_ok store num alloc ->
  grow_storage zero store num alloc size = Some (store', alloc') ->
  storage_ok store' num alloc' /\ num < alloc' /\
  (forall j, 0 <= j < num -> cell store' j = cell store j) /\
  (forall j, num <= j < alloc' ->
     cell store' j = if num =? alloc then Some zero else cell store j).
Proof.
  intros (Hn & Hmax & Hlen) Hg. unfold grow_storage in Hg.
  destruct (Z.eqb_spec num alloc) as [->|Hne].
  - case_decide as Hd; [|done]. injection Hg as <- <-.
    rewrite take_ge by lia.
    assert (Ha : (if negb (alloc =? 0) then to_uint64 (2 * alloc) else 32) < 2 ^ 64).
    { destruct (alloc =? 0); simpl; [lia|].
      unfold to_uint64. apply Z.mod_pos_bound. lia. }
    assert (Hne : alloc <> (if negb (alloc =? 0) then to_uint64 (2 * alloc) else 32)).
    { destruct (Z.eqb_spec alloc 0) as [->|H0]; simpl; [lia|].
      unfold to_uint64. intros He.
      destruct (Z.lt_ge_cases (2 * alloc) (2 ^ 64)) as [Hs|Hb].
      - rewrite Z.mod_small in He by lia. lia.
      - assert (2 * alloc = 2 ^ 64 + (2 * alloc - 2 ^ 64)) as Hr by lia.
        rewrite Hr in He.
        rewrite <- Zplus_mod_idemp_l, Z.mod_same, Z.add_0_l in He by lia.
        rewrite Z.mod_small in He by lia. lia. }
    split. { split; [lia|]. split; [done|]. rewrite length_app, length_replicate. lia. }
    split; [lia|]. split.
    + intros j Hj. unfold cell. destruct (Z.ltb_spec j 0); [done|].
      apply lookup_app_l. lia.
    + intros j Hj. unfold cell. destruct (Z.ltb_spec j 0); [lia|].
      rewrite lookup_app_r by lia. apply lookup_replicate_2. lia.
  - injection Hg as <- <-. split; [done|]. split; [lia|]. done.
Qed.

Lemma to_uint64_small (z : Z) : 0 <= z < 2 ^ 64 -> to_uint64 z = z.
Proof. intros. unfold to_uint64. by apply Z.mod_small. Qed.

Lemma grow_storage_Some {A} (zero : A) (store : list A) (num alloc size : Z) :
  storage_ok store num alloc -> 0 < size ->
  Z.max 32 (2 * alloc) * size < 2 ^ 64 ->
  exists store',
    grow_storage zero store num alloc size
    = Some (store', if num =? alloc then (if alloc =? 0 then 32 else 2 * alloc)
                    else alloc).
Proof.
  intros (Hn & Hmax & Hlen) Hsize Hbytes. unfold grow_storage.
  destruct (Z.eqb_spec num alloc) as [->|Hne]; [|by eexists].
  assert (Ha : (if negb (alloc =? 0) then to_uint64 (2 * alloc) else 32)
               = if alloc =? 0 then 32 else 2 * alloc).
  { destruct (Z.eqb_spec alloc 0); simpl; [done|].
    apply to_uint64_small. nia. }
  rewrite Ha. rewrite decide_True; [by eexists|].
  destruct (Z.eqb_spec alloc 0); split; nia.
Qed.

(** X22.  [grow_storage] on an array whose list holds its [alloc] cells, of
    which [num] are in use, with cells of a positive size such that the
    grown array fits the address space: the call is defined, the array
    afterwards has room for one more item ([num < alloc]), a full array of
    [alloc] cells grows to [2 * alloc] cells (to 32 when [alloc] is 0) and
    an array with room is left alone, the cells in use keep their contents,
    and the cells of the extension are zero. *)
Theorem grow_storage_spec {A} (zero : A) (store : list A) (num alloc size : Z) :
  storage_ok store num alloc -> 0 < size ->
  Z.max 32 (2 * alloc) * size < 2 ^ 64 ->
  exists store' alloc',
    grow_storage zero store num alloc size = Some (store', alloc') /\
    storage_ok store' num alloc' /\ num < alloc' /\
    alloc' = (if num =? alloc then (if alloc =? 0 then 32 else 2 * alloc)
              else alloc) /\
    (forall j, j < num -> cell store' j = cell store j) /\
    (forall j, num <= j < alloc' ->
       cell store' j = if num =? alloc then Some zero else cell store j).
Proof.
  intros Hok Hsize Hbytes.
  destruct (grow_storage_Some zero store num alloc size Hok Hsize Hbytes)
    as (store' & Hg).
  destruct (grow_storage_ok _ _ _ _ _ _ _ Hok Hg) as (Hok' & Hlt & Hold & Hnew).
  exists store'. eexists. split; [exact Hg|].
  split; [done|]. split; [done|]. split; [done|]. split; [|done].
  intros j Hj. destruct (Z.lt_ge_cases j 0) as [Hneg|Hpos].
  - unfold cell. by destruct (Z.ltb_spec j 0); [|lia].
  - apply Hold. lia.
Qed.

Lemma find_string_Some (strs : list (option cstr)) (str : cstr) (todo : nat) :
  forall i j, find_string strs str i todo = Some (Some j) ->
    i <= j < i + Z.of_nat todo /\ cell strs j = Some (Some str) /\
    forall k, i <= k < j -> cell strs k <> Some (Some str).
Proof.
  induction todo as [|todo IH]; intros i j; simpl; [done|].
  destruct (cell strs i) as [[s|]|] eqn:Ec; simpl; try done.
  destruct (String.eqb s str) eqn:Es.
  - intros [= <-]. apply String.eqb_eq in Es as ->.
    split; [lia|]. split; [done|]. intros; lia.
  - intros H. apply IH in H as (Hj & Hc & Hk).
    split; [lia|]. split; [done|]. intros k Hkr.
    destruct (Z.eq_dec k i) as [->|].
    + rewrite Ec. intros [= ->]. by rewrite String.eqb_refl in Es.
    + apply Hk. lia.
Qed.

Lemma find_string_None (strs : list (option cstr)) (str : cstr) (todo : nat) :
  forall i, find_string strs str i todo = Some None ->
    forall k, i <= k < i + Z.of_nat todo -> cell strs k <> Some (Some str).
Proof.
  induction todo as [|todo IH]; intros i; simpl; [intros; lia|].
  destruct (cell strs i) as [[s|]|] eqn:Ec; simpl; try done.
  destruct (String.eqb s str) eqn:Es; [done|].
  intros H k Hk. destruct (Z.eq_dec k i) as [->|].
  - rewrite Ec. intros [= ->]. by rewrite String.eqb_refl in Es.
  - apply (IH _ H). lia.
Qed.

Lemma find_string_first (strs : list (option cstr)) (str : cstr) (todo : nat) :
  forall i j, i <= j < i + Z.of_nat todo ->
    cell strs j = Some (Some str) ->
    (forall k, i <= k < j -> exists s, cell strs k = Some (Some s) /\ s <> str) ->
    find_string strs str i todo = Some (Some j).
Proof.
  induction todo as [|todo IH]; intros i j Hj Hc Hk; simpl; [lia|].
  destruct (Z.eq_dec i j) as [->|Hne].
  - rewrite Hc. simpl. by rewrite String.eqb_refl.
  - destruct (Hk i) as (s & -> & Hs); [lia|]. simpl.
    destruct (String.eqb s str) eqn:Es; [by apply String.eqb_eq in Es|].
    apply IH; [lia | done |]. intros k Hkr. apply Hk. lia.
Qed.

Lemma get_string_index_inv (c c' : MVMHeapSnapshotCollection) (str : cstr)
    (is_const : bool) (i : Z) :
  strings_ok c ->
  get_string_index c str is_const = Some (i, c') ->
  strings_ok c' /\
  0 <= i < num_strings c' /\ cell (strings c') i = Some (Some str) /\
  (forall j, 0 <= j < num_strings c ->
     cell (strings c') j = cell (strings c) j) /\
  (i < num_strings c /\ c' = c \/
   i = num_strings c /\ num_strings c' = num_strings c + 1 /\
   (forall j, 0 <= j < num_strings c ->
      cell (strings c) j <> Some (Some str)) /\
   cell (strings_free c') i = Some (if is_const then 0 else 1) /\
   snapshots c' = snapshots c /\ num_snapshots c' = num_snapshots c /\
   alloc_snapshots c' = alloc_snapshots c).
Proof.
  intros (Hst & Hfull & Hdist) Hget. unfold get_string_index in Hget.
  destruct (find_string (strings c) str 0 _) as [[j|]|] eqn:Ef;
    simpl in Hget; [| |done].
  - injection Hget as <- <-.
    apply find_string_Some in Ef as (Hj & Hc & Hk).
    assert (Hj' : 0 <= j < num_strings c) by (destruct Hst; lia).
    split; [done|]. split; [done|]. split; [done|]. split; [done|].
    left. split; [lia | done].
  - pose proof (find_string_None _ _ _ _ Ef) as Hno.
    assert (Hno' : forall j, 0 <= j < num_strings c ->
              cell (strings c) j <> Some (Some str)).
    { intros j Hj. apply Hno. destruct Hst. lia. }
    destruct (grow_storage None _ _ _ _) as [[strs alloc_s]|] eqn:Eg;
      simpl in Hget; [|done].
    destruct (grow_storage 0 _ _ _ _) as [[sfree alloc_f]|] eqn:Eg2;
      simpl in Hget; [|done].
    destruct (set_cell strs _ _) as [strs'|] eqn:Es1; simpl in Hget; [|done].
    destruct (set_cell sfree _ _) as [sfree'|] eqn:Es2; simpl in Hget; [|done].
    injection Hget as <- <-.
    apply set_cell_spec in Es1 as (Hi1 & Hl1 & Hc1 & Hj1).
    apply set_cell_spec in Es2 as (Hi2 & Hl2 & Hc2 & Hj2).
    assert (Hgrow : Z.of_nat (length strs) = alloc_s /\ alloc_s < 2 ^ 64 /\
              forall j, 0 <= j < num_strings c -> cell strs j = cell (strings c) j).
    { destruct Hst as (Hn & Hmax & Hlen). unfold grow_storage in Eg.
      destruct (Z.eqb_spec (num_strings c) (alloc_strings c)) as [He|Hne].
      - case_decide as Hd; [|done]. injection Eg as <- <-.
        rewrite take_ge by lia.
        split. { rewrite length_app, length_replicate. lia. }
        split. { destruct (alloc_strings c =? 0); simpl; [lia|].
                 unfold to_uint64. apply Z.mod_pos_bound. lia. }
        intros j Hj. unfold cell. destruct (Z.ltb_spec j 0); [done|].
        apply lookup_app_l. lia.
      - injection Eg as <- <-. done. }
    destruct Hgrow as (Hlen' & Hmax' & Hold).
    assert (Hnum : to_uint64 (num_strings c + 1) = num_strings c + 1).
    { unfold to_uint64. apply Z.mod_small. lia. }
    unfold strings_ok, storage_ok. simpl. rewrite !Hnum.
    assert (Hcells : forall j, 0 <= j < num_strings c ->
              cell strs' j = cell (strings c) j).
    { intros j Hj. rewrite Hj1 by lia. by apply Hold. }
    split.
    { split; [|split].
      - destruct Hst as (Hn & _ & _). split; [lia|]. split; [done|]. lia.
      - intros j Hj. destruct (Z.eq_dec j (num_strings c)) as [->|].
        + by exists str.
        + rewrite Hcells by lia. apply Hfull. lia.
      - intros j k s Hj Hk Hcj Hck.
        destruct (Z.eq_dec j (num_strings c)) as [->|Hjn];
        destruct (Z.eq_dec k (num_strings c)) as [->|Hkn]; [done | | |].
        + rewrite Hc1 in Hcj. injection Hcj as <-.
          rewrite Hcells in Hck by lia. by apply Hno' in Hck; [|lia].
        + rewrite Hc1 in Hck. injection Hck as <-.
          rewrite Hcells in Hcj by lia. by apply Hno' in Hcj; [|lia].
        + rewrite Hcells in Hcj, Hck by lia. apply (Hdist j k s); [lia..|done|done]. }
    split; [lia|]. split; [done|]. split; [done|].
    right. repeat split; done.
Qed.

Lemma get_string_index_present (c : MVMHeapSnapshotCollection) (s : cstr)
    (b : bool) (i : Z) :
  strings_ok c -> 0 <= i < num_strings c ->
  cell (strings c) i = Some (Some s) ->
  get_string_index c s b = Some (i, c).
Proof.
  intros (Hst & Hfull & Hdist) Hi Hc. unfold get_string_index.
  rewrite (find_string_first _ _ _ 0 i); [done | lia | done |].
  intros k Hk. destruct (Hfull k) as (t & Ht); [lia|].
  exists t. split; [done|]. intros ->.
  assert (k = i) by (apply (Hdist k i s); (lia || done)). lia.
Qed.

(** X23.  [get_string_index] on a string heap whose cells in use hold
    pairwise different strings.  When it returns the index [i], the cell
    [i] of the heap afterwards holds the string, the cells that were in use
    are unchanged and the heap still holds no string twice.  A string that
    is in the heap gets its index and the collection is unchanged; a string
    that is not gets the index [num_strings], which goes up by one, and
    [strings_free] records at that index whether the string is to be freed.
    Asking again for the same string returns the same index and changes
    nothing. *)
Theorem get_string_index_spec (c c' : MVMHeapSnapshotCollection) (str : cstr)
    (is_const : bool) (i : Z) :
  strings_ok c ->
  get_string_index c str is_const = Some (i, c') ->
  strings_ok c' /\
  0 <= i < num_strings c' /\ cell (strings c') i = Some (Some str) /\
  (forall j, 0 <= j < num_strings c ->
     cell (strings c') j = cell (strings c) j) /\
  (i < num_strings c /\ c' = c \/
   i = num_strings c /\ num_strings c' = num_strings c + 1 /\
   (forall j, 0 <= j < num_strings c ->
      cell (strings c) j <> Some (Some str)) /\
   cell (strings_free c') i = Some (if is_const then 0 else 1) /\
   snapshots c' = snapshots c /\ num_snapshots c' = num_snapshots c /\
   alloc_snapshots c' = alloc_snapshots c) /\
  (forall k, get_string_index c' str k = Some (i, c')).
Proof.
  intros Hok Hget.
  destruct (get_string_index_inv c c' str is_const i Hok Hget)
    as (Hok' & Hi & Hc & Hold & Hcase).
  do 4 (split; [done|]). split; [done|].
  intros k. by apply get_string_index_present.
Qed.


Lemma find_string_absent (strs : list (option cstr)) (str : cstr) (todo : nat) :
  forall i,
    (forall k, i <= k < i + Z.of_nat todo ->
       exists s, cell strs k = Some (Some s) /\ s <> str) ->
    find_string strs str i todo = Some None.
Proof.
  induction todo as [|todo IH]; intros i Hk; simpl; [done|].
  destruct (Hk i) as (s & -> & Hs); [lia|]. simpl.
  destruct (String.eqb s str) eqn:Es; [by apply String.eqb_eq in Es|].
  apply IH. intros k Hkr. apply Hk. lia.
Qed.

Lemma string_heap_cell (names : list cstr) (sfree : list Z) (k : Z) (s : cstr) :
  (length names <= 32)%nat ->
  cell (strings (string_heap names sfree)) k = Some (Some s) <->
  0 <= k /\ names !! Z.to_nat k = Some s.
Proof.
  intros Hlen. rewrite cell_Some. simpl. split.
  - intros [Hk Hl]. split; [done|].
    destruct (decide (Z.to_nat k < length names)%nat) as [Hlt|Hge].
    + rewrite lookup_app_l in Hl by (by rewrite length_map).
      rewrite list_lookup_fmap in Hl.
      destruct (names !! Z.to_nat k); simpl in Hl; by simplify_eq.
    + rewrite lookup_app_r in Hl by (rewrite length_map; lia).
      apply lookup_replicate in Hl as [? _]. done.
  - intros [Hk Hl]. split; [done|].
    rewrite lookup_app_l by (rewrite length_map; by eapply lookup_lt_Some).
    by rewrite list_lookup_fmap, Hl.
Qed.

Lemma string_heap_find (names : list cstr) (sfree : list Z) (s : cstr) :
  (length names <= 32)%nat -> s ∉ names ->
  find_string (strings (string_heap names sfree)) s 0 (length names) = Some None.
Proof.
  intros Hlen Hs. apply find_string_absent. intros k Hk.
  destruct (lookup_lt_is_Some_2 names (Z.to_nat k)) as [t Ht]; [lia|].
  exists t. split.
  - apply string_heap_cell; [done|]. split; [lia | done].
  - intros ->. apply Hs. by eapply list_elem_of_lookup_2.
Qed.

Lemma string_heap_first (s : cstr) (b : bool) :
  0 < sizeof_ptr -> 32 * sizeof_ptr < 2 ^ 64 ->
  exists sfree, length sfree = 32%nat /\
    get_string_index zero_collection s b = Some (0, string_heap [s] sfree).
Proof.
  intros Hp Hb. unfold get_string_index. simpl.
  unfold grow_storage. simpl.
  rewrite decide_True by (split; [lia | split; [lia | simpl; lia]]).
  simpl. eexists. split; [|reflexivity]. done.
Qed.

Lemma string_heap_next (names : list cstr) (sfree : list Z) (s : cstr) (b : bool) :
  (0 < length names < 32)%nat -> length sfree = 32%nat -> s ∉ names ->
  exists sfree', length sfree' = 32%nat /\
    get_string_index (string_heap names sfree) s b
    = Some (Z.of_nat (length names), string_heap (names ++ [s]) sfree').
Proof.
  intros Hlen Hf Hs. unfold get_string_index.
  replace (Z.to_nat (num_strings (string_heap names sfree))) with (length names)
    by (simpl; lia).
  rewrite string_heap_find by (lia || done). simpl.
  unfold grow_storage.
  destruct (Z.eqb_spec (Z.of_nat (length names)) 32) as [?|_]; [lia|].
  simpl. rewrite !set_cell_Some.
  2,3: rewrite ?length_app, ?length_map, ?length_replicate, ?Hf; lia.
  simpl. eexists. split; [|f_equal; f_equal; unfold string_heap; f_equal].
  - rewrite length_insert. exact Hf.
  - rewrite Nat2Z.id.
    rewrite insert_app_r_alt by (rewrite length_map; lia).
    rewrite length_map, Nat.sub_diag.
    destruct (32 - length names)%nat as [|m] eqn:Em; [lia|].
    simpl. rewrite map_app, <- app_assoc. simpl.
    rewrite length_app. simpl.
    replace (32 - (length names + 1))%nat with m by lia. done.
  - unfold to_uint64. rewrite Z.mod_small by lia.
    rewrite length_app. simpl. lia.
Qed.

Lemma string_heap_full (names : list cstr) (sfree : list Z) (s : cstr) (b : bool) :
  length names = 32%nat -> length sfree = 32%nat -> s ∉ names ->
  get_string_index (string_heap names sfree) s b = None.
Proof.
  intros Hlen Hf Hs. unfold get_string_index.
  replace (Z.to_nat (num_strings (string_heap names sfree))) with (length names)
    by (simpl; lia).
  rewrite string_heap_find by (lia || done). simpl.
  destruct (grow_storage None _ _ _ _) as [[strs alloc_s]|]; simpl; [|done].
  unfold grow_storage. simpl.
  destruct (set_cell strs _ _); simpl; [|done].
  unfold set_cell. rewrite decide_False; [done|]. rewrite Hf, Hlen. lia.
Qed.

Lemma add_strings_heap (l : list (cstr * bool)) :
  forall names sfree,
    (0 < length names)%nat -> length sfree = 32%nat ->
    NoDup (names ++ l.*1) ->
    ((length names + length l <= 32)%nat ->
       exists sfree', length sfree' = 32%nat /\
         add_strings (string_heap names sfree) l
         = Some (seqZ (Z.of_nat (length names)) (Z.of_nat (length l)),
                 string_heap (names ++ l.*1) sfree')) /\
    ((32 < length names + length l)%nat -> (length names <= 32)%nat ->
       add_strings (string_heap names sfree) l = None).
Proof.
  induction l as [|[s b] l IH]; intros names sfree Hn Hf Hnd; simpl.
  - split; [|lia]. intros _. exists sfree. by rewrite app_nil_r.
  - assert (Hs : s ∉ names).
    { apply NoDup_app in Hnd as (_ & Hd & _). intros Hin.
      apply (Hd _ Hin). simpl. left. }
    assert (Hnd' : NoDup ((names ++ [s]) ++ l.*1)) by (by rewrite <- app_assoc).
    destruct (decide (length names < 32)%nat) as [Hlt|Hge].
    + destruct (string_heap_next names sfree s b) as (sfree1 & Hf1 & ->);
        [lia | done | done |]. simpl.
      destruct (IH (names ++ [s]) sfree1) as [IH1 IH2];
        [rewrite length_app; simpl; lia | done | done |].
      rewrite length_app in IH1, IH2. simpl in IH1, IH2.
      split.
      * intros Hle. destruct IH1 as (sfree' & Hf' & ->); [lia|].
        exists sfree'. split; [done|]. simpl. rewrite <- app_assoc. simpl.
        rewrite (seqZ_cons (Z.of_nat (length names))) by lia.
        do 3 f_equal. f_equal; lia.
      * intros Hgt _. rewrite IH2; [done | lia | lia].
    + split; [lia|]. intros _ Hle.
      rewrite string_heap_full; [done | lia | done | done].
Qed.

(** X24.  The string heap of a collection takes 32 strings and no more.
    [num_strings_free] is never incremented, so [strings_free] is grown
    once, to 32 cells, while [strings] would be doubled: adding pairwise
    different strings to an empty collection gives them the indices
    [0, 1, ...] in order as long as there are at most 32 of them, and has
    no defined result from the 33rd on ([strings_free] is written past its
    end). *)
Theorem string_heap_limit (l : list (cstr * bool)) :
  NoDup l.*1 -> 0 < sizeof_ptr -> 32 * sizeof_ptr < 2 ^ 64 ->
  ((length l <= 32)%nat ->
     exists c, add_strings zero_collection l
               = Some (seqZ 0 (Z.of_nat (length l)), c) /\
       num_strings c = Z.of_nat (length l) /\
       forall (k : nat) s, l.*1 !! k = Some s ->
         cell (strings c) (Z.of_nat k) = Some (Some s)) /\
  ((32 < length l)%nat -> add_strings zero_collection l = None).
Proof.
  intros Hnd Hp Hb. destruct l as [|[s b] l]; simpl.
  - split; [|lia]. intros _. exists zero_collection.
    split; [done|]. split; [done|]. intros k s. by rewrite lookup_nil.
  - destruct (string_heap_first s b) as (sfree & Hf & ->); [done..|]. simpl.
    destruct (add_strings_heap l [s] sfree) as [H1 H2]; [simpl; lia | done | done |].
    simpl in H1, H2. split.
    + intros Hle. destruct H1 as (sfree' & Hf' & ->); [lia|].
      eexists. split.
      { simpl. rewrite (seqZ_cons 0) by lia. do 3 f_equal. f_equal; lia. }
      split.
      * simpl. rewrite length_fmap. lia.
      * intros k t Hk. apply string_heap_cell.
        { simpl. rewrite length_fmap. lia. }
        split; [lia|]. by rewrite Nat2Z.id.
    + intros Hgt. rewrite H2; [done | lia | lia].
Qed.



(** ** The work list *)

(** X25.  [push_workitem] and then [pop_workitem].  The push returns the
    index of a new collectable, [num_collectables] before the call, leaves
    the collectables below it alone and finds the new one as
    [grow_storage] left it.  The pop that follows returns the item pushed,
    with the kind narrowed to 16 bits, that collectable index and a [NULL]
    target whatever target was passed, and leaves the work list as it was
    before the push: the same [num_workitems] and the same items below
    it. *)
Theorem pop_after_push (ss ss1 : MVMHeapSnapshotState) (kind : Z)
    (tgt : option ptr) (i : Z) :
  state_ok ss ->
  push_workitem ss kind tgt = Some (i, ss1) ->
  i = num_collectables (hs ss) /\
  num_collectables (hs ss1) = i + 1 /\
  cell (collectables (hs ss1)) i
  = (if i =? alloc_collectables (hs ss) then Some zero_collectable
     else cell (collectables (hs ss)) i) /\
  (forall j, 0 <= j < i ->
     cell (collectables (hs ss1)) j = cell (collectables (hs ss)) j) /\
  state_ok ss1 /\
  exists ss2,
    pop_workitem ss1 = Some (mkWorkItem (Spesh.to_uint16 kind) i None, ss2) /\
    num_workitems ss2 = num_workitems ss /\
    hs ss2 = hs ss1 /\ col ss2 = col ss /\ ref_from ss2 = ref_from ss /\
    state_ok ss2 /\
    forall j, 0 <= j < num_workitems ss ->
      cell (workitems ss2) j = cell (workitems ss) j.
Proof.
  intros (Hw & Hc & Hr) Hpush. unfold push_workitem in Hpush.
  destruct (grow_storage zero_collectable _ _ _ _) as [[cols alloc_c]|] eqn:Eg1;
    simpl in Hpush; [|done].
  destruct (grow_storage zero_workitem _ _ _ _) as [[wis alloc_w]|] eqn:Eg2;
    simpl in Hpush; [|done].
  destruct (set_cell wis _ _) as [wis'|] eqn:Es; simpl in Hpush; [|done].
  injection Hpush as <- <-.
  apply (grow_storage_ok _ _ _ _ _ _ _ Hc) in Eg1 as (Hc1 & Hlt1 & Hold1 & Hnew1).
  apply (grow_storage_ok _ _ _ _ _ _ _ Hw) in Eg2 as (Hw1 & Hlt2 & Hold2 & Hnew2).
  apply set_cell_spec in Es as (Hi & Hl & Hcell & Hother).
  destruct Hc1 as (Hcn & Hcm & Hcl). destruct Hw1 as (Hwn & Hwm & Hwl).
  pose proof (to_uint64_small (num_collectables (hs ss) + 1) ltac:(lia)) as Hn1.
  pose proof (to_uint64_small (num_workitems ss + 1) ltac:(lia)) as Hn2.
  simpl. rewrite Hn1.
  split; [done|]. split; [done|].
  split. { apply Hnew1. lia. }
  split; [done|].
  assert (Hok1 : state_ok
            {| col := col ss;
               hs := {| collectables := cols;
                        num_collectables := num_collectables (hs ss) + 1;
                        alloc_collectables := alloc_c;
                        references := references (hs ss);
                        num_references := num_references (hs ss);
                        alloc_references := alloc_references (hs ss) |};
               workitems := wis';
               num_workitems := to_uint64 (num_workitems ss + 1);
               alloc_workitems := alloc_w;
               ref_from := ref_from ss |}).
  { unfold state_ok, storage_ok. simpl. rewrite Hn2. destruct Hr as (? & ? & ?).
    repeat split; lia. }
  split; [done|].
  unfold pop_workitem. simpl. rewrite Hn2.
  replace (num_workitems ss + 1 - 1) with (num_workitems ss) by lia.
  rewrite to_uint64_small by lia. rewrite Hcell. simpl.
  eexists. split; [done|]. simpl.
  do 4 (split; [done|]). split.
  - unfold state_ok, storage_ok. simpl. destruct Hr as (? & ? & ?).
    repeat split; lia.
  - intros j Hj. rewrite Hother by lia. by apply Hold2.
Qed.

(** X26.  [pop_workitem] on an empty work list has no defined result:
    [num_workitems] wraps around to [2^64 - 1], and the item is read from
    there. *)
Theorem pop_workitem_empty (ss : MVMHeapSnapshotState) :
  state_ok ss -> num_workitems ss = 0 -> pop_workitem ss = None.
Proof.
  intros ((Hn & Hmax & Hlen) & _) H0. unfold pop_workitem. rewrite H0.
  assert (Hm : to_uint64 (0 - 1) = 2 ^ 64 - 1) by (by vm_compute).
  rewrite Hm. unfold cell.
  destruct (Z.ltb_spec (2 ^ 64 - 1) 0); [done|].
  rewrite lookup_ge_None_2; [done|]. lia.
Qed.

Lemma description_decode (index k b : Z) :
  0 <= b < 31 -> 0 <= k < 2 ^ b -> k < 65536 -> 0 <= index < 2 ^ (64 - b) ->
  let d := Z.lor (to_uint64 (Z.shiftl index b)) (Spesh.to_uint16 k) in
  Z.land d (Z.shiftl 1 b - 1) = k /\ Z.shiftr d b = index.
Proof.
  intros Hb Hk Hk16 Hi.
  assert (Hpos : 0 < 2 ^ b) by (apply Z.pow_pos_nonneg; lia).
  assert (Hu : Spesh.to_uint16 k = k).
  { unfold Spesh.to_uint16. apply Z.mod_small. lia. }
  assert (Hs : to_uint64 (Z.shiftl index b) = Z.shiftl index b).
  { apply to_uint64_small. rewrite Z.shiftl_mul_pow2 by lia.
    assert (2 ^ 64 = 2 ^ (64 - b) * 2 ^ b) as ->.
    { rewrite <- Z.pow_add_r by lia. f_equal. lia. }
    assert (0 < 2 ^ b) by (apply Z.pow_pos_nonneg; lia). nia. }
  simpl. rewrite Hu, Hs. split.
  - rewrite Z.shiftl_1_l. change (2 ^ b - 1) with (Z.pred (2 ^ b)).
    rewrite <- Z.ones_equiv, Z.land_ones by lia.
    rewrite <- Z.add_nocarry_lor.
    + rewrite Z.shiftl_mul_pow2 by lia.
      rewrite Z.add_comm, Z.mod_add by lia. apply Z.mod_small. lia.
    + apply Z.bits_inj'. intros n Hn. rewrite Z.land_spec, Z.bits_0.
      destruct (Z.lt_ge_cases n b).
      * rewrite Z.shiftl_spec_low by lia. done.
      * destruct (Z.eq_dec k 0) as [->|]; [by rewrite Z.bits_0, andb_false_r|].
        rewrite (Z.bits_above_log2 k n); [apply andb_false_r | lia |].
        apply Z.log2_lt_pow2; [lia|].
        apply Z.lt_le_trans with (2 ^ b); [lia|].
        apply Z.pow_le_mono_r; lia.
  - rewrite Z.shiftr_lor. rewrite Z.shiftr_shiftl_l by lia.
    rewrite Z.sub_diag, Z.shiftl_0_r.
    rewrite (Z.shiftr_div_pow2 k) by lia. rewrite Z.div_small by lia.
    apply Z.lor_0_r.
Qed.

(** ** References *)

(** X27.  [add_reference], when it is defined, appends one reference: it
    is stored at index [num_references], which goes up by one, the earlier
    references are unchanged, [num_refs] of the collectable [ref_from] goes
    up by one (in the type of that counter), and no other collectable
    changes.  The description packs the index above the kind:
    [references_str] reads back the kind, the index and the target that
    were passed, provided the kind fits [MVM_SNAPSHOT_REF_KIND_BITS] bits
    and the index the remaining bits of the 64. *)
Theorem add_reference_spec (ss ss' : MVMHeapSnapshotState) (ref_kind index to : Z) :
  state_ok ss ->
  add_reference ss ref_kind index to = Some ss' ->
  let n := num_references (hs ss) in
  num_references (hs ss') = n + 1 /\
  (exists r, cell (references (hs ss')) n = Some r /\
     collectable_index r = to /\
     (0 <= MVM_SNAPSHOT_REF_KIND_BITS < 31 ->
      0 <= ref_kind < 2 ^ MVM_SNAPSHOT_REF_KIND_BITS -> ref_kind < 65536 ->
      0 <= index < 2 ^ (64 - MVM_SNAPSHOT_REF_KIND_BITS) ->
      reference_fields r = Some (ref_kind, index, to))) /\
  (forall j, 0 <= j < n ->
     cell (references (hs ss')) j = cell (references (hs ss)) j) /\
  (exists c, cell (collectables (hs ss)) (ref_from ss) = Some c /\
     cell (collectables (hs ss')) (ref_from ss)
     = Some (mkCollectable (kind c) (type_or_frame_index c)
               (collectable_size c) (unmanaged_size c) (refs_start c)
               (to_num_refs (num_refs c + 1)))) /\
  (forall j, j <> ref_from ss ->
     cell (collectables (hs ss')) j = cell (collectables (hs ss)) j) /\
  num_collectables (hs ss') = num_collectables (hs ss) /\
  workitems ss' = workitems ss /\ num_workitems ss' = num_workitems ss /\
  col ss' = col ss /\ ref_from ss' = ref_from ss /\
  state_ok ss'.
Proof.
  intros (Hw & Hc & Hr) Hadd n. unfold add_reference in Hadd.
  case_decide as Hbits; [|done].
  destruct (grow_storage zero_reference _ _ _ _) as [[refs alloc_r]|] eqn:Eg;
    simpl in Hadd; [|done].
  destruct (set_cell refs _ _) as [refs'|] eqn:Es; simpl in Hadd; [|done].
  unfold set_collectable in Hadd. simpl in Hadd.
  destruct (cell (collectables (hs ss)) (ref_from ss)) as [c|] eqn:Ec;
    simpl in Hadd; [|done].
  destruct (set_cell (collectables (hs ss)) _ _) as [cols|] eqn:Es2;
    simpl in Hadd; [|done].
  injection Hadd as <-.
  apply (grow_storage_ok _ _ _ _ _ _ _ Hr) in Eg as (Hr1 & Hlt & Hold & Hnew).
  apply set_cell_spec in Es as (Hi & Hl & Hcell & Hother).
  apply set_cell_spec in Es2 as (Hi2 & Hl2 & Hcell2 & Hother2).
  destruct Hr1 as (Hrn & Hrm & Hrl).
  fold n in Hrn, Hlt, Hold, Hnew, Hi, Hcell, Hother.
  pose proof (to_uint64_small (n + 1) ltac:(lia)) as Hn1.
  simpl. fold n. rewrite Hn1.
  split; [done|]. split.
  { eexists. split; [exact Hcell|]. split; [done|].
    intros Hb Hk Hk16 Hidx. unfold reference_fields.
    rewrite decide_True by done. simpl.
    destruct (description_decode index ref_kind MVM_SNAPSHOT_REF_KIND_BITS)
      as [-> ->]; done. }
  split. { intros j Hj. rewrite Hother by lia. by apply Hold. }
  split. { by exists c. }
  split; [done|]. split; [done|]. split; [done|]. split; [done|].
  split; [done|]. split; [done|].
  unfold state_ok, storage_ok. simpl. fold n.
  destruct Hc as (? & ? & ?). split; [done|]. repeat split; lia.
Qed.

Lemma grow_storage_first {A} (zero : A) (size : Z) :
  0 < size /\ 32 * size < 2 ^ 64 ->
  grow_storage zero [] 0 0 size = Some (replicate 32 zero, 32).
Proof.
  intros [Hs Hb]. unfold grow_storage. simpl.
  rewrite decide_True; [done|]. simpl. lia.
Qed.

Lemma grow_storage_room {A} (zero : A) (store : list A) (num alloc size : Z) :
  num <> alloc -> grow_storage zero store num alloc size = Some (store, alloc).
Proof. intros Hne. unfold grow_storage. by destruct (Z.eqb_spec num alloc). Qed.

Lemma root_case {A} (k : Z) (x y : option A) :
  k ∈ root_kinds.*2 ->
  (if k =? MVM_SNAPSHOT_COL_KIND_PERM_ROOTS then x
   else if k =? MVM_SNAPSHOT_COL_KIND_INSTANCE_ROOTS then x
   else if k =? MVM_SNAPSHOT_COL_KIND_CSTACK_ROOTS then x
   else if k =? MVM_SNAPSHOT_COL_KIND_THREAD_ROOTS then x
   else y) = x.
Proof.
  intros Hk. simpl in Hk.
  repeat (apply elem_of_cons in Hk as [->|Hk]); [..|by apply elem_of_nil in Hk];
    rewrite ?Z.eqb_refl; repeat (destruct (_ =? _)); done.
Qed.

Lemma process_workitem_leaf (ss ss1 : MVMHeapSnapshotState)
    (item : MVMHeapSnapshotWorkItem) :
  pop_workitem ss = Some (item, ss1) ->
  wi_kind item ∈ root_kinds.*2 ->
  process_workitem ss
  = h ← set_collectable (hs ss1) (col_idx item) (fun c =>
         mkCollectable (wi_kind item) (type_or_frame_index c)
           (collectable_size c) (unmanaged_size c) (refs_start c) (num_refs c));
    set_ref_from (set_hs ss1 h) (col_idx item).
Proof.
  intros Hpop Hk. unfold process_workitem. rewrite Hpop. simpl.
  destruct (set_collectable _ _ _) as [h|]; simpl; [|done].
  destruct (set_ref_from _ _) as [ss2|]; simpl; [|done].
  by apply root_case.
Qed.

Lemma process_workitem_root (ss ss1 : MVMHeapSnapshotState)
    (item : MVMHeapSnapshotWorkItem) :
  pop_workitem ss = Some (item, ss1) ->
  wi_kind item = MVM_SNAPSHOT_COL_KIND_ROOT ->
  MVM_SNAPSHOT_COL_KIND_ROOT ∉ root_kinds.*2 ->
  process_workitem ss
  = h ← set_collectable (hs ss1) (col_idx item) (fun c =>
         mkCollectable (wi_kind item) (type_or_frame_index c)
           (collectable_size c) (unmanaged_size c) (refs_start c) (num_refs c));
    ss2 ← set_ref_from (set_hs ss1 h) (col_idx item);
    add_roots ss2 root_kinds.
Proof.
  intros Hpop Hk Hroot. unfold process_workitem. rewrite Hpop. simpl.
  destruct (set_collectable _ _ _) as [h|]; simpl; [|done].
  destruct (set_ref_from _ _) as [ss2|]; simpl; [|done].
  rewrite Hk. simpl in Hroot.
  rewrite !not_elem_of_cons in Hroot.
  destruct Hroot as (H1 & H2 & H3 & H4 & _).
  apply Z.eqb_neq in H1, H2, H3, H4. rewrite H1, H2, H3, H4.
  by rewrite Z.eqb_refl.
Qed.

Lemma add_roots_cons (ss : MVMHeapSnapshotState) (name : cstr) (k : Z)
    (l : list (cstr * Z)) :
  add_roots ss ((name, k) :: l)
  = r ← push_workitem ss k None;
    ss2 ← add_reference_const_cstr r.2 name r.1;
    add_roots ss2 l.
Proof. simpl. destruct (push_workitem ss k None) as [[??]|]; reflexivity. Qed.

Local Arguments grow_storage : simpl never.
Local Arguments get_string_index : simpl never.
Local Arguments Spesh.to_uint16 : simpl never.
Local Arguments Z.lor : simpl never.
Local Arguments Z.shiftl : simpl never.
Local Arguments Z.mul : simpl never.
Local Arguments to_uint64 : simpl never.
Local Arguments process_workitem : simpl never.
Local Arguments add_roots : simpl never.

Lemma to_uint64_succ (n : Z) : 0 <= n < 32 -> to_uint64 (n + 1) = n + 1.
Proof. intros. apply to_uint64_small. lia. Qed.

Lemma to_uint64_pred (n : Z) : 0 < n < 32 -> to_uint64 (n - 1) = n - 1.
Proof. intros. apply to_uint64_small. lia. Qed.

Ltac is_literal a :=
  lazymatch a with Z0 => idtac | Zpos _ => idtac | Zneg _ => idtac end.

Ltac nums :=
  repeat match goal with
  | |- context [Z.add ?a ?b] =>
      is_literal a; is_literal b;
      let v := eval vm_compute in (Z.add a b) in change (Z.add a b) with v
  | |- context [Z.sub ?a ?b] =>
      is_literal a; is_literal b;
      let v := eval vm_compute in (Z.sub a b) in change (Z.sub a b) with v
  end.

Ltac run :=
  simpl;
  rewrite ?grow_storage_first by done;
  rewrite ?grow_storage_room by (simpl; lia);
  rewrite ?to_uint64_succ, ?to_uint64_pred by lia;
  nums; simpl.

Ltac root_step E i c :=
  rewrite add_roots_cons; unfold push_workitem; run;
  unfold add_reference_const_cstr; run;
  match goal with |- context [get_string_index ?c0 ?s true] =>
    destruct (get_string_index c0 s true) as [[i c]|] eqn:E; [|done]
  end;
  unfold add_reference, set_collectable; run;
  rewrite decide_True by lia; run;
  unfold set_hs, set_col; run.

Ltac leaf_step :=
  erewrite process_workitem_leaf;
    [|unfold pop_workitem; run; reflexivity
     |simpl; repeat first [apply list_elem_of_here | apply list_elem_of_further]];
  unfold set_collectable, set_ref_from, set_hs; run.

Lemma record_snapshot_run (c : MVMHeapSnapshotCollection) :
  abi_ok ->
  record_snapshot c zero_snapshot
  = r ← add_strings c root_names;
    Some (r.2,
      mkSnapshot
        (mkCollectable MVM_SNAPSHOT_COL_KIND_ROOT 0 0 0 0 4
           :: map (fun k => mkCollectable k 0 0 0 4 0) root_kinds.*2
           ++ replicate 27 zero_collectable)
        5 32
        (imap (fun n i =>
                 mkReference
                   (Z.lor (to_uint64 (Z.shiftl i MVM_SNAPSHOT_REF_KIND_BITS))
                      MVM_SNAPSHOT_REF_KIND_STRING)
                   (Z.of_nat n + 1)) r.1
           ++ replicate 28 zero_reference)
        4 32).
Proof.
  intros (Hsz & Hk & Hroot & Hbits & Hstr & Hstr16 & Hcnt).
  apply Forall_cons in Hsz as [Hsz_s Hsz].
  apply Forall_cons in Hsz as [Hsz_c Hsz].
  apply Forall_cons in Hsz as [Hsz_r Hsz].
  apply Forall_cons in Hsz as [Hsz_w _].
  apply Forall_cons in Hk as [Hk_root Hk].
  assert (Hu : forall k, k ∈ MVM_SNAPSHOT_COL_KIND_ROOT :: root_kinds.*2 ->
            Spesh.to_uint16 k = k).
  { intros k [->|Hin]%elem_of_cons; unfold Spesh.to_uint16; apply Z.mod_small; [done|].
    by apply (proj1 (Forall_forall _ _) Hk). }
  assert (Hu0 := Hu _ ltac:(apply list_elem_of_here)).
  assert (Hu1 := Hu _ ltac:(do 1 apply list_elem_of_further; apply list_elem_of_here)).
  assert (Hu2 := Hu _ ltac:(do 2 apply list_elem_of_further; apply list_elem_of_here)).
  assert (Hu3 := Hu _ ltac:(do 3 apply list_elem_of_further; apply list_elem_of_here)).
  assert (Hu4 := Hu _ ltac:(do 4 apply list_elem_of_further; apply list_elem_of_here)).
  simpl in Hu1, Hu2, Hu3, Hu4.
  assert (Hr0 := proj1 (Hcnt 0 ltac:(lia))).
  assert (Hr4 := proj1 (Hcnt 4 ltac:(lia))).
  assert (Hn1 := proj2 (Hcnt 1 ltac:(lia))).
  assert (Hn2 := proj2 (Hcnt 2 ltac:(lia))).
  assert (Hn3 := proj2 (Hcnt 3 ltac:(lia))).
  assert (Hn4 := proj2 (Hcnt 4 ltac:(lia))).
  assert (Hus : Spesh.to_uint16 MVM_SNAPSHOT_REF_KIND_STRING = MVM_SNAPSHOT_REF_KIND_STRING).
  { unfold Spesh.to_uint16. apply Z.mod_small. lia. }
  unfold record_snapshot, push_workitem. run. rewrite Hu0.
  erewrite process_workitem_root; [|unfold pop_workitem; run; reflexivity | done | done].
  unfold set_collectable, set_ref_from. run. rewrite Hr0.
  unfold root_names, root_kinds.
  root_step E1 i1 c1. rewrite Hu1, Hn1, Hus.
  root_step E2 i2 c2. rewrite Hu2, Hn2, Hus.
  root_step E3 i3 c3. rewrite Hu3, Hn3, Hus.
  root_step E4 i4 c4. rewrite Hu4, Hn4, Hus.
  unfold add_roots. run.
  leaf_step. rewrite Hr4. run.
  leaf_step. rewrite Hr4. run.
  leaf_step. rewrite Hr4. run.
  leaf_step. rewrite Hr4. run.
  reflexivity.
Qed.


Lemma add_strings_spec (l : list (cstr * bool)) :
  forall c idxs c',
    strings_ok c -> add_strings c l = Some (idxs, c') ->
    strings_ok c' /\ num_strings c <= num_strings c' /\
    (forall j, 0 <= j < num_strings c ->
       cell (strings c') j = cell (strings c) j) /\
    snapshots c' = snapshots c /\ num_snapshots c' = num_snapshots c /\
    alloc_snapshots c' = alloc_snapshots c /\
    Forall2 (fun i sb => 0 <= i < num_strings c' /\
                         cell (strings c') i = Some (Some sb.1)) idxs l.
Proof.
  induction l as [|[s b] l IH]; intros c idxs c' Hok Hadd; simpl in Hadd.
  - injection Hadd as <- <-. split; [done|]. split; [lia|].
    do 4 (split; [done|]). constructor.
  - destruct (get_string_index c s b) as [[i c1]|] eqn:Eg; simpl in Hadd; [|done].
    destruct (add_strings c1 l) as [[idxs1 c2]|] eqn:Ea; simpl in Hadd; [|done].
    injection Hadd as <- <-.
    apply get_string_index_inv in Eg as (Hok1 & Hi & Hc & Hold & Hcase);
      [|done].
    destruct (IH _ _ _ Hok1 Ea) as (Hok2 & Hle & Hold2 & Hs1 & Hs2 & Hs3 & Hall).
    assert (Hnum : num_strings c <= num_strings c1 /\
              snapshots c1 = snapshots c /\ num_snapshots c1 = num_snapshots c /\
              alloc_snapshots c1 = alloc_snapshots c).
    { destruct Hcase as [[_ ->]|(_ & -> & _ & _ & ? & ? & ?)]; [done|].
      repeat split; (done || lia). }
    destruct Hnum as (Hle1 & Ht1 & Ht2 & Ht3).
    split; [done|]. split; [lia|]. split.
    { intros j Hj. rewrite Hold2 by lia. by apply Hold. }
    split; [congruence|]. split; [congruence|]. split; [congruence|].
    constructor; [|done]. simpl. split; [lia|]. by rewrite Hold2.
Qed.

Lemma add_strings_again (l : list (cstr * bool)) :
  forall c idxs,
    strings_ok c ->
    Forall2 (fun i sb => 0 <= i < num_strings c /\
                         cell (strings c) i = Some (Some sb.1)) idxs l ->
    add_strings c l = Some (idxs, c).
Proof.
  induction l as [|[s b] l IH]; intros c idxs Hok Hall.
  - by apply Forall2_nil_inv_r in Hall as ->.
  - apply Forall2_cons_inv_r in Hall as (i & idxs' & [Hi Hc] & Hall & ->).
    simpl in *. rewrite (get_string_index_present c s b i) by done. simpl.
    by rewrite (IH c idxs').
Qed.

(** ** Recording *)

(** X28.  [record_snapshot] on a zeroed snapshot.  It is defined exactly
    when the four descriptions of the roots can be looked up or added in
    the string heap, and the collection afterwards is the one with these
    strings.  The snapshot holds five collectables and four references:
    collectable 0 is the root with the references [0 .. 3], and the
    collectable [k + 1], for [k] from 0 to 3, has the [k]-th of the four
    root kinds and no references; the reference [k] points to the
    collectable [k + 1] and is described by the string index of the name
    of its kind, with the reference kind [MVM_SNAPSHOT_REF_KIND_STRING]. *)
Theorem record_snapshot_shape (c : MVMHeapSnapshotCollection) :
  abi_ok -> strings_ok c ->
  match add_strings c root_names with
  | None => record_snapshot c zero_snapshot = None
  | Some (idxs, c') =>
      exists h, record_snapshot c zero_snapshot = Some (c', h) /\
        num_collectables h = 5 /\ num_references h = 4 /\
        cell (collectables h) 0
        = Some (mkCollectable MVM_SNAPSHOT_COL_KIND_ROOT 0 0 0 0 4) /\
        forall (k : nat) name kd, root_kinds !! k = Some (name, kd) ->
          cell (collectables h) (Z.of_nat k + 1)
          = Some (mkCollectable kd 0 0 0 4 0) /\
          exists r i, cell (references h) (Z.of_nat k) = Some r /\
            idxs !! k = Some i /\
            cell (strings c') i = Some (Some name) /\
            collectable_index r = Z.of_nat k + 1 /\
            (i < 2 ^ (64 - MVM_SNAPSHOT_REF_KIND_BITS) ->
             reference_fields r
             = Some (MVM_SNAPSHOT_REF_KIND_STRING, i, Z.of_nat k + 1))
  end.
Proof.
  intros Habi Hok. rewrite (record_snapshot_run c Habi).
  destruct (add_strings c root_names) as [[idxs c']|] eqn:Ea; simpl; [|done].
  eexists. split; [done|]. simpl. split; [done|]. split; [done|]. split; [done|].
  destruct (add_strings_spec _ _ _ _ Hok Ea) as (_ & _ & _ & _ & _ & _ & Hall).
  destruct Habi as (_ & _ & _ & Hbits & Hstr & Hstr16 & _).
  unfold root_names, root_kinds in Hall.
  repeat (apply Forall2_cons_inv_r in Hall as (? & ? & [? ?] & Hall & ->)).
  apply Forall2_nil_inv_r in Hall as ->.
  intros k name kd Hk.
  assert (Hdec : forall i n, 0 <= i ->
            i < 2 ^ (64 - MVM_SNAPSHOT_REF_KIND_BITS) ->
            reference_fields
              (mkReference
                 (Z.lor (to_uint64 (Z.shiftl i MVM_SNAPSHOT_REF_KIND_BITS))
                    MVM_SNAPSHOT_REF_KIND_STRING) n)
            = Some (MVM_SNAPSHOT_REF_KIND_STRING, i, n)).
  { intros i n Hi0 Hi. unfold reference_fields. rewrite decide_True by done.
    simpl.
    destruct (description_decode i MVM_SNAPSHOT_REF_KIND_STRING
                MVM_SNAPSHOT_REF_KIND_BITS) as [Hd1 Hd2]; [done..|lia|].
    assert (Hus : Spesh.to_uint16 MVM_SNAPSHOT_REF_KIND_STRING
                  = MVM_SNAPSHOT_REF_KIND_STRING).
    { unfold Spesh.to_uint16. apply Z.mod_small. lia. }
    rewrite Hus in Hd1, Hd2. simpl in Hd1, Hd2. by rewrite Hd1, Hd2. }
  destruct k as [|[|[|[|k]]]]; simpl in Hk; simplify_eq; simpl;
    (split; [done|]); eexists _, _;
    (split; [reflexivity|]); (split; [reflexivity|]);
    (split; [done|]); (split; [done|]);
    intros Hi; apply Hdec; (lia || done).
Qed.

Lemma get_string_index_snapshots (c : MVMHeapSnapshotCollection) (s : cstr)
    (b : bool) (snaps : list MVMHeapSnapshot) (n a : Z) :
  get_string_index (set_snapshots c snaps n a) s b
  = r ← get_string_index c s b; Some (r.1, set_snapshots r.2 snaps n a).
Proof.
  unfold get_string_index. simpl.
  destruct (find_string _ _ _ _) as [[i|]|]; simpl; [done| |done].
  destruct (grow_storage None _ _ _ _) as [[strs alloc_s]|]; simpl; [|done].
  destruct (grow_storage 0 _ _ _ _) as [[sfree alloc_f]|]; simpl; [|done].
  destruct (set_cell strs _ _); simpl; [|done].
  by destruct (set_cell sfree _ _).
Qed.

Lemma add_strings_snapshots (l : list (cstr * bool))
    (snaps : list MVMHeapSnapshot) (n a : Z) :
  forall c,
    add_strings (set_snapshots c snaps n a) l
    = r ← add_strings c l; Some (r.1, set_snapshots r.2 snaps n a).
Proof.
  induction l as [|[s b] l IH]; intros c; simpl; [done|].
  rewrite get_string_index_snapshots.
  destruct (get_string_index c s b) as [[i c1]|]; simpl; [|done].
  rewrite IH. by destruct (add_strings c1 l) as [[idxs c2]|].
Qed.

Local Arguments add_strings : simpl never.

(** X29.  [MVM_profile_heap_take_snapshot] while profiling, on a
    collection whose unused snapshot cells are zeroed and whose snapshot
    array can be doubled.  It is defined exactly when the four root
    descriptions can be looked up or added in the string heap.  Then
    [num_snapshots] goes up by one, the new cell holds what
    [record_snapshot] records on a zeroed snapshot, the earlier snapshots
    are unchanged, and the conditions hold again of the collection
    afterwards, where the four descriptions are in the string heap: a
    further snapshot adds no string. *)
Theorem take_snapshot_spec (c : MVMHeapSnapshotCollection) :
  abi_ok -> strings_ok c -> snapshots_ok c ->
  2 * alloc_snapshots c * sizeof_snapshot < 2 ^ 64 ->
  match add_strings c root_names with
  | None => MVM_profile_heap_take_snapshot (Some c) = None
  | Some (idxs, c1) =>
      exists c' h,
        MVM_profile_heap_take_snapshot (Some c) = Some (Some c') /\
        record_snapshot c zero_snapshot = Some (c1, h) /\
        num_snapshots c' = num_snapshots c + 1 /\
        cell (snapshots c') (num_snapshots c) = Some h /\
        (forall j, 0 <= j < num_snapshots c ->
           cell (snapshots c') j = cell (snapshots c) j) /\
        strings c' = strings c1 /\ num_strings c' = num_strings c1 /\
        strings_ok c' /\ snapshots_ok c' /\
        add_strings c' root_names = Some (idxs, c')
  end.
Proof.
  intros Habi Hok [Hst Hzero] Hbytes.
  pose proof (record_snapshot_run c Habi) as Hrun.
  destruct (grow_storage_Some zero_snapshot (snapshots c) (num_snapshots c)
              (alloc_snapshots c) sizeof_snapshot) as (snaps & Hg); [done | |  |].
  { destruct Habi as (Hsz & _). by apply Forall_cons in Hsz as [[? _] _]. }
  { destruct Habi as (Hsz & _). apply Forall_cons in Hsz as [[? ?] _]. lia. }
  destruct (grow_storage_ok _ _ _ _ _ _ _ Hst Hg) as (Hst' & Hlt & Hold & Hnew).
  remember (if num_snapshots c =? alloc_snapshots c
            then if alloc_snapshots c =? 0 then 32 else 2 * alloc_snapshots c
            else alloc_snapshots c) as alloc eqn:Halloc.
  assert (Hcell : cell snaps (num_snapshots c) = Some zero_snapshot).
  { rewrite Hnew by (destruct Hst; lia).
    destruct (Z.eqb_spec (num_snapshots c) (alloc_snapshots c)); [done|].
    apply Hzero. destruct Hst. lia. }
  assert (Htake : MVM_profile_heap_take_snapshot (Some c)
            = r ← record_snapshot (set_snapshots c snaps (num_snapshots c) alloc)
                    zero_snapshot;
              snaps' ← set_cell (snapshots r.1) (num_snapshots r.1) r.2;
              Some (Some (set_snapshots r.1 snaps'
                            (to_uint64 (num_snapshots r.1 + 1))
                            (alloc_snapshots r.1)))).
  { unfold MVM_profile_heap_take_snapshot. rewrite Hg. simpl. rewrite Hcell. simpl.
    fold (set_snapshots c snaps (num_snapshots c) alloc).
    destruct (record_snapshot (set_snapshots c snaps (num_snapshots c) alloc)
                zero_snapshot) as [[c2 h2]|]; simpl; [|done].
    by destruct (set_cell _ _ _). }
  rewrite Htake, (record_snapshot_run _ Habi), add_strings_snapshots.
  destruct (add_strings c root_names) as [[idxs c1]|] eqn:Ea; [|done].
  simpl in Hrun. simpl.
  destruct (add_strings_spec _ _ _ _ Hok Ea)
    as (Hok1 & Hle & Hcells & Hs1 & Hs2 & Hs3 & Hall).
  destruct Hst' as (Hn & Hmax & Hlen).
  rewrite set_cell_Some by lia. simpl.
  rewrite to_uint64_small by lia.
  eexists _, _. split; [done|]. split; [exact Hrun|]. simpl.
  split; [done|].
  assert (Hset : forall j, j <> num_snapshots c -> 0 <= j ->
            cell (<[Z.to_nat (num_snapshots c) := 
                     {| collectables :=
                          mkCollectable MVM_SNAPSHOT_COL_KIND_ROOT 0 0 0 0 4
                          :: map (fun k => mkCollectable k 0 0 0 4 0) root_kinds.*2
                          ++ replicate 27 zero_collectable;
                        num_collectables := 5; alloc_collectables := 32;
                        references :=
                          imap (fun n i =>
                             mkReference
                               (Z.lor (to_uint64 (Z.shiftl i MVM_SNAPSHOT_REF_KIND_BITS))
                                  MVM_SNAPSHOT_REF_KIND_STRING)
                               (Z.of_nat n + 1)) idxs
                          ++ replicate 28 zero_reference;
                        num_references := 4; alloc_references := 32 |}]> snaps) j
            = cell snaps j).
  { intros j Hj Hj0. unfold cell. destruct (Z.ltb_spec j 0); [done|].
    apply list_lookup_insert_ne. lia. }
  split.
  { unfold cell. destruct (Z.ltb_spec (num_snapshots c) 0); [lia|].
    apply list_lookup_insert_eq. lia. }
  split. { intros j Hj. rewrite Hset by lia. apply Hold. lia. }
  split; [done|]. split; [done|].
  split. { exact Hok1. }
  split.
  { split.
    - split; [simpl; lia|]. split; [done|]. simpl. rewrite length_insert. done.
    - simpl. intros j Hj. rewrite Hset by lia. rewrite Hnew by lia.
      destruct (Z.eqb_spec (num_snapshots c) (alloc_snapshots c)); [done|].
      apply Hzero. lia. }
  rewrite !add_strings_snapshots.
  by rewrite (add_strings_again _ _ _ Hok1 Hall).
Qed.

End SnapshotFacts.
(* ===================================================================== *)
(** * More theorems at example inputs                                     *)
(* ===================================================================== *)

Section MoreInstances.

Import Spesh Examples.

(** ** Callsites *)

(** Three calls from the empty store. *)
Lemma interns_only_grow_witness :
  exists st',
    Callsite.try_intern_all Z.eqb 8 (Callsite.initial callsite_heap) [1; 2; 3]
    = Some st' /\
    Callsite.bucket st' 3 = [1; 3] /\
    (forall n, Callsite.bucket (Callsite.initial callsite_heap) n
               `prefix_of` Callsite.bucket st' n) /\
    (forall x, x ∉ [1; 2; 3] ->
               Callsite.heap st' !! x = callsite_heap !! x).
Proof.
  eexists. split; [vm_compute; reflexivity|]. split; [reflexivity|].
  apply (interns_only_grow Z.eqb 8 (Callsite.initial callsite_heap) [1; 2; 3]).
  vm_compute. reflexivity.
Defined.

(** The callsite 3 after the three calls. *)
Lemma interned_entries_ok_witness :
  Callsite.is_interned (Callsite.mkCallsite [1; 2; 1] 3 3 false true None) = true /\
  Callsite.has_flattening (Callsite.mkCallsite [1; 2; 1] 3 3 false true None) = false /\
  (0 < Callsite.cs_num_nameds (Callsite.mkCallsite [1; 2; 1] 3 3 false true None) ->
   is_Some (Callsite.arg_names (Callsite.mkCallsite [1; 2; 1] 3 3 false true None))) /\
  Callsite.cs_num_flags (Callsite.mkCallsite [1; 2; 1] 3 3 false true None) = 3 /\
  3 < 8.
Proof.
  eapply (interned_entries_ok Z.eqb 8 callsite_heap [1; 2; 3] _ 3 3).
  - vm_compute. reflexivity.
  - vm_compute. set_solver.
  - vm_compute. reflexivity.
Defined.

(** The first call on an empty store appends the callsite 1. *)
Lemma try_intern_returns_interned_witness :
  exists st',
    Callsite.MVM_callsite_try_intern Z.eqb 8 (Callsite.initial callsite_heap) 1
    = Some (st', 1) /\
    1 ∈ Callsite.bucket st' 3 /\
    Callsite.heap st' !! 1
    = Some (Callsite.mkCallsite [1; 1; 1] 3 3 false true None).
Proof.
  eexists. split; [vm_compute; reflexivity|].
  match goal with |- 1 ∈ Callsite.bucket ?st _ /\ _ =>
    destruct (try_intern_returns_interned Z.eqb 8
                (Callsite.initial callsite_heap) 1
                (Callsite.mkCallsite [1; 1; 1] 3 3 false false None) st 1)
      as [Hin Hcase]
  end.
  - vm_compute. reflexivity.
  - split; [reflexivity|]. split; [intros H; vm_compute in H; discriminate H | vm_compute; reflexivity].
  - vm_compute. reflexivity.
  - split; [exact Hin|]. vm_compute. reflexivity.
Defined.

(** The callsites 1 and 2 have the same contents: the second call returns
    the pointer 1 and frees the callsite 2. *)
Lemma equal_callsites_share_pointer_witness :
  exists st1 st2,
    Callsite.MVM_callsite_try_intern Z.eqb 8 (Callsite.initial callsite_heap) 1
    = Some (st1, 1) /\
    Callsite.MVM_callsite_try_intern Z.eqb 8 st1 2 = Some (st2, 1) /\
    Callsite.heap st2 !! 2 = None /\
    Callsite.interns st2 = Callsite.interns st1.
Proof.
  eexists.
  match goal with |- exists st2, ?run = Some (?st1, 1) /\ _ =>
    destruct (equal_callsites_share_pointer Z.eqb 8
                (Callsite.initial callsite_heap) 1
                (Callsite.mkCallsite [1; 1; 1] 3 3 false false None) st1 1 2
                (Callsite.mkCallsite [1; 1; 1] 3 3 false false None))
      as (st2 & Hrun & Hfree & Hsame)
  end.
  - vm_compute. reflexivity.
  - split; [reflexivity|]. split; [intros H; vm_compute in H; discriminate H | vm_compute; reflexivity].
  - split; vm_compute; lia.
  - vm_compute. apply not_elem_of_nil.
  - intros s Hs. vm_compute in Hs. by apply elem_of_nil in Hs.
  - vm_compute. reflexivity.
  - vm_compute. reflexivity.
  - reflexivity.
  - reflexivity.
  - reflexivity.
  - reflexivity.
  - reflexivity.
  - exists st2. split; [vm_compute; reflexivity|]. split; [exact Hrun|].
    split; [exact Hfree | exact Hsame].
Defined.

(** Interning the pointer 1 a second time. *)
Lemma reintern_frees_interned_witness :
  exists st1 st2 q,
    Callsite.MVM_callsite_try_intern Z.eqb 8 (Callsite.initial callsite_heap) 1
    = Some (st1, 1) /\
    Callsite.MVM_callsite_try_intern Z.eqb 8 st1 1 = Some (st2, q) /\
    Callsite.heap st2 !! 1 = None /\ 1 ∈ Callsite.bucket st2 3 /\
    Callsite.interns st2 = Callsite.interns st1.
Proof.
  eexists. eexists. eexists.
  split; [vm_compute; reflexivity|]. split; [vm_compute; reflexivity|].
  eapply (reintern_frees_interned Z.eqb 8 _ 1
            (Callsite.mkCallsite [1; 1; 1] 3 3 false true None)).
  - vm_compute. reflexivity.
  - split; [reflexivity|]. split; [intros H; vm_compute in H; discriminate H | vm_compute; reflexivity].
  - split; vm_compute; lia.
  - vm_compute. set_solver.
  - intros s Hs. vm_compute in Hs. by apply elem_of_nil in Hs.
  - vm_compute. reflexivity.
Defined.

(** The start of the VM with the static callsite at address 9 and
    [MVM_CALLSITE_ARG_OBJ] written 1. *)
Lemma common_callsite_interned_witness :
  exists s1,
    Callsite.MVM_callsite_initialize_common Z.eqb 8
      (Callsite.statics_at_start 1 9 callsite_heap) = Some s1 /\
    Callsite.MVM_callsite_get_common s1 Callsite.MVM_CALLSITE_ID_INV_ARG = Some 9 /\
    Callsite.bucket (Callsite.cs_state s1) 1 = [9].
Proof.
  destruct (common_callsite_interned Z.eqb 8 1 9 callsite_heap)
    as (s1 & Hrun & Hget & _ & _ & Hb & _); [lia|].
  exists s1. done.
Defined.

(** ** The rewrites *)

(** [islist] on a register whose type is known to be a [P6int] type. *)
Lemma is_reprid_rewrite_witness :
  exists g',
    optimize_is_reprid (vm := sample_vm) g_islist 10 = Some g' /\
    ins_mem g' !! 10
    = Some (mkIns (sample_op_info MVM_OP_const_i64_16) [reg 1 0; lit_i16 0]) /\
    flags (facts_at g' (1, 0)) = 2 /\
    value (facts_at g' (1, 0)) = value_i64 0 /\
    (forall p, usages (facts_at g' p) = usages (facts_at g_islist p)) /\
    (forall p, p <> (1, 0) -> facts_at g' p = facts_at g_islist p).
Proof.
  apply (is_reprid_rewrite (vm := sample_vm) g_islist 10
           (mkIns (sample_op_info MVM_OP_islist) [reg 1 0; reg 2 0])
           (1, 0) (2, 0) 1).
  - vm_compute. reflexivity.
  - reflexivity.
  - reflexivity.
  - apply sample_log_guard_ok. vm_compute. reflexivity.
  - apply sample_log_guard_ok. vm_compute. reflexivity.
  - intros _. vm_compute. eauto.
Defined.

(** [isconcrete] on a register known to be concrete. *)
Lemma isconcrete_rewrite_witness :
  exists g',
    optimize_isconcrete (vm := sample_vm)
      (g_unary MVM_OP_isconcrete (mkFacts 8 None None value_unset 0 1)) 10
    = Some g' /\
    ins_mem g' !! 10
    = Some (mkIns (sample_op_info MVM_OP_const_i64_16) [reg 1 0; lit_i16 1]) /\
    facts_at g' (1, 0) = mkFacts 2 None None (value_i16 1) 0 1 /\
    facts_at g' (2, 0) = mkFacts 8 None None value_unset 0 0 /\
    (forall p, p <> (1, 0) -> p <> (2, 0) ->
       facts_at g' p
       = facts_at (g_unary MVM_OP_isconcrete
                     (mkFacts 8 None None value_unset 0 1)) p).
Proof.
  apply (isconcrete_rewrite (vm := sample_vm)
           (g_unary MVM_OP_isconcrete (mkFacts 8 None None value_unset 0 1)) 10
           (mkIns (sample_op_info MVM_OP_isconcrete) [reg 1 0; reg 2 0])
           (1, 0) (2, 0)).
  - vm_compute. reflexivity.
  - reflexivity.
  - discriminate.
  - apply sample_log_guard_ok. vm_compute. reflexivity.
  - apply sample_log_guard_ok. vm_compute. reflexivity.
Defined.


(** [coerce_in] on a register known to hold the integer 3, and on a
    register holding the 1 that [optimize_isconcrete] stored through
    [value.i16]. *)
Lemma coerce_rewrite_witness :
  (exists g',
    optimize_coerce (vm := sample_vm)
      (g_unary MVM_OP_coerce_in (mkFacts 2 None None (value_i64 3) 0 1)) 1 10
    = Some g' /\
    ins_mem g' !! 10
    = Some (mkIns (sample_op_info MVM_OP_const_n64)
              [reg 1 0; lit_n64 (num64_of_int64 3)]) /\
    facts_at g' (1, 0)
    = mkFacts 2 None None (value_n64 (num64_of_int64 3)) 0 1 /\
    facts_at g' (2, 0) = mkFacts 2 None None (value_i64 3) 0 0 /\
    (forall p, p <> (1, 0) -> p <> (2, 0) ->
       facts_at g' p
       = facts_at (g_unary MVM_OP_coerce_in
                     (mkFacts 2 None None (value_i64 3) 0 1)) p)) /\
  (exists g',
    optimize_coerce (vm := sample_vm)
      (g_unary MVM_OP_coerce_in (mkFacts 2 None None (value_i16 1) 0 1)) 1 10
    = Some g' /\
    ins_mem g' !! 10
    = Some (mkIns (sample_op_info MVM_OP_const_n64)
              [reg 1 0; lit_n64 (num64_of_int64 1)]) /\
    facts_at g' (1, 0)
    = mkFacts 2 None None (value_n64 (num64_of_int64 1)) 0 1 /\
    facts_at g' (2, 0) = mkFacts 2 None None (value_i16 1) 0 0 /\
    (forall p, p <> (1, 0) -> p <> (2, 0) ->
       facts_at g' p
       = facts_at (g_unary MVM_OP_coerce_in
                     (mkFacts 2 None None (value_i16 1) 0 1)) p)).
Proof.
  split.
  - apply (coerce_rewrite (vm := sample_vm)
             (g_unary MVM_OP_coerce_in (mkFacts 2 None None (value_i64 3) 0 1))
             1 10 (mkIns (sample_op_info MVM_OP_coerce_in) [reg 1 0; reg 2 0])
             (1, 0) (2, 0)).
    + vm_compute. reflexivity.
    + reflexivity.
    + discriminate.
    + apply sample_log_guard_ok. vm_compute. reflexivity.
    + apply sample_log_guard_ok. vm_compute. reflexivity.
  - apply (coerce_rewrite (vm := sample_vm)
             (g_unary MVM_OP_coerce_in (mkFacts 2 None None (value_i16 1) 0 1))
             1 10 (mkIns (sample_op_info MVM_OP_coerce_in) [reg 1 0; reg 2 0])
             (1, 0) (2, 0)).
    + vm_compute. reflexivity.
    + reflexivity.
    + discriminate.
    + apply sample_log_guard_ok. vm_compute. reflexivity.
    + apply sample_log_guard_ok. vm_compute. reflexivity.
Defined.

(** [hllize] on a register whose type belongs to the HLL of the
    compilation unit. *)
Lemma hllize_to_set_witness :
  exists g',
    optimize_hllize (vm := sample_vm)
      (g_unary MVM_OP_hllize (mkFacts 1 (Some 100) None value_unset 0 1)) 10
    = Some g' /\
    ins_mem g' !! 10
    = Some (mkIns (sample_op_info MVM_OP_set) [reg 1 0; reg 2 0]) /\
    facts_at g' (1, 0) = mkFacts 1 (Some 100) None value_unset 0 1 /\
    (forall p, p <> (1, 0) ->
       facts_at g' p
       = facts_at (g_unary MVM_OP_hllize
                     (mkFacts 1 (Some 100) None value_unset 0 1)) p).
Proof.
  apply (hllize_to_set (vm := sample_vm)
           (g_unary MVM_OP_hllize (mkFacts 1 (Some 100) None value_unset 0 1))
           10 (mkIns (sample_op_info MVM_OP_hllize) [reg 1 0; reg 2 0])
           (1, 0) (2, 0)).
  - vm_compute. reflexivity.
  - reflexivity.
  - apply sample_log_guard_ok. vm_compute. reflexivity.
Defined.

(** [decont] on a register known to be decontainerized. *)
Lemma decont_rewrite_witness :
  exists g',
    optimize_decont (vm := sample_vm)
      (g_unary MVM_OP_decont (mkFacts 4 None None value_unset 0 1)) 1 10
    = Some g' /\
    ins_mem g' !! 10
    = Some (mkIns (sample_op_info MVM_OP_set) [reg 1 0; reg 2 0]) /\
    facts_at g' (1, 0) = mkFacts 4 None None value_unset 0 1 /\
    (forall p, p <> (1, 0) ->
       facts_at g' p
       = facts_at (g_unary MVM_OP_decont
                     (mkFacts 4 None None value_unset 0 1)) p).
Proof.
  apply (decont_rewrite (vm := sample_vm)
           (g_unary MVM_OP_decont (mkFacts 4 None None value_unset 0 1))
           1 10 (mkIns (sample_op_info MVM_OP_decont) [reg 1 0; reg 2 0])
           (1, 0) (2, 0)).
  - vm_compute. reflexivity.
  - reflexivity.
  - discriminate.
  - apply sample_log_guard_ok. vm_compute. reflexivity.
  - apply sample_log_guard_ok. vm_compute. reflexivity.
  - intros t cs _ Hcs. discriminate Hcs.
Defined.

(** [unless_i] on a register known to be 2 becomes a [goto]; [if_i] on a
    register known to be 256 is dropped; [if_i] on the 1 that
    [optimize_isconcrete] stores through [value.i16] becomes a [goto]. *)
Lemma iffy_on_known_int_witness :
  (exists g',
     optimize_iffy (vm := sample_vm) (g_branch_int MVM_OP_unless_i 2) 10 1
     = Some g' /\
     ins_mem g' !! 10
     = Some (mkIns (sample_op_info MVM_OP_goto) [ins_bb 3; ins_bb 3]) /\
     bbs g' !! 1 = Some (mkBB 0 [10] [3] [2; 3] false) /\
     usages (facts_at g' (1, 0)) = 0) /\
  (exists g',
     optimize_iffy (vm := sample_vm) (g_branch_int MVM_OP_if_i 256) 10 1
     = Some g' /\
     bbs g' !! 1 = Some (mkBB 0 [] [2] [2; 3] false) /\
     ins_mem g' !! 10
     = Some (mkIns (sample_op_info MVM_OP_if_i) [reg 1 0; ins_bb 3]) /\
     usages (facts_at g' (1, 0)) = 0) /\
  (exists g',
     optimize_iffy (vm := sample_vm)
       (g_branch_stored MVM_OP_if_i (value_i16 1)) 10 1
     = Some g' /\
     ins_mem g' !! 10
     = Some (mkIns (sample_op_info MVM_OP_goto) [ins_bb 3; ins_bb 3]) /\
     bbs g' !! 1 = Some (mkBB 0 [10] [3] [2; 3] false) /\
     usages (facts_at g' (1, 0)) = 0).
Proof.
  split; [|split].
  - refine (proj1 (iffy_on_known_int (vm := sample_vm)
                     (g_branch_int MVM_OP_unless_i 2) 10 1
                     (mkIns (sample_op_info MVM_OP_unless_i) [reg 1 0; ins_bb 3])
                     (1, 0) 3 (mkBB 0 [10] [2; 3] [2; 3] false) 2 1
                     _ _ _ _ _ _ _)
                  _ 2 _ _ _).
    + vm_compute. reflexivity.
    + reflexivity.
    + reflexivity.
    + vm_compute. reflexivity.
    + reflexivity.
    + apply sample_log_guard_ok. vm_compute. reflexivity.
    + vm_compute. reflexivity.
    + vm_compute. discriminate.
    + vm_compute. reflexivity.
    + vm_compute. eauto.
    + reflexivity.
  - refine (proj2 (iffy_on_known_int (vm := sample_vm)
                     (g_branch_int MVM_OP_if_i 256) 10 1
                     (mkIns (sample_op_info MVM_OP_if_i) [reg 1 0; ins_bb 3])
                     (1, 0) 3 (mkBB 0 [10] [2; 3] [2; 3] false) 256 0
                     _ _ _ _ _ _ _)
                  _ _).
    + vm_compute. reflexivity.
    + reflexivity.
    + reflexivity.
    + vm_compute. reflexivity.
    + reflexivity.
    + apply sample_log_guard_ok. vm_compute. reflexivity.
    + vm_compute. reflexivity.
    + vm_compute. reflexivity.
    + vm_compute. eauto.
  - refine (proj1 (iffy_on_known_int (vm := sample_vm)
                     (g_branch_stored MVM_OP_if_i (value_i16 1)) 10 1
                     (mkIns (sample_op_info MVM_OP_if_i) [reg 1 0; ins_bb 3])
                     (1, 0) 3 (mkBB 0 [10] [2; 3] [2; 3] false) 1 0
                     _ _ _ _ _ _ _)
                  _ 2 _ _ _).
    + vm_compute. reflexivity.
    + reflexivity.
    + reflexivity.
    + vm_compute. reflexivity.
    + reflexivity.
    + apply sample_log_guard_ok. vm_compute. reflexivity.
    + vm_compute. reflexivity.
    + vm_compute. discriminate.
    + vm_compute. reflexivity.
    + vm_compute. eauto.
    + reflexivity.
Defined.

(** [optimize_isconcrete] and then [optimize_iffy] on
    [r1 := isconcrete r2; if_i r1, block 3].  The result of [isconcrete] is
    stored through [value.i16] and read back through [value.i64]: for a type
    object [r2] the branch is deleted, for a concrete [r2] it becomes a
    [goto]. *)
Lemma isconcrete_result_folds_branch :
  (exists g',
     (g1 ← optimize_isconcrete (vm := sample_vm)
             (g_isconcrete_branch (mkFacts 16 None None value_unset 0 1)) 10;
      optimize_iffy (vm := sample_vm) g1 11 1) = Some g' /\
     facts_at g' (1, 0) = mkFacts 2 None None (value_i16 0) 0 0 /\
     bbs g' !! 1 = Some (mkBB 0 [10] [2] [2; 3] false)) /\
  (exists g',
     (g1 ← optimize_isconcrete (vm := sample_vm)
             (g_isconcrete_branch (mkFacts 8 None None value_unset 0 1)) 10;
      optimize_iffy (vm := sample_vm) g1 11 1) = Some g' /\
     facts_at g' (1, 0) = mkFacts 2 None None (value_i16 1) 0 0 /\
     ins_mem g' !! 11
     = Some (mkIns (sample_op_info MVM_OP_goto) [ins_bb 3; ins_bb 3]) /\
     bbs g' !! 1 = Some (mkBB 0 [10; 11] [3] [2; 3] false)).
Proof.
  split; eexists; (split; [vm_compute; reflexivity|]); vm_compute; done.
Qed.

(** ** Calls *)

(** A call with another callsite: the specialization of the code object
    [202] is passed over. *)
Lemma try_find_spesh_candidate_first_witness :
  try_find_spesh_candidate (vm := sample_vm) g_arg 202 other_call_info
  = Some (-1) /\
  forall j cand,
    index (code_spesh_candidates (VM := sample_vm) 202) j = Some cand ->
    candidate_rejected (vm := sample_vm) g_arg other_call_info cand.
Proof.
  split; [vm_compute; reflexivity|].
  intros j cand Hc.
  apply (proj2 (try_find_spesh_candidate_first (vm := sample_vm) g_arg 202
                  other_call_info (-1) ltac:(vm_compute; reflexivity))
           j cand Hc).
  left. reflexivity.
Defined.

(** The invoke of [g_fastinvoke] is pointed at the specialization 0. *)
Lemma call_points_at_candidate_witness :
  exists g',
    optimize_call (vm := sample_vm) g_fastinvoke 1 12 1 call_info = Some g' /\
    facts g' = facts g_fastinvoke /\ bbs g' = bbs g_fastinvoke /\
    spesh_slots g' = spesh_slots g_fastinvoke /\
    ins_mem g' !! 12
    = Some (mkIns (sample_op_info MVM_OP_sp_fastinvoke_o)
              [reg 1 0; reg 2 0; lit_i16 0]) /\
    exists cand,
      index (code_spesh_candidates (VM := sample_vm) 202) 0 = Some cand /\
      ci_cs call_info = Some (cand_cs cand) /\
      forall gd, gd ∈ guards cand ->
        guard_holds (vm := sample_vm) g_fastinvoke call_info gd.
Proof.
  apply (call_points_at_candidate (vm := sample_vm) g_fastinvoke 1 12
           (mkIns (sample_op_info MVM_OP_invoke_o) [reg 1 0; reg 2 0])
           (1, 0) (2, 0) 202 call_info 0).
  - vm_compute. reflexivity.
  - reflexivity.
  - reflexivity.
  - apply sample_log_guard_ok. vm_compute. reflexivity.
  - vm_compute. reflexivity.
  - reflexivity.
  - reflexivity.
  - vm_compute. reflexivity.
  - intros g0 cand. reflexivity.
Defined.

(** ** The cleanup passes *)

(** The three instructions of [g_chain] are unlinked and stay in memory. *)
Lemma dead_ins_keeps_other_instructions_witness :
  exists g',
    eliminate_dead_ins (vm := sample_vm) g_chain = Some g' /\
    blk_instrs g' 1 = [] /\
    ins_mem g' = ins_mem g_chain /\
    forall bb,
      blk_instrs g' bb `sublist_of` blk_instrs g_chain bb /\
      forall x c, x ∈ blk_instrs g_chain bb -> ins_mem g_chain !! x = Some c ->
                  dead_candidate (vm := sample_vm) c = false ->
                  x ∈ blk_instrs g' bb.
Proof.
  eexists. split; [vm_compute; reflexivity|]. split; [reflexivity|].
  apply (dead_ins_keeps_other_instructions (vm := sample_vm) g_chain).
  vm_compute. reflexivity.
Defined.

Lemma NoDup_Z_list (l : list Z) : bool_decide (NoDup l) = true -> NoDup l.
Proof. apply bool_decide_eq_true_1. Defined.

(** Block 2 of [g_blocks] is dropped and the blocks left are renumbered. *)
Lemma dead_bbs_chain_witness :
  exists g',
    eliminate_dead_bbs g_blocks = Some g' /\
    linear g' = [1; 3; 4; 5] /\ num_bbs g' = 4 /\
    (forall (k : nat) bb, linear g' !! k = Some bb ->
       exists b, bbs g_blocks !! bb = Some b /\
                 bbs g' !! bb = Some (set_idx b (Z.of_nat k))) /\
    (forall bb, bb ∉ linear g' -> bbs g' !! bb = bbs g_blocks !! bb).
Proof.
  eexists. split; [vm_compute; reflexivity|].
  split; [reflexivity|]. split; [reflexivity|].
  match goal with |- (forall k bb, linear ?g' !! k = _ -> _) /\ _ =>
    destruct (dead_bbs_chain g_blocks g') as (_ & _ & _ & Hidx & Hoff & _)
  end.
  - vm_compute. reflexivity.
  - apply NoDup_Z_list. vm_compute. reflexivity.
  - split; [|exact Hoff]. apply Hidx. vm_compute. lia.
Defined.

(** The last block of [g_last] is not a successor of any block. *)
Lemma dead_bbs_last_unreachable_witness :
  eliminate_dead_bbs g_last = None.
Proof.
  apply (dead_bbs_last_unreachable g_last 2 (mkBB 1 [] [] [] false)).
  - apply NoDup_Z_list. vm_compute. reflexivity.
  - reflexivity.
  - discriminate.
  - vm_compute. reflexivity.
  - reflexivity.
  - simpl. lia.
  - intros bb b s t Hbb Hb Hs.
    assert (Hsucc : succ b = []).
    { simpl in Hbb.
      repeat (apply elem_of_cons in Hbb as [->|Hbb]);
        [vm_compute in Hb; by injection Hb as <-..|by apply elem_of_nil in Hbb]. }
    rewrite Hsucc in Hs. by apply elem_of_nil in Hs.
Defined.

(** ** The driver *)

(** [isconcrete] on a register nothing is known of. *)
Lemma no_facts_no_rewrite_witness :
  optimize_ins (vm := sample_vm)
    (g_unary MVM_OP_isconcrete (mkFacts 0 None None value_unset 0 1)) 1 10
    unassigned_call_info
  = Some (g_unary MVM_OP_isconcrete (mkFacts 0 None None value_unset 0 1),
          unassigned_call_info).
Proof.
  apply (no_facts_no_rewrite (vm := sample_vm)
           (g_unary MVM_OP_isconcrete (mkFacts 0 None None value_unset 0 1))
           1 10 unassigned_call_info
           (mkIns (sample_op_info MVM_OP_isconcrete) [reg 1 0; reg 2 0])
           [1%nat]).
  - vm_compute. reflexivity.
  - reflexivity.
  - intros k Hk. apply list_elem_of_singleton in Hk as ->.
    exists (2, 0). split; [reflexivity | vm_compute; reflexivity].
Defined.

End MoreInstances.

(* ===================================================================== *)
(** * The heap snapshot theorems at example inputs                        *)
(* ===================================================================== *)

Section SnapshotInstances.

Import HeapSnapshot SnapshotExamples.
Import String.StringSyntax.

Local Open Scope string_scope.

Lemma sample_abi_ok : abi_ok (abi := sample_abi).
Proof.
  unfold abi_ok. simpl.
  split; [repeat constructor; lia|].
  split; [repeat constructor; lia|].
  split; [rewrite !not_elem_of_cons; repeat split; (lia || apply not_elem_of_nil)|].
  split; [lia|]. split; [lia|]. split; [lia|].
  intros n Hn. unfold to_uint64. rewrite !Z.mod_small by lia. done.
Defined.

Lemma zero_collection_ok :
  strings_ok zero_collection /\ snapshots_ok zero_collection.
Proof.
  split; [split; [|split]|split].
  - unfold storage_ok. simpl. lia.
  - simpl. intros j Hj. lia.
  - simpl. intros j k s Hj. lia.
  - unfold storage_ok. simpl. lia.
  - simpl. intros j Hj. lia.
Defined.

(** A full array of two cells is doubled. *)
Lemma grow_storage_spec_witness :
  exists store' alloc',
    grow_storage 0 [5; 6] 2 2 8 = Some (store', alloc') /\
    storage_ok store' 2 alloc' /\ 2 < alloc' /\ alloc' = 4 /\
    (forall j, j < 2 -> cell store' j = cell [5; 6] j) /\
    (forall j, 2 <= j < alloc' -> cell store' j = Some 0).
Proof.
  apply (grow_storage_spec 0 [5; 6] 2 2 8).
  - unfold storage_ok. simpl. lia.
  - lia.
  - simpl. lia.
Defined.

(** The first string of a collection gets the index 0. *)
Lemma get_string_index_spec_witness :
  exists c',
    get_string_index (abi := sample_abi) zero_collection "Thread Roots" true
    = Some (0, c') /\
    strings_ok c' /\ num_strings c' = 1 /\
    cell (strings c') 0 = Some (Some "Thread Roots") /\
    cell (strings_free c') 0 = Some 0 /\
    forall k, get_string_index (abi := sample_abi) c' "Thread Roots" k
              = Some (0, c').
Proof.
  eexists. split; [vm_compute; reflexivity|].
  match goal with |- strings_ok ?c' /\ _ =>
    destruct (get_string_index_spec (abi := sample_abi) zero_collection c'
                "Thread Roots" true 0)
      as (Hok & _ & Hcell & _ & _ & Hagain)
  end.
  - apply zero_collection_ok.
  - vm_compute. reflexivity.
  - split; [exact Hok|]. split; [reflexivity|]. split; [exact Hcell|].
    split; [reflexivity | exact Hagain].
Defined.

(** Two strings added to an empty collection. *)
Lemma string_heap_limit_witness :
  exists c,
    add_strings (abi := sample_abi) zero_collection
      [("C Stack Roots", true); ("Thread Roots", false)]
    = Some ([0; 1], c) /\
    num_strings c = 2 /\
    forall (k : nat) s,
      [("C Stack Roots", true); ("Thread Roots", false)].*1 !! k = Some s ->
      cell (strings c) (Z.of_nat k) = Some (Some s).
Proof.
  apply (string_heap_limit (abi := sample_abi)
           [("C Stack Roots", true); ("Thread Roots", false)]).
  - simpl. apply NoDup_cons. split; [|apply NoDup_singleton].
    rewrite list_elem_of_singleton. discriminate.
  - simpl. lia.
  - simpl. lia.
  - simpl. lia.
Defined.

(** A push on the state [record_snapshot] starts from, with a kind that
    does not fit 16 bits and a target. *)
Lemma pop_after_push_witness :
  exists ss1 ss2,
    push_workitem (abi := sample_abi) ss_start 65544 (Some 5) = Some (0, ss1) /\
    pop_workitem ss1 = Some (mkWorkItem 8 0 None, ss2) /\
    num_workitems ss2 = 0 /\ num_collectables (hs ss1) = 1 /\
    state_ok ss2.
Proof.
  eexists.
  match goal with |- exists ss2, ?run = Some (0, ?ss1) /\ _ =>
    destruct (pop_after_push (abi := sample_abi) ss_start ss1 65544 (Some 5) 0)
      as (_ & Hn & _ & _ & _ & ss2 & Hpop & Hw & _ & _ & _ & Hok & _)
  end.
  - unfold state_ok, storage_ok. simpl. lia.
  - vm_compute. reflexivity.
  - exists ss2. split; [vm_compute; reflexivity|].
    split; [exact Hpop|]. split; [exact Hw|]. split; [exact Hn | exact Hok].
Defined.

(** The work list of [ss_root] is empty. *)
Lemma pop_workitem_empty_witness : pop_workitem ss_root = None.
Proof.
  apply pop_workitem_empty.
  - unfold state_ok, storage_ok. simpl. lia.
  - reflexivity.
Defined.

(** A reference of the string kind with the string index 3, from the
    collectable 0 to the collectable 1. *)
Lemma add_reference_spec_witness :
  exists ss',
    add_reference (abi := sample_abi) ss_root 2 3 1 = Some ss' /\
    num_references (hs ss') = 1 /\
    (exists r, cell (references (hs ss')) 0 = Some r /\
       description r = 14 /\
       reference_fields (abi := sample_abi) r = Some (2, 3, 1)) /\
    cell (collectables (hs ss')) 0 = Some (mkCollectable 0 0 0 0 0 1).
Proof.
  eexists.
  match goal with |- ?run = Some ?ss' /\ _ =>
    destruct (add_reference_spec (abi := sample_abi) ss_root ss' 2 3 1)
      as (Hn & (r & Hr & _ & Hfields) & _ & (c & Hc & Hc') & _)
  end.
  - unfold state_ok, storage_ok. simpl. lia.
  - vm_compute. reflexivity.
  - split; [vm_compute; reflexivity|]. split; [exact Hn|]. split.
    + exists r. split; [exact Hr|]. split.
      * vm_compute in Hr. by injection Hr as <-.
      * apply Hfields; simpl; lia.
    + vm_compute in Hc. injection Hc as <-. exact Hc'.
Defined.

(** The first snapshot of a collection. *)
Lemma record_snapshot_shape_witness :
  exists c' h,
    record_snapshot (abi := sample_abi) zero_collection zero_snapshot
    = Some (c', h) /\
    num_strings c' = 4 /\ num_collectables h = 5 /\ num_references h = 4 /\
    cell (collectables h) 0 = Some (mkCollectable 8 0 0 0 0 4) /\
    cell (collectables h) 4 = Some (mkCollectable 7 0 0 0 4 0) /\
    exists r, cell (references h) 3 = Some r /\
      cell (strings c') 3 = Some (Some "Thread Roots") /\
      reference_fields (abi := sample_abi) r = Some (2, 3, 4).
Proof.
  pose proof (record_snapshot_shape (abi := sample_abi) zero_collection
                sample_abi_ok (proj1 zero_collection_ok)) as H.
  destruct (add_strings zero_collection root_names) as [[idxs c']|] eqn:Ea;
    [|vm_compute in Ea; discriminate Ea].
  destruct H as (h & Hrun & Hnc & Hnr & H0 & Hk).
  exists c', h. split; [exact Hrun|].
  vm_compute in Ea. injection Ea as <- <-.
  split; [reflexivity|]. split; [exact Hnc|]. split; [exact Hnr|].
  split; [exact H0|].
  destruct (Hk 3%nat "Thread Roots" 7 eq_refl)
    as (Hc & r & i & Hr & Hi & Hs & _ & Hf).
  split; [exact Hc|].
  injection Hi as <-.
  exists r. split; [exact Hr|]. split; [exact Hs|]. apply Hf. simpl. lia.
Defined.

(** The first snapshot after [MVM_profile_heap_start]. *)
Lemma take_snapshot_spec_witness :
  exists c' c1 h idxs,
    MVM_profile_heap_take_snapshot (abi := sample_abi)
      (MVM_profile_heap_start None)
    = Some (Some c') /\
    record_snapshot (abi := sample_abi) zero_collection zero_snapshot
    = Some (c1, h) /\
    num_snapshots c' = 1 /\ cell (snapshots c') 0 = Some h /\
    strings c' = strings c1 /\ num_strings c' = 4 /\
    strings_ok c' /\ snapshots_ok c' /\
    add_strings (abi := sample_abi) c' (root_names (abi := sample_abi))
    = Some (idxs, c').
Proof.
  pose proof (take_snapshot_spec (abi := sample_abi) zero_collection
                sample_abi_ok (proj1 zero_collection_ok)
                (proj2 zero_collection_ok) ltac:(simpl; lia)) as H.
  destruct (add_strings zero_collection root_names) as [[idxs c1]|] eqn:Ea;
    [|vm_compute in Ea; discriminate Ea].
  destruct H as (c' & h & Hrun & Hrec & Hn & Hcell & _ & Hs & Hns & Hok & Hsn & Hagain).
  exists c', c1, h, idxs.
  split; [exact Hrun|]. split; [exact Hrec|]. split; [exact Hn|].
  split; [exact Hcell|]. split; [exact Hs|]. split.
  { rewrite Hns. vm_compute in Ea. by injection Ea as <- <-. }
  split; [exact Hok|]. split; [exact Hsn | exact Hagain].
Defined.

End SnapshotInstances.
